(** * KaMinPar: distributed graph and cluster contraction

    A shallow embedding of

    - [kaminpar-dist/datastructures/distributed_compressed_graph.h]
      (the distributed graph with its ghost directory), and
    - [dkaminpar/coarsening/clustering_contraction.cc]
      (the contraction of a distributed graph by a global clustering),

    together with the properties of these two components that the
    specification of the repository states.

    Conventions.  Unsigned machine integers are values of [Z] with the
    wrap-around written out ([wrap32] for [NodeID] / [EdgeID] /
    [unsigned int], [wrap64] for [GlobalNodeID] / [std::size_t]).
    Arrays are lists, indexed through [Z.to_nat]; the concurrent hash
    maps of growt are [gmap Z Z].  Code whose behaviour the language
    leaves undefined (a read or write outside an array, dereferencing
    the end iterator of a map) yields [Undefined]; a failing [KASSERT]
    yields [Fail AssertionFailure] when assertions are compiled in. *)

From Stdlib Require Import ZArith Lia List Bool.
From stdpp Require Import gmap list sorting.

Local Open Scope Z_scope.

(** ** Machine integers *)

Definition wrap (bits x : Z) : Z := x mod 2 ^ bits.
Definition wrap32 (x : Z) : Z := wrap 32 x.
Definition wrap64 (x : Z) : Z := wrap 64 x.

(** Array read at a machine index. *)
Definition ix {A} (l : list A) (i : Z) : option A :=
  if i <? 0 then None else l !! Z.to_nat i.

Definition zlen {A} (l : list A) : Z := Z.of_nat (length l).

(** ** Outcomes *)

(** The error kinds listed by the specification.  The code under study
    signals [AssertionFailure] only (through [KASSERT]). *)
Inductive error : Type :=
| UnknownGlobal
| InconsistentDistribution
| AllocationExhausted
| CommunicationFailure
| AssertionFailure.

Inductive outcome (A : Type) : Type :=
| Ok (a : A)
| Fail (e : error)
| Undefined.
Arguments Ok {A} a.
Arguments Fail {A} e.
Arguments Undefined {A}.

Global Instance outcome_ret : MRet outcome := fun A a => Ok a.
Global Instance outcome_bind : MBind outcome := fun A B k m =>
  match m with
  | Ok a => k a
  | Fail e => Fail e
  | Undefined => Undefined
  end.

(** [KASSERT(cond)]: checked when the build enables assertions, elided
    otherwise. *)
Definition KASSERT (checked cond : bool) : outcome unit :=
  if checked && negb cond then Fail AssertionFailure else Ok tt.

(** ** The distributed graph *)

Module Graph.

(** The private members of [DistributedCompressedGraph].  [_edges] is
    the decoded adjacency array stored in [_compressed_edges]; [rank]
    is the rank of the process in [_communicator]. *)
Record t : Type := mk {
  _n : Z;
  _m : Z;
  _ghost_n : Z;
  _offset_n : Z;
  _offset_m : Z;
  _global_n : Z;
  _global_m : Z;
  _node_distribution : list Z;
  _edge_distribution : list Z;
  _nodes : list Z;
  _edges : list Z;
  _node_weights : list Z;
  _edge_weights : list Z;
  _ghost_owner : list Z;
  _ghost_to_global : list Z;
  _global_to_ghost : gmap Z Z;
  _sorted : bool;
  rank : Z
}.

(** The constructor: the sizes and offsets are derived from the arrays. *)
Definition make
    (node_distribution edge_distribution nodes edges node_weights
     edge_weights ghost_owner ghost_to_global : list Z)
    (global_to_ghost : gmap Z Z) (sorted : bool) (rk : Z) : t :=
  {| _n := wrap32 (wrap64 (zlen nodes - 1));
     _m := wrap32 (zlen edges);
     _ghost_n := wrap32 (zlen ghost_to_global);
     _offset_n := default 0 (ix node_distribution rk);
     _offset_m := default 0 (ix edge_distribution rk);
     _global_n := List.last node_distribution 0;
     _global_m := List.last edge_distribution 0;
     _node_distribution := node_distribution;
     _edge_distribution := edge_distribution;
     _nodes := nodes;
     _edges := edges;
     _node_weights := node_weights;
     _edge_weights := edge_weights;
     _ghost_owner := ghost_owner;
     _ghost_to_global := ghost_to_global;
     _global_to_ghost := global_to_ghost;
     _sorted := sorted;
     rank := rk |}.

Definition n (g : t) : Z := _n g.
Definition ghost_n (g : t) : Z := _ghost_n g.
Definition total_n (g : t) : Z := wrap32 (ghost_n g + n g).
Definition m (g : t) : Z := _m g.
Definition offset_n (g : t) : Z := _offset_n g.
Definition global_n (g : t) : Z := _global_n g.
Definition global_m (g : t) : Z := _global_m g.

Definition is_node_weighted (g : t) : bool :=
  negb (bool_decide (_node_weights g = [])).

(** [is_node_weighted() ? _node_weights[u] : 1] *)
Definition node_weight (g : t) (u : Z) : outcome Z :=
  if is_node_weighted g then
    match ix (_node_weights g) u with
    | Some w => Ok w
    | None => Undefined
    end
  else Ok 1.

Definition is_edge_weighted (g : t) : bool :=
  negb (bool_decide (_edge_weights g = [])).

Definition edge_weight (g : t) (e : Z) : outcome Z :=
  if is_edge_weighted g then
    match ix (_edge_weights g) e with
    | Some w => Ok w
    | None => Undefined
    end
  else Ok 1.

Definition is_owned_global_node (g : t) (global_u : Z) : bool :=
  (offset_n g <=? global_u) && (global_u <? wrap64 (offset_n g + n g)).

Definition contains_global_node (g : t) (global_u : Z) : bool :=
  is_owned_global_node g global_u
  || bool_decide (is_Some (_global_to_ghost g !! wrap64 (global_u + 1))).

Definition contains_local_node (g : t) (local_u : Z) : bool :=
  local_u <? total_n g.

Definition is_ghost_node (checked : bool) (g : t) (u : Z) : outcome bool :=
  KASSERT checked (u <? total_n g) ;;
  Ok (n g <=? u).

Definition is_owned_node (checked : bool) (g : t) (u : Z) : outcome bool :=
  KASSERT checked (u <? total_n g) ;;
  Ok (u <? n g).

Definition local_to_global_node (checked : bool) (g : t) (local_u : Z)
  : outcome Z :=
  KASSERT checked (contains_local_node g local_u) ;;
  owned ← is_owned_node checked g local_u;
  if owned : bool then Ok (wrap64 (_offset_n g + local_u))
  else match ix (_ghost_to_global g) (wrap32 (local_u - n g)) with
       | Some gl => Ok gl
       | None => Undefined
       end.

(** The ghost branch reads the [second] component of what
    [_global_to_ghost.find(global_u + 1)] points to: for an absent key
    that is the end iterator, which must not be dereferenced. *)
Definition global_to_local_node (checked : bool) (g : t) (global_u : Z)
  : outcome Z :=
  KASSERT checked (contains_global_node g global_u) ;;
  if (offset_n g <=? global_u) && (global_u <? wrap64 (offset_n g + n g))
  then Ok (wrap32 (wrap64 (global_u - offset_n g)))
  else
    KASSERT checked
      (bool_decide (is_Some (_global_to_ghost g !! wrap64 (global_u + 1)))) ;;
    match _global_to_ghost g !! wrap64 (global_u + 1) with
    | Some l => Ok l
    | None => Undefined
    end.

Definition with_node_weights (g : t) (w : list Z) : t :=
  {| _n := _n g; _m := _m g; _ghost_n := _ghost_n g;
     _offset_n := _offset_n g; _offset_m := _offset_m g;
     _global_n := _global_n g; _global_m := _global_m g;
     _node_distribution := _node_distribution g;
     _edge_distribution := _edge_distribution g;
     _nodes := _nodes g; _edges := _edges g;
     _node_weights := w;
     _edge_weights := _edge_weights g;
     _ghost_owner := _ghost_owner g;
     _ghost_to_global := _ghost_to_global g;
     _global_to_ghost := _global_to_ghost g;
     _sorted := _sorted g; rank := rank g |}.

(** [_node_weights[ghost_node] = weight], behind two assertions. *)
Definition set_ghost_node_weight (checked : bool) (g : t)
    (ghost_node weight : Z) : outcome t :=
  b ← is_ghost_node checked g ghost_node;
  KASSERT checked b ;;
  KASSERT checked (is_node_weighted g) ;;
  if (0 <=? ghost_node) && (ghost_node <? zlen (_node_weights g))
  then Ok (with_node_weights g
             (<[Z.to_nat ghost_node := weight]> (_node_weights g)))
  else Undefined.

(** [std::upper_bound(_node_distribution.begin() + 1, end, u)], as the
    number of leading entries of the (sorted) tail that are [<= u]. *)
Fixpoint upper_bound (l : list Z) (u : Z) : Z :=
  match l with
  | [] => 0
  | x :: l' => if u <? x then 0 else 1 + upper_bound l' u
  end.

Definition find_owner_of_global_node (g : t) (u : Z) : Z :=
  upper_bound (tail (_node_distribution g)) u.

(** Data-model invariants of a graph object (section 3 of the
    specification), as far as the operations below rely on them. *)
Record wf (g : t) : Prop := {
  wf_n : 0 <= n g;
  wf_ghost_n : 0 <= ghost_n g;
  wf_total : n g + ghost_n g < 2 ^ 32;
  wf_offset : 0 <= offset_n g;
  wf_range : offset_n g + n g < 2 ^ 64;
  wf_weights : _node_weights g = [] \/ zlen (_node_weights g) = total_n g;
  wf_directory : forall k l, _global_to_ghost g !! k = Some l ->
                             n g <= l < total_n g
}.

End Graph.

(** ** Arrays, loops and library routines *)

Definition load {A} (l : list A) (i : Z) : outcome A :=
  match ix l i with
  | Some x => Ok x
  | None => Undefined
  end.

Definition store {A} (l : list A) (i : Z) (x : A) : outcome (list A) :=
  if (0 <=? i) && (i <? zlen l) then Ok (<[Z.to_nat i := x]> l)
  else Undefined.

(** A loop whose body may fail, over the elements of [l] in order. *)
Fixpoint foldM {A B} (f : A -> B -> outcome A) (a : A) (l : list B)
  : outcome A :=
  match l with
  | [] => Ok a
  | x :: l' => a' ← f a x; foldM f a' l'
  end.

Fixpoint omapM {A B} (f : A -> outcome B) (l : list A) : outcome (list B) :=
  match l with
  | [] => Ok []
  | x :: l' => y ← f x; ys ← omapM f l'; Ok (y :: ys)
  end.

(** Signed 32-bit wrap-around: the node and edge weights
    ([NodeWeight], [EdgeWeight]) are 32-bit signed integers. *)
Definition swrap32 (x : Z) : Z := (x + 2 ^ 31) mod 2 ^ 32 - 2 ^ 31.
Definition wadd (a b : Z) : Z := swrap32 (a + b).

(** Modelled from the spec: [parallel::prefix_sum(first, last, result)]
    (common/parallel/algorithm.h), the inclusive prefix sums of a
    range, computed in the element type of [bits] bits. *)
Fixpoint prefix_sum_from (bits acc : Z) (l : list Z) : list Z :=
  match l with
  | [] => []
  | x :: l' =>
      let s := wrap bits (acc + x) in s :: prefix_sum_from bits s l'
  end.

Definition prefix_sum (bits : Z) (l : list Z) : list Z :=
  prefix_sum_from bits 0 l.

(** [std::exclusive_scan(first, last, result, init)]: the running sum
    is kept in the type of [init], here of [bits] bits. *)
Fixpoint exclusive_scan (bits acc : Z) (l : list Z) : list Z :=
  match l with
  | [] => []
  | x :: l' => acc :: exclusive_scan bits (wrap bits (acc + x)) l'
  end.

(** [tbb::parallel_sort(first, last, less)].  The order of equivalent
    elements is not specified by the library; the merge sort below
    yields one admissible result. *)
Definition not_after {A} (less : A -> A -> bool) : relation A :=
  fun a b => less b a = false.

Global Instance not_after_dec {A} (less : A -> A -> bool) (a b : A)
  : Decision (not_after less a b).
Proof. unfold not_after. apply _. Defined.

Definition parallel_sort {A} (less : A -> A -> bool) (l : list A) : list A :=
  merge_sort (not_after less) l.

Definition back {A} (l : list A) : option A := last l.

(** ** Records exchanged by the contraction *)

Module GlobalEdge.
Record t : Type := mk { u : Z; v : Z; weight : Z }.
End GlobalEdge.

Module GlobalNode.
Record t : Type := mk { u : Z; weight : Z }.
End GlobalNode.

(** ** Graph traversal *)

(** [degree(u)]: the difference of the two CSR offsets, as a [NodeID]. *)
Definition degree (g : Graph.t) (u : Z) : outcome Z :=
  first ← load (Graph._nodes g) u;
  last ← load (Graph._nodes g) (u + 1);
  Ok (wrap32 (last - first)).

(** [neighbors(u)]: the pairs [(e, v)] of an incident edge and its
    target, in the order of the adjacency array. *)
Definition neighbors (g : Graph.t) (u : Z) : outcome (list (Z * Z)) :=
  first ← load (Graph._nodes g) u;
  last ← load (Graph._nodes g) (u + 1);
  omapM (fun e => v ← load (Graph._edges g) e; Ok (e, v))
        (seqZ first (last - first)).

(** ** Phase A: nodes and edges that leave the process *)

(** The records of node [u]: none if its cluster is owned here, else
    one node record and one edge record per incident edge. *)
Definition nonlocal_records_of (g : Graph.t) (clustering : list Z) (u : Z)
  : outcome (list GlobalNode.t * list GlobalEdge.t) :=
  c_u ← load clustering u;
  if Graph.is_owned_global_node g c_u then Ok ([], [])
  else
    w ← Graph.node_weight g u;
    nb ← neighbors g u;
    es ← omapM (fun ev : Z * Z =>
                  c_v ← load clustering ev.2;
                  we ← Graph.edge_weight g ev.1;
                  Ok (GlobalEdge.mk c_u c_v we)) nb;
    Ok ([GlobalNode.mk c_u w], es).

(** The two position buffers of the source give node [u] the block of
    the output that follows the blocks of the nodes before it: the
    outputs are the concatenations of the per-node records. *)
Definition find_nonlocal_nodes_and_edges (g : Graph.t) (clustering : list Z)
  : outcome (list GlobalNode.t * list GlobalEdge.t) :=
  blocks ← omapM (nonlocal_records_of g clustering) (seqZ 0 (Graph.n g));
  Ok (concat (map fst blocks), concat (map snd blocks)).

(** ** Phase B: preprocessing of the records *)

Definition edge_less (lhs rhs : GlobalEdge.t) : bool :=
  (GlobalEdge.u lhs <? GlobalEdge.u rhs)
  || ((GlobalEdge.u lhs =? GlobalEdge.u rhs)
      && (GlobalEdge.v lhs <? GlobalEdge.v rhs)).

(** [edges[i].u != edges[i - 1].u || edges[i].v != edges[i - 1].v] *)
Definition starts_block (prev e : GlobalEdge.t) : bool :=
  negb (GlobalEdge.u e =? GlobalEdge.u prev)
  || negb (GlobalEdge.v e =? GlobalEdge.v prev).

Fixpoint mark_blocks_from (prev : GlobalEdge.t) (l : list GlobalEdge.t)
  : list Z :=
  match l with
  | [] => []
  | e :: l' =>
      (if starts_block prev e then 1 else 0) :: mark_blocks_from e l'
  end.

(** The position buffer before the prefix sum: 0 for the first edge, 1
    for every edge that differs from its predecessor. *)
Definition mark_blocks (l : list GlobalEdge.t) : list Z :=
  match l with
  | [] => []
  | e :: l' => 0 :: mark_blocks_from e l'
  end.

(** One iteration of the last loop: store source and target at the
    position of the block and add the weight atomically. *)
Definition accumulate_edge (tmp : list GlobalEdge.t)
    (ep : GlobalEdge.t * Z) : outcome (list GlobalEdge.t) :=
  old ← load tmp ep.2;
  store tmp ep.2
        (GlobalEdge.mk (GlobalEdge.u ep.1) (GlobalEdge.v ep.1)
                       (wadd (GlobalEdge.weight old) (GlobalEdge.weight ep.1))).

Definition deduplicate_edge_list (edges : list GlobalEdge.t)
  : outcome (list GlobalEdge.t) :=
  match edges with
  | [] => Ok []
  | _ =>
      let edges := parallel_sort edge_less edges in
      let edge_position_buffer := prefix_sum 32 (mark_blocks edges) in
      last_pos ← match back edge_position_buffer with
                 | Some p => Ok p
                 | None => Undefined
                 end;
      let tmp_nonlocal_edges :=
        replicate (Z.to_nat (wrap32 (last_pos + 1))) (GlobalEdge.mk 0 0 0) in
      foldM accumulate_edge tmp_nonlocal_edges
            (zip edges edge_position_buffer)
  end.

Definition node_less (lhs rhs : GlobalNode.t) : bool :=
  GlobalNode.u lhs <? GlobalNode.u rhs.

Definition sort_node_list (nodes : list GlobalNode.t) : list GlobalNode.t :=
  parallel_sort node_less nodes.

(** ** Phase D: local coarse numbering *)

Definition local_cluster (g : Graph.t) (c_u : Z) : Z :=
  wrap32 (wrap64 (c_u - Graph.offset_n g)).

Definition mark_own_cluster (g : Graph.t) (clustering : list Z)
    (cluster_mapping : list Z) (u : Z) : outcome (list Z) :=
  c_u ← load clustering u;
  if Graph.is_owned_global_node g c_u
  then store cluster_mapping (local_cluster g c_u) 1
  else Ok cluster_mapping.

Definition mark_received_cluster (checked : bool) (g : Graph.t)
    (cluster_mapping : list Z) (nd : GlobalNode.t) : outcome (list Z) :=
  let c_u := GlobalNode.u nd in
  KASSERT checked (Graph.is_owned_global_node g c_u) ;;
  store cluster_mapping (local_cluster g c_u) 1.

(** The two marking loops run concurrently in the source; all their
    stores write the value 1, so every interleaving yields the array
    computed here. *)
Definition build_lnode_to_lcnode_mapping (checked : bool) (g : Graph.t)
    (clustering : list Z) (local_nodes : list GlobalNode.t)
  : outcome (list Z) :=
  let cluster_mapping := replicate (Z.to_nat (Graph.n g)) 0 in
  cluster_mapping ←
    foldM (mark_own_cluster g clustering) cluster_mapping
          (seqZ 0 (Graph.n g));
  cluster_mapping ←
    foldM (mark_received_cluster checked g) cluster_mapping local_nodes;
  Ok (map (fun x => wrap32 (x - 1)) (prefix_sum 32 cluster_mapping)).

(** [lnode_to_lcnode.empty() ? 0 : lnode_to_lcnode.back() + 1] *)
Definition coarse_n (lnode_to_lcnode : list Z) : Z :=
  match back lnode_to_lcnode with
  | None => 0
  | Some b => wrap32 (b + 1)
  end.

(** [build_distribution]: the gathered counts, followed by one more
    entry, scanned with the initial value [0u] of type [unsigned int]. *)
Definition build_distribution (counts : list Z) : list Z :=
  exclusive_scan 32 0 (counts ++ [0]).

(** ** The processes *)

(** The state of one process when [contract_clustering] is called: its
    part of the graph and the clustering [lnode_to_gcluster], indexed
    by the local nodes (owned and ghost).  [past_local_edges] is the
    content of the memory that follows the receive buffer
    [local_edges]: the loop over a block of received edges has no
    bound and reads it (see [received_block]). *)
Record PE : Type := {
  graph : Graph.t;
  lnode_to_gcluster : list Z;
  past_local_edges : list GlobalEdge.t
}.

(** All processes of the communicator, by rank.  Every quantity of the
    source below is a function of the world and of the rank of the
    process holding it. *)
Definition World : Type := list PE.

Definition comm_size (w : World) : Z := zlen w.

Definition ranks (w : World) : list Z := seqZ 0 (comm_size w).

(** [find_owner_of_global_node]: the index of the first entry of the
    distribution after the leading 0 that is larger than [u]. *)
Definition find_owner_of_global_node (checked : bool) (g : Graph.t) (u : Z)
  : outcome Z :=
  KASSERT checked (u <? Graph.global_n g) ;;
  let it := 1 + Graph.upper_bound (tail (Graph._node_distribution g)) u in
  KASSERT checked (it <? zlen (Graph._node_distribution g)) ;;
  Ok (it - 1).

(** [node_distribution(pe)] *)
Definition node_distribution (checked : bool) (g : Graph.t) (pe : Z)
  : outcome Z :=
  KASSERT checked (pe <? zlen (Graph._node_distribution g)) ;;
  load (Graph._node_distribution g) pe.

(** A node record sent back in phase E.1. *)
Module NodeMapping.
Record t : Type := mk { u : Z; global_c_u : Z }.
End NodeMapping.

(** ** Phases A and B on one process *)

Section Contraction.

Variable checked : bool.

Definition nonlocal_elements (w : World) (r : Z)
  : outcome (list GlobalNode.t * list GlobalEdge.t) :=
  pe ← load w r;
  ne ← find_nonlocal_nodes_and_edges (graph pe) (lnode_to_gcluster pe);
  nonlocal_edges ← deduplicate_edge_list ne.2;
  Ok (sort_node_list ne.1, nonlocal_edges).

Definition nonlocal_nodes (w : World) (r : Z) : outcome (list GlobalNode.t) :=
  ne ← nonlocal_elements w r; Ok ne.1.

Definition nonlocal_edges (w : World) (r : Z) : outcome (list GlobalEdge.t) :=
  ne ← nonlocal_elements w r; Ok ne.2.

(** ** Phase C: migration *)

(** [++num_nodes_for_pe[pe]] *)
Definition increment (counts : list Z) (pe : Z) : outcome (list Z) :=
  c ← load counts pe;
  store counts pe (wrap32 (c + 1)).

Definition count_node (g : Graph.t) (counts : list Z) (nd : GlobalNode.t)
  : outcome (list Z) :=
  pe ← find_owner_of_global_node checked g (GlobalNode.u nd);
  increment counts pe.

(** [while (u >= graph.node_distribution(current_pe + 1)) ++current_pe;] *)
Fixpoint advance_pe (fuel : nat) (g : Graph.t) (u current_pe : Z)
  : outcome Z :=
  match fuel with
  | O => Undefined
  | S fuel' =>
      d ← node_distribution checked g (current_pe + 1);
      if d <=? u then advance_pe fuel' g u (current_pe + 1)
      else Ok current_pe
  end.

(** One iteration of the loop over the edges of a block: the owner is
    searched from the owner of the previous edge on. *)
Definition count_edge (g : Graph.t) (st : Z * list Z) (e : GlobalEdge.t)
  : outcome (Z * list Z) :=
  current_pe ←
    advance_pe (S (length (Graph._node_distribution g))) g
               (GlobalEdge.u e) st.1;
  counts ← increment st.2 current_pe;
  Ok (current_pe, counts).

Definition num_nodes_for_pe (w : World) (r : Z) : outcome (list Z) :=
  pe ← load w r;
  nodes ← nonlocal_nodes w r;
  foldM (count_node (graph pe)) (replicate (Z.to_nat (comm_size w)) 0) nodes.

(** The static partitioner cuts the edges into consecutive blocks, each
    walked from [current_pe = 0]; the sums of the per-block counts are
    the counts of one walk over all edges. *)
Definition num_edges_for_pe (w : World) (r : Z) : outcome (list Z) :=
  pe ← load w r;
  edges ← nonlocal_edges w r;
  st ← foldM (count_edge (graph pe))
             (0, replicate (Z.to_nat (comm_size w)) 0) edges;
  Ok st.2.

(** Displacements: [std::exclusive_scan] of the counts.  Counts and
    displacements are C [int]s that MPI requires to be non-negative;
    they are kept as exact integers here. *)
Fixpoint displacements (acc : Z) (counts : list Z) : list Z :=
  match counts with
  | [] => []
  | c :: counts' => acc :: displacements (acc + c) counts'
  end.

(** [MPI_Alltoallv]: the block that a process with send buffer [buf],
    counts [counts] and displacements [displs] sends to [p]. *)
Definition sent_block {X} (buf : list X) (counts displs : list Z) (p : Z)
  : outcome (list X) :=
  c ← load counts p;
  d ← load displs p;
  Ok (take (Z.to_nat c) (drop (Z.to_nat d) buf)).

(** [MPI_Alltoallv] as seen by the receiver [p]: the receive
    displacements are the exclusive scan of the receive counts, so the
    receive buffer is the concatenation, by rank of the sender, of the
    blocks sent to [p]. *)
Definition alltoallv {X} (w : World)
    (send : Z -> outcome (list X * list Z)) (p : Z) : outcome (list X) :=
  blocks ← omapM (fun r =>
                    s ← send r;
                    sent_block s.1 s.2 (displacements 0 s.2) p)
                 (ranks w);
  Ok (concat blocks).

(** [migration_result.local_nodes] *)
Definition local_nodes (w : World) (p : Z) : outcome (list GlobalNode.t) :=
  alltoallv w (fun r => nodes ← nonlocal_nodes w r;
                        counts ← num_nodes_for_pe w r;
                        Ok (nodes, counts)) p.

Definition received_edges (w : World) (p : Z) : outcome (list GlobalEdge.t) :=
  alltoallv w (fun r => edges ← nonlocal_edges w r;
                        counts ← num_edges_for_pe w r;
                        Ok (edges, counts)) p.

(** [MPI_Alltoall] of the node send counts: the number of node records
    that [p] receives from each process. *)
Definition node_recvcounts (w : World) (p : Z) : outcome (list Z) :=
  omapM (fun r => counts ← num_nodes_for_pe w r; load counts p) (ranks w).

Definition source_less (lhs rhs : GlobalEdge.t) : bool :=
  GlobalEdge.u lhs <? GlobalEdge.u rhs.

(** [local_edges] after "Sort received edges". *)
Definition local_edges (w : World) (p : Z) : outcome (list GlobalEdge.t) :=
  edges ← received_edges w p;
  Ok (parallel_sort source_less edges).

(** ** Phase D: coarse numbering and coarse node distribution *)

Definition lnode_to_lcnode (w : World) (r : Z) : outcome (list Z) :=
  pe ← load w r;
  nodes ← local_nodes w r;
  build_lnode_to_lcnode_mapping checked (graph pe) (lnode_to_gcluster pe)
                                nodes.

Definition c_n (w : World) (r : Z) : outcome Z :=
  m ← lnode_to_lcnode w r; Ok (coarse_n m).

(** [MPI_Allgather] of [c_n], then the scan. *)
Definition c_node_distribution (w : World) : outcome (list Z) :=
  counts ← omapM (c_n w) (ranks w);
  Ok (build_distribution counts).

(** ** Phase E.1: the coarse nodes of the migrated nodes *)

Definition local_nodes_mapping (w : World) (p : Z)
  : outcome (list NodeMapping.t) :=
  pe ← load w p;
  nodes ← local_nodes w p;
  m ← lnode_to_lcnode w p;
  dist ← c_node_distribution w;
  omapM (fun nd : GlobalNode.t =>
           lc ← load m (wrap64 (GlobalNode.u nd - Graph.offset_n (graph pe)));
           off ← load dist (Graph.rank (graph pe));
           Ok (NodeMapping.mk (GlobalNode.u nd) (wrap64 (lc + off))))
        nodes.

(** The second [MPI_Alltoallv] runs the first one backwards: [p] sends
    with its receive counts and displacements. *)
Definition local_nodes_mapping_rsps (w : World) (r : Z)
  : outcome (list NodeMapping.t) :=
  alltoallv w (fun p => m ← local_nodes_mapping w p;
                        counts ← node_recvcounts w p;
                        Ok (m, counts)) r.

End Contraction.
(** ** Phase E.2: the coarse nodes of clusters owned elsewhere *)

(** The growt map [nonlocal_gcluster_to_index] and the per-owner
    counters [next_index_for_pe]. *)
Record RequestState : Type := {
  nonlocal_gcluster_to_index : gmap Z Z;
  next_index_for_pe : list Z
}.

(** [handle.insert(key, value)] of growt: the value is stored only if
    the key is new. *)
Definition insert_new (key value : Z) (m : gmap Z Z) : gmap Z Z :=
  match m !! key with
  | Some _ => m
  | None => <[key := value]> m
  end.

(** The coarse ghost directory built in phase F. *)
Record CoarseGhosts : Type := {
  c_global_to_ghost : gmap Z Z;
  c_ghost_to_global : list Z;
  c_ghost_owner : list Z
}.

Section Requests.

Variable checked : bool.

(** The lambda [request_nonlocal_mapping]: the thread that inserts the
    key replaces the dummy value by the incremented counter of the
    owner. *)
Definition request_nonlocal_mapping (g : Graph.t) (st : RequestState)
    (cluster : Z) : outcome RequestState :=
  let key := wrap64 (cluster + 1) in
  match nonlocal_gcluster_to_index st !! key with
  | Some _ => Ok st
  | None =>
      owner ← find_owner_of_global_node checked g cluster;
      c ← load (next_index_for_pe st) owner;
      next ← store (next_index_for_pe st) owner (wrap32 (c + 1));
      Ok {| nonlocal_gcluster_to_index :=
              <[key := wrap32 (c + 1)]> (nonlocal_gcluster_to_index st);
            next_index_for_pe := next |}
  end.

Definition request_if_nonlocal (g : Graph.t) (st : RequestState)
    (gcluster_v : Z) : outcome RequestState :=
  if Graph.is_owned_global_node g gcluster_v then Ok st
  else request_nonlocal_mapping g st gcluster_v.

Definition request_neighbor (g : Graph.t) (clustering : list Z)
    (st : RequestState) (ev : Z * Z) : outcome RequestState :=
  gcluster_v ← load clustering ev.2;
  request_if_nonlocal g st gcluster_v.

Definition request_neighbors (g : Graph.t) (clustering : list Z)
    (st : RequestState) (u : Z) : outcome RequestState :=
  gcluster_u ← load clustering u;
  if Graph.is_owned_global_node g gcluster_u then
    nb ← neighbors g u;
    foldM (request_neighbor g clustering) st nb
  else Ok st.

Definition request_edge (g : Graph.t) (st : RequestState) (e : GlobalEdge.t)
  : outcome RequestState :=
  request_if_nonlocal g st (GlobalEdge.v e).

(** The two request loops run concurrently in the source.  The keys of
    the resulting map do not depend on the interleaving, the indices
    given to them do; the loops are run one after the other here. *)
Definition requests (w : World) (r : Z) : outcome RequestState :=
  pe ← load w r;
  edges ← local_edges checked w r;
  st ← foldM (request_neighbors (graph pe) (lnode_to_gcluster pe))
             {| nonlocal_gcluster_to_index := ∅;
                next_index_for_pe :=
                  replicate (Z.to_nat (comm_size w + 1)) 0 |}
             (seqZ 0 (Graph.n (graph pe)));
  foldM (request_edge (graph pe)) st edges.

(** [my_mapping_requests[owner][index] = cluster] for one entry of the
    map. *)
Definition place_request (g : Graph.t) (key value : Z)
    (reqs : outcome (list (list Z))) : outcome (list (list Z)) :=
  reqs ← reqs;
  let cluster := wrap64 (key - 1) in
  owner ← find_owner_of_global_node checked g cluster;
  let index := wrap64 (value - 1) in
  row ← load reqs owner;
  row ← store row index cluster;
  store reqs owner row.

Definition my_mapping_requests (w : World) (r : Z)
  : outcome (list (list Z)) :=
  pe ← load w r;
  st ← requests w r;
  rows ← omapM (fun p => k ← load (next_index_for_pe st) p;
                         Ok (replicate (Z.to_nat k) 0))
               (ranks w);
  map_fold (place_request (graph pe)) (Ok rows)
           (nonlocal_gcluster_to_index st).

(** Modelled from the spec: [mpi::sparse_alltoall_get] ("exchange
    request lists"): process [p] receives from every process [r] the
    list that [r] holds for [p]. *)
Definition sparse_alltoall_get {X} (w : World)
    (send : Z -> outcome (list (list X))) (p : Z) : outcome (list (list X)) :=
  omapM (fun r => s ← send r; load s p) (ranks w).

Definition their_mapping_requests (w : World) (p : Z)
  : outcome (list (list Z)) :=
  sparse_alltoall_get w (my_mapping_requests w) p.

Definition respond (g : Graph.t) (lnode_to_lcnode dist : list Z) (global : Z)
  : outcome Z :=
  let local := wrap32 (wrap64 (global - Graph.offset_n g)) in
  coarse_local ← load lnode_to_lcnode local;
  off ← load dist (Graph.rank g);
  Ok (wrap64 (off + coarse_local)).

Definition my_mapping_responses (w : World) (p : Z)
  : outcome (list (list Z)) :=
  pe ← load w p;
  reqs ← their_mapping_requests w p;
  m ← lnode_to_lcnode checked w p;
  dist ← c_node_distribution checked w;
  omapM (omapM (respond (graph pe) m dist)) reqs.

Definition their_mapping_responses (w : World) (r : Z)
  : outcome (list (list Z)) :=
  sparse_alltoall_get w (my_mapping_responses w) r.

(** ** Phase F: the coarse ghost directory *)

(** [next_index_for_pe] after the exclusive scan. *)
Definition ghost_offsets (w : World) (r : Z) : outcome (list Z) :=
  st ← requests w r;
  Ok (exclusive_scan 32 0 (next_index_for_pe st)).

Definition c_ghost_n (w : World) (r : Z) : outcome Z :=
  offs ← ghost_offsets w r;
  match back offs with
  | Some b => Ok b
  | None => Undefined
  end.

Definition add_ghost (cn off pe : Z) (rsps : list Z) (gh : CoarseGhosts)
    (i : Z) : outcome CoarseGhosts :=
  global ← load rsps i;
  let local := wrap32 (off + i) in
  to_global ← store (c_ghost_to_global gh) local global;
  owner ← store (c_ghost_owner gh) local pe;
  Ok {| c_global_to_ghost :=
          insert_new (wrap64 (global + 1)) (wrap32 (cn + local))
                     (c_global_to_ghost gh);
        c_ghost_to_global := to_global;
        c_ghost_owner := owner |}.

Definition add_ghosts_of (cn : Z) (reqs rsps : list (list Z)) (offs : list Z)
    (gh : CoarseGhosts) (pe : Z) : outcome CoarseGhosts :=
  req ← load reqs pe;
  rsp ← load rsps pe;
  off ← load offs pe;
  foldM (add_ghost cn off pe rsp) gh (seqZ 0 (zlen req)).

Definition coarse_ghosts (w : World) (r : Z) : outcome CoarseGhosts :=
  reqs ← my_mapping_requests w r;
  rsps ← their_mapping_responses w r;
  offs ← ghost_offsets w r;
  cgn ← c_ghost_n w r;
  cn ← c_n checked w r;
  foldM (add_ghosts_of cn reqs rsps offs)
        {| c_global_to_ghost := ∅;
           c_ghost_to_global := replicate (Z.to_nat cgn) 0;
           c_ghost_owner := replicate (Z.to_nat cgn) 0 |}
        (ranks w).

(** The echo of phase E.1 enters the same map as the request indices:
    [handle.insert(local_cluster + 1,
                   graph.global_n() + global_coarse_node + 1)]. *)
Definition insert_echo (global_n : Z) (m : gmap Z Z) (nm : NodeMapping.t)
  : gmap Z Z :=
  insert_new (wrap64 (NodeMapping.u nm + 1))
             (wrap64 (wrap64 (global_n + NodeMapping.global_c_u nm) + 1)) m.

(** [nonlocal_gcluster_to_index] when the mapping is built. *)
Definition dedup_map (w : World) (r : Z) : outcome (gmap Z Z) :=
  pe ← load w r;
  st ← requests w r;
  rsps ← local_nodes_mapping_rsps checked w r;
  Ok (foldl (insert_echo (Graph.global_n (graph pe)))
            (nonlocal_gcluster_to_index st) rsps).

(** ** The mapping from fine nodes to coarse nodes *)

(** The iterator [handle.find(key)]: dereferencing the end iterator is
    undefined. *)
Definition find (m : gmap Z Z) (key : Z) : outcome Z :=
  match m !! key with
  | Some value => Ok value
  | None => Undefined
  end.

Definition map_node (g : Graph.t) (clustering lnode_to_lcnode dist : list Z)
    (dedup : gmap Z Z) (their_rsps : list (list Z)) (u : Z) : outcome Z :=
  cluster ← load clustering u;
  gcnode ←
    (if Graph.is_owned_global_node g cluster then
       lc ← load lnode_to_lcnode (wrap64 (cluster - Graph.offset_n g));
       off ← load dist (Graph.rank g);
       Ok (wrap64 (lc + off))
     else
       KASSERT checked
         (bool_decide (is_Some (dedup !! wrap64 (cluster + 1)))) ;;
       value ← find dedup (wrap64 (cluster + 1));
       let index := wrap64 (value - 1) in
       if index <? Graph.global_n g then
         owner ← find_owner_of_global_node checked g cluster;
         row ← load their_rsps owner;
         load row index
       else Ok (wrap64 (index - Graph.global_n g)));
  total ← match back dist with
          | Some t => Ok t
          | None => Undefined
          end;
  KASSERT checked (gcnode <? total) ;;
  Ok gcnode.

Definition lnode_to_gcnode (w : World) (r : Z) : outcome (list Z) :=
  pe ← load w r;
  m ← lnode_to_lcnode checked w r;
  dist ← c_node_distribution checked w;
  dedup ← dedup_map w r;
  rsps ← their_mapping_responses w r;
  omapM (map_node (graph pe) (lnode_to_gcluster pe) m dist dedup rsps)
        (seqZ 0 (Graph.n (graph pe))).

End Requests.
(** ** Phase G: the coarse adjacency *)

(** Modelled from the spec: the rating map ([RatingMap] of
    common/datastructures/rating_map.h), "a rating map from coarse
    local ID (owned or ghost) to accumulated edge weight".  Its entries
    are kept in the order in which the keys were first used. *)
Definition RatingMap : Type := list (Z * Z).

(** [map[key] += weight] *)
Fixpoint rating_add (map : RatingMap) (key weight : Z) : RatingMap :=
  match map with
  | [] => [(key, wadd 0 weight)]
  | (k, x) :: map' =>
      if k =? key then (k, wadd x weight) :: map'
      else (k, x) :: rating_add map' key weight
  end.

(** What the construction of the coarse edges reads on one process. *)
Record EdgeContext : Type := {
  ec_graph : Graph.t;
  ec_clustering : list Z;
  ec_lnode_to_lcnode : list Z;
  ec_dedup : gmap Z Z;
  ec_their_mapping_responses : list (list Z);
  ec_c_global_to_ghost : gmap Z Z;
  (** the receive buffer [local_edges] (localized) followed by the
      memory behind it *)
  ec_memory : list GlobalEdge.t
}.

Section CoarseGraph.

Variable checked : bool.

(** [localize_global_edge_list] *)
Definition localize_global_edge_list (offset : Z) (lnode_to_lcnode : list Z)
    (edges : list GlobalEdge.t) : outcome (list GlobalEdge.t) :=
  omapM (fun e : GlobalEdge.t =>
           lc ← load lnode_to_lcnode
                     (wrap32 (wrap64 (GlobalEdge.u e - offset)));
           Ok (GlobalEdge.mk lc (GlobalEdge.v e) (GlobalEdge.weight e)))
        edges.

Definition localized_edges (w : World) (r : Z) : outcome (list GlobalEdge.t) :=
  pe ← load w r;
  edges ← local_edges checked w r;
  m ← lnode_to_lcnode checked w r;
  localize_global_edge_list (Graph.offset_n (graph pe)) m edges.

(** *** Buckets *)

(** The bucket index of an owned node [u], with the node: the
    increment of [buckets_position_buffer[c_u]] must stay inside the
    buffer of [c_n + 1] counters. *)
Definition home_contributor (g : Graph.t) (clustering cluster_mapping : list Z)
    (cn : Z) (u : Z) : outcome (list (Z * Z)) :=
  cluster ← load clustering u;
  if Graph.is_owned_global_node g cluster then
    c_u ← load cluster_mapping (local_cluster g cluster);
    KASSERT checked (c_u <? wrap64 (cn + 1)) ;;
    if c_u <? wrap64 (cn + 1) then Ok [(c_u, u)] else Undefined
  else Ok [].

(** The first edge of every run of received edges with the same
    (localized) source enters the bucket of that source, as
    [graph.n() + i]. *)
Fixpoint run_starts_from (n prev i : Z) (edges : list GlobalEdge.t)
  : list (Z * Z) :=
  match edges with
  | [] => []
  | e :: edges' =>
      (if GlobalEdge.u e =? prev then []
       else [(GlobalEdge.u e, wrap32 (wrap64 (n + i)))])
      ++ run_starts_from n (GlobalEdge.u e) (i + 1) edges'
  end.

Definition run_starts (n : Z) (edges : list GlobalEdge.t) : list (Z * Z) :=
  match edges with
  | [] => []
  | e :: edges' =>
      (GlobalEdge.u e, wrap32 (wrap64 n))
      :: run_starts_from n (GlobalEdge.u e) 1 edges'
  end.

Definition check_bucket (cn : Z) (kv : Z * Z) : outcome (Z * Z) :=
  if (0 <=? kv.1) && (kv.1 <? wrap64 (cn + 1)) then Ok kv else Undefined.

(** [build_node_buckets].  The source counts the contributors of every
    coarse node, turns the counts into positions by a prefix sum and
    places the contributors with atomic decrements; the pair
    [(buckets_position_buffer, buckets)] it returns is represented by
    the list of the blocks [buckets[first_pos .. last_pos)], one per
    coarse node.  A block is filled from its end: with the owned nodes
    placed before the received edges and both in increasing order, it
    is the reversed list of its contributors. *)
Definition build_node_buckets (g : Graph.t) (cluster_mapping : list Z)
    (cn : Z) (local_edges : list GlobalEdge.t) (clustering : list Z)
  : outcome (list (list Z)) :=
  home ← omapM (home_contributor g clustering cluster_mapping cn)
               (seqZ 0 (Graph.n g));
  received ← omapM (check_bucket cn) (run_starts (Graph.n g) local_edges);
  let contributors := concat home ++ received in
  Ok (map (fun c_u =>
             rev (map snd (List.filter (fun kv : Z * Z => kv.1 =? c_u)
                                       contributors)))
          (seqZ 0 cn)).

(** *** Edges of one coarse node *)

Definition add_unless_loop (c_u : Z) (map : RatingMap)
    (c_local_node weight : Z) : RatingMap :=
  if c_local_node =? c_u then map else rating_add map c_local_node weight.

(** The lambda [handle_edge]. *)
Definition handle_edge (ctx : EdgeContext) (c_u : Z) (map : RatingMap)
    (weight cluster : Z) : outcome RatingMap :=
  let g := ec_graph ctx in
  if Graph.is_owned_global_node g cluster then
    c_local_node ← load (ec_lnode_to_lcnode ctx)
                        (wrap64 (cluster - Graph.offset_n g));
    Ok (add_unless_loop c_u map c_local_node weight)
  else
    KASSERT checked
      (match ec_dedup ctx !! wrap64 (cluster + 1) with
       | Some value => wrap64 (value - 1) <? Graph.global_n g
       | None => false
       end) ;;
    value ← find (ec_dedup ctx) (wrap64 (cluster + 1));
    let index := wrap64 (value - 1) in
    owner ← find_owner_of_global_node checked g cluster;
    row ← load (ec_their_mapping_responses ctx) owner;
    c_ghost_node ← load row index;
    c_local_node ← find (ec_c_global_to_ghost ctx) (wrap64 (c_ghost_node + 1));
    Ok (add_unless_loop c_u map c_local_node weight).

Definition handle_neighbor (ctx : EdgeContext) (c_u : Z) (map : RatingMap)
    (ev : Z * Z) : outcome RatingMap :=
  weight ← Graph.edge_weight (ec_graph ctx) ev.1;
  cluster ← load (ec_clustering ctx) ev.2;
  handle_edge ctx c_u map weight cluster.

(** [for (index = u - graph.n(); local_edges[index].u == c_u; ++index)]:
    the loop stops at the first record with another source; it is not
    bounded by the size of [local_edges]. *)
Fixpoint received_block (fuel : nat) (ctx : EdgeContext) (c_u : Z)
    (map : RatingMap) (index : Z) : outcome RatingMap :=
  match fuel with
  | O => Undefined
  | S fuel' =>
      e ← load (ec_memory ctx) index;
      if GlobalEdge.u e =? c_u then
        map ← handle_edge ctx c_u map (GlobalEdge.weight e) (GlobalEdge.v e);
        received_block fuel' ctx c_u map (wrap64 (index + 1))
      else Ok map
  end.

(** One contributor [u = buckets[i]] of the coarse node [c_u]. *)
Definition collect_contributor (ctx : EdgeContext) (c_u : Z)
    (st : Z * RatingMap) (u : Z) : outcome (Z * RatingMap) :=
  let g := ec_graph ctx in
  if u <? Graph.n g then
    nw ← Graph.node_weight g u;
    nb ← neighbors g u;
    map ← foldM (handle_neighbor ctx c_u) st.2 nb;
    Ok (wadd st.1 nw, map)
  else
    map ← received_block (S (length (ec_memory ctx))) ctx c_u st.2
                         (wrap64 (wrap32 (u - Graph.n g)));
    Ok (st.1, map).

(** The lambda [collect_edges] for the coarse node [c_u]: its weight
    (without the migrated nodes) and the entries of its rating map.
    The choice between the small and the large rating map, made from
    [upper_bound_degree], does not change the entries. *)
Definition collect_edges (ctx : EdgeContext) (c_u : Z) (bucket : list Z)
  : outcome (Z * RatingMap) :=
  foldM (collect_contributor ctx c_u) (0, []) bucket.

Definition edge_context (w : World) (r : Z) : outcome EdgeContext :=
  pe ← load w r;
  m ← lnode_to_lcnode checked w r;
  dedup ← dedup_map checked w r;
  rsps ← their_mapping_responses checked w r;
  gh ← coarse_ghosts checked w r;
  edges ← localized_edges w r;
  Ok {| ec_graph := graph pe;
        ec_clustering := lnode_to_gcluster pe;
        ec_lnode_to_lcnode := m;
        ec_dedup := dedup;
        ec_their_mapping_responses := rsps;
        ec_c_global_to_ghost := c_global_to_ghost gh;
        ec_memory := edges ++ past_local_edges pe |}.

(** The loop "Construct edges": weight and rating-map entries of every
    coarse node, in the order of the coarse nodes. *)
Definition collected (w : World) (r : Z) : outcome (list (Z * RatingMap)) :=
  pe ← load w r;
  ctx ← edge_context w r;
  cn ← c_n checked w r;
  edges ← localized_edges w r;
  buckets ← build_node_buckets (graph pe) (ec_lnode_to_lcnode ctx) cn edges
                               (lnode_to_gcluster pe);
  omapM (fun cb : Z * list Z => collect_edges ctx cb.1 cb.2)
        (zip (seqZ 0 cn) buckets).

(** *** Node weights *)

(** [__atomic_fetch_add(&c_node_weights[c_u], local_nodes[i].weight)] *)
Definition integrate_node (g : Graph.t) (lnode_to_lcnode : list Z)
    (c_node_weights : list Z) (nd : GlobalNode.t) : outcome (list Z) :=
  c_u ← load lnode_to_lcnode (wrap64 (GlobalNode.u nd - Graph.offset_n g));
  old ← load c_node_weights c_u;
  store c_node_weights c_u (wadd old (GlobalNode.weight nd)).

Definition set_weight (c_node_weights : list Z) (cw : Z * Z)
  : outcome (list Z) :=
  store c_node_weights cw.1 cw.2.

(** [c_node_weights] after "Integrate node weights of migrated nodes". *)
Definition c_node_weights (w : World) (r : Z) : outcome (list Z) :=
  pe ← load w r;
  cn ← c_n checked w r;
  cgn ← c_ghost_n checked w r;
  m ← lnode_to_lcnode checked w r;
  nodes ← local_nodes checked w r;
  col ← collected w r;
  weights ← foldM set_weight (replicate (Z.to_nat (wrap32 (cn + cgn))) 0)
                  (zip (seqZ 0 cn) (map fst col));
  foldM (integrate_node (graph pe) m) weights nodes.

(** *** The coarse graph *)

(** [c_nodes]: a leading 0 and the sizes of the rating maps, summed. *)
Definition c_nodes (w : World) (r : Z) : outcome (list Z) :=
  col ← collected w r;
  Ok (prefix_sum 32 (0 :: map (fun c : Z * RatingMap => zlen c.2) col)).

Definition c_m (w : World) (r : Z) : outcome Z :=
  nodes ← c_nodes w r;
  match back nodes with
  | Some b => Ok b
  | None => Undefined
  end.

(** The edge buffers, copied to [c_edges] and [c_edge_weights] at the
    positions given by [c_nodes]: the entries of the rating maps in
    the order of the coarse nodes. *)
Definition c_edges (w : World) (r : Z) : outcome (list Z) :=
  col ← collected w r;
  Ok (concat (map (fun c : Z * RatingMap => map fst c.2) col)).

Definition c_edge_weights (w : World) (r : Z) : outcome (list Z) :=
  col ← collected w r;
  Ok (concat (map (fun c : Z * RatingMap => map snd c.2) col)).

Definition c_edge_distribution (w : World) : outcome (list Z) :=
  counts ← omapM (c_m w) (ranks w);
  Ok (build_distribution counts).

(** The graph constructed at the end of [contract_clustering]. *)
Definition coarse_graph (w : World) (r : Z) : outcome Graph.t :=
  pe ← load w r;
  node_dist ← c_node_distribution checked w;
  edge_dist ← c_edge_distribution w;
  nodes ← c_nodes w r;
  edges ← c_edges w r;
  node_weights ← c_node_weights w r;
  edge_weights ← c_edge_weights w r;
  gh ← coarse_ghosts checked w r;
  Ok (Graph.make node_dist edge_dist nodes edges node_weights edge_weights
                 (c_ghost_owner gh) (c_ghost_to_global gh)
                 (c_global_to_ghost gh) false (Graph.rank (graph pe))).

(** ** Phase H: ghost weights *)

Definition ghost_owner (g : Graph.t) (u : Z) : outcome Z :=
  b ← Graph.is_ghost_node checked g u;
  KASSERT checked b ;;
  KASSERT checked (wrap32 (u - Graph.n g) <? zlen (Graph._ghost_owner g)) ;;
  load (Graph._ghost_owner g) (wrap32 (u - Graph.n g)).

(** Modelled from the spec: the messages of
    [mpi::graph::sparse_alltoall_interface_to_pe]: every owned node
    with a neighbour that is a ghost owned by [pe] sends its local
    index and its weight to [pe]. *)
Definition interface_message (g : Graph.t) (pe : Z) (u : Z)
  : outcome (list (Z * Z)) :=
  nb ← neighbors g u;
  owners ← omapM (fun ev : Z * Z =>
                    if ev.2 <? Graph.n g then Ok (-1)
                    else ghost_owner g ev.2) nb;
  if existsb (Z.eqb pe) owners then
    weight ← Graph.node_weight g u; Ok [(u, weight)]
  else Ok [].

Definition interface_messages (g : Graph.t) (pe : Z)
  : outcome (list (Z * Z)) :=
  msgs ← omapM (interface_message g pe) (seqZ 0 (Graph.n g));
  Ok (concat msgs).

(** The receiving lambda of [update_ghost_node_weights]. *)
Definition receive_weight (pe : Z) (g : Graph.t) (msg : Z * Z)
  : outcome Graph.t :=
  off ← load (Graph._node_distribution g) pe;
  local_node ← Graph.global_to_local_node checked g (wrap64 (off + msg.1));
  Graph.set_ghost_node_weight checked g local_node msg.2.

Definition update_ghost_node_weights (g : Graph.t)
    (received : list (Z * list (Z * Z))) : outcome Graph.t :=
  foldM (fun g (buf : Z * list (Z * Z)) =>
           foldM (receive_weight buf.1) g buf.2)
        g received.

(** [contract_clustering] on the process of rank [r]: the coarse graph
    with synchronized ghost weights and the mapping. *)
Definition contract_clustering (w : World) (r : Z)
  : outcome (Graph.t * list Z) :=
  c_graph ← coarse_graph w r;
  received ← omapM (fun pe => other ← coarse_graph w pe;
                              msgs ← interface_messages other r;
                              Ok (pe, msgs))
                   (ranks w);
  c_graph ← update_ghost_node_weights c_graph received;
  mapping ← lnode_to_gcnode checked w r;
  Ok (c_graph, mapping).

End CoarseGraph.
(** ** Example graphs *)

Module Examples.

(** One process owning the global nodes 0 and 1, joined by an edge, no
    ghosts, no weight arrays. *)
Definition g_pair : Graph.t :=
  Graph.make [0; 2] [0; 2] [0; 1; 2] [1; 0] [] [] [] [] ∅ false 0.

(** Rank 0 of two processes: it owns the global nodes 0 and 1; node 1
    is adjacent to the global node 2 of rank 1, known here as the ghost
    with local index 2.  Node weights are stored. *)
Definition g_ghost : Graph.t :=
  Graph.make [0; 2; 3] [0; 3; 4] [0; 1; 3] [1; 0; 2] [5; 6; 7] []
             [1] [2] {[ 3 := 2 ]} false 0.

(** The path 0 - 1 - 2 on two processes: rank 0 owns node 0, rank 1
    owns the nodes 1 and 2.  Node weights 3, 4, 5; edge weights 1. *)
Definition path_0 : Graph.t :=
  Graph.make [0; 1; 3] [0; 1; 4] [0; 1] [1] [3; 4] []
             [1] [1] {[ 2 := 1 ]} false 0.

Definition path_1 : Graph.t :=
  Graph.make [0; 1; 3] [0; 1; 4] [0; 2; 3] [2; 1; 0] [4; 5; 3] []
             [0] [0] {[ 1 := 2 ]} false 1.

(** A record that no loop over received edges takes for one of its
    block: its source is not a coarse node. *)
Definition no_edge : GlobalEdge.t := GlobalEdge.mk (2 ^ 32) 0 0.

(** Node 0 joins the cluster of node 2 on the other process; node 1
    stays alone. *)
Definition path_world (past : list GlobalEdge.t) : World :=
  [ {| graph := path_0; lnode_to_gcluster := [2; 1];
       past_local_edges := [no_edge] |};
    {| graph := path_1; lnode_to_gcluster := [1; 2; 2];
       past_local_edges := past |} ].

(** All three nodes of the path join the cluster 0 of rank 0: both
    nodes of rank 1 leave for the same cluster. *)
Definition merge_world : World :=
  [ {| graph := path_0; lnode_to_gcluster := [0; 0];
       past_local_edges := [no_edge] |};
    {| graph := path_1; lnode_to_gcluster := [0; 0; 0];
       past_local_edges := [no_edge] |} ].

(** One process with two nodes joined by an edge, and a loop at
    node 0. *)
Definition g_loop : Graph.t :=
  Graph.make [0; 2] [0; 3] [0; 2; 3] [0; 1; 0] [] [] [] [] ∅ false 0.

Definition loop_world : World :=
  [ {| graph := g_loop; lnode_to_gcluster := [0; 1];
       past_local_edges := [] |} ].

(** The path with every node in its own cluster. *)
Definition identity_world : World :=
  [ {| graph := path_0; lnode_to_gcluster := [0; 1];
       past_local_edges := [] |};
    {| graph := path_1; lnode_to_gcluster := [1; 2; 0];
       past_local_edges := [] |} ].

End Examples.
(** * Properties *)

(** ** Graph accessors *)

Lemma wrap_small bits x : 0 <= x < 2 ^ bits -> wrap bits x = x.
Proof. intros H. unfold wrap. now apply Z.mod_small. Qed.

Lemma wrap32_small x : 0 <= x < 2 ^ 32 -> wrap32 x = x.
Proof. apply wrap_small. Qed.

Lemma wrap64_small x : 0 <= x < 2 ^ 64 -> wrap64 x = x.
Proof. apply wrap_small. Qed.

Lemma KASSERT_unchecked c : KASSERT false c = Ok tt.
Proof. reflexivity. Qed.

Lemma KASSERT_true checked : KASSERT checked true = Ok tt.
Proof. unfold KASSERT. now rewrite andb_false_r. Qed.

Lemma KASSERT_checked_false : KASSERT true false = Fail AssertionFailure.
Proof. reflexivity. Qed.

Lemma total_n_eq g : Graph.wf g -> Graph.total_n g = Graph.n g + Graph.ghost_n g.
Proof.
  intros [Hn Hg Ht _ _ _ _]. unfold Graph.total_n.
  rewrite wrap32_small; lia.
Qed.

(** C5, as the code has it.  An owned global node is translated by
    subtracting the offset; a node of the ghost directory is translated
    to its directory entry, a local index in [[n, total_n)]; for any
    other global node no [UnknownGlobal] error exists: the call trips
    [KASSERT(contains_global_node(global_u))] when assertions are
    compiled in and is undefined otherwise. *)
Theorem global_to_local_node_cases (checked : bool) (g : Graph.t) (gu : Z) :
  Graph.wf g ->
  0 <= gu < 2 ^ 64 ->
  (Graph.is_owned_global_node g gu = true ->
     Graph.global_to_local_node checked g gu = Ok (gu - Graph.offset_n g)
     /\ 0 <= gu - Graph.offset_n g < Graph.n g)
  /\ (Graph.is_owned_global_node g gu = false ->
      forall l, Graph._global_to_ghost g !! wrap64 (gu + 1) = Some l ->
        Graph.global_to_local_node checked g gu = Ok l
        /\ Graph.n g <= l < Graph.total_n g)
  /\ (Graph.is_owned_global_node g gu = false ->
      Graph._global_to_ghost g !! wrap64 (gu + 1) = None ->
        Graph.global_to_local_node checked g gu
        = if checked then Fail AssertionFailure else Undefined).
Proof.
  intros Hwf Hgu.
  pose proof (total_n_eq g Hwf) as Htot.
  destruct Hwf as [Hn Hgn Ht Hoff Hrange _ Hdir].
  unfold Graph.global_to_local_node, Graph.contains_global_node.
  fold (Graph.is_owned_global_node g gu).
  split; [|split].
  - intros Hown. rewrite Hown. simpl.
    rewrite KASSERT_true. simpl.
    unfold Graph.is_owned_global_node in Hown.
    apply andb_true_iff in Hown as [H1 H2].
    rewrite wrap64_small in H2 by lia.
    apply Z.leb_le in H1. apply Z.ltb_lt in H2.
    split; [|lia].
    rewrite wrap64_small by lia. rewrite wrap32_small by lia. reflexivity.
  - intros Hown l Hl. rewrite Hown, Hl.
    rewrite (bool_decide_eq_true_2 (is_Some (Some l))) by eauto.
    rewrite orb_true_r, !KASSERT_true. simpl.
    split; [reflexivity|]. eapply Hdir; eauto.
  - intros Hown Hl. rewrite Hown, Hl.
    rewrite (bool_decide_eq_false_2 (is_Some None))
      by (intros [? ?]; discriminate).
    destruct checked; reflexivity.
Qed.

(** A graph on which the three cases of [global_to_local_node_cases]
    all occur. *)
Lemma g_ghost_wf : Graph.wf Examples.g_ghost.
Proof.
  split; try (vm_compute; (discriminate || reflexivity || tauto)).
  intros k l. unfold Examples.g_ghost, Graph.make. simpl.
  intros H. apply lookup_singleton_Some in H as [_ <-].
  vm_compute. split; [discriminate | reflexivity].
Qed.

Lemma global_to_local_node_cases_witness :
  Graph.global_to_local_node true Examples.g_ghost 1 = Ok 1
  /\ Graph.global_to_local_node true Examples.g_ghost 2 = Ok 2
  /\ Graph.global_to_local_node true Examples.g_ghost 7
     = Fail AssertionFailure.
Proof.
  pose proof (global_to_local_node_cases true Examples.g_ghost 1 g_ghost_wf
                ltac:(lia)) as (H1 & _ & _).
  pose proof (global_to_local_node_cases true Examples.g_ghost 2 g_ghost_wf
                ltac:(lia)) as (_ & H2 & _).
  pose proof (global_to_local_node_cases true Examples.g_ghost 7 g_ghost_wf
                ltac:(lia)) as (_ & _ & H3).
  split; [|split].
  - apply H1. reflexivity.
  - apply (H2 eq_refl 2). reflexivity.
  - apply H3; reflexivity.
Defined.

(** C5 as the specification words it fails: the global node 7 is
    neither owned by [g_ghost] nor in its ghost directory, and the call
    does not fail with [UnknownGlobal] in either build. *)
Lemma global_to_local_node_no_UnknownGlobal :
  Graph.is_owned_global_node Examples.g_ghost 7 = false
  /\ Graph._global_to_ghost Examples.g_ghost !! wrap64 (7 + 1) = None
  /\ Graph.global_to_local_node true Examples.g_ghost 7
     = Fail AssertionFailure
  /\ Graph.global_to_local_node false Examples.g_ghost 7 = Undefined
  /\ ~ (forall checked,
          Graph.global_to_local_node checked Examples.g_ghost 7
          = Fail UnknownGlobal).
Proof.
  repeat split; try reflexivity.
  intros H. specialize (H true). discriminate H.
Qed.

Lemma ix_insert_eq {A} (l : list A) (u : Z) (x : A) :
  0 <= u < zlen l -> ix (<[Z.to_nat u := x]> l) u = Some x.
Proof.
  intros H. unfold ix, zlen in *.
  destruct (Z.ltb_spec u 0); [lia|].
  apply list_lookup_insert_eq. lia.
Qed.

Lemma ix_insert_ne {A} (l : list A) (u v : Z) (x : A) :
  0 <= u -> v <> u -> ix (<[Z.to_nat u := x]> l) v = ix l v.
Proof.
  intros Hu Hne. unfold ix.
  destruct (Z.ltb_spec v 0); [reflexivity|].
  apply list_lookup_insert_ne. lia.
Qed.

Lemma is_node_weighted_insert g i x :
  Graph.is_node_weighted (Graph.with_node_weights g (<[i := x]> (Graph._node_weights g)))
  = Graph.is_node_weighted g.
Proof.
  unfold Graph.is_node_weighted. simpl.
  destruct (Graph._node_weights g) as [|a l] eqn:E; [reflexivity|].
  destruct i; reflexivity.
Qed.

(** C10.  [set_ghost_node_weight(u, w)] asserts that [u] is a ghost
    node and that the node-weight array is present.  Under these
    preconditions it returns the graph with [w] stored as the weight of
    [u]: every other node weight and every other member (the CSR
    arrays, the edge weights, the ghost directory, the distribution
    vectors) is unchanged.  On a graph without node-weight array, whose
    node weights all read as 1, the precondition fails for every [u]:
    the assertion trips, or, with assertions elided, the write goes to
    an empty array. *)
Theorem set_ghost_node_weight_frame (checked : bool) (g : Graph.t) (u w : Z) :
  Graph.wf g ->
  (Graph.n g <= u < Graph.total_n g ->
   Graph.is_node_weighted g = true ->
   exists g',
     Graph.set_ghost_node_weight checked g u w = Ok g'
     /\ Graph.node_weight g' u = Ok w
     /\ (forall v, v <> u -> Graph.node_weight g' v = Graph.node_weight g v)
     /\ Graph._nodes g' = Graph._nodes g
     /\ Graph._edges g' = Graph._edges g
     /\ Graph._edge_weights g' = Graph._edge_weights g
     /\ Graph._ghost_owner g' = Graph._ghost_owner g
     /\ Graph._ghost_to_global g' = Graph._ghost_to_global g
     /\ Graph._global_to_ghost g' = Graph._global_to_ghost g
     /\ Graph._node_distribution g' = Graph._node_distribution g
     /\ Graph._edge_distribution g' = Graph._edge_distribution g
     /\ g' = Graph.with_node_weights g
               (<[Z.to_nat u := w]> (Graph._node_weights g)))
  /\ (Graph.is_node_weighted g = false ->
      (forall v, Graph.node_weight g v = Ok 1)
      /\ Graph.set_ghost_node_weight checked g u w
         = if checked then Fail AssertionFailure else Undefined).
Proof.
  intros Hwf.
  pose proof (total_n_eq g Hwf) as Htot.
  destruct Hwf as [Hn Hgn Ht Hoff Hrange Hw Hdir].
  split.
  - intros Hu Hweighted.
    assert (Hlen : zlen (Graph._node_weights g) = Graph.total_n g).
    { destruct Hw as [Hw|Hw]; [|exact Hw].
      unfold Graph.is_node_weighted in Hweighted. rewrite Hw in Hweighted.
      discriminate. }
    eexists. split; [|split; [|split]].
    + unfold Graph.set_ghost_node_weight, Graph.is_ghost_node.
      replace (u <? Graph.total_n g) with true by (symmetry; apply Z.ltb_lt; lia).
      rewrite KASSERT_true. simpl.
      replace (Graph.n g <=? u) with true by (symmetry; apply Z.leb_le; lia).
      rewrite Hweighted, !KASSERT_true. simpl.
      replace (0 <=? u) with true by (symmetry; apply Z.leb_le; lia).
      replace (u <? zlen (Graph._node_weights g)) with true
        by (symmetry; apply Z.ltb_lt; lia).
      reflexivity.
    + unfold Graph.node_weight. rewrite is_node_weighted_insert, Hweighted.
      simpl. rewrite ix_insert_eq by lia. reflexivity.
    + intros v Hv. unfold Graph.node_weight.
      rewrite is_node_weighted_insert, Hweighted. simpl.
      rewrite ix_insert_ne by lia. reflexivity.
    + repeat split; reflexivity.
  - intros Hun. split.
    + intros v. unfold Graph.node_weight. now rewrite Hun.
    + unfold Graph.set_ghost_node_weight, Graph.is_ghost_node.
      rewrite Hun.
      assert (Hnil : Graph._node_weights g = []).
      { unfold Graph.is_node_weighted in Hun.
        apply negb_false_iff, bool_decide_eq_true in Hun. exact Hun. }
      rewrite Hnil. destruct checked; simpl.
      * unfold KASSERT.
        destruct (u <? Graph.total_n g); simpl; [|reflexivity].
        destruct (Graph.n g <=? u); reflexivity.
      * unfold zlen. simpl length.
        destruct (Z.leb_spec 0 u), (Z.ltb_spec u (Z.of_nat 0));
          simpl; (reflexivity || lia).
Qed.

(** On [g_ghost] the weight of the ghost 2 can be set; on the
    unweighted [g_pair] no ghost weight can. *)
Lemma set_ghost_node_weight_frame_witness :
  (exists g', Graph.set_ghost_node_weight true Examples.g_ghost 2 9 = Ok g'
              /\ Graph.node_weight g' 2 = Ok 9
              /\ Graph.node_weight g' 1 = Ok 6)
  /\ Graph.set_ghost_node_weight true Examples.g_pair 2 9
     = Fail AssertionFailure.
Proof.
  split.
  - destruct (set_ghost_node_weight_frame true Examples.g_ghost 2 9 g_ghost_wf)
      as [H _].
    destruct H as (g' & H1 & H2 & H3 & _);
      [vm_compute; split; [discriminate|reflexivity] | reflexivity |].
    exists g'. split; [exact H1|]. split; [exact H2|].
    rewrite H3 by lia. reflexivity.
  - assert (Hwf : Graph.wf Examples.g_pair).
    { split; vm_compute; (discriminate || reflexivity || tauto). }
    destruct (set_ghost_node_weight_frame true Examples.g_pair 2 9 Hwf)
      as [_ H].
    apply H. reflexivity.
Defined.

(** ** Loops and arrays *)

Lemma load_Ok {A} (l : list A) i x : ix l i = Some x -> load l i = Ok x.
Proof. unfold load. now intros ->. Qed.

Lemma load_inv {A} (l : list A) i x : load l i = Ok x -> ix l i = Some x.
Proof. unfold load. destruct (ix l i); now inversion 1. Qed.

Lemma ix_Some_range {A} (l : list A) i x : ix l i = Some x -> 0 <= i < zlen l.
Proof.
  unfold ix, zlen. destruct (Z.ltb_spec i 0) as [Hneg|Hpos]; [discriminate|].
  intros Hl%lookup_lt_Some. lia.
Qed.

Lemma ix_in_range {A} (l : list A) i :
  0 <= i < zlen l -> exists x, ix l i = Some x.
Proof.
  unfold ix, zlen. intros H. destruct (Z.ltb_spec i 0); [lia|].
  destruct (lookup_lt_is_Some_2 l (Z.to_nat i)) as [x Hx]; [lia|eauto].
Qed.

Lemma ix_nat {A} (l : list A) (k : nat) : ix l (Z.of_nat k) = l !! k.
Proof.
  unfold ix. destruct (Z.ltb_spec (Z.of_nat k) 0); [lia|].
  now rewrite Nat2Z.id.
Qed.

Lemma store_Ok {A} (l : list A) i x :
  0 <= i < zlen l -> store l i x = Ok (<[Z.to_nat i := x]> l).
Proof.
  intros H. unfold store.
  destruct (Z.leb_spec 0 i), (Z.ltb_spec i (zlen l)); simpl; (reflexivity || lia).
Qed.

Lemma zlen_insert {A} (l : list A) i x : zlen (<[i := x]> l) = zlen l.
Proof. unfold zlen. now rewrite length_insert. Qed.

Lemma zlen_map {A B} (f : A -> B) l : zlen (map f l) = zlen l.
Proof. unfold zlen. now rewrite length_map. Qed.

Lemma zlen_app {A} (l k : list A) : zlen (l ++ k) = zlen l + zlen k.
Proof. unfold zlen. rewrite length_app. lia. Qed.

Lemma zlen_nonneg {A} (l : list A) : 0 <= zlen l.
Proof. unfold zlen. lia. Qed.

Lemma zlen_seqZ a len : 0 <= len -> zlen (seqZ a len) = len.
Proof. intros H. unfold zlen. rewrite length_seqZ. lia. Qed.

Lemma ix_map {A B} (f : A -> B) l i : ix (map f l) i = f <$> ix l i.
Proof.
  unfold ix. destruct (i <? 0); [reflexivity|]. apply list_lookup_fmap.
Qed.

Lemma ix_seqZ a len i : 0 <= i < len -> ix (seqZ a len) i = Some (a + i).
Proof.
  intros H. unfold ix. destruct (Z.ltb_spec i 0); [lia|].
  rewrite lookup_seqZ_lt by lia. f_equal. lia.
Qed.

(** A marking loop: every step stores 1 at the cells it [hit]s and
    leaves the others.  The result has 1 exactly at the cells hit by
    some element, and the old content elsewhere. *)
Lemma foldM_mark {B} (f : list Z -> B -> outcome (list Z))
    (hit : Z -> B -> bool) (len : Z) (l : list B) :
  (forall cm x, In x l -> zlen cm = len ->
     exists cm', f cm x = Ok cm' /\ zlen cm' = len
                 /\ forall i, 0 <= i < len ->
                      ix cm' i = if hit i x then Some 1 else ix cm i) ->
  forall cm, zlen cm = len ->
    exists cm', foldM f cm l = Ok cm' /\ zlen cm' = len
                /\ forall i, 0 <= i < len ->
                     ix cm' i = if existsb (hit i) l then Some 1 else ix cm i.
Proof.
  induction l as [|x l IH]; intros Hstep cm Hlen.
  - exists cm. simpl. auto.
  - destruct (Hstep cm x (or_introl eq_refl) Hlen) as (cm1 & E1 & L1 & H1).
    destruct (IH (fun cm x Hin => Hstep cm x (or_intror Hin)) cm1 L1)
      as (cm2 & E2 & L2 & H2).
    exists cm2. simpl. rewrite E1. simpl. split; [exact E2|].
    split; [exact L2|].
    intros i Hi. rewrite (H2 i Hi), (H1 i Hi).
    destruct (hit i x), (existsb (hit i) l); reflexivity.
Qed.

(** ** Prefix sums without wrap-around *)

Definition sumZ (l : list Z) : Z := foldr Z.add 0 l.

Fixpoint psums (acc : Z) (l : list Z) : list Z :=
  match l with
  | [] => []
  | x :: l' => (acc + x) :: psums (acc + x) l'
  end.

Lemma sumZ_app l k : sumZ (l ++ k) = sumZ l + sumZ k.
Proof. induction l; simpl; lia. Qed.

Lemma sumZ_nonneg l : Forall (fun x => 0 <= x) l -> 0 <= sumZ l.
Proof. induction 1; simpl; lia. Qed.

Lemma prefix_sum_from_nowrap bits acc l :
  0 <= acc -> Forall (fun x => 0 <= x) l -> acc + sumZ l < 2 ^ bits ->
  prefix_sum_from bits acc l = psums acc l.
Proof.
  intros Hacc Hl. revert acc Hacc.
  induction Hl as [|x l Hx Hl IH]; intros acc Hacc Hb; [reflexivity|].
  simpl in *. pose proof (sumZ_nonneg l Hl).
  rewrite wrap_small by lia. f_equal. apply IH; lia.
Qed.

Lemma length_psums acc l : length (psums acc l) = length l.
Proof. revert acc. induction l; intros; simpl; auto. Qed.

Lemma psums_lookup acc l (i : nat) :
  (i < length l)%nat -> psums acc l !! i = Some (acc + sumZ (take (S i) l)).
Proof.
  revert acc i. induction l as [|x l IH]; intros acc i Hi; [simpl in Hi; lia|].
  destruct i as [|i]; simpl.
  - f_equal. destruct l; simpl; lia.
  - simpl in Hi. rewrite IH by lia. f_equal. simpl. lia.
Qed.

Lemma last_psums acc l : l <> [] -> last (psums acc l) = Some (acc + sumZ l).
Proof.
  revert acc. induction l as [|x l IH]; intros acc Hne; [congruence|].
  destruct l as [|y l]; [simpl; f_equal; lia|].
  change (psums acc (x :: y :: l)) with ((acc + x) :: psums (acc + x) (y :: l)).
  change (psums (acc + x) (y :: l))
    with ((acc + x + y) :: psums (acc + x + y) l).
  rewrite last_cons_cons.
  change ((acc + x + y) :: psums (acc + x + y) l)
    with (psums (acc + x) (y :: l)).
  rewrite IH by congruence. f_equal. simpl. lia.
Qed.

(** ** Counting marks *)

Definition indicator (p : Z -> bool) (i : Z) : Z := if p i then 1 else 0.

Lemma sumZ_indicator p l :
  sumZ (map (indicator p) l) = zlen (List.filter p l).
Proof.
  induction l as [|x l IH]; [reflexivity|].
  simpl. unfold indicator at 1. destruct (p x); unfold zlen in *; simpl length; lia.
Qed.

Lemma indicator_nonneg p l : Forall (fun x => 0 <= x) (map (indicator p) l).
Proof.
  apply Forall_forall. intros x Hx. apply list_elem_of_In in Hx.
  apply in_map_iff in Hx as (i & <- & _).
  unfold indicator. destruct (p i); lia.
Qed.

Lemma filter_length_le {A} (p : A -> bool) l :
  zlen (List.filter p l) <= zlen l.
Proof. unfold zlen. pose proof (List.filter_length_le p l). lia. Qed.

Lemma seqZ_split a len i :
  0 <= i <= len -> seqZ a len = seqZ a i ++ seqZ (a + i) (len - i).
Proof.
  intros H. replace len with (i + (len - i)) at 1 by lia.
  apply seqZ_app; lia.
Qed.

Lemma take_seqZ a len (k : nat) :
  Z.of_nat k <= len -> take k (seqZ a len) = seqZ a (Z.of_nat k).
Proof.
  intros H. rewrite (seqZ_split a len (Z.of_nat k)) by lia.
  rewrite take_app_length'; [reflexivity|].
  rewrite length_seqZ. lia.
Qed.

Lemma filter_seqZ_position p len i :
  0 <= i < len -> p i = true ->
  ix (List.filter p (seqZ 0 len)) (zlen (List.filter p (seqZ 0 i))) = Some i.
Proof.
  intros Hi Hp.
  rewrite (seqZ_split 0 len i) by lia.
  rewrite Z.add_0_l, (seqZ_cons i) by lia.
  rewrite List.filter_app. simpl. rewrite Hp.
  unfold zlen. rewrite ix_nat.
  rewrite lookup_app_r by lia. now rewrite Nat.sub_diag.
Qed.

(** ** Phase D: the local coarse numbering *)

(** Node [u] is assigned to the owned cluster with local index [i]. *)
Definition hits_own (g : Graph.t) (clustering : list Z) (i u : Z) : bool :=
  match ix clustering u with
  | Some c =>
      Graph.is_owned_global_node g c && (c - Graph.offset_n g =? i)
  | None => false
  end.

(** The received node record [nd] belongs to the cluster with local
    index [i]. *)
Definition hits_received (g : Graph.t) (i : Z) (nd : GlobalNode.t) : bool :=
  GlobalNode.u nd - Graph.offset_n g =? i.

(** The cluster with local index [i] is non-empty: a node of this
    process is assigned to it, or a node record for it was received. *)
Definition cluster_nonempty (g : Graph.t) (clustering : list Z)
    (local_nodes : list GlobalNode.t) (i : Z) : bool :=
  existsb (hits_own g clustering i) (seqZ 0 (Graph.n g))
  || existsb (hits_received g i) local_nodes.

Definition nonempty_clusters (g : Graph.t) (clustering : list Z)
    (local_nodes : list GlobalNode.t) : list Z :=
  List.filter (cluster_nonempty g clustering local_nodes)
              (seqZ 0 (Graph.n g)).

Lemma owned_local_cluster g c :
  Graph.wf g -> Graph.is_owned_global_node g c = true ->
  local_cluster g c = c - Graph.offset_n g
  /\ 0 <= c - Graph.offset_n g < Graph.n g.
Proof.
  intros [Hn Hgn Ht Hoff Hrange _ _] Hown.
  unfold Graph.is_owned_global_node in Hown.
  apply andb_true_iff in Hown as [H1 H2].
  rewrite wrap64_small in H2 by lia.
  apply Z.leb_le in H1. apply Z.ltb_lt in H2.
  unfold local_cluster.
  rewrite wrap64_small by lia. rewrite wrap32_small by lia. lia.
Qed.

Lemma ix_store_mark (cm : list Z) (p i : Z) :
  0 <= p < zlen cm -> 0 <= i ->
  ix (<[Z.to_nat p := 1]> cm) i = if p =? i then Some 1 else ix cm i.
Proof.
  intros Hp Hi. destruct (Z.eqb_spec p i) as [->|Hne].
  - now apply ix_insert_eq.
  - apply ix_insert_ne; lia.
Qed.

Lemma mark_own_cluster_step g clustering cm u :
  Graph.wf g -> Graph.n g <= zlen clustering ->
  In u (seqZ 0 (Graph.n g)) -> zlen cm = Graph.n g ->
  exists cm', mark_own_cluster g clustering cm u = Ok cm'
    /\ zlen cm' = Graph.n g
    /\ forall i, 0 <= i < Graph.n g ->
         ix cm' i = if hits_own g clustering i u then Some 1 else ix cm i.
Proof.
  intros Hwf Hcl Hu Hlen.
  apply list_elem_of_In, elem_of_seqZ in Hu.
  destruct (ix_in_range clustering u) as [c Hc]; [lia|].
  unfold mark_own_cluster, hits_own. rewrite (load_Ok _ _ _ Hc), Hc. simpl.
  destruct (Graph.is_owned_global_node g c) eqn:Hown.
  - destruct (owned_local_cluster g c Hwf Hown) as [-> Hr].
    rewrite store_Ok by lia. eexists. split; [reflexivity|].
    split; [now rewrite zlen_insert|].
    intros i Hi. simpl. apply ix_store_mark; lia.
  - exists cm. simpl. auto.
Qed.

Lemma mark_received_cluster_step checked g cm nd :
  Graph.wf g -> Graph.is_owned_global_node g (GlobalNode.u nd) = true ->
  zlen cm = Graph.n g ->
  exists cm', mark_received_cluster checked g cm nd = Ok cm'
    /\ zlen cm' = Graph.n g
    /\ forall i, 0 <= i < Graph.n g ->
         ix cm' i = if hits_received g i nd then Some 1 else ix cm i.
Proof.
  intros Hwf Hown Hlen.
  unfold mark_received_cluster, hits_received. rewrite Hown, KASSERT_true. simpl.
  destruct (owned_local_cluster g _ Hwf Hown) as [-> Hr].
  rewrite store_Ok by lia. eexists. split; [reflexivity|].
  split; [now rewrite zlen_insert|].
  intros i Hi. apply ix_store_mark; lia.
Qed.

Lemma zlen_replicate {A} (k : Z) (x : A) :
  0 <= k -> zlen (replicate (Z.to_nat k) x) = k.
Proof. intros H. unfold zlen. rewrite length_replicate. lia. Qed.

Lemma ix_replicate {A} (k i : Z) (x : A) :
  0 <= i < k -> ix (replicate (Z.to_nat k) x) i = Some x.
Proof.
  intros H. unfold ix. destruct (Z.ltb_spec i 0); [lia|].
  apply lookup_replicate_2. lia.
Qed.

Lemma ix_ext {A} (l k : list A) :
  zlen l = zlen k -> (forall i, 0 <= i < zlen l -> ix l i = ix k i) -> l = k.
Proof.
  intros Hlen H. apply list_eq. intros i.
  destruct (decide (i < length l)%nat) as [Hi|Hi].
  - rewrite <- !ix_nat. apply H. unfold zlen. lia.
  - rewrite !lookup_ge_None_2; [reflexivity| |]; unfold zlen in Hlen; lia.
Qed.

(** After the two marking loops the array holds the indicator of the
    non-empty clusters. *)
Lemma cluster_marks checked g clustering local_nodes :
  Graph.wf g -> Graph.n g <= zlen clustering ->
  Forall (fun nd => Graph.is_owned_global_node g (GlobalNode.u nd) = true)
         local_nodes ->
  exists cm,
    foldM (mark_own_cluster g clustering)
          (replicate (Z.to_nat (Graph.n g)) 0) (seqZ 0 (Graph.n g)) = Ok cm
    /\ foldM (mark_received_cluster checked g) cm local_nodes
       = Ok (map (indicator (cluster_nonempty g clustering local_nodes))
                 (seqZ 0 (Graph.n g))).
Proof.
  intros Hwf Hcl Hrecv. pose proof (Graph.wf_n g Hwf) as Hn.
  destruct (foldM_mark (mark_own_cluster g clustering)
              (fun i u => hits_own g clustering i u) (Graph.n g)
              (seqZ 0 (Graph.n g))) with (cm := replicate (Z.to_nat (Graph.n g)) 0)
    as (cm1 & E1 & L1 & H1).
  { intros cm x Hx Hlen. now apply mark_own_cluster_step. }
  { now apply zlen_replicate. }
  destruct (foldM_mark (mark_received_cluster checked g)
              (fun i nd => hits_received g i nd) (Graph.n g) local_nodes)
    with (cm := cm1) as (cm2 & E2 & L2 & H2).
  { intros cm x Hx Hlen. apply mark_received_cluster_step; auto.
    rewrite Forall_forall in Hrecv. apply Hrecv. now apply list_elem_of_In. }
  { exact L1. }
  exists cm1. split; [exact E1|]. rewrite E2. f_equal.
  apply ix_ext.
  - rewrite zlen_map, zlen_seqZ; lia.
  - intros i Hi. rewrite L2 in Hi.
    rewrite (H2 i Hi), (H1 i Hi), ix_replicate by lia.
    rewrite ix_map, ix_seqZ by lia. simpl.
    unfold indicator, cluster_nonempty.
    destruct (existsb _ local_nodes), (existsb _ (seqZ 0 (Graph.n g)));
      reflexivity.
Qed.

Lemma wrap32_pred_succ x : wrap32 (wrap32 (x - 1) + 1) = wrap32 x.
Proof.
  unfold wrap32, wrap. rewrite Zplus_mod_idemp_l. f_equal. lia.
Qed.

(** The array built by [build_lnode_to_lcnode_mapping]: marks, prefix
    sums, and the shift by one. *)
Lemma build_lnode_to_lcnode_mapping_spec
    (checked : bool) (g : Graph.t) (clustering : list Z)
    (local_nodes : list GlobalNode.t) :
  Graph.wf g ->
  Graph.n g <= zlen clustering ->
  Forall (fun nd => Graph.is_owned_global_node g (GlobalNode.u nd) = true)
         local_nodes ->
  exists lnode_to_lcnode,
    build_lnode_to_lcnode_mapping checked g clustering local_nodes
    = Ok lnode_to_lcnode
    /\ zlen lnode_to_lcnode = Graph.n g
    /\ coarse_n lnode_to_lcnode
       = zlen (nonempty_clusters g clustering local_nodes)
    /\ (forall i, 0 <= i < Graph.n g ->
          cluster_nonempty g clustering local_nodes i = true ->
          exists c, ix lnode_to_lcnode i = Some c
                    /\ 0 <= c < coarse_n lnode_to_lcnode
                    /\ ix (nonempty_clusters g clustering local_nodes) c
                       = Some i)
    /\ (nonempty_clusters g clustering local_nodes = [] ->
        0 < Graph.n g ->
        (forall i, 0 <= i < Graph.n g ->
           ix lnode_to_lcnode i = Some (2 ^ 32 - 1))
        /\ wrap32 (2 ^ 32 - 1 + 1) = 0
        /\ coarse_n lnode_to_lcnode = 0).
Proof.
  intros Hwf Hcl Hrecv.
  destruct (cluster_marks checked g clustering local_nodes Hwf Hcl Hrecv)
    as (cm & E1 & E2).
  pose proof (Graph.wf_n g Hwf) as Hn.
  pose proof (Graph.wf_total g Hwf) as Ht.
  pose proof (Graph.wf_ghost_n g Hwf) as Hgn.
  set (p := cluster_nonempty g clustering local_nodes) in *.
  set (marks := map (indicator p) (seqZ 0 (Graph.n g))) in *.
  assert (Hsum : forall k, 0 <= k <= Graph.n g ->
            sumZ (map (indicator p) (seqZ 0 k))
            = zlen (List.filter p (seqZ 0 k))
            /\ 0 <= zlen (List.filter p (seqZ 0 k)) <= k).
  { intros k Hk. split; [apply sumZ_indicator|].
    pose proof (filter_length_le p (seqZ 0 k)).
    rewrite zlen_seqZ in H by lia.
    pose proof (zlen_nonneg (List.filter p (seqZ 0 k))). lia. }
  assert (Hps : prefix_sum 32 marks = psums 0 marks).
  { apply prefix_sum_from_nowrap; [lia|apply indicator_nonneg|].
    unfold marks. destruct (Hsum (Graph.n g)) as [-> ?]; lia. }
  assert (Hlen : zlen marks = Graph.n g).
  { unfold marks. rewrite zlen_map, zlen_seqZ; lia. }
  assert (Hentry : forall i, 0 <= i < Graph.n g ->
            ix (map (fun x => wrap32 (x - 1)) (psums 0 marks)) i
            = Some (wrap32 (zlen (List.filter p (seqZ 0 (i + 1))) - 1))).
  { intros i Hi. rewrite ix_map.
    replace i with (Z.of_nat (Z.to_nat i)) at 1 by lia.
    rewrite ix_nat, psums_lookup by (unfold zlen in Hlen; lia).
    simpl. do 2 f_equal.
    unfold marks. rewrite firstn_map, take_seqZ by lia.
    replace (Z.of_nat (S (Z.to_nat i))) with (i + 1) by lia.
    destruct (Hsum (i + 1)) as [-> _]; lia. }
  assert (Hcn : coarse_n (map (fun x => wrap32 (x - 1)) (psums 0 marks))
                = zlen (List.filter p (seqZ 0 (Graph.n g)))).
  { unfold coarse_n, back.
    destruct (decide (Graph.n g = 0)) as [E0|Hpos].
    - unfold marks. rewrite E0. reflexivity.
    - assert (marks <> []) as Hne.
      { intros E. rewrite E in Hlen. unfold zlen in Hlen. simpl in Hlen. lia. }
      rewrite fmap_last, last_psums by exact Hne. simpl.
      rewrite wrap32_pred_succ. unfold marks.
      destruct (Hsum (Graph.n g)) as [-> ?]; [lia|].
      apply wrap32_small. lia. }
  exists (map (fun x => wrap32 (x - 1)) (psums 0 marks)).
  split; [|split; [|split; [|split]]].
  - unfold build_lnode_to_lcnode_mapping. rewrite E1. simpl.
    rewrite E2. simpl. fold marks. now rewrite Hps.
  - rewrite zlen_map. unfold zlen. rewrite length_psums. exact Hlen.
  - exact Hcn.
  - intros i Hi Hp. eexists. split; [apply Hentry; lia|].
    rewrite Hcn.
    assert (Hsplit : List.filter p (seqZ 0 (i + 1))
                     = List.filter p (seqZ 0 i) ++ [i]).
    { rewrite (seqZ_split 0 (i + 1) i) by lia.
      rewrite List.filter_app. f_equal.
      replace (i + 1 - i) with 1 by lia.
      rewrite Z.add_0_l, (seqZ_cons i) by lia. simpl. now rewrite Hp. }
    rewrite Hsplit, zlen_app.
    change (zlen [i]) with 1.
    destruct (Hsum i) as [_ Hr]; [lia|].
    replace (zlen (List.filter p (seqZ 0 i)) + 1 - 1)
      with (zlen (List.filter p (seqZ 0 i))) by lia.
    rewrite wrap32_small by lia.
    pose proof (filter_seqZ_position p (Graph.n g) i Hi Hp) as Hpos.
    split; [|exact Hpos].
    apply ix_Some_range in Hpos. lia.
  - intros Hnil Hpos. unfold nonempty_clusters in Hnil. fold p in Hnil.
    split; [|split].
    + intros i Hi. rewrite Hentry by lia.
      assert (List.filter p (seqZ 0 (i + 1)) = []) as ->.
      { rewrite (seqZ_split 0 (Graph.n g) (i + 1)) in Hnil by lia.
        rewrite List.filter_app in Hnil.
        now apply app_eq_nil in Hnil as [-> _]. }
      reflexivity.
    + reflexivity.
    + rewrite Hcn, Hnil. reflexivity.
Qed.

(** C6.  [build_lnode_to_lcnode_mapping] returns an array over the
    local cluster indices that sends every non-empty cluster to its
    position in the increasing list of the non-empty clusters (a dense
    numbering), and the number [c_n] of coarse nodes computed from its
    last entry is the number of non-empty clusters.  When no cluster is
    non-empty and [n > 0], all entries are [0 - 1 = 2^32 - 1] and
    [c_n = (2^32 - 1) + 1] wraps to 0. *)
Theorem coarse_n_counts_nonempty_clusters
    (checked : bool) (g : Graph.t) (clustering : list Z)
    (local_nodes : list GlobalNode.t) :
  Graph.wf g ->
  Graph.n g <= zlen clustering ->
  Forall (fun nd => Graph.is_owned_global_node g (GlobalNode.u nd) = true)
         local_nodes ->
  exists lnode_to_lcnode,
    build_lnode_to_lcnode_mapping checked g clustering local_nodes
    = Ok lnode_to_lcnode
    /\ zlen lnode_to_lcnode = Graph.n g
    /\ coarse_n lnode_to_lcnode
       = zlen (nonempty_clusters g clustering local_nodes)
    /\ (forall i, 0 <= i < Graph.n g ->
          cluster_nonempty g clustering local_nodes i = true ->
          exists c, ix lnode_to_lcnode i = Some c
                    /\ 0 <= c < coarse_n lnode_to_lcnode
                    /\ ix (nonempty_clusters g clustering local_nodes) c
                       = Some i)
    /\ (nonempty_clusters g clustering local_nodes = [] ->
        0 < Graph.n g ->
        (forall i, 0 <= i < Graph.n g ->
           ix lnode_to_lcnode i = Some (2 ^ 32 - 1))
        /\ wrap32 (2 ^ 32 - 1 + 1) = 0
        /\ coarse_n lnode_to_lcnode = 0).
Proof. exact (build_lnode_to_lcnode_mapping_spec checked g clustering local_nodes). Qed.

(** On [g_ghost] with both owned nodes assigned to the cluster 2 of the
    other process no cluster is non-empty: every entry of the array is
    [2^32 - 1] and [c_n] wraps to 0. *)
Lemma coarse_n_counts_nonempty_clusters_witness :
  exists lnode_to_lcnode,
    build_lnode_to_lcnode_mapping true Examples.g_ghost [2; 2; 2] []
    = Ok lnode_to_lcnode
    /\ lnode_to_lcnode = [2 ^ 32 - 1; 2 ^ 32 - 1]
    /\ coarse_n lnode_to_lcnode = 0.
Proof.
  destruct (coarse_n_counts_nonempty_clusters true Examples.g_ghost [2; 2; 2] []
              g_ghost_wf ltac:(vm_compute; discriminate) ltac:(constructor))
    as (m & E & Hlen & Hcn & _ & Hzero).
  exists m. split; [exact E|].
  destruct (Hzero eq_refl eq_refl) as (Hall & _ & Hc).
  split; [|exact Hc].
  apply ix_ext; [rewrite Hlen; reflexivity|].
  intros i Hi. rewrite Hlen in Hi. rewrite Hall by exact Hi.
  change (Graph.n Examples.g_ghost) with 2 in Hi.
  assert (i = 0 \/ i = 1) as [-> | ->] by lia; reflexivity.
Defined.

(** ** Phase B: deduplication of the edge records *)

Lemma bind_Ok {A B} (m : outcome A) (k : A -> outcome B) (a : A) :
  m = Ok a -> (m ≫= k) = k a.
Proof. now intros ->. Qed.

Lemma bind_inv {A B} (m : outcome A) (k : A -> outcome B) (b : B) :
  (m ≫= k) = Ok b -> exists a, m = Ok a /\ k a = Ok b.
Proof. destruct m; simpl; intros H; try discriminate. eauto. Qed.

(** The list that the position buffer and the accumulation loop
    compute from a sorted list: every maximal run of records with the
    same source and target becomes one record with the (wrapped) sum of
    the weights. *)
Fixpoint coalesce_from (cur : GlobalEdge.t) (l : list GlobalEdge.t)
  : list GlobalEdge.t :=
  match l with
  | [] => [cur]
  | e :: l' =>
      if starts_block cur e
      then cur :: coalesce_from
                    (GlobalEdge.mk (GlobalEdge.u e) (GlobalEdge.v e)
                                   (wadd 0 (GlobalEdge.weight e))) l'
      else coalesce_from
             (GlobalEdge.mk (GlobalEdge.u e) (GlobalEdge.v e)
                            (wadd (GlobalEdge.weight cur)
                                  (GlobalEdge.weight e))) l'
  end.

Definition coalesce (l : list GlobalEdge.t) : list GlobalEdge.t :=
  match l with
  | [] => []
  | e :: l' =>
      coalesce_from (GlobalEdge.mk (GlobalEdge.u e) (GlobalEdge.v e)
                                   (wadd 0 (GlobalEdge.weight e))) l'
  end.

Definition same_key (a b : GlobalEdge.t) : Prop :=
  GlobalEdge.u a = GlobalEdge.u b /\ GlobalEdge.v a = GlobalEdge.v b.

Lemma starts_block_same_key a b e :
  same_key a b -> starts_block a e = starts_block b e.
Proof. intros [Hu Hv]. unfold starts_block. now rewrite Hu, Hv. Qed.

Lemma mark_blocks_from_nonneg prev l :
  Forall (fun x => 0 <= x) (mark_blocks_from prev l).
Proof.
  revert prev. induction l as [|e l IH]; intros prev; simpl; constructor.
  - destruct (starts_block prev e); lia.
  - apply IH.
Qed.

Lemma sum_mark_blocks_from_le prev l :
  0 <= sumZ (mark_blocks_from prev l) <= zlen l.
Proof.
  revert prev. induction l as [|e l IH]; intros prev; unfold zlen; simpl.
  - lia.
  - specialize (IH e). unfold zlen in IH.
    destruct (starts_block prev e); lia.
Qed.

Lemma length_mark_blocks_from prev l :
  length (mark_blocks_from prev l) = length l.
Proof. revert prev. induction l; intros; simpl; auto. Qed.

Lemma ix_app_l {A} (l k : list A) i :
  0 <= i < zlen l -> ix (l ++ k) i = ix l i.
Proof.
  intros H. unfold ix, zlen in *. destruct (Z.ltb_spec i 0); [lia|].
  apply lookup_app_l. lia.
Qed.

Lemma ix_app_r {A} (l k : list A) i :
  zlen l <= i -> ix (l ++ k) i = ix k (i - zlen l).
Proof.
  intros H. pose proof (zlen_nonneg l). unfold ix, zlen in *.
  destruct (Z.ltb_spec i 0), (Z.ltb_spec (i - Z.of_nat (length l)) 0); try lia.
  rewrite lookup_app_r by lia. f_equal. lia.
Qed.

Lemma insert_app_middle {A} (l k : list A) (x y : A) :
  <[Z.to_nat (zlen l) := y]> (l ++ x :: k) = l ++ y :: k.
Proof.
  unfold zlen. rewrite Nat2Z.id.
  replace (length l) with (length l + 0)%nat by lia.
  now rewrite insert_app_r.
Qed.

Lemma accumulate_edge_Ok tmp e pos old :
  ix tmp pos = Some old ->
  accumulate_edge tmp (e, pos)
  = Ok (<[Z.to_nat pos :=
           GlobalEdge.mk (GlobalEdge.u e) (GlobalEdge.v e)
             (wadd (GlobalEdge.weight old) (GlobalEdge.weight e))]> tmp).
Proof.
  intros H. unfold accumulate_edge. simpl.
  rewrite (load_Ok _ _ _ H). simpl.
  apply store_Ok. eapply ix_Some_range, H.
Qed.

(** The accumulation loop from the middle of the list on: [done] holds
    the finished blocks, [cur] the record of the current block and
    [zeros] the cells of the blocks to come. *)
Lemma accumulate_from (l : list GlobalEdge.t) :
  forall (prev cur : GlobalEdge.t) (done zeros : list GlobalEdge.t),
    same_key prev cur ->
    zeros = replicate (Z.to_nat (sumZ (mark_blocks_from prev l)))
                      (GlobalEdge.mk 0 0 0) ->
    foldM accumulate_edge (done ++ cur :: zeros)
          (zip l (psums (zlen done) (mark_blocks_from prev l)))
    = Ok (done ++ coalesce_from cur l).
Proof.
  induction l as [|e l IH]; intros prev cur done zeros Hkey Hzeros.
  - simpl in *. now subst zeros.
  - simpl mark_blocks_from in *. simpl psums. simpl zip. simpl foldM.
    simpl coalesce_from.
    rewrite <- (starts_block_same_key prev cur e Hkey).
    pose proof (sum_mark_blocks_from_le e l) as Hsum.
    destruct (starts_block prev e) eqn:Hsb.
    + (* a new block *)
      simpl sumZ in Hzeros.
      replace (Z.to_nat (1 + sumZ (mark_blocks_from e l)))
        with (S (Z.to_nat (sumZ (mark_blocks_from e l)))) in Hzeros by lia.
      simpl in Hzeros. subst zeros.
      rewrite (accumulate_edge_Ok _ _ _ (GlobalEdge.mk 0 0 0)).
      2:{ rewrite ix_app_r by lia.
          replace (zlen done + 1 - zlen done) with 1 by lia. reflexivity. }
      simpl.
      replace (done ++ cur :: GlobalEdge.mk 0 0 0 :: replicate
                 (Z.to_nat (sumZ (mark_blocks_from e l))) (GlobalEdge.mk 0 0 0))
        with ((done ++ [cur]) ++ GlobalEdge.mk 0 0 0 :: replicate
                 (Z.to_nat (sumZ (mark_blocks_from e l))) (GlobalEdge.mk 0 0 0))
        by now rewrite <- app_assoc.
      replace (zlen done + 1) with (zlen (done ++ [cur]))
        by (rewrite zlen_app; reflexivity).
      rewrite insert_app_middle.
      rewrite (IH e (GlobalEdge.mk (GlobalEdge.u e) (GlobalEdge.v e)
                                   (wadd 0 (GlobalEdge.weight e)))
                 (done ++ [cur]) _ (conj eq_refl eq_refl) eq_refl).
      now rewrite <- app_assoc.
    + (* the current block goes on *)
      simpl sumZ in Hzeros. rewrite Z.add_0_l in Hzeros. subst zeros.
      rewrite Z.add_0_r.
      rewrite (accumulate_edge_Ok _ _ _ cur).
      2:{ rewrite ix_app_r by lia. rewrite Z.sub_diag. reflexivity. }
      simpl. rewrite insert_app_middle.
      apply (IH e (GlobalEdge.mk (GlobalEdge.u e) (GlobalEdge.v e)
                     (wadd (GlobalEdge.weight cur) (GlobalEdge.weight e)))
                done _ (conj eq_refl eq_refl) eq_refl).
Qed.

Lemma parallel_sort_Permutation {A} (less : A -> A -> bool) l :
  parallel_sort less l ≡ₚ l.
Proof. apply merge_sort_Permutation. Qed.

Lemma parallel_sort_length {A} (less : A -> A -> bool) l :
  length (parallel_sort less l) = length l.
Proof. apply Permutation_length, parallel_sort_Permutation. Qed.

(** [deduplicate_edge_list] sorts the records and coalesces the runs
    of equal source and target. *)
Lemma deduplicate_edge_list_coalesce (edges : list GlobalEdge.t) :
  zlen edges < 2 ^ 32 ->
  deduplicate_edge_list edges
  = Ok (coalesce (parallel_sort edge_less edges)).
Proof.
  intros Hlen. unfold deduplicate_edge_list.
  destruct edges as [|e0 edges0]; [reflexivity|].
  remember (e0 :: edges0) as edges eqn:Hedges.
  destruct (parallel_sort edge_less edges) as [|e l] eqn:Hsort.
  { apply (f_equal length) in Hsort.
    rewrite parallel_sort_length, Hedges in Hsort. discriminate. }
  assert (Hl : zlen (e :: l) = zlen edges).
  { unfold zlen. now rewrite <- Hsort, parallel_sort_length. }
  unfold zlen in Hl. simpl length in Hl.
  pose proof (sum_mark_blocks_from_le e l) as Hsum. unfold zlen in Hsum.
  unfold zlen in Hlen.
  assert (Hps : prefix_sum 32 (mark_blocks (e :: l))
                = 0 :: psums 0 (mark_blocks_from e l)).
  { unfold prefix_sum. rewrite prefix_sum_from_nowrap.
    - reflexivity.
    - lia.
    - constructor; [lia|apply mark_blocks_from_nonneg].
    - simpl. lia. }
  rewrite Hps.
  assert (Hback : back (0 :: psums 0 (mark_blocks_from e l))
                  = Some (sumZ (mark_blocks_from e l))).
  { unfold back. destruct (mark_blocks_from e l) as [|x k] eqn:E.
    - reflexivity.
    - change (psums 0 (x :: k)) with ((0 + x) :: psums (0 + x) k).
      rewrite last_cons_cons.
      change ((0 + x) :: psums (0 + x) k) with (psums 0 (x :: k)).
      rewrite last_psums by congruence. now rewrite Z.add_0_l. }
  rewrite Hback. simpl.
  rewrite wrap32_small by lia.
  replace (Z.to_nat (sumZ (mark_blocks_from e l) + 1))
    with (S (Z.to_nat (sumZ (mark_blocks_from e l)))) by lia.
  simpl replicate. simpl zip. simpl foldM.
  rewrite (accumulate_edge_Ok _ _ _ (GlobalEdge.mk 0 0 0)) by reflexivity.
  simpl.
  apply (accumulate_from l e
           (GlobalEdge.mk (GlobalEdge.u e) (GlobalEdge.v e)
                          (wadd 0 (GlobalEdge.weight e)))
           [] _ (conj eq_refl eq_refl) eq_refl).
Qed.

(** *** Order and keys of the coalesced list *)

Definition key_le (a b : GlobalEdge.t) : Prop := not_after edge_less a b.

Definition key_lt (a b : GlobalEdge.t) : Prop := edge_less a b = true.

Lemma edge_less_spec a b :
  edge_less a b = true <->
  GlobalEdge.u a < GlobalEdge.u b
  \/ (GlobalEdge.u a = GlobalEdge.u b /\ GlobalEdge.v a < GlobalEdge.v b).
Proof.
  unfold edge_less.
  rewrite orb_true_iff, andb_true_iff, !Z.ltb_lt, Z.eqb_eq. tauto.
Qed.

Lemma key_le_spec a b :
  key_le a b <->
  GlobalEdge.u a < GlobalEdge.u b
  \/ (GlobalEdge.u a = GlobalEdge.u b /\ GlobalEdge.v a <= GlobalEdge.v b).
Proof.
  unfold key_le, not_after.
  rewrite <- not_true_iff_false, edge_less_spec. lia.
Qed.

Global Instance key_le_total : Total (not_after edge_less).
Proof.
  intros a b. fold (key_le a b). fold (key_le b a).
  rewrite !key_le_spec. lia.
Qed.

Global Instance key_le_trans : Transitive (not_after edge_less).
Proof.
  intros a b c. fold (key_le a b). fold (key_le b c). fold (key_le a c).
  rewrite !key_le_spec. lia.
Qed.

Lemma starts_block_spec a e :
  starts_block a e = false <-> same_key e a.
Proof.
  unfold starts_block, same_key.
  rewrite orb_false_iff, !negb_false_iff, !Z.eqb_eq. tauto.
Qed.

(** Every record of the coalesced list has the source and target of a
    record of the input. *)
Lemma coalesce_from_keys cur l o :
  In o (coalesce_from cur l) ->
  same_key o cur \/ exists e, In e l /\ same_key o e.
Proof.
  revert cur. induction l as [|e l IH]; intros cur Ho; simpl in Ho.
  - destruct Ho as [<-|[]]. left. split; reflexivity.
  - destruct (starts_block cur e) eqn:Hsb.
    + destruct Ho as [<-|Ho]; [left; split; reflexivity|].
      apply IH in Ho as [Hk|(e' & Hin & Hk)].
      * right. exists e. split; [now left|exact Hk].
      * right. exists e'. split; [now right|exact Hk].
    + apply IH in Ho as [Hk|(e' & Hin & Hk)].
      * right. exists e. split; [now left|exact Hk].
      * right. exists e'. split; [now right|exact Hk].
Qed.

Lemma coalesce_keys l o :
  In o (coalesce l) -> exists e, In e l /\ same_key o e.
Proof.
  destruct l as [|e l]; [intros []|]. simpl. intros Ho.
  apply coalesce_from_keys in Ho as [Hk|(e' & Hin & Hk)].
  - exists e. split; [now left|exact Hk].
  - exists e'. split; [now right|exact Hk].
Qed.

(** On a sorted list the coalesced list is strictly increasing. *)
Lemma coalesce_from_sorted cur l :
  StronglySorted key_le (cur :: l) ->
  StronglySorted key_lt (coalesce_from cur l)
  /\ Forall (fun o => key_le cur o) (coalesce_from cur l).
Proof.
  revert cur. induction l as [|e l IH]; intros cur Hs; simpl.
  - split; [repeat constructor|].
    constructor; [|constructor]. apply key_le_spec. lia.
  - apply StronglySorted_inv in Hs as [Hs Hall].
    apply StronglySorted_inv in Hs as [Hs Hall'].
    apply Forall_cons in Hall as [Hce Hcl].
    set (first := GlobalEdge.mk (GlobalEdge.u e) (GlobalEdge.v e)
                                (wadd 0 (GlobalEdge.weight e))).
    set (more := GlobalEdge.mk (GlobalEdge.u e) (GlobalEdge.v e)
                   (wadd (GlobalEdge.weight cur) (GlobalEdge.weight e))).
    assert (Hnext : forall x, GlobalEdge.u x = GlobalEdge.u e ->
              GlobalEdge.v x = GlobalEdge.v e ->
              StronglySorted key_le (x :: l)).
    { intros x Hu Hv. constructor; [exact Hs|].
      eapply Forall_impl; [exact Hall'|].
      intros y Hy. apply key_le_spec. apply key_le_spec in Hy.
      rewrite Hu, Hv. exact Hy. }
    destruct (starts_block cur e) eqn:Hsb.
    + destruct (IH first (Hnext first eq_refl eq_refl)) as [IH1 IH2].
      assert (Hlt : key_lt cur first).
      { apply edge_less_spec. apply key_le_spec in Hce.
        unfold starts_block in Hsb.
        apply orb_true_iff in Hsb.
        rewrite !negb_true_iff, !Z.eqb_neq in Hsb. simpl. lia. }
      split.
      * constructor; [exact IH1|].
        eapply Forall_impl; [exact IH2|].
        intros y Hy. apply edge_less_spec.
        apply edge_less_spec in Hlt. apply key_le_spec in Hy. lia.
      * constructor; [apply key_le_spec; lia|].
        eapply Forall_impl; [exact IH2|].
        intros y Hy. apply key_le_spec.
        apply edge_less_spec in Hlt. apply key_le_spec in Hy. lia.
    + destruct (IH more (Hnext more eq_refl eq_refl)) as [IH1 IH2].
      split; [exact IH1|].
      eapply Forall_impl; [exact IH2|].
      intros y Hy. apply key_le_spec. apply key_le_spec in Hy.
      apply key_le_spec in Hce. simpl in Hy. lia.
Qed.

Lemma coalesce_sorted l :
  StronglySorted key_le l -> StronglySorted key_lt (coalesce l).
Proof.
  destruct l as [|e l]; [constructor|]. intros Hs. simpl.
  apply coalesce_from_sorted.
  apply StronglySorted_inv in Hs as [Hs Hall].
  constructor; [exact Hs|].
  eapply Forall_impl; [exact Hall|].
  intros y Hy. apply key_le_spec. apply key_le_spec in Hy. simpl. exact Hy.
Qed.

Lemma parallel_sort_edges_sorted l :
  StronglySorted key_le (parallel_sort edge_less l).
Proof. apply StronglySorted_merge_sort; apply _. Qed.

(** ** Loops that may fail *)

Lemma omapM_Ok {A B} (f : A -> outcome B) (g : A -> B) (l : list A) :
  (forall x, In x l -> f x = Ok (g x)) -> omapM f l = Ok (map g l).
Proof.
  induction l as [|x l IH]; intros H; [reflexivity|].
  simpl. rewrite (H x (or_introl eq_refl)). simpl.
  rewrite IH by (intros y Hy; apply H; now right). reflexivity.
Qed.

Lemma omapM_inv {A B} (f : A -> outcome B) (l : list A) (ys : list B) :
  omapM f l = Ok ys -> Forall2 (fun x y => f x = Ok y) l ys.
Proof.
  revert ys. induction l as [|x l IH]; intros ys H; simpl in H.
  - inversion H. constructor.
  - apply bind_inv in H as (y & Hy & H).
    apply bind_inv in H as (ys' & Hys & H). inversion H; subst.
    constructor; auto.
Qed.

Lemma omapM_Forall {A B} (f : A -> outcome B) (P : B -> Prop) (l : list A) ys :
  omapM f l = Ok ys -> (forall x y, In x l -> f x = Ok y -> P y) ->
  Forall P ys.
Proof.
  intros H HP. apply omapM_inv in H.
  induction H as [|x y l ys Hxy H IH]; constructor.
  - eapply HP; [now left|exact Hxy].
  - apply IH. intros x' y' Hin. apply HP. now right.
Qed.

Lemma omapM_exists {A B} (f : A -> outcome B) (P : A -> B -> Prop)
    (l : list A) :
  (forall x, In x l -> exists y, f x = Ok y /\ P x y) ->
  exists ys, omapM f l = Ok ys /\ Forall2 P l ys.
Proof.
  induction l as [|x l IH]; intros H.
  - exists []. split; [reflexivity|constructor].
  - destruct (H x (or_introl eq_refl)) as (y & Hy & HP).
    destruct IH as (ys & Hys & HF); [intros z Hz; apply H; now right|].
    exists (y :: ys). simpl. rewrite Hy. simpl. rewrite Hys. simpl.
    split; [reflexivity|now constructor].
Qed.

Lemma omapM_length {A B} (f : A -> outcome B) l ys :
  omapM f l = Ok ys -> length ys = length l.
Proof. intros H%omapM_inv. symmetry. eapply Forall2_length, H. Qed.

Lemma omapM_ix {A B} (f : A -> outcome B) l ys i x :
  omapM f l = Ok ys -> ix l i = Some x ->
  exists y, ix ys i = Some y /\ f x = Ok y.
Proof.
  intros H%omapM_inv Hx. unfold ix in *.
  destruct (i <? 0); [discriminate|].
  destruct (Forall2_lookup_l _ _ _ _ _ H Hx) as (y & Hy & Hf). eauto.
Qed.

Lemma omapM_ix_r {A B} (f : A -> outcome B) l ys i y :
  omapM f l = Ok ys -> ix ys i = Some y ->
  exists x, ix l i = Some x /\ f x = Ok y.
Proof.
  intros H%omapM_inv Hy. unfold ix in *.
  destruct (i <? 0); [discriminate|].
  destruct (Forall2_lookup_r _ _ _ _ _ H Hy) as (x & Hx & Hf). eauto.
Qed.

Lemma foldM_app {A B} (f : A -> B -> outcome A) a l k :
  foldM f a (l ++ k) = (foldM f a l ≫= fun a' => foldM f a' k).
Proof.
  revert a. induction l as [|x l IH]; intros a; simpl; [reflexivity|].
  destruct (f a x); simpl; auto.
Qed.

(** An invariant of a loop that returns. *)
Lemma foldM_invariant {A B} (f : A -> B -> outcome A) (P : A -> Prop)
    (l : list B) a b :
  foldM f a l = Ok b -> P a ->
  (forall a x a', In x l -> P a -> f a x = Ok a' -> P a') -> P b.
Proof.
  revert a. induction l as [|x l IH]; intros a H Ha Hstep; simpl in H.
  - inversion H; subst. exact Ha.
  - apply bind_inv in H as (a1 & H1 & H).
    eapply IH; [exact H| |].
    + eapply Hstep; [now left|exact Ha|exact H1].
    + intros a2 y a3 Hy. apply Hstep. now right.
Qed.

(** A loop all of whose steps succeed while an invariant holds. *)
Lemma foldM_total {A B} (f : A -> B -> outcome A) (P : A -> Prop)
    (l : list B) a :
  P a ->
  (forall a x, In x l -> P a -> exists a', f a x = Ok a' /\ P a') ->
  exists b, foldM f a l = Ok b /\ P b.
Proof.
  revert a. induction l as [|x l IH]; intros a Ha Hstep.
  - exists a. auto.
  - destruct (Hstep a x (or_introl eq_refl) Ha) as (a1 & H1 & P1).
    destruct (IH a1 P1) as (b & Hb & Pb).
    { intros a2 y Hy. apply Hstep. now right. }
    exists b. simpl. rewrite H1. auto.
Qed.

(** ** Well-formed worlds *)

(** The owner of a global node in the distribution [D]. *)
Definition owner_of (D : list Z) (c : Z) : Z :=
  Graph.upper_bound (tail D) c.

Definition total_nodes (D : list Z) : Z := List.last D 0.

(** The global identifier of the local node [x] of a graph. *)
Definition global_of (g : Graph.t) (x : Z) : Z :=
  if x <? Graph.n g then Graph.offset_n g + x
  else default 0 (ix (Graph._ghost_to_global g) (x - Graph.n g)).

(** A process of a distributed graph with node distribution [D], whose
    clustering array is the restriction of the global clustering [GC]
    to the local nodes. *)
Record valid_pe (D : list Z) (GC : Z -> Z) (r : Z) (pe : PE) : Prop := {
  vp_wf : Graph.wf (graph pe);
  vp_rank : Graph.rank (graph pe) = r;
  vp_dist : Graph._node_distribution (graph pe) = D;
  vp_offset : ix D r = Some (Graph.offset_n (graph pe));
  vp_next :
    ix D (r + 1) = Some (Graph.offset_n (graph pe) + Graph.n (graph pe));
  vp_global_n : Graph.global_n (graph pe) = total_nodes D;
  vp_nodes_len : zlen (Graph._nodes (graph pe)) = Graph.n (graph pe) + 1;
  vp_nodes :
    Forall (fun x => 0 <= x <= zlen (Graph._edges (graph pe)))
           (Graph._nodes (graph pe));
  vp_nodes_sorted : StronglySorted Z.le (Graph._nodes (graph pe));
  vp_edges :
    Forall (fun v => 0 <= v < Graph.total_n (graph pe))
           (Graph._edges (graph pe));
  vp_edge_weights :
    Graph._edge_weights (graph pe) = []
    \/ zlen (Graph._edge_weights (graph pe))
       = zlen (Graph._edges (graph pe));
  vp_ghosts_len :
    zlen (Graph._ghost_to_global (graph pe)) = Graph.ghost_n (graph pe);
  vp_ghosts :
    Forall (fun gl => 0 <= gl < total_nodes D
                      /\ Graph.is_owned_global_node (graph pe) gl = false)
           (Graph._ghost_to_global (graph pe));
  vp_clustering_len :
    zlen (lnode_to_gcluster pe) = Graph.total_n (graph pe);
  vp_clustering :
    forall x, 0 <= x < Graph.total_n (graph pe) ->
      ix (lnode_to_gcluster pe) x = Some (GC (global_of (graph pe) x))
}.

Record valid_world (D : list Z) (GC : Z -> Z) (w : World) : Prop := {
  vw_size : 0 < comm_size w;
  vw_D_len : zlen D = comm_size w + 1;
  vw_D_first : ix D 0 = Some 0;
  vw_D_sorted : StronglySorted Z.le D;
  vw_GC : forall v, 0 <= v < total_nodes D -> 0 <= GC v < total_nodes D;
  vw_pe : forall r pe, ix w r = Some pe -> valid_pe D GC r pe
}.

(** The number of edge entries of all processes. *)
Definition total_edges (w : World) : Z :=
  sumZ (map (fun pe => zlen (Graph._edges (graph pe))) w).

(** The graph is small enough for its 32-bit identifiers: as
    [build_distribution] sums the coarse node counts in an [unsigned
    int], and the buckets mix node identifiers and positions of
    received edges, the numbers of nodes and edges must fit together. *)
Definition small_world (D : list Z) (w : World) : Prop :=
  total_nodes D + total_edges w < 2 ^ 32.

(** ** The distribution *)

Lemma ix_cons {A} (x : A) l i : 0 < i -> ix (x :: l) i = ix l (i - 1).
Proof.
  intros H. unfold ix.
  destruct (Z.ltb_spec i 0), (Z.ltb_spec (i - 1) 0); try lia.
  replace (Z.to_nat i) with (S (Z.to_nat (i - 1))) by lia. reflexivity.
Qed.

Lemma ix_0 {A} (x : A) l : ix (x :: l) 0 = Some x.
Proof. reflexivity. Qed.

Lemma ix_tail {A} (l : list A) i : 0 <= i -> ix (tail l) i = ix l (i + 1).
Proof.
  intros H. destruct l as [|x l].
  - unfold ix. simpl. destruct (i <? 0), (i + 1 <? 0); auto.
  - simpl. rewrite ix_cons by lia. f_equal. lia.
Qed.

Lemma ix_In {A} (l : list A) i x : ix l i = Some x -> In x l.
Proof.
  unfold ix. destruct (i <? 0); [discriminate|].
  intros H. apply list_elem_of_In. eapply list_elem_of_lookup_2, H.
Qed.

Lemma In_ix {A} (l : list A) x :
  In x l -> exists i, 0 <= i < zlen l /\ ix l i = Some x.
Proof.
  intros H. apply list_elem_of_In, list_elem_of_lookup_1 in H as (k & Hk).
  exists (Z.of_nat k). rewrite ix_nat. split; [|exact Hk].
  apply lookup_lt_Some in Hk. unfold zlen. lia.
Qed.

Lemma sorted_ix_le (l : list Z) i j a b :
  StronglySorted Z.le l -> i <= j ->
  ix l i = Some a -> ix l j = Some b -> a <= b.
Proof.
  intros Hs. revert i j.
  induction Hs as [|x l Hs IH Hall]; intros i j Hij Ha Hb.
  - unfold ix in Ha. destruct (i <? 0); discriminate.
  - pose proof (ix_Some_range _ _ _ Ha) as Hi.
    pose proof (ix_Some_range _ _ _ Hb) as Hj.
    destruct (decide (i = 0)) as [->|Hi0].
    + rewrite ix_0 in Ha. inversion Ha; subst x.
      destruct (decide (j = 0)) as [->|Hj0].
      * rewrite ix_0 in Hb. inversion Hb. lia.
      * rewrite ix_cons in Hb by lia. apply ix_In in Hb.
        rewrite Forall_forall in Hall. apply Hall. now apply list_elem_of_In.
    + rewrite ix_cons in Ha, Hb by lia. eapply (IH (i - 1) (j - 1)); eauto; lia.
Qed.

Lemma upper_bound_range l c : 0 <= Graph.upper_bound l c <= zlen l.
Proof.
  induction l as [|x l IH]; unfold zlen in *; simpl; [lia|].
  destruct (c <? x); lia.
Qed.

Lemma upper_bound_before l c j x :
  0 <= j < Graph.upper_bound l c -> ix l j = Some x -> x <= c.
Proof.
  revert j. induction l as [|y l IH]; intros j Hj Hx; simpl in Hj; [lia|].
  revert Hj. destruct (Z.ltb_spec c y); intros Hj; [lia|].
  destruct (decide (j = 0)) as [->|Hj0].
  - rewrite ix_0 in Hx. inversion Hx. lia.
  - rewrite ix_cons in Hx by lia. apply (IH (j - 1)); [lia|exact Hx].
Qed.

Lemma upper_bound_at l c x :
  ix l (Graph.upper_bound l c) = Some x -> c < x.
Proof.
  induction l as [|y l IH]; simpl.
  - unfold ix. simpl. discriminate.
  - destruct (Z.ltb_spec c y).
    + rewrite ix_0. inversion 1. lia.
    + pose proof (upper_bound_range l c).
      rewrite ix_cons by lia.
      replace (1 + Graph.upper_bound l c - 1) with (Graph.upper_bound l c) by lia.
      exact IH.
Qed.

Lemma upper_bound_unique l c p x :
  StronglySorted Z.le l ->
  (forall j y, 0 <= j < p -> ix l j = Some y -> y <= c) ->
  ix l p = Some x -> c < x ->
  Graph.upper_bound l c = p.
Proof.
  intros Hs Hbefore Hx Hlt.
  pose proof (upper_bound_range l c) as Hr.
  pose proof (ix_Some_range _ _ _ Hx) as Hp.
  destruct (Z.lt_trichotomy (Graph.upper_bound l c) p) as [H|[H|H]]; [|exact H|].
  - destruct (ix_in_range l (Graph.upper_bound l c)) as [y Hy]; [lia|].
    pose proof (upper_bound_at l c y Hy).
    pose proof (Hbefore (Graph.upper_bound l c) y ltac:(lia) Hy). lia.
  - pose proof (upper_bound_before l c p x ltac:(lia) Hx). lia.
Qed.

Lemma last_ix {A} (l : list A) (d : A) :
  l <> [] -> ix l (zlen l - 1) = Some (List.last l d).
Proof.
  intros Hne. destruct (exists_last Hne) as (l' & x & ->).
  rewrite List.last_last, zlen_app. change (zlen [x]) with 1.
  rewrite ix_app_r by lia.
  replace (zlen l' + 1 - 1 - zlen l') with 0 by lia. reflexivity.
Qed.

Section Distribution.

Variables (D : list Z) (GC : Z -> Z) (w : World).
Hypothesis Hvalid : valid_world D GC w.

Lemma D_nonempty : D <> [].
Proof.
  intros E. pose proof (vw_D_len _ _ _ Hvalid) as H.
  pose proof (vw_size _ _ _ Hvalid). rewrite E in H. unfold zlen in H.
  simpl in H. lia.
Qed.

Lemma D_last : ix D (comm_size w) = Some (total_nodes D).
Proof.
  pose proof (last_ix D 0 D_nonempty) as H.
  rewrite (vw_D_len _ _ _ Hvalid) in H.
  replace (comm_size w + 1 - 1) with (comm_size w) in H by lia. exact H.
Qed.

Lemma D_entry p : 0 <= p <= comm_size w -> exists d, ix D p = Some d.
Proof.
  intros Hp. apply ix_in_range. rewrite (vw_D_len _ _ _ Hvalid). lia.
Qed.

Lemma D_nonneg p d : ix D p = Some d -> 0 <= d <= total_nodes D.
Proof.
  intros Hd. pose proof (ix_Some_range _ _ _ Hd) as Hr.
  rewrite (vw_D_len _ _ _ Hvalid) in Hr.
  split.
  - eapply (sorted_ix_le D 0 p); eauto using vw_D_sorted, vw_D_first. lia.
  - eapply (sorted_ix_le D p (comm_size w));
      eauto using vw_D_sorted, D_last. lia.
Qed.

(** The owner of a global node is the process whose range contains it. *)
Lemma owner_of_spec c :
  0 <= c < total_nodes D ->
  0 <= owner_of D c < comm_size w
  /\ exists a b, ix D (owner_of D c) = Some a
                 /\ ix D (owner_of D c + 1) = Some b /\ a <= c < b.
Proof.
  intros Hc. unfold owner_of.
  pose proof (upper_bound_range (tail D) c) as Hr.
  assert (Hlen : zlen (tail D) = comm_size w).
  { pose proof (vw_D_len _ _ _ Hvalid) as HD. pose proof D_nonempty as Hne.
    revert HD Hne. generalize D. intros [|d D'] HD Hne; [congruence|].
    unfold zlen in *. cbn [length tail] in *. lia. }
  rewrite Hlen in Hr.
  set (p := Graph.upper_bound (tail D) c) in *.
  assert (Hp : p < comm_size w).
  { destruct (decide (p = comm_size w)) as [E|]; [|lia].
    pose proof D_last as Hl.
    pose proof (vw_size _ _ _ Hvalid).
    assert (ix (tail D) (comm_size w - 1) = Some (total_nodes D)) as Ht.
    { rewrite ix_tail by lia.
      now replace (comm_size w - 1 + 1) with (comm_size w) by lia. }
    pose proof (upper_bound_before (tail D) c (comm_size w - 1) _
                  ltac:(fold p; lia) Ht). lia. }
  split; [lia|].
  destruct (D_entry p) as [a Ha]; [lia|].
  destruct (D_entry (p + 1)) as [b Hb]; [lia|].
  exists a, b. split; [exact Ha|]. split; [exact Hb|].
  split.
  - destruct (decide (p = 0)) as [E|Hne].
    + rewrite E, (vw_D_first _ _ _ Hvalid) in Ha. inversion Ha. lia.
    + apply (upper_bound_before (tail D) c (p - 1)); [fold p; lia|].
      rewrite ix_tail by lia. now replace (p - 1 + 1) with p by lia.
  - apply (upper_bound_at (tail D) c). fold p. now rewrite ix_tail by lia.
Qed.

Lemma owner_of_unique c p a b :
  ix D p = Some a -> ix D (p + 1) = Some b -> a <= c < b -> 0 <= p ->
  owner_of D c = p.
Proof.
  intros Ha Hb Hc Hp. unfold owner_of.
  apply (upper_bound_unique (tail D) c p b).
  - pose proof (vw_D_sorted _ _ _ Hvalid) as Hs.
    destruct D; [constructor|]. simpl. now apply StronglySorted_inv in Hs.
  - intros j y Hj Hy. rewrite ix_tail in Hy by lia.
    pose proof (sorted_ix_le D (j + 1) p y a (vw_D_sorted _ _ _ Hvalid)
                  ltac:(lia) Hy Ha). lia.
  - now rewrite ix_tail by lia.
  - lia.
Qed.

End Distribution.

(** ** Reading a well-formed graph *)

Definition cluster_at (pe : PE) (x : Z) : Z :=
  default 0 (ix (lnode_to_gcluster pe) x).

Definition weight_of_node (g : Graph.t) (u : Z) : Z :=
  if Graph.is_node_weighted g then default 0 (ix (Graph._node_weights g) u)
  else 1.

Definition weight_of_edge (g : Graph.t) (e : Z) : Z :=
  if Graph.is_edge_weighted g then default 0 (ix (Graph._edge_weights g) e)
  else 1.

Definition first_edge (g : Graph.t) (u : Z) : Z :=
  default 0 (ix (Graph._nodes g) u).

Definition adjacency (g : Graph.t) (u : Z) : list (Z * Z) :=
  map (fun e => (e, default 0 (ix (Graph._edges g) e)))
      (seqZ (first_edge g u) (first_edge g (u + 1) - first_edge g u)).

Lemma Forall_ix {A} (P : A -> Prop) l i x :
  Forall P l -> ix l i = Some x -> P x.
Proof.
  intros HF Hx. apply ix_In in Hx. rewrite Forall_forall in HF.
  apply HF. now apply list_elem_of_In.
Qed.

Section ValidPE.

Variables (D : list Z) (GC : Z -> Z) (r : Z) (pe : PE).
Hypothesis Hpe : valid_pe D GC r pe.

Local Abbreviation g := (graph pe).

Lemma vp_total : Graph.total_n g = Graph.n g + Graph.ghost_n g.
Proof. apply total_n_eq, (vp_wf _ _ _ _ Hpe). Qed.

Lemma vp_n_nonneg : 0 <= Graph.n g.
Proof. apply Graph.wf_n, (vp_wf _ _ _ _ Hpe). Qed.

Lemma vp_ghost_n_nonneg : 0 <= Graph.ghost_n g.
Proof. apply Graph.wf_ghost_n, (vp_wf _ _ _ _ Hpe). Qed.

Lemma first_edge_spec u :
  0 <= u <= Graph.n g ->
  ix (Graph._nodes g) u = Some (first_edge g u)
  /\ 0 <= first_edge g u <= zlen (Graph._edges g).
Proof.
  intros Hu. destruct (ix_in_range (Graph._nodes g) u) as [x Hx].
  { rewrite (vp_nodes_len _ _ _ _ Hpe). lia. }
  unfold first_edge. rewrite Hx. simpl. split; [reflexivity|].
  apply (Forall_ix _ _ _ _ (vp_nodes _ _ _ _ Hpe) Hx).
Qed.

Lemma first_edge_mono u v :
  0 <= u <= v -> v <= Graph.n g -> first_edge g u <= first_edge g v.
Proof.
  intros Hu Hv.
  destruct (first_edge_spec u) as [Hu' _]; [lia|].
  destruct (first_edge_spec v) as [Hv' _]; [lia|].
  eapply (sorted_ix_le _ u v); eauto using vp_nodes_sorted. lia.
Qed.

Lemma neighbors_spec u :
  0 <= u < Graph.n g ->
  neighbors g u = Ok (adjacency g u)
  /\ Forall (fun ev : Z * Z =>
               0 <= ev.1 < zlen (Graph._edges g)
               /\ 0 <= ev.2 < Graph.total_n g
               /\ ix (Graph._edges g) ev.1 = Some ev.2)
            (adjacency g u).
Proof.
  intros Hu.
  destruct (first_edge_spec u) as [H1 R1]; [lia|].
  destruct (first_edge_spec (u + 1)) as [H2 R2]; [lia|].
  assert (Hentries : forall e,
            In e (seqZ (first_edge g u) (first_edge g (u + 1) - first_edge g u)) ->
            exists v, ix (Graph._edges g) e = Some v
                      /\ 0 <= e < zlen (Graph._edges g)
                      /\ 0 <= v < Graph.total_n g).
  { intros e He. apply list_elem_of_In, elem_of_seqZ in He.
    destruct (ix_in_range (Graph._edges g) e) as [v Hv]; [lia|].
    exists v. split; [exact Hv|]. split; [lia|].
    apply (Forall_ix _ _ _ _ (vp_edges _ _ _ _ Hpe) Hv). }
  split.
  - unfold neighbors. rewrite (load_Ok _ _ _ H1). simpl.
    rewrite (load_Ok _ _ _ H2). simpl.
    apply omapM_Ok. intros e He.
    destruct (Hentries e He) as (v & Hv & _).
    rewrite (load_Ok _ _ _ Hv), Hv. reflexivity.
  - apply Forall_forall. intros [e v] Hev. apply list_elem_of_In in Hev.
    unfold adjacency in Hev. apply in_map_iff in Hev as (e' & Heq & He').
    destruct (Hentries e' He') as (v' & Hv' & Re & Rv).
    rewrite Hv' in Heq. simpl in Heq. inversion Heq; subst. simpl. auto.
Qed.

Lemma length_adjacency u :
  0 <= u < Graph.n g ->
  zlen (adjacency g u) = first_edge g (u + 1) - first_edge g u.
Proof.
  intros Hu. unfold adjacency. rewrite zlen_map, zlen_seqZ; [reflexivity|].
  pose proof (first_edge_mono u (u + 1)). lia.
Qed.

Lemma node_weight_spec u :
  0 <= u < Graph.total_n g ->
  Graph.node_weight g u = Ok (weight_of_node g u).
Proof.
  intros Hu. unfold Graph.node_weight, weight_of_node.
  destruct (Graph.is_node_weighted g) eqn:E; [|reflexivity].
  destruct (Graph.wf_weights g (vp_wf _ _ _ _ Hpe)) as [Hnil|Hlen].
  - unfold Graph.is_node_weighted in E. rewrite Hnil in E. discriminate.
  - destruct (ix_in_range (Graph._node_weights g) u) as [x Hx]; [lia|].
    now rewrite Hx.
Qed.

Lemma edge_weight_spec e :
  0 <= e < zlen (Graph._edges g) ->
  Graph.edge_weight g e = Ok (weight_of_edge g e).
Proof.
  intros He. unfold Graph.edge_weight, weight_of_edge.
  destruct (Graph.is_edge_weighted g) eqn:E; [|reflexivity].
  destruct (vp_edge_weights _ _ _ _ Hpe) as [Hnil|Hlen].
  - unfold Graph.is_edge_weighted in E. rewrite Hnil in E.
    discriminate.
  - destruct (ix_in_range (Graph._edge_weights g) e) as [x Hx]; [lia|].
    now rewrite Hx.
Qed.

Lemma cluster_spec x :
  0 <= x < Graph.total_n g ->
  ix (lnode_to_gcluster pe) x = Some (cluster_at pe x)
  /\ cluster_at pe x = GC (global_of g x).
Proof.
  intros Hx. pose proof (vp_clustering _ _ _ _ Hpe x Hx) as H.
  unfold cluster_at. rewrite H. auto.
Qed.

Lemma load_cluster x :
  0 <= x < Graph.total_n g ->
  load (lnode_to_gcluster pe) x = Ok (cluster_at pe x).
Proof. intros Hx. apply load_Ok, cluster_spec, Hx. Qed.

(** Ownership in terms of the distribution. *)
Lemma is_owned_spec c :
  Graph.is_owned_global_node g c = true <->
  Graph.offset_n g <= c < Graph.offset_n g + Graph.n g.
Proof.
  pose proof (vp_wf _ _ _ _ Hpe) as [Hn Hgn Ht Hoff Hrange _ _].
  unfold Graph.is_owned_global_node.
  rewrite wrap64_small by lia.
  rewrite andb_true_iff, Z.leb_le, Z.ltb_lt. tauto.
Qed.

End ValidPE.

(** ** Phase A: what leaves a process *)

Definition away (pe : PE) (u : Z) : bool :=
  negb (Graph.is_owned_global_node (graph pe) (cluster_at pe u)).

Definition away_nodes (pe : PE) : list Z :=
  List.filter (away pe) (seqZ 0 (Graph.n (graph pe))).

Definition node_record (pe : PE) (u : Z) : GlobalNode.t :=
  GlobalNode.mk (cluster_at pe u) (weight_of_node (graph pe) u).

Definition edge_records (pe : PE) (u : Z) : list GlobalEdge.t :=
  map (fun ev : Z * Z =>
         GlobalEdge.mk (cluster_at pe u) (cluster_at pe ev.2)
                       (weight_of_edge (graph pe) ev.1))
      (adjacency (graph pe) u).

Definition raw_nonlocal_nodes (pe : PE) : list GlobalNode.t :=
  map (node_record pe) (away_nodes pe).

Definition raw_nonlocal_edges (pe : PE) : list GlobalEdge.t :=
  flat_map (edge_records pe) (away_nodes pe).

Lemma concat_filter_blocks {A B} (p : A -> bool) (f : A -> list B) l :
  concat (map (fun x => if p x then f x else []) l)
  = flat_map f (List.filter p l).
Proof.
  induction l as [|x l IH]; [reflexivity|].
  simpl. destruct (p x); simpl; now rewrite IH.
Qed.

Lemma flat_map_singleton {A B} (f : A -> B) l :
  flat_map (fun x => [f x]) l = map f l.
Proof. induction l; simpl; congruence. Qed.

Section Collect.

Variables (D : list Z) (GC : Z -> Z) (r : Z) (pe : PE).
Hypothesis Hpe : valid_pe D GC r pe.

Lemma nonlocal_records_of_spec u :
  0 <= u < Graph.n (graph pe) ->
  nonlocal_records_of (graph pe) (lnode_to_gcluster pe) u
  = Ok (if away pe u then ([node_record pe u], edge_records pe u)
        else ([], [])).
Proof.
  intros Hu.
  pose proof (vp_total D GC r pe Hpe) as Htot.
  pose proof (vp_ghost_n_nonneg D GC r pe Hpe) as Hgn.
  unfold nonlocal_records_of, away.
  rewrite (load_cluster D GC r pe Hpe) by lia. simpl.
  destruct (Graph.is_owned_global_node (graph pe) (cluster_at pe u));
    [reflexivity|]. simpl.
  rewrite (node_weight_spec D GC r pe Hpe) by lia. simpl.
  destruct (neighbors_spec D GC r pe Hpe u Hu) as [-> Hadj]. simpl.
  rewrite (omapM_Ok _ (fun ev : Z * Z =>
             GlobalEdge.mk (cluster_at pe u) (cluster_at pe ev.2)
                           (weight_of_edge (graph pe) ev.1))).
  - reflexivity.
  - intros ev Hev. rewrite Forall_forall in Hadj.
    destruct (Hadj ev) as (He & Hv & _); [now apply list_elem_of_In|].
    rewrite (load_cluster D GC r pe Hpe) by lia. simpl.
    rewrite (edge_weight_spec D GC r pe Hpe) by lia. reflexivity.
Qed.

Lemma find_nonlocal_nodes_and_edges_spec :
  find_nonlocal_nodes_and_edges (graph pe) (lnode_to_gcluster pe)
  = Ok (raw_nonlocal_nodes pe, raw_nonlocal_edges pe).
Proof.
  unfold find_nonlocal_nodes_and_edges.
  rewrite (omapM_Ok _ (fun u =>
             if away pe u then ([node_record pe u], edge_records pe u)
             else ([], []))).
  2:{ intros u Hu. apply nonlocal_records_of_spec.
      apply list_elem_of_In, elem_of_seqZ in Hu. lia. }
  simpl. f_equal. f_equal.
  - rewrite map_map.
    rewrite (map_ext _ (fun u => if away pe u then [node_record pe u] else []))
      by (intros u; destruct (away pe u); reflexivity).
    rewrite concat_filter_blocks. apply flat_map_singleton.
  - rewrite map_map.
    rewrite (map_ext _ (fun u => if away pe u then edge_records pe u else []))
      by (intros u; destruct (away pe u); reflexivity).
    apply concat_filter_blocks.
Qed.

(** The edge records of a process are at most as many as its edges. *)
Lemma sum_degrees (us : list Z) (lo hi : Z) :
  StronglySorted Z.lt us -> Forall (fun u => lo <= u < hi) us ->
  0 <= lo -> hi <= Graph.n (graph pe) -> lo <= hi ->
  sumZ (map (fun u => zlen (adjacency (graph pe) u)) us)
  <= first_edge (graph pe) hi - first_edge (graph pe) lo.
Proof.
  intros Hs. revert lo.
  induction Hs as [|u us Hs IH Hall]; intros lo Hr Hlo Hhi Hle; simpl.
  - pose proof (first_edge_mono D GC r pe Hpe lo hi). lia.
  - apply Forall_cons in Hr as [Hu Hr].
    rewrite (length_adjacency D GC r pe Hpe) by lia.
    assert (Forall (fun v => u + 1 <= v < hi) us) as Hr'.
    { rewrite Forall_forall in *. intros v Hv.
      specialize (Hr v Hv). specialize (Hall v Hv). lia. }
    specialize (IH (u + 1) Hr' ltac:(lia) Hhi ltac:(lia)).
    pose proof (first_edge_mono D GC r pe Hpe lo u). lia.
Qed.

Lemma sorted_filter_seqZ p a len :
  StronglySorted Z.lt (List.filter p (seqZ a len)).
Proof.
  destruct (decide (0 <= len)) as [Hlen|Hlen];
    [|rewrite seqZ_nil by lia; constructor].
  rewrite <- (Z2Nat.id len Hlen). clear Hlen.
  revert a. induction (Z.to_nat len) as [|k IH]; intros a.
  - constructor.
  - rewrite seqZ_cons by lia.
    replace (Z.pred (Z.of_nat (S k))) with (Z.of_nat k) by lia.
    simpl. destruct (p a); [|apply IH].
    constructor; [apply IH|].
    apply Forall_forall. intros x Hx.
    apply list_elem_of_In, List.filter_In in Hx as [Hx _].
    apply list_elem_of_In, elem_of_seqZ in Hx. lia.
Qed.

Lemma zlen_flat_map {A B} (f : A -> list B) l :
  zlen (flat_map f l) = sumZ (map (fun x => zlen (f x)) l).
Proof.
  induction l as [|x l IH]; [reflexivity|].
  simpl. rewrite zlen_app, IH. reflexivity.
Qed.

Lemma zlen_raw_nonlocal_edges :
  zlen (raw_nonlocal_edges pe) <= zlen (Graph._edges (graph pe)).
Proof.
  unfold raw_nonlocal_edges. rewrite zlen_flat_map.
  pose proof (vp_n_nonneg D GC r pe Hpe) as Hn.
  rewrite (map_ext _ (fun u => zlen (adjacency (graph pe) u)))
    by (intros u; unfold edge_records; now rewrite zlen_map).
  pose proof (sum_degrees (away_nodes pe) 0 (Graph.n (graph pe))
                (sorted_filter_seqZ _ _ _)) as H.
  destruct (first_edge_spec D GC r pe Hpe 0) as [_ H0]; [lia|].
  destruct (first_edge_spec D GC r pe Hpe (Graph.n (graph pe))) as [_ H1];
    [lia|].
  assert (Forall (fun u => 0 <= u < Graph.n (graph pe)) (away_nodes pe)).
  { apply Forall_forall. intros u Hu.
    apply list_elem_of_In, List.filter_In in Hu as [Hu _].
    apply list_elem_of_In, elem_of_seqZ in Hu. lia. }
  specialize (H H2 ltac:(lia) ltac:(lia) ltac:(lia)). lia.
Qed.

End Collect.

(** ** Blocks of a buffer sorted by destination *)

(** The elements of [l] with destination [p], for every process [p]. *)
Definition blocks {X} (key : X -> Z) (size : Z) (l : list X)
  : list (list X) :=
  map (fun p => List.filter (fun x => key x =? p) l) (seqZ 0 size).

Definition sorted_by {X} (key : X -> Z) (l : list X) : Prop :=
  StronglySorted (fun a b => key a <= key b) l.

Lemma filter_all {A} (p : A -> bool) l :
  Forall (fun x => p x = true) l -> List.filter p l = l.
Proof. induction 1 as [|x l Hx _ IH]; simpl; [|rewrite Hx, IH]; auto. Qed.

Lemma filter_none {A} (p : A -> bool) l :
  Forall (fun x => p x = false) l -> List.filter p l = [].
Proof. induction 1 as [|x l Hx _ IH]; simpl; [|rewrite Hx, IH]; auto. Qed.

Lemma filter_ext_Forall {A} (p q : A -> bool) l :
  Forall (fun x => p x = q x) l -> List.filter p l = List.filter q l.
Proof. induction 1 as [|x l Hx _ IH]; simpl; [|rewrite Hx, IH]; auto. Qed.

Lemma filter_below_split {X} (key : X -> Z) (p : Z) (l : list X) :
  sorted_by key l ->
  List.filter (fun x => key x <? p + 1) l
  = List.filter (fun x => key x <? p) l
    ++ List.filter (fun x => key x =? p) l.
Proof.
  induction 1 as [|x l Hs IH Hall]; [reflexivity|]. simpl.
  destruct (Z.ltb_spec (key x) p) as [Hlt|Hge].
  - replace (key x <? p + 1) with true by (symmetry; apply Z.ltb_lt; lia).
    replace (key x =? p) with false by (symmetry; apply Z.eqb_neq; lia).
    simpl. now rewrite IH.
  - assert (List.filter (fun y => key y <? p) l = []) as Hnone.
    { apply filter_none. eapply Forall_impl; [exact Hall|].
      intros y Hy. cbv beta in Hy. apply Z.ltb_ge. lia. }
    rewrite Hnone in *. simpl in *.
    destruct (Z.eqb_spec (key x) p) as [Heq|Hne].
    + replace (key x <? p + 1) with true by (symmetry; apply Z.ltb_lt; lia).
      now rewrite IH.
    + replace (key x <? p + 1) with false by (symmetry; apply Z.ltb_ge; lia).
      exact IH.
Qed.

Lemma blocks_succ {X} (key : X -> Z) (size : Z) (l : list X) :
  0 <= size ->
  blocks key (size + 1) l
  = blocks key size l ++ [List.filter (fun x => key x =? size) l].
Proof.
  intros H. unfold blocks.
  rewrite (seqZ_split 0 (size + 1) size) by lia.
  rewrite map_app. f_equal.
  replace (size + 1 - size) with 1 by lia. reflexivity.
Qed.

Lemma concat_blocks_below {X} (key : X -> Z) (size : Z) (l : list X) :
  0 <= size -> sorted_by key l -> Forall (fun x => 0 <= key x) l ->
  concat (blocks key size l) = List.filter (fun x => key x <? size) l.
Proof.
  intros Hsize Hs Hnn. rewrite <- (Z2Nat.id size Hsize). clear Hsize.
  induction (Z.to_nat size) as [|k IH].
  - simpl. symmetry. apply filter_none.
    eapply Forall_impl; [exact Hnn|]. intros x Hx. cbv beta in Hx.
    apply Z.ltb_ge. lia.
  - replace (Z.of_nat (S k)) with (Z.of_nat k + 1) by lia.
    rewrite blocks_succ, concat_app, IH by lia.
    simpl. rewrite app_nil_r. symmetry. now apply filter_below_split.
Qed.

(** A buffer sorted by destination is the concatenation of its blocks. *)
Lemma concat_blocks {X} (key : X -> Z) (size : Z) (l : list X) :
  0 <= size -> sorted_by key l -> Forall (fun x => 0 <= key x < size) l ->
  concat (blocks key size l) = l.
Proof.
  intros Hsize Hs Hr. rewrite concat_blocks_below; auto.
  - apply filter_all. eapply Forall_impl; [exact Hr|].
    intros x Hx. cbv beta in Hx. apply Z.ltb_lt. lia.
  - eapply Forall_impl; [exact Hr|]. intros x Hx. cbv beta in Hx. lia.
Qed.

Lemma zlen_blocks {X} (key : X -> Z) (size : Z) (l : list X) :
  0 <= size -> zlen (blocks key size l) = size.
Proof. intros H. unfold blocks. now rewrite zlen_map, zlen_seqZ. Qed.

Lemma ix_blocks {X} (key : X -> Z) (size : Z) (l : list X) p :
  0 <= p < size ->
  ix (blocks key size l) p = Some (List.filter (fun x => key x =? p) l).
Proof.
  intros H. unfold blocks. rewrite ix_map, ix_seqZ by lia. reflexivity.
Qed.

(** ** Blocks cut out by counts and displacements *)

Lemma take_drop_app {A} (pre b rest : list A) :
  take (length b) (drop (length pre) (pre ++ b ++ rest)) = b.
Proof.
  rewrite drop_app_length. apply take_app_length.
Qed.

Lemma sent_block_concat {X} (bs : list (list X)) :
  forall (pre : list X) (p : Z) (b : list X),
    ix bs p = Some b ->
    sent_block (pre ++ concat bs) (map zlen bs)
               (displacements (zlen pre) (map zlen bs)) p = Ok b.
Proof.
  induction bs as [|b0 bs IH]; intros pre p b Hb.
  - unfold ix in Hb. destruct (p <? 0); discriminate.
  - pose proof (ix_Some_range _ _ _ Hb) as Hp.
    destruct (decide (p = 0)) as [->|Hne].
    + rewrite ix_0 in Hb. inversion Hb; subst b0.
      unfold sent_block. simpl. unfold zlen. rewrite !Nat2Z.id.
      f_equal. apply take_drop_app.
    + rewrite ix_cons in Hb by lia.
      specialize (IH (pre ++ b0) (p - 1) b Hb).
      unfold sent_block in *. simpl map. simpl displacements.
      unfold load in *. rewrite !ix_cons by lia.
      rewrite zlen_app in IH. simpl concat.
      rewrite <- app_assoc in IH. exact IH.
Qed.

Lemma sent_block_blocks {X} (key : X -> Z) (size : Z) (l : list X) p :
  sorted_by key l -> Forall (fun x => 0 <= key x < size) l ->
  0 <= p < size ->
  sent_block l (map zlen (blocks key size l))
             (displacements 0 (map zlen (blocks key size l))) p
  = Ok (List.filter (fun x => key x =? p) l).
Proof.
  intros Hs Hr Hp.
  pose proof (sent_block_concat (blocks key size l) [] p _
                (ix_blocks key size l p Hp)) as H.
  simpl in H. rewrite concat_blocks in H by (auto; lia). exact H.
Qed.

(** ** Counting loops *)

Definition counts_of {X} (key : X -> Z) (size : Z) (l : list X) : list Z :=
  map zlen (blocks key size l).

Lemma ix_counts_of {X} (key : X -> Z) (size : Z) (l : list X) p :
  0 <= p < size ->
  ix (counts_of key size l) p
  = Some (zlen (List.filter (fun x => key x =? p) l)).
Proof.
  intros H. unfold counts_of. rewrite ix_map, ix_blocks by lia. reflexivity.
Qed.

Lemma zlen_counts_of {X} (key : X -> Z) (size : Z) (l : list X) :
  0 <= size -> zlen (counts_of key size l) = size.
Proof. intros H. unfold counts_of. now rewrite zlen_map, zlen_blocks. Qed.

Lemma counts_of_nil {X} (key : X -> Z) (size : Z) :
  0 <= size -> counts_of key size [] = replicate (Z.to_nat size) 0.
Proof.
  intros H. apply ix_ext.
  - rewrite zlen_counts_of, zlen_replicate; lia.
  - intros i Hi. rewrite zlen_counts_of in Hi by lia.
    rewrite ix_counts_of, ix_replicate by lia. reflexivity.
Qed.

Lemma increment_counts {X} (key : X -> Z) (size : Z) (l : list X) (x : X) :
  0 <= key x < size -> zlen l + 1 < 2 ^ 32 ->
  increment (counts_of key size l) (key x)
  = Ok (counts_of key size (l ++ [x])).
Proof.
  intros Hk Hlen. unfold increment.
  rewrite (load_Ok _ _ _ (ix_counts_of key size l (key x) Hk)). simpl.
  rewrite store_Ok by (rewrite zlen_counts_of; lia).
  f_equal. apply ix_ext.
  - rewrite zlen_insert, !zlen_counts_of; lia.
  - intros i Hi. rewrite zlen_insert, zlen_counts_of in Hi by lia.
    rewrite (ix_counts_of key size (l ++ [x])) by lia.
    rewrite List.filter_app, zlen_app. simpl.
    pose proof (filter_length_le (fun y => key y =? key x) l) as Hle.
    pose proof (zlen_nonneg (List.filter (fun y => key y =? key x) l)).
    destruct (Z.eqb_spec (key x) i) as [<-|Hne].
    + rewrite ix_insert_eq by (rewrite zlen_counts_of; lia).
      rewrite wrap32_small by lia. reflexivity.
    + rewrite ix_insert_ne by lia.
      rewrite ix_counts_of by lia. f_equal. change (zlen []) with 0. lia.
Qed.

(** A loop that increments the counter of the destination of every
    element computes the sizes of the blocks. *)
Lemma foldM_counts {X} (f : list Z -> X -> outcome (list Z)) (key : X -> Z)
    (size : Z) (l : list X) :
  (forall cnt x, In x l -> f cnt x = increment cnt (key x)) ->
  Forall (fun x => 0 <= key x < size) l ->
  forall done, zlen (done ++ l) < 2 ^ 32 ->
    foldM f (counts_of key size done) l = Ok (counts_of key size (done ++ l)).
Proof.
  induction l as [|x l IH]; intros Hf Hr done Hlen.
  - simpl. now rewrite app_nil_r.
  - apply Forall_cons in Hr as [Hx Hr]. simpl.
    rewrite Hf by now left.
    rewrite zlen_app in Hlen. unfold zlen in Hlen. simpl length in Hlen.
    rewrite increment_counts by (unfold zlen; lia). simpl.
    replace (done ++ x :: l) with ((done ++ [x]) ++ l)
      by now rewrite <- app_assoc.
    apply IH; auto.
    + intros cnt y Hy. apply Hf. now right.
    + rewrite !zlen_app. unfold zlen. simpl length. lia.
Qed.

(** ** Phase C: migration of the nonlocal records *)

Definition node_owner (D : list Z) (nd : GlobalNode.t) : Z :=
  owner_of D (GlobalNode.u nd).

Definition edge_owner (D : list Z) (e : GlobalEdge.t) : Z :=
  owner_of D (GlobalEdge.u e).

(** The buffers of a process after phase B. *)
Definition sent_nodes (pe : PE) : list GlobalNode.t :=
  sort_node_list (raw_nonlocal_nodes pe).

Definition sent_edges (pe : PE) : list GlobalEdge.t :=
  coalesce (parallel_sort edge_less (raw_nonlocal_edges pe)).

(** The receive buffers of process [p]. *)
Definition received_nodes (D : list Z) (w : World) (p : Z)
  : list GlobalNode.t :=
  flat_map (fun pe => List.filter (fun nd => node_owner D nd =? p)
                                  (sent_nodes pe)) w.

Definition received_edge_records (D : list Z) (w : World) (p : Z)
  : list GlobalEdge.t :=
  flat_map (fun pe => List.filter (fun e => edge_owner D e =? p)
                                  (sent_edges pe)) w.

Lemma StronglySorted_weaken {A} (R R' : relation A) (P : A -> Prop) l :
  StronglySorted R l -> Forall P l ->
  (forall a b, P a -> P b -> R a b -> R' a b) ->
  StronglySorted R' l.
Proof.
  intros Hs HP Himp. induction Hs as [|x l Hs IH Hall]; [constructor|].
  apply Forall_cons in HP as [Hx HP]. constructor; [auto|].
  rewrite Forall_forall in *. intros y Hy. apply Himp; auto.
Qed.

Global Instance node_le_total : Total (not_after node_less).
Proof.
  intros a b. unfold not_after, node_less.
  destruct (Z.ltb_spec (GlobalNode.u b) (GlobalNode.u a)),
           (Z.ltb_spec (GlobalNode.u a) (GlobalNode.u b)); auto; lia.
Qed.

Global Instance node_le_trans : Transitive (not_after node_less).
Proof.
  intros a b c. unfold not_after, node_less. rewrite !Z.ltb_ge. lia.
Qed.

Global Instance source_le_total : Total (not_after source_less).
Proof.
  intros a b. unfold not_after, source_less.
  destruct (Z.ltb_spec (GlobalEdge.u b) (GlobalEdge.u a)),
           (Z.ltb_spec (GlobalEdge.u a) (GlobalEdge.u b)); auto; lia.
Qed.

Global Instance source_le_trans : Transitive (not_after source_less).
Proof.
  intros a b c. unfold not_after, source_less. rewrite !Z.ltb_ge. lia.
Qed.

Lemma sumZ_member_le (l : list Z) x :
  Forall (fun y => 0 <= y) l -> In x l -> x <= sumZ l.
Proof.
  induction 1 as [|y l Hy Hl IH]; intros Hin; [destruct Hin|].
  pose proof (sumZ_nonneg l Hl). simpl.
  destruct Hin as [->|Hin]; [lia|]. specialize (IH Hin). lia.
Qed.

Lemma map_ranks {A} (f : PE -> A) (d : PE) (w : World) :
  map (fun r => f (default d (ix w r))) (ranks w) = map f w.
Proof.
  unfold ranks, comm_size. apply list_eq. intros i.
  rewrite !list_lookup_fmap.
  destruct (decide (i < length w)%nat) as [Hi|Hi].
  - rewrite lookup_seqZ_lt by (unfold zlen; lia). simpl.
    rewrite Z.add_0_l, ix_nat.
    destruct (lookup_lt_is_Some_2 w i Hi) as [pe Hpe]. now rewrite Hpe.
  - rewrite lookup_seqZ_ge by (unfold zlen; lia).
    now rewrite lookup_ge_None_2 by lia.
Qed.

Section Migration.

Variable checked : bool.
Variables (D : list Z) (GC : Z -> Z) (w : World).
Hypothesis Hvalid : valid_world D GC w.
Hypothesis Hsmall : small_world D w.

Lemma rank_pe r :
  0 <= r < comm_size w -> exists pe, ix w r = Some pe /\ valid_pe D GC r pe.
Proof.
  intros Hr. destruct (ix_in_range w r Hr) as [pe Hpe].
  exists pe. split; [exact Hpe|]. eapply vw_pe; eauto.
Qed.

Lemma In_rank r : In r (ranks w) -> 0 <= r < comm_size w.
Proof. intros H. apply list_elem_of_In, elem_of_seqZ in H. lia. Qed.

Lemma pe_valid pe : In pe w -> exists r, ix w r = Some pe /\ valid_pe D GC r pe.
Proof.
  intros H. apply In_ix in H as (r & Hr & Hpe).
  exists r. split; [exact Hpe|]. eapply vw_pe; eauto.
Qed.

Lemma edges_le_total pe :
  In pe w -> zlen (Graph._edges (graph pe)) <= total_edges w.
Proof.
  intros H. unfold total_edges. apply sumZ_member_le.
  - apply Forall_forall. intros x Hx. apply list_elem_of_In, in_map_iff in Hx
      as (pe' & <- & _). apply zlen_nonneg.
  - apply in_map_iff. eauto.
Qed.

Lemma total_nodes_nonneg : 0 <= total_nodes D.
Proof.
  pose proof (D_nonneg D GC w Hvalid 0 0 (vw_D_first _ _ _ Hvalid)). lia.
Qed.

Section OnePE.

Variables (r : Z) (pe : PE).
Hypothesis Hpe : valid_pe D GC r pe.
Hypothesis Hin : ix w r = Some pe.

Lemma rank_range : 0 <= r < comm_size w.
Proof. apply (ix_Some_range _ _ _ Hin). Qed.

Lemma own_range_top :
  Graph.offset_n (graph pe) + Graph.n (graph pe) <= total_nodes D.
Proof.
  pose proof (D_nonneg D GC w Hvalid _ _ (vp_next _ _ _ _ Hpe)). lia.
Qed.

Lemma find_owner_spec c :
  0 <= c < total_nodes D ->
  find_owner_of_global_node checked (graph pe) c = Ok (owner_of D c).
Proof.
  intros Hc. destruct (owner_of_spec D GC w Hvalid c Hc) as [Hr _].
  unfold find_owner_of_global_node.
  rewrite (vp_global_n _ _ _ _ Hpe), (vp_dist _ _ _ _ Hpe).
  replace (c <? total_nodes D) with true by (symmetry; apply Z.ltb_lt; lia).
  rewrite KASSERT_true. simpl.
  fold (owner_of D c). rewrite (vw_D_len _ _ _ Hvalid).
  replace (1 + owner_of D c <? comm_size w + 1) with true
    by (symmetry; apply Z.ltb_lt; lia).
  rewrite KASSERT_true. simpl. f_equal. lia.
Qed.

Lemma is_owned_owner c :
  0 <= c < total_nodes D ->
  Graph.is_owned_global_node (graph pe) c = true <-> owner_of D c = r.
Proof.
  intros Hc. rewrite (is_owned_spec D GC r pe Hpe).
  pose proof rank_range as Hr.
  split.
  - intros H. eapply (owner_of_unique D GC w Hvalid);
      eauto using vp_offset, vp_next. lia.
  - intros E. destruct (owner_of_spec D GC w Hvalid c Hc)
      as (_ & a & b & Ha & Hb & Hab).
    rewrite E, (vp_offset _ _ _ _ Hpe) in Ha.
    rewrite E, (vp_next _ _ _ _ Hpe) in Hb.
    inversion Ha; inversion Hb; subst. exact Hab.
Qed.

Lemma is_owned_false c :
  0 <= c < total_nodes D ->
  Graph.is_owned_global_node (graph pe) c = false <-> owner_of D c <> r.
Proof.
  intros Hc. rewrite <- (is_owned_owner c Hc).
  destruct (Graph.is_owned_global_node (graph pe) c); split; congruence.
Qed.

Lemma global_of_valid x :
  0 <= x < Graph.total_n (graph pe) ->
  0 <= global_of (graph pe) x < total_nodes D.
Proof.
  intros Hx. unfold global_of.
  pose proof own_range_top.
  pose proof (Graph.wf_offset _ (vp_wf _ _ _ _ Hpe)).
  destruct (Z.ltb_spec x (Graph.n (graph pe))); [lia|].
  rewrite (vp_total D GC r pe Hpe) in Hx.
  destruct (ix_in_range (Graph._ghost_to_global (graph pe))
              (x - Graph.n (graph pe))) as [gl Hgl].
  { rewrite (vp_ghosts_len _ _ _ _ Hpe). lia. }
  rewrite Hgl. simpl.
  apply (Forall_ix _ _ _ _ (vp_ghosts _ _ _ _ Hpe) Hgl).
Qed.

Lemma cluster_valid x :
  0 <= x < Graph.total_n (graph pe) ->
  0 <= cluster_at pe x < total_nodes D.
Proof.
  intros Hx. destruct (cluster_spec D GC r pe Hpe x Hx) as [_ ->].
  apply (vw_GC _ _ _ Hvalid), global_of_valid, Hx.
Qed.

(** The records that leave a process name clusters of other
    processes; the targets of the edge records are clusters of nodes. *)
Lemma raw_nonlocal_nodes_valid :
  Forall (fun nd => 0 <= GlobalNode.u nd < total_nodes D
                    /\ node_owner D nd <> r
                    /\ exists u, 0 <= u < Graph.n (graph pe)
                                 /\ GlobalNode.u nd = cluster_at pe u)
         (raw_nonlocal_nodes pe).
Proof.
  apply Forall_forall. intros nd Hnd.
  apply list_elem_of_In, in_map_iff in Hnd as (u & <- & Hu).
  apply List.filter_In in Hu as [Hu Haway].
  apply list_elem_of_In, elem_of_seqZ in Hu.
  pose proof (vp_total D GC r pe Hpe). pose proof (vp_ghost_n_nonneg D GC r pe Hpe).
  assert (Hc : 0 <= cluster_at pe u < total_nodes D)
    by (apply cluster_valid; lia).
  simpl. split; [exact Hc|]. split.
  - unfold away in Haway. apply negb_true_iff in Haway.
    unfold node_owner. simpl. now apply is_owned_false.
  - exists u. split; [lia|reflexivity].
Qed.

Lemma raw_nonlocal_edges_valid :
  Forall (fun e => 0 <= GlobalEdge.u e < total_nodes D
                   /\ edge_owner D e <> r
                   /\ exists x, 0 <= x < Graph.total_n (graph pe)
                                /\ GlobalEdge.v e = cluster_at pe x)
         (raw_nonlocal_edges pe).
Proof.
  apply Forall_forall. intros e He.
  apply list_elem_of_In, in_flat_map in He as (u & Hu & He).
  apply List.filter_In in Hu as [Hu Haway].
  apply list_elem_of_In, elem_of_seqZ in Hu.
  apply in_map_iff in He as ([e' x] & <- & Hex).
  pose proof (vp_total D GC r pe Hpe). pose proof (vp_ghost_n_nonneg D GC r pe Hpe).
  destruct (neighbors_spec D GC r pe Hpe u ltac:(lia)) as [_ Hadj].
  rewrite Forall_forall in Hadj.
  destruct (Hadj (e', x)) as (_ & Hx & _); [now apply list_elem_of_In|].
  simpl in *.
  assert (Hc : 0 <= cluster_at pe u < total_nodes D)
    by (apply cluster_valid; lia).
  split; [exact Hc|]. split.
  - unfold away in Haway. apply negb_true_iff in Haway.
    unfold edge_owner. simpl. now apply is_owned_false.
  - exists x. split; [exact Hx|reflexivity].
Qed.

Lemma sent_nodes_valid :
  Forall (fun nd => 0 <= GlobalNode.u nd < total_nodes D
                    /\ node_owner D nd <> r
                    /\ exists u, 0 <= u < Graph.n (graph pe)
                                 /\ GlobalNode.u nd = cluster_at pe u)
         (sent_nodes pe).
Proof.
  unfold sent_nodes, sort_node_list.
  rewrite parallel_sort_Permutation. apply raw_nonlocal_nodes_valid.
Qed.

Lemma sent_edges_valid :
  Forall (fun e => 0 <= GlobalEdge.u e < total_nodes D
                   /\ edge_owner D e <> r
                   /\ exists x, 0 <= x < Graph.total_n (graph pe)
                                /\ GlobalEdge.v e = cluster_at pe x)
         (sent_edges pe).
Proof.
  apply Forall_forall. intros o Ho. apply list_elem_of_In in Ho.
  apply coalesce_keys in Ho as (e & He & [Hu Hv]).
  assert (He' : e ∈ raw_nonlocal_edges pe).
  { rewrite <- (parallel_sort_Permutation edge_less).
    now apply list_elem_of_In. }
  pose proof raw_nonlocal_edges_valid as H. rewrite Forall_forall in H.
  specialize (H e He').
  unfold edge_owner in *. rewrite Hu, Hv. exact H.
Qed.

Lemma owner_of_mono a b :
  0 <= a <= b -> b < total_nodes D -> owner_of D a <= owner_of D b.
Proof.
  intros Ha Hb.
  destruct (owner_of_spec D GC w Hvalid a ltac:(lia))
    as (Ra & a1 & a2 & Ha1 & Ha2 & Hra).
  destruct (owner_of_spec D GC w Hvalid b ltac:(lia))
    as (Rb & b1 & b2 & Hb1 & Hb2 & Hrb).
  destruct (Z.le_gt_cases (owner_of D a) (owner_of D b)); [assumption|].
  pose proof (sorted_ix_le D (owner_of D b + 1) (owner_of D a) b2 a1
                (vw_D_sorted _ _ _ Hvalid) ltac:(lia) Hb2 Ha1). lia.
Qed.

Lemma sent_nodes_sorted : sorted_by (node_owner D) (sent_nodes pe).
Proof.
  eapply StronglySorted_weaken.
  - apply (StronglySorted_merge_sort (not_after node_less)).
  - apply sent_nodes_valid.
  - intros a b (Ha & _) (Hb & _) Hab. cbv beta.
    unfold not_after, node_less in Hab. apply Z.ltb_ge in Hab.
    apply owner_of_mono; lia.
Qed.

Lemma sent_edges_sorted : sorted_by (edge_owner D) (sent_edges pe).
Proof.
  eapply StronglySorted_weaken.
  - apply coalesce_sorted, parallel_sort_edges_sorted.
  - apply sent_edges_valid.
  - intros a b (Ha & _) (Hb & _) Hab. cbv beta.
    apply edge_less_spec in Hab. apply owner_of_mono; lia.
Qed.

Lemma sent_nodes_keys :
  Forall (fun nd => 0 <= node_owner D nd < comm_size w) (sent_nodes pe).
Proof.
  eapply Forall_impl; [apply sent_nodes_valid|].
  intros nd (Hnd & _). now apply (owner_of_spec D GC w Hvalid).
Qed.

Lemma sent_edges_keys :
  Forall (fun e => 0 <= edge_owner D e < comm_size w) (sent_edges pe).
Proof.
  eapply Forall_impl; [apply sent_edges_valid|].
  intros e (He & _). now apply (owner_of_spec D GC w Hvalid).
Qed.

Lemma zlen_raw_edges_small : zlen (raw_nonlocal_edges pe) < 2 ^ 32.
Proof.
  pose proof (zlen_raw_nonlocal_edges D GC r pe Hpe).
  pose proof (edges_le_total pe (ix_In _ _ _ Hin)).
  pose proof total_nodes_nonneg. unfold small_world in Hsmall. lia.
Qed.

Lemma nonlocal_elements_spec :
  nonlocal_elements w r = Ok (sent_nodes pe, sent_edges pe).
Proof.
  unfold nonlocal_elements. rewrite (load_Ok _ _ _ Hin). simpl.
  rewrite (find_nonlocal_nodes_and_edges_spec D GC r pe Hpe). simpl.
  rewrite deduplicate_edge_list_coalesce by apply zlen_raw_edges_small.
  reflexivity.
Qed.

Lemma nonlocal_nodes_spec : nonlocal_nodes w r = Ok (sent_nodes pe).
Proof. unfold nonlocal_nodes. now rewrite nonlocal_elements_spec. Qed.

Lemma nonlocal_edges_spec : nonlocal_edges w r = Ok (sent_edges pe).
Proof. unfold nonlocal_edges. now rewrite nonlocal_elements_spec. Qed.

End OnePE.

End Migration.

(** A side condition of a rewrite: a hypothesis or arithmetic. *)
Ltac side := solve [eassumption | lia | reflexivity | eauto].

Lemma foldM_cons {A B} (f : A -> B -> outcome A) a x l :
  foldM f a (x :: l) = (f a x ≫= fun a' => foldM f a' l).
Proof. reflexivity. Qed.

Lemma foldM_nil {A B} (f : A -> B -> outcome A) a : foldM f a [] = Ok a.
Proof. reflexivity. Qed.

Lemma bind_Ok_l {A B} (a : A) (k : A -> outcome B) : (Ok a ≫= k) = k a.
Proof. reflexivity. Qed.

Lemma omapM_ranks {A} (checked : bool) (w : World)
    (f : Z -> outcome A) (g : PE -> A) :
  (forall r pe, ix w r = Some pe -> f r = Ok (g pe)) ->
  omapM f (ranks w) = Ok (map g w).
Proof.
  intros H.
  destruct w as [|pe0 w0] eqn:Ew; [reflexivity|]. rewrite <- Ew in *.
  rewrite <- (map_ranks g pe0 w).
  apply omapM_Ok. intros r Hr.
  apply list_elem_of_In, elem_of_seqZ in Hr.
  destruct (ix_in_range w r) as [pe Hpe]; [unfold comm_size in Hr; lia|].
  rewrite Hpe. simpl. now apply H.
Qed.

Section Exchange.

Variable checked : bool.
Variables (D : list Z) (GC : Z -> Z) (w : World).
Hypothesis Hvalid : valid_world D GC w.
Hypothesis Hsmall : small_world D w.

Lemma comm_size_nonneg : 0 <= comm_size w.
Proof. apply zlen_nonneg. Qed.

Section OnePE.

Variables (r : Z) (pe : PE).
Hypothesis Hpe : valid_pe D GC r pe.
Hypothesis Hin : ix w r = Some pe.

Lemma zlen_sent_nodes_small : zlen (sent_nodes pe) < 2 ^ 32.
Proof.
  unfold sent_nodes, sort_node_list, zlen.
  rewrite parallel_sort_length. unfold raw_nonlocal_nodes, away_nodes.
  rewrite length_map.
  pose proof (filter_length_le (away pe) (seqZ 0 (Graph.n (graph pe)))) as H.
  pose proof (vp_n_nonneg D GC r pe Hpe).
  rewrite zlen_seqZ in H by lia. unfold zlen in H.
  pose proof (Graph.wf_total _ (vp_wf _ _ _ _ Hpe)).
  pose proof (vp_ghost_n_nonneg D GC r pe Hpe). lia.
Qed.

Lemma length_coalesce_from cur l :
  zlen (coalesce_from cur l) <= zlen l + 1.
Proof.
  revert cur. induction l as [|e l IH]; intros cur; unfold zlen in *; simpl.
  - lia.
  - destruct (starts_block cur e); simpl.
    + specialize (IH (GlobalEdge.mk (GlobalEdge.u e) (GlobalEdge.v e)
                        (wadd 0 (GlobalEdge.weight e)))). lia.
    + specialize (IH (GlobalEdge.mk (GlobalEdge.u e) (GlobalEdge.v e)
                        (wadd (GlobalEdge.weight cur) (GlobalEdge.weight e)))).
      lia.
Qed.

Lemma length_coalesce l : zlen (coalesce l) <= zlen l.
Proof.
  destruct l as [|e l]; [unfold zlen; simpl; lia|]. simpl.
  pose proof (length_coalesce_from
                (GlobalEdge.mk (GlobalEdge.u e) (GlobalEdge.v e)
                               (wadd 0 (GlobalEdge.weight e))) l).
  unfold zlen in *. simpl length. lia.
Qed.

Lemma zlen_sent_edges : zlen (sent_edges pe) <= zlen (Graph._edges (graph pe)).
Proof.
  unfold sent_edges.
  pose proof (length_coalesce (parallel_sort edge_less (raw_nonlocal_edges pe))).
  pose proof (zlen_raw_nonlocal_edges D GC r pe Hpe).
  unfold zlen in *. rewrite parallel_sort_length in *. lia.
Qed.

Lemma zlen_sent_edges_small : zlen (sent_edges pe) < 2 ^ 32.
Proof.
  pose proof zlen_sent_edges.
  pose proof (edges_le_total w pe (ix_In _ _ _ Hin)).
  pose proof (total_nodes_nonneg D GC w Hvalid).
  unfold small_world in Hsmall. lia.
Qed.

Lemma num_nodes_for_pe_spec :
  num_nodes_for_pe checked w r
  = Ok (counts_of (node_owner D) (comm_size w) (sent_nodes pe)).
Proof.
  unfold num_nodes_for_pe. rewrite (load_Ok _ _ _ Hin). simpl.
  erewrite nonlocal_nodes_spec by side. simpl.
  rewrite <- (counts_of_nil (node_owner D)) by apply comm_size_nonneg.
  apply (foldM_counts _ (node_owner D) (comm_size w) (sent_nodes pe)).
  - intros cnt nd Hnd. unfold count_node.
    pose proof (sent_nodes_valid D GC w Hvalid r pe Hpe Hin) as Hv.
    rewrite Forall_forall in Hv.
    destruct (Hv nd) as (Hc & _); [now apply list_elem_of_In|].
    erewrite find_owner_spec by side. reflexivity.
  - eapply sent_nodes_keys; side.
  - simpl. apply zlen_sent_nodes_small.
Qed.

(** The walk from the owner of the previous edge reaches the owner of
    the next one. *)
Lemma advance_pe_spec c (k : nat) :
  forall cp fuel,
    0 <= c < total_nodes D ->
    owner_of D c - cp = Z.of_nat k -> 0 <= cp -> (k < fuel)%nat ->
    advance_pe checked fuel (graph pe) c cp = Ok (owner_of D c).
Proof.
  induction k as [|k IH]; intros cp fuel Hc Hk Hcp Hfuel;
    (destruct fuel as [|fuel]; [lia|]);
    destruct (owner_of_spec D GC w Hvalid c Hc)
      as (Ho & a & b & Ha & Hb & Hab);
    simpl; unfold node_distribution;
    rewrite (vp_dist _ _ _ _ Hpe), (vw_D_len _ _ _ Hvalid);
    (replace (cp + 1 <? comm_size w + 1) with true
       by (symmetry; apply Z.ltb_lt; lia));
    rewrite KASSERT_true; simpl.
  - replace cp with (owner_of D c) by lia.
    rewrite (load_Ok _ _ _ Hb). simpl.
    replace (b <=? c) with false by (symmetry; apply Z.leb_gt; lia).
    reflexivity.
  - destruct (D_entry D GC w Hvalid (cp + 1)) as [d Hd]; [lia|].
    rewrite (load_Ok _ _ _ Hd). simpl.
    pose proof (sorted_ix_le D (cp + 1) (owner_of D c) d a
                  (vw_D_sorted _ _ _ Hvalid) ltac:(lia) Hd Ha).
    replace (d <=? c) with true by (symmetry; apply Z.leb_le; lia).
    apply IH; lia.
Qed.

Lemma count_edge_step cp done e :
  0 <= GlobalEdge.u e < total_nodes D ->
  0 <= cp <= edge_owner D e -> zlen done + 1 < 2 ^ 32 ->
  count_edge checked (graph pe)
             (cp, counts_of (edge_owner D) (comm_size w) done) e
  = Ok (edge_owner D e,
        counts_of (edge_owner D) (comm_size w) (done ++ [e])).
Proof.
  intros He Hcp Hlen.
  destruct (owner_of_spec D GC w Hvalid _ He) as (Ho & _).
  unfold count_edge. cbn [fst snd].
  rewrite (advance_pe_spec (GlobalEdge.u e)
             (Z.to_nat (owner_of D (GlobalEdge.u e) - cp))).
  - rewrite bind_Ok_l.
    change (owner_of D (GlobalEdge.u e)) with (edge_owner D e).
    rewrite increment_counts by (unfold edge_owner; lia).
    reflexivity.
  - exact He.
  - unfold edge_owner in Hcp. lia.
  - lia.
  - unfold edge_owner in Hcp. rewrite (vp_dist _ _ _ _ Hpe).
    pose proof (vw_D_len _ _ _ Hvalid) as HD. unfold zlen in HD. lia.
Qed.

Lemma count_edges_loop (l : list GlobalEdge.t) :
  forall done cp,
    sorted_by (edge_owner D) l ->
    Forall (fun e => 0 <= GlobalEdge.u e < total_nodes D) l ->
    Forall (fun e => cp <= edge_owner D e) l -> 0 <= cp ->
    zlen (done ++ l) < 2 ^ 32 ->
    exists cp',
      foldM (count_edge checked (graph pe))
            (cp, counts_of (edge_owner D) (comm_size w) done) l
      = Ok (cp', counts_of (edge_owner D) (comm_size w) (done ++ l)).
Proof.
  induction l as [|e l IH]; intros done cp Hs Hv Hcp Hcp0 Hlen.
  - exists cp. simpl. now rewrite app_nil_r.
  - apply StronglySorted_inv in Hs as [Hs Hall].
    apply Forall_cons in Hv as [He Hv]. apply Forall_cons in Hcp as [Hce Hcp].
    rewrite zlen_app in Hlen. unfold zlen in Hlen. simpl length in Hlen.
    rewrite foldM_cons, count_edge_step by (unfold zlen; lia).
    rewrite bind_Ok_l.
    replace (done ++ e :: l) with ((done ++ [e]) ++ l)
      by now rewrite <- app_assoc.
    apply IH; auto.
    + destruct (owner_of_spec D GC w Hvalid _ He) as (Ho & _).
      unfold edge_owner. lia.
    + rewrite !zlen_app. unfold zlen. simpl length. lia.
Qed.

Lemma num_edges_for_pe_spec :
  num_edges_for_pe checked w r
  = Ok (counts_of (edge_owner D) (comm_size w) (sent_edges pe)).
Proof.
  unfold num_edges_for_pe. rewrite (load_Ok _ _ _ Hin). simpl.
  erewrite nonlocal_edges_spec by side. simpl.
  rewrite <- (counts_of_nil (edge_owner D)) by apply comm_size_nonneg.
  destruct (count_edges_loop (sent_edges pe) [] 0) as (cp & ->).
  - eapply sent_edges_sorted; side.
  - eapply Forall_impl; [eapply sent_edges_valid; side|].
    intros e He. apply He.
  - eapply Forall_impl; [eapply sent_edges_keys; side|].
    intros e He. cbv beta in He. lia.
  - lia.
  - simpl. apply zlen_sent_edges_small.
  - reflexivity.
Qed.

End OnePE.

(** What a process receives is what the others hold for it. *)
Lemma alltoallv_blocks {X} (key : X -> Z) (buf : PE -> list X)
    (send : Z -> outcome (list X * list Z)) (p : Z) :
  (forall r pe, ix w r = Some pe ->
     send r = Ok (buf pe, counts_of key (comm_size w) (buf pe))) ->
  (forall pe, In pe w -> sorted_by key (buf pe)) ->
  (forall pe, In pe w ->
     Forall (fun x => 0 <= key x < comm_size w) (buf pe)) ->
  0 <= p < comm_size w ->
  alltoallv w send p
  = Ok (flat_map (fun pe => List.filter (fun x => key x =? p) (buf pe)) w).
Proof.
  intros Hsend Hsorted Hkeys Hp. unfold alltoallv.
  rewrite (omapM_ranks checked w _
             (fun pe => List.filter (fun x => key x =? p) (buf pe))).
  - simpl. now rewrite flat_map_concat_map.
  - intros r pe Hpe. rewrite (Hsend r pe Hpe). simpl.
    apply sent_block_blocks; auto.
    + apply Hsorted. eapply ix_In, Hpe.
    + apply Hkeys. eapply ix_In, Hpe.
Qed.

Lemma local_nodes_spec p :
  0 <= p < comm_size w ->
  local_nodes checked w p = Ok (received_nodes D w p).
Proof.
  intros Hp. unfold local_nodes.
  apply (alltoallv_blocks (node_owner D) sent_nodes); auto.
  - intros r pe Hpe. pose proof (vw_pe _ _ _ Hvalid r pe Hpe) as Hv.
    erewrite nonlocal_nodes_spec by side. simpl.
    erewrite num_nodes_for_pe_spec by side. reflexivity.
  - intros pe Hpe. destruct (pe_valid D GC w Hvalid pe Hpe) as (r & Hr & Hv).
    eapply sent_nodes_sorted; side.
  - intros pe Hpe. destruct (pe_valid D GC w Hvalid pe Hpe) as (r & Hr & Hv).
    eapply sent_nodes_keys; side.
Qed.

Lemma received_edges_spec p :
  0 <= p < comm_size w ->
  received_edges checked w p = Ok (received_edge_records D w p).
Proof.
  intros Hp. unfold received_edges.
  apply (alltoallv_blocks (edge_owner D) sent_edges); auto.
  - intros r pe Hpe. pose proof (vw_pe _ _ _ Hvalid r pe Hpe) as Hv.
    erewrite nonlocal_edges_spec by side. simpl.
    erewrite num_edges_for_pe_spec by side. reflexivity.
  - intros pe Hpe. destruct (pe_valid D GC w Hvalid pe Hpe) as (r & Hr & Hv).
    eapply sent_edges_sorted; side.
  - intros pe Hpe. destruct (pe_valid D GC w Hvalid pe Hpe) as (r & Hr & Hv).
    eapply sent_edges_keys; side.
Qed.

Lemma local_edges_spec p :
  0 <= p < comm_size w ->
  local_edges checked w p
  = Ok (parallel_sort source_less (received_edge_records D w p)).
Proof.
  intros Hp. unfold local_edges. now rewrite received_edges_spec.
Qed.

Lemma node_recvcounts_spec p :
  0 <= p < comm_size w ->
  node_recvcounts checked w p
  = Ok (map (fun pe => zlen (List.filter (fun nd => node_owner D nd =? p)
                                         (sent_nodes pe))) w).
Proof.
  intros Hp. unfold node_recvcounts.
  apply (omapM_ranks checked). intros r pe Hpe.
  pose proof (vw_pe _ _ _ Hvalid r pe Hpe) as Hv.
  erewrite num_nodes_for_pe_spec by side. simpl.
  apply load_Ok, ix_counts_of, Hp.
Qed.

(** Every received record names a cluster of the receiver. *)
Lemma received_nodes_valid p :
  Forall (fun nd => 0 <= GlobalNode.u nd < total_nodes D
                    /\ node_owner D nd = p)
         (received_nodes D w p).
Proof.
  apply Forall_forall. intros nd Hnd.
  apply list_elem_of_In, in_flat_map in Hnd as (pe & Hpe & Hnd).
  apply List.filter_In in Hnd as [Hnd Hk]. apply Z.eqb_eq in Hk.
  destruct (pe_valid D GC w Hvalid pe Hpe) as (r & Hr & Hv).
  pose proof (sent_nodes_valid D GC w Hvalid r pe Hv Hr) as H.
  rewrite Forall_forall in H.
  destruct (H nd) as (Hc & _); [now apply list_elem_of_In|]. auto.
Qed.

End Exchange.

(** ** Phase D on every process: coarse identifiers *)

(** The result of a computation that is known to return. *)
Definition value {A} (o : outcome A) (d : A) : A :=
  match o with
  | Ok a => a
  | _ => d
  end.

Lemma value_Ok {A} (o : outcome A) (d a : A) : o = Ok a -> value o d = a.
Proof. now intros ->. Qed.

Lemma Ok_value {A} (o : outcome A) (d : A) :
  (exists a, o = Ok a) -> o = Ok (value o d).
Proof. now intros [a ->]. Qed.

Lemma exclusive_scan_nowrap bits acc l :
  0 <= acc -> Forall (fun x => 0 <= x) l -> acc + sumZ l < 2 ^ bits ->
  exclusive_scan bits acc l = displacements acc l.
Proof.
  intros Hacc Hl. revert acc Hacc.
  induction Hl as [|x l Hx Hl IH]; intros acc Hacc Hb; [reflexivity|].
  simpl in *. pose proof (sumZ_nonneg l Hl).
  rewrite wrap_small by lia. f_equal. apply IH; lia.
Qed.

Lemma ix_displacements acc l (k : nat) :
  (k < length l)%nat ->
  ix (displacements acc l) (Z.of_nat k) = Some (acc + sumZ (take k l)).
Proof.
  revert acc k. induction l as [|x l IH]; intros acc k Hk; [simpl in Hk; lia|].
  destruct k as [|k].
  - simpl. rewrite ix_0. f_equal. lia.
  - simpl displacements. rewrite ix_cons by lia.
    replace (Z.of_nat (S k) - 1) with (Z.of_nat k) by lia.
    simpl in Hk. rewrite IH by lia. f_equal. simpl. lia.
Qed.

Lemma length_displacements acc l : length (displacements acc l) = length l.
Proof. revert acc. induction l; intros; simpl; auto. Qed.

Lemma sumZ_take_snoc (l : list Z) (k : nat) x :
  l !! k = Some x -> sumZ (take (S k) l) = sumZ (take k l) + x.
Proof.
  intros H. rewrite (take_S_r _ _ _ H), sumZ_app. simpl. lia.
Qed.

Section CoarseIds.

Variable checked : bool.
Variables (D : list Z) (GC : Z -> Z) (w : World).
Hypothesis Hvalid : valid_world D GC w.
Hypothesis Hsmall : small_world D w.

(** The array [lnode_to_lcnode] of process [p], its number of coarse
    nodes, and the coarse node distribution. *)
Definition lcnode (p : Z) : list Z := value (lnode_to_lcnode checked w p) [].

Definition cn (p : Z) : Z := coarse_n (lcnode p).

Definition cdist : list Z := value (c_node_distribution checked w) [].

(** The clusters of process [p] that are not empty. *)
Definition nonempty_at (p : Z) (pe : PE) : list Z :=
  nonempty_clusters (graph pe) (lnode_to_gcluster pe) (received_nodes D w p).

Section OnePE.

Variables (p : Z) (pe : PE).
Hypothesis Hpe : valid_pe D GC p pe.
Hypothesis Hin : ix w p = Some pe.

Lemma received_nodes_owned :
  Forall (fun nd => Graph.is_owned_global_node (graph pe) (GlobalNode.u nd)
                    = true)
         (received_nodes D w p).
Proof.
  eapply Forall_impl; [apply (received_nodes_valid D GC w Hvalid p)|].
  intros nd [Hc Ho]. eapply is_owned_owner; side.
Qed.

Lemma lnode_to_lcnode_props :
  lnode_to_lcnode checked w p = Ok (lcnode p)
  /\ zlen (lcnode p) = Graph.n (graph pe)
  /\ cn p = zlen (nonempty_at p pe)
  /\ (forall i, 0 <= i < Graph.n (graph pe) ->
        cluster_nonempty (graph pe) (lnode_to_gcluster pe)
                         (received_nodes D w p) i = true ->
        exists c, ix (lcnode p) i = Some c /\ 0 <= c < cn p
                  /\ ix (nonempty_at p pe) c = Some i).
Proof.
  pose proof (rank_range w p pe Hin) as Hp.
  destruct (build_lnode_to_lcnode_mapping_spec checked (graph pe)
              (lnode_to_gcluster pe) (received_nodes D w p))
    as (m & Hm & Hlen & Hcn & Hne & _).
  - apply (vp_wf _ _ _ _ Hpe).
  - rewrite (vp_clustering_len _ _ _ _ Hpe), (vp_total D GC p pe Hpe).
    pose proof (vp_ghost_n_nonneg D GC p pe Hpe). lia.
  - apply received_nodes_owned.
  - assert (E : lnode_to_lcnode checked w p = Ok m).
    { unfold lnode_to_lcnode. rewrite (load_Ok _ _ _ Hin). simpl.
      erewrite local_nodes_spec by side. exact Hm. }
    unfold cn, lcnode. rewrite E. simpl. auto.
Qed.

Lemma cn_range : 0 <= cn p <= Graph.n (graph pe).
Proof.
  destruct lnode_to_lcnode_props as (_ & _ & -> & _).
  unfold nonempty_at, nonempty_clusters.
  pose proof (filter_length_le
                (cluster_nonempty (graph pe) (lnode_to_gcluster pe)
                                  (received_nodes D w p))
                (seqZ 0 (Graph.n (graph pe)))) as H.
  pose proof (vp_n_nonneg D GC p pe Hpe).
  rewrite zlen_seqZ in H by lia.
  split; [apply zlen_nonneg|exact H].
Qed.

Lemma c_n_spec : c_n checked w p = Ok (cn p).
Proof.
  unfold c_n. destruct lnode_to_lcnode_props as (-> & _). reflexivity.
Qed.

End OnePE.

(** *** The coarse node distribution *)

Definition coarse_counts : list Z := map cn (ranks w).

Lemma coarse_counts_spec :
  omapM (c_n checked w) (ranks w) = Ok coarse_counts.
Proof.
  apply omapM_Ok. intros p Hp. apply (In_rank w) in Hp.
  destruct (rank_pe D GC w Hvalid p Hp) as (pe & Hin & Hpe).
  eapply c_n_spec; side.
Qed.

Lemma length_coarse_counts : length coarse_counts = Z.to_nat (comm_size w).
Proof. unfold coarse_counts, ranks. now rewrite length_map, length_seqZ. Qed.

Lemma coarse_counts_lookup (k : nat) :
  Z.of_nat k < comm_size w -> coarse_counts !! k = Some (cn (Z.of_nat k)).
Proof.
  intros Hk. unfold coarse_counts, ranks.
  rewrite list_lookup_fmap, lookup_seqZ_lt by lia. simpl. f_equal.
Qed.

(** The coarse nodes of the first [k] processes are at most as many as
    their nodes. *)
Lemma coarse_prefix_le (k : nat) :
  Z.of_nat k <= comm_size w ->
  exists d, ix D (Z.of_nat k) = Some d
            /\ 0 <= sumZ (take k coarse_counts) <= d.
Proof.
  induction k as [|k IH]; intros Hk.
  - exists 0. change (Z.of_nat 0) with 0.
    rewrite (vw_D_first _ _ _ Hvalid). simpl. split; [reflexivity|lia].
  - destruct IH as (d & Hd & Hle); [lia|].
    destruct (rank_pe D GC w Hvalid (Z.of_nat k)) as (pe & Hin & Hpe); [lia|].
    pose proof (cn_range (Z.of_nat k) pe Hpe Hin) as Hcn.
    rewrite (sumZ_take_snoc _ _ _ (coarse_counts_lookup k ltac:(lia))).
    pose proof (vp_offset _ _ _ _ Hpe) as Hoff.
    pose proof (vp_next _ _ _ _ Hpe) as Hnext.
    rewrite Hd in Hoff. inversion Hoff as [Hoff'].
    exists (Graph.offset_n (graph pe) + Graph.n (graph pe)).
    split; [|lia].
    now replace (Z.of_nat (S k)) with (Z.of_nat k + 1) by lia.
Qed.

Lemma coarse_counts_nonneg : Forall (fun x => 0 <= x) coarse_counts.
Proof.
  apply Forall_forall. intros x Hx.
  apply list_elem_of_In, in_map_iff in Hx as (p & <- & Hp).
  apply (In_rank w) in Hp.
  destruct (rank_pe D GC w Hvalid p Hp) as (pe & Hin & Hpe).
  apply (cn_range p pe Hpe Hin).
Qed.

Lemma coarse_total_le : 0 <= sumZ coarse_counts <= total_nodes D.
Proof.
  destruct (coarse_prefix_le (Z.to_nat (comm_size w))) as (d & Hd & Hle).
  { pose proof (comm_size_nonneg w). lia. }
  rewrite Z2Nat.id in Hd by apply comm_size_nonneg.
  rewrite (D_last D GC w Hvalid) in Hd. inversion Hd; subst d.
  rewrite take_ge in Hle by (rewrite length_coarse_counts; lia). exact Hle.
Qed.

Lemma c_node_distribution_spec :
  c_node_distribution checked w = Ok cdist
  /\ cdist = displacements 0 (coarse_counts ++ [0]).
Proof.
  assert (E : c_node_distribution checked w
              = Ok (displacements 0 (coarse_counts ++ [0]))).
  { unfold c_node_distribution. rewrite coarse_counts_spec. simpl.
    unfold build_distribution. rewrite exclusive_scan_nowrap; [reflexivity|lia| |].
    - apply Forall_app. split; [apply coarse_counts_nonneg|].
      constructor; [lia|constructor].
    - rewrite sumZ_app. simpl. pose proof coarse_total_le.
      pose proof (total_nodes_nonneg D GC w Hvalid).
      unfold small_world in Hsmall.
      assert (0 <= total_edges w).
      { unfold total_edges. apply sumZ_nonneg, Forall_forall.
        intros x Hx. apply list_elem_of_In, in_map_iff in Hx as (? & <- & _).
        apply zlen_nonneg. }
      lia. }
  unfold cdist. rewrite E. auto.
Qed.

Lemma zlen_cdist : zlen cdist = comm_size w + 1.
Proof.
  destruct c_node_distribution_spec as [_ ->].
  unfold zlen. rewrite length_displacements, length_app, length_coarse_counts.
  simpl. pose proof (comm_size_nonneg w). lia.
Qed.

(** The first coarse identifier of process [p]. *)
Definition coarse_offset (p : Z) : Z :=
  sumZ (take (Z.to_nat p) coarse_counts).

Lemma ix_cdist p :
  0 <= p <= comm_size w -> ix cdist p = Some (coarse_offset p).
Proof.
  intros Hp. destruct c_node_distribution_spec as [_ ->].
  rewrite <- (Z2Nat.id p) at 1 by lia.
  rewrite ix_displacements.
  - unfold coarse_offset. f_equal.
    rewrite take_app_le by (rewrite length_coarse_counts; lia). lia.
  - rewrite length_app, length_coarse_counts. simpl. lia.
Qed.

Lemma coarse_offset_succ p :
  0 <= p < comm_size w -> coarse_offset (p + 1) = coarse_offset p + cn p.
Proof.
  intros Hp. unfold coarse_offset.
  replace (Z.to_nat (p + 1)) with (S (Z.to_nat p)) by lia.
  rewrite (sumZ_take_snoc _ _ (cn p)); [reflexivity|].
  rewrite coarse_counts_lookup by lia. f_equal. f_equal. lia.
Qed.

Lemma coarse_offset_mono p q :
  0 <= p <= q -> q <= comm_size w -> coarse_offset p <= coarse_offset q.
Proof.
  intros Hp Hq.
  replace q with (p + Z.of_nat (Z.to_nat (q - p))) in * by lia.
  induction (Z.to_nat (q - p)) as [|k IH].
  - rewrite Z.add_0_r. lia.
  - specialize (IH ltac:(lia) ltac:(lia)).
    replace (p + Z.of_nat (S k)) with (p + Z.of_nat k + 1) by lia.
    rewrite coarse_offset_succ by lia.
    destruct (rank_pe D GC w Hvalid (p + Z.of_nat k)) as (pe & Hin & Hpe);
      [lia|].
    pose proof (cn_range _ pe Hpe Hin). lia.
Qed.

Lemma coarse_offset_nonneg p : 0 <= p <= comm_size w -> 0 <= coarse_offset p.
Proof.
  intros Hp. pose proof (coarse_offset_mono 0 p ltac:(lia) ltac:(lia)).
  unfold coarse_offset in *. simpl in *. lia.
Qed.

Lemma coarse_total_small : coarse_offset (comm_size w) < 2 ^ 32.
Proof.
  unfold coarse_offset.
  rewrite take_ge by (rewrite length_coarse_counts; lia).
  pose proof coarse_total_le.
  assert (0 <= total_edges w).
  { unfold total_edges. apply sumZ_nonneg, Forall_forall.
    intros x Hx. apply list_elem_of_In, in_map_iff in Hx as (? & <- & _).
    apply zlen_nonneg. }
  unfold small_world in Hsmall. lia.
Qed.

Lemma back_cdist : back cdist = Some (coarse_offset (comm_size w)).
Proof.
  unfold back. rewrite last_lookup.
  pose proof zlen_cdist as Hlen. unfold zlen in Hlen.
  pose proof (comm_size_nonneg w).
  rewrite <- (ix_cdist (comm_size w)) by lia.
  unfold ix. destruct (Z.ltb_spec (comm_size w) 0); [lia|].
  f_equal. lia.
Qed.

End CoarseIds.

(** ** The coarse identifier of a cluster *)

Section CoarseId.

Variable checked : bool.
Variables (D : list Z) (GC : Z -> Z) (w : World).
Hypothesis Hvalid : valid_world D GC w.
Hypothesis Hsmall : small_world D w.

(** The index of the cluster [c] on its owner. *)
Definition local_index (c : Z) : Z := c - default 0 (ix D (owner_of D c)).

(** The coarse node of the cluster [c]: the entry of [lnode_to_lcnode]
    on the owner of [c], shifted by the owner's entry of the coarse node
    distribution. *)
Definition coarse_local (c : Z) : Z :=
  default 0 (ix (lcnode checked w (owner_of D c)) (local_index c)).

Definition coarse_id (c : Z) : Z :=
  coarse_offset checked w (owner_of D c) + coarse_local c.

(** The cluster [c] has a member: a node of some process is assigned to
    it. *)
Definition inhabited (c : Z) : Prop :=
  exists q pe x, ix w q = Some pe /\ 0 <= x < Graph.total_n (graph pe)
                 /\ c = cluster_at pe x.

Lemma In_sent_nodes (q : Z) (pe : PE) (u : Z) :
  valid_pe D GC q pe -> 0 <= u < Graph.n (graph pe) -> away pe u = true ->
  In (node_record pe u) (sent_nodes pe).
Proof.
  intros Hpe Hu Ha. unfold sent_nodes, sort_node_list.
  apply list_elem_of_In.
  rewrite (parallel_sort_Permutation node_less).
  apply list_elem_of_In, in_map, List.filter_In. split; [|exact Ha].
  apply list_elem_of_In, elem_of_seqZ. lia.
Qed.

Lemma local_index_owner (p : Z) (pe : PE) (c : Z) :
  valid_pe D GC p pe -> owner_of D c = p ->
  local_index c = c - Graph.offset_n (graph pe).
Proof.
  intros Hpe Ho. unfold local_index.
  now rewrite Ho, (vp_offset _ _ _ _ Hpe).
Qed.

(** Every node has an owner that holds it as a local node. *)
Lemma home_of (v : Z) :
  0 <= v < total_nodes D ->
  exists s pe u, ix w s = Some pe /\ valid_pe D GC s pe
                 /\ 0 <= u < Graph.n (graph pe)
                 /\ global_of (graph pe) u = v
                 /\ cluster_at pe u = GC v.
Proof.
  intros Hv.
  destruct (owner_of_spec D GC w Hvalid v Hv) as (Ho & a & b & Ha & Hb & Hab).
  destruct (rank_pe D GC w Hvalid _ Ho) as (pe & Hin & Hpe).
  pose proof (vp_offset _ _ _ _ Hpe) as Hoff.
  pose proof (vp_next _ _ _ _ Hpe) as Hnext.
  rewrite Ha in Hoff. rewrite Hb in Hnext.
  inversion Hoff as [Hoff']. inversion Hnext as [Hnext'].
  exists (owner_of D v), pe, (v - a).
  assert (Hu : 0 <= v - a < Graph.n (graph pe)) by lia.
  assert (Hg : global_of (graph pe) (v - a) = v).
  { unfold global_of.
    destruct (Z.ltb_spec (v - a) (Graph.n (graph pe))); lia. }
  split; [exact Hin|]. split; [exact Hpe|]. split; [exact Hu|].
  split; [exact Hg|].
  destruct (cluster_spec D GC _ pe Hpe (v - a)) as [_ Hc].
  - pose proof (vp_total D GC _ pe Hpe).
    pose proof (vp_ghost_n_nonneg D GC _ pe Hpe). lia.
  - now rewrite Hc, Hg.
Qed.

(** A cluster with a member is marked on its owner: by a node of the
    owner, or by a received node record. *)
Lemma inhabited_nonempty (c : Z) (p : Z) (pe : PE) :
  inhabited c -> ix w p = Some pe -> owner_of D c = p ->
  0 <= c < total_nodes D
  /\ 0 <= local_index c < Graph.n (graph pe)
  /\ cluster_nonempty (graph pe) (lnode_to_gcluster pe)
                      (received_nodes D w p) (local_index c) = true.
Proof.
  intros (q & peq & x & Hq & Hx & ->) Hin Ho.
  pose proof (vw_pe _ _ _ Hvalid _ _ Hq) as Hpeq.
  pose proof (vw_pe _ _ _ Hvalid _ _ Hin) as Hpe.
  pose proof (cluster_valid D GC w Hvalid q peq Hpeq x Hx) as Hc.
  pose proof (global_of_valid D GC w Hvalid q peq Hpeq x Hx) as Hv.
  destruct (cluster_spec D GC q peq Hpeq x Hx) as [_ Hcl].
  set (c := cluster_at peq x) in *.
  assert (Hown : Graph.is_owned_global_node (graph pe) c = true)
    by (eapply is_owned_owner; side).
  rewrite (local_index_owner p pe c Hpe Ho).
  pose proof (proj1 (is_owned_spec D GC p pe Hpe c) Hown) as Hr.
  split; [exact Hc|]. split; [lia|].
  destruct (home_of _ Hv) as (s & pes & u & Hs & Hpes & Hu & Hg & Hcu).
  rewrite <- Hcl in Hcu.
  pose proof (vp_total D GC s pes Hpes) as Htot.
  pose proof (vp_ghost_n_nonneg D GC s pes Hpes) as Hgn.
  destruct (cluster_spec D GC s pes Hpes u ltac:(lia)) as [Hix _].
  unfold cluster_nonempty. apply orb_true_iff.
  destruct (Graph.is_owned_global_node (graph pes) c) eqn:Hos.
  - left.
    assert (s = p).
    { apply (is_owned_owner D GC w Hvalid s pes Hpes Hs c Hc) in Hos. lia. }
    subst s. rewrite Hin in Hs. inversion Hs; subst pes.
    apply existsb_exists. exists u. split.
    + apply list_elem_of_In, elem_of_seqZ. lia.
    + unfold hits_own. rewrite Hix, Hcu, Hown. simpl. apply Z.eqb_refl.
  - right. apply existsb_exists. exists (node_record pes u). split.
    + unfold received_nodes. apply in_flat_map. exists pes.
      split; [eapply ix_In, Hs|]. apply List.filter_In. split.
      * apply (In_sent_nodes s); auto. unfold away. now rewrite Hcu, Hos.
      * unfold node_owner, node_record. simpl. rewrite Hcu. now apply Z.eqb_eq.
    + unfold hits_received, node_record. simpl. rewrite Hcu. apply Z.eqb_refl.
Qed.

(** The coarse node of a cluster with a member lies in the range of the
    owner of the cluster. *)
Lemma coarse_local_spec (c : Z) (p : Z) (pe : PE) :
  inhabited c -> ix w p = Some pe -> owner_of D c = p ->
  ix (lcnode checked w p) (c - Graph.offset_n (graph pe))
  = Some (coarse_local c)
  /\ 0 <= coarse_local c < cn checked w p.
Proof.
  intros Hc Hin Ho.
  pose proof (vw_pe _ _ _ Hvalid _ _ Hin) as Hpe.
  destruct (inhabited_nonempty c p pe Hc Hin Ho) as (_ & Hr & Hne).
  destruct (lnode_to_lcnode_props checked D GC w Hvalid Hsmall p pe Hpe Hin)
    as (_ & _ & _ & H).
  destruct (H _ Hr Hne) as (lc & Hlc & Hrange & _).
  unfold coarse_local. rewrite Ho, Hlc. simpl.
  rewrite <- (local_index_owner p pe c Hpe Ho). auto.
Qed.

Lemma coarse_id_range (c : Z) :
  inhabited c ->
  coarse_offset checked w (owner_of D c) <= coarse_id c
  /\ coarse_id c < coarse_offset checked w (owner_of D c + 1)
  /\ 0 <= coarse_id c < coarse_offset checked w (comm_size w).
Proof.
  intros Hc.
  assert (Hv : 0 <= c < total_nodes D).
  { destruct Hc as (q & peq & x & Hq & Hx & ->).
    eapply cluster_valid; [exact Hvalid|eapply vw_pe; eauto|exact Hx]. }
  destruct (owner_of_spec D GC w Hvalid c Hv) as (Ho & _).
  destruct (rank_pe D GC w Hvalid _ Ho) as (pe & Hin & Hpe).
  destruct (coarse_local_spec c _ pe Hc Hin eq_refl) as (_ & Hr).
  pose proof (coarse_offset_succ checked w _ Ho) as Hs.
  pose proof (coarse_offset_mono checked D GC w Hvalid Hsmall
                (owner_of D c + 1) (comm_size w) ltac:(lia) ltac:(lia)).
  pose proof (coarse_offset_nonneg checked D GC w Hvalid Hsmall
                (owner_of D c) ltac:(lia)).
  unfold coarse_id. lia.
Qed.

End CoarseId.

(** ** Phase E.1: the echo of the migrated nodes *)

Section Echo.

Variable checked : bool.
Variables (D : list Z) (GC : Z -> Z) (w : World).
Hypothesis Hvalid : valid_world D GC w.
Hypothesis Hsmall : small_world D w.

(** The answer to the node record [nd]. *)
Definition echo_of (nd : GlobalNode.t) : NodeMapping.t :=
  NodeMapping.mk (GlobalNode.u nd) (coarse_id checked D w (GlobalNode.u nd)).

Lemma sent_nodes_inhabited r pe :
  ix w r = Some pe ->
  Forall (fun nd => inhabited w (GlobalNode.u nd)
                    /\ 0 <= GlobalNode.u nd < total_nodes D
                    /\ node_owner D nd <> r)
         (sent_nodes pe).
Proof.
  intros Hin. pose proof (vw_pe _ _ _ Hvalid _ _ Hin) as Hpe.
  eapply Forall_impl; [apply (sent_nodes_valid D GC w Hvalid r pe Hpe Hin)|].
  intros nd (Hc & Ho & u & Hu & Hcu). cbv beta. split; [|auto].
  exists r, pe, u. split; [exact Hin|]. split; [|exact Hcu].
  pose proof (vp_total D GC r pe Hpe).
  pose proof (vp_ghost_n_nonneg D GC r pe Hpe). lia.
Qed.

Lemma received_nodes_inhabited p :
  Forall (fun nd => inhabited w (GlobalNode.u nd)
                    /\ 0 <= GlobalNode.u nd < total_nodes D
                    /\ owner_of D (GlobalNode.u nd) = p)
         (received_nodes D w p).
Proof.
  apply Forall_forall. intros nd Hnd.
  apply list_elem_of_In, in_flat_map in Hnd as (pe & Hpe & Hnd).
  apply List.filter_In in Hnd as [Hnd Hk]. apply Z.eqb_eq in Hk.
  destruct (pe_valid D GC w Hvalid pe Hpe) as (r & Hr & Hv).
  pose proof (sent_nodes_inhabited r pe Hr) as H.
  rewrite Forall_forall in H.
  destruct (H nd) as (Hi & Hc & _); [now apply list_elem_of_In|]. auto.
Qed.

Lemma coarse_id_small c :
  inhabited w c -> 0 <= coarse_id checked D w c < 2 ^ 32.
Proof.
  intros Hc.
  destruct (coarse_id_range checked D GC w Hvalid Hsmall c Hc) as (_ & _ & H).
  pose proof (coarse_total_small checked D GC w Hvalid Hsmall). lia.
Qed.

(** What the owner of a cluster answers for it. *)
Lemma coarse_id_computed (p : Z) (pe : PE) (c : Z) :
  ix w p = Some pe -> inhabited w c -> owner_of D c = p ->
  (lc ← load (lcnode checked w p) (wrap64 (c - Graph.offset_n (graph pe)));
   off ← load (cdist checked w) (Graph.rank (graph pe));
   Ok (wrap64 (lc + off)))
  = Ok (coarse_id checked D w c).
Proof.
  intros Hin Hc Ho. pose proof (vw_pe _ _ _ Hvalid _ _ Hin) as Hpe.
  destruct (inhabited_nonempty D GC w Hvalid c p pe Hc Hin Ho)
    as (Hv & Hr & _).
  rewrite (local_index_owner D GC p pe c Hpe Ho) in Hr.
  destruct (coarse_local_spec checked D GC w Hvalid Hsmall c p pe Hc Hin Ho)
    as (Hlc & Hrange).
  pose proof (rank_range w p pe Hin) as Hp.
  pose proof (Graph.wf_total _ (vp_wf _ _ _ _ Hpe)) as Ht.
  pose proof (vp_ghost_n_nonneg D GC p pe Hpe) as Hgn.
  rewrite wrap64_small by lia. rewrite (load_Ok _ _ _ Hlc). simpl.
  rewrite (vp_rank _ _ _ _ Hpe).
  rewrite (load_Ok _ _ _ (ix_cdist checked D GC w Hvalid Hsmall p ltac:(lia))).
  simpl. f_equal.
  pose proof (coarse_id_small c Hc) as Hs. unfold coarse_id in *.
  rewrite Ho in *. rewrite wrap64_small by lia. lia.
Qed.

Lemma local_nodes_mapping_spec p pe :
  ix w p = Some pe ->
  local_nodes_mapping checked w p
  = Ok (map echo_of (received_nodes D w p)).
Proof.
  intros Hin. pose proof (vw_pe _ _ _ Hvalid _ _ Hin) as Hpe.
  pose proof (rank_range w p pe Hin) as Hp.
  unfold local_nodes_mapping. rewrite (load_Ok _ _ _ Hin). simpl.
  erewrite local_nodes_spec by side. simpl.
  destruct (lnode_to_lcnode_props checked D GC w Hvalid Hsmall p pe Hpe Hin)
    as (-> & _). simpl.
  destruct (c_node_distribution_spec checked D GC w Hvalid Hsmall) as (-> & _).
  simpl. apply omapM_Ok. intros nd Hnd.
  pose proof (received_nodes_inhabited p) as H. rewrite Forall_forall in H.
  destruct (H nd) as (Hi & Hc & Ho); [now apply list_elem_of_In|].
  pose proof (coarse_id_computed p pe _ Hin Hi Ho) as E.
  destruct (load (lcnode checked w p) _) as [lc| |]; try discriminate.
  simpl in *.
  destruct (load (cdist checked w) _) as [off| |]; try discriminate.
  simpl in *. inversion E as [E']. unfold echo_of. now rewrite E'.
Qed.

(** The second exchange returns to every process the answers to the
    node records it sent, in the order of its send buffer. *)
Lemma local_nodes_mapping_rsps_spec r pe :
  ix w r = Some pe ->
  local_nodes_mapping_rsps checked w r = Ok (map echo_of (sent_nodes pe)).
Proof.
  intros Hin. pose proof (vw_pe _ _ _ Hvalid _ _ Hin) as Hpe.
  pose proof (rank_range w r pe Hin) as Hr.
  unfold local_nodes_mapping_rsps, alltoallv.
  rewrite (omapM_Ok _
             (fun p => map echo_of
                         (List.filter (fun nd => node_owner D nd =? p)
                                      (sent_nodes pe)))).
  - simpl. f_equal.
    replace (map _ (ranks w))
      with (map (map echo_of)
                (blocks (node_owner D) (comm_size w) (sent_nodes pe)))
      by (unfold blocks, ranks; now rewrite map_map).
    rewrite <- concat_map. f_equal.
    apply (concat_blocks (node_owner D) (comm_size w) (sent_nodes pe)).
    + lia.
    + eapply sent_nodes_sorted; side.
    + eapply sent_nodes_keys; side.
  - intros p Hp. apply (In_rank w) in Hp.
    destruct (rank_pe D GC w Hvalid p Hp) as (pep & Hinp & Hpep).
    rewrite (local_nodes_mapping_spec p pep Hinp). simpl.
    erewrite node_recvcounts_spec by side. simpl.
    set (bs := map (fun pe' => map echo_of
                      (List.filter (fun nd => node_owner D nd =? p)
                                   (sent_nodes pe'))) w).
    assert (E1 : map echo_of (received_nodes D w p) = [] ++ concat bs).
    { unfold received_nodes, bs. rewrite flat_map_concat_map, concat_map.
      now rewrite map_map. }
    assert (E2 : map (fun pe' => zlen (List.filter
                                         (fun nd => node_owner D nd =? p)
                                         (sent_nodes pe'))) w
                 = map zlen bs).
    { unfold bs. rewrite map_map. apply map_ext. intros pe'.
      now rewrite zlen_map. }
    rewrite E1, E2. apply (sent_block_concat bs [] r).
    unfold bs. rewrite ix_map, Hin. reflexivity.
Qed.

End Echo.

(** ** Phase E.2: the requests *)

(** A loop whose state grows: every step keeps the invariant [P],
    extends the state along [R], and establishes [Q] for its element;
    [Q] is kept along [R]. *)
Lemma foldM_covers {A B} (f : A -> B -> outcome A) (P : A -> Prop)
    (R : A -> A -> Prop) (Q : B -> A -> Prop) (l : list B) :
  (forall a, R a a) ->
  (forall a b c, R a b -> R b c -> R a c) ->
  (forall x a a', R a a' -> Q x a -> Q x a') ->
  (forall a x, In x l -> P a ->
     exists a', f a x = Ok a' /\ P a' /\ R a a' /\ Q x a') ->
  forall a, P a ->
    exists b, foldM f a l = Ok b /\ P b /\ R a b
              /\ (forall x, In x l -> Q x b).
Proof.
  intros Hrefl Htrans Hmono. induction l as [|x l IH]; intros Hstep a Ha.
  - exists a. simpl. repeat split; auto. intros x [].
  - destruct (Hstep a x (or_introl eq_refl) Ha) as (a' & E & Ha' & HR & HQ).
    destruct (IH (fun a0 y Hy => Hstep a0 y (or_intror Hy)) a' Ha')
      as (b & Eb & Hb & HRb & HQb).
    exists b. simpl. rewrite E. simpl. split; [exact Eb|].
    split; [exact Hb|]. split; [eapply Htrans; eauto|].
    intros y [<-|Hy]; [eapply Hmono; eauto|auto].
Qed.

Lemma row_bound (a b : Z) (l : list Z) :
  NoDup l -> Forall (fun c => a <= c < b) l -> zlen l <= Z.max 0 (b - a).
Proof.
  intros Hnd Hr.
  assert (H : (length l <= length (seqZ a (b - a)))%nat).
  { apply NoDup_incl_length; [now apply NoDup_ListNoDup|].
    intros c Hc. rewrite Forall_forall in Hr.
    apply list_elem_of_In, elem_of_seqZ.
    specialize (Hr c ltac:(now apply list_elem_of_In)). lia. }
  rewrite length_seqZ in H. unfold zlen. lia.
Qed.

(** The keys of the first map are keys of the second. *)
Definition grows (st st' : RequestState) : Prop :=
  forall k, is_Some (nonlocal_gcluster_to_index st !! k) ->
            is_Some (nonlocal_gcluster_to_index st' !! k).

Section Requests.

Variable checked : bool.
Variables (D : list Z) (GC : Z -> Z) (w : World).
Hypothesis Hvalid : valid_world D GC w.
Hypothesis Hsmall : small_world D w.

Lemma inhabited_valid c : inhabited w c -> 0 <= c < total_nodes D.
Proof.
  intros (q & peq & x & Hq & Hx & ->).
  eapply cluster_valid; [exact Hvalid|eapply vw_pe; eauto|exact Hx].
Qed.

Lemma total_nodes_small : total_nodes D < 2 ^ 32.
Proof.
  assert (0 <= total_edges w).
  { unfold total_edges. apply sumZ_nonneg, Forall_forall.
    intros x Hx. apply list_elem_of_In, in_map_iff in Hx as (? & <- & _).
    apply zlen_nonneg. }
  unfold small_world in Hsmall. lia.
Qed.

Section OnePE.

Variables (r : Z) (pe : PE).
Hypothesis Hin : ix w r = Some pe.

(** A cluster that process [r] may ask for. *)
Definition remote (c : Z) : Prop := inhabited w c /\ owner_of D c <> r.

(** The request state and the request lists [rows] that will be built
    from it: a cluster is the [i]-th request to its owner exactly when
    the map sends it to [i + 1]. *)
Record request_inv (st : RequestState) (rows : Z -> list Z) : Prop := {
  ri_len : zlen (next_index_for_pe st) = comm_size w + 1;
  ri_next : forall p, 0 <= p < comm_size w ->
      ix (next_index_for_pe st) p = Some (zlen (rows p));
  ri_last : ix (next_index_for_pe st) (comm_size w) = Some 0;
  ri_row : forall p i c, 0 <= p < comm_size w -> ix (rows p) i = Some c ->
      nonlocal_gcluster_to_index st !! (c + 1) = Some (i + 1)
      /\ remote c /\ owner_of D c = p;
  ri_key : forall key v, nonlocal_gcluster_to_index st !! key = Some v ->
      exists c, key = c + 1 /\ ix (rows (owner_of D c)) (v - 1) = Some c
                /\ remote c
}.

Definition covered (st : RequestState) (c : Z) : Prop :=
  Graph.is_owned_global_node (graph pe) c = true
  \/ is_Some (nonlocal_gcluster_to_index st !! (c + 1)).

Lemma covered_grows st st' c : grows st st' -> covered st c -> covered st' c.
Proof. intros Hg [H|H]; [now left|right; auto]. Qed.

Lemma rows_NoDup st rows p :
  request_inv st rows -> 0 <= p < comm_size w -> NoDup (rows p).
Proof.
  intros Hinv Hp. apply NoDup_alt. intros i j c Hi Hj.
  rewrite <- ix_nat in Hi, Hj.
  destruct (ri_row _ _ Hinv p _ c Hp Hi) as (E1 & _).
  destruct (ri_row _ _ Hinv p _ c Hp Hj) as (E2 & _).
  rewrite E1 in E2. inversion E2. lia.
Qed.

Lemma rows_range st rows p a b :
  request_inv st rows -> 0 <= p < comm_size w ->
  ix D p = Some a -> ix D (p + 1) = Some b ->
  Forall (fun c => a <= c < b) (rows p).
Proof.
  intros Hinv Hp Ha Hb. apply Forall_forall. intros c Hc.
  apply list_elem_of_In, In_ix in Hc as (i & _ & Hi).
  destruct (ri_row _ _ Hinv p i c Hp Hi) as (_ & (Hi' & _) & Ho).
  destruct (owner_of_spec D GC w Hvalid c (inhabited_valid c Hi'))
    as (_ & a' & b' & Ha' & Hb' & Hab).
  rewrite Ho, Ha in Ha'. rewrite Ho, Hb in Hb'.
  inversion Ha'. inversion Hb'. lia.
Qed.

(** A process asks an owner for at most as many clusters as the owner
    has nodes. *)
Lemma rows_le st rows p a b :
  request_inv st rows -> 0 <= p < comm_size w ->
  ix D p = Some a -> ix D (p + 1) = Some b ->
  zlen (rows p) <= b - a /\ b - a <= total_nodes D.
Proof.
  intros Hinv Hp Ha Hb.
  pose proof (row_bound a b (rows p) (rows_NoDup st rows p Hinv Hp)
                (rows_range st rows p a b Hinv Hp Ha Hb)).
  pose proof (sorted_ix_le D p (p + 1) a b (vw_D_sorted _ _ _ Hvalid)
                ltac:(lia) Ha Hb).
  pose proof (D_nonneg D GC w Hvalid p a Ha).
  pose proof (D_nonneg D GC w Hvalid (p + 1) b Hb). lia.
Qed.

Lemma rows_le_total st rows p :
  request_inv st rows -> 0 <= p < comm_size w ->
  zlen (rows p) <= total_nodes D.
Proof.
  intros Hinv Hp.
  destruct (D_entry D GC w Hvalid p ltac:(lia)) as [a Ha].
  destruct (D_entry D GC w Hvalid (p + 1) ltac:(lia)) as [b Hb].
  pose proof (rows_le st rows p a b Hinv Hp Ha Hb). lia.
Qed.

Definition add_request (rows : Z -> list Z) (p c : Z) : Z -> list Z :=
  fun q => if q =? p then rows p ++ [c] else rows q.

Lemma request_nonlocal_mapping_step st rows c :
  request_inv st rows -> remote c ->
  exists st' rows',
    request_nonlocal_mapping checked (graph pe) st c = Ok st'
    /\ request_inv st' rows' /\ grows st st'
    /\ is_Some (nonlocal_gcluster_to_index st' !! (c + 1)).
Proof.
  intros Hinv Hrem. pose proof (vw_pe _ _ _ Hvalid _ _ Hin) as Hpe.
  destruct Hrem as [Hi Hne]. pose proof (inhabited_valid c Hi) as Hc.
  pose proof total_nodes_small as HN.
  unfold request_nonlocal_mapping. rewrite wrap64_small by lia.
  destruct (nonlocal_gcluster_to_index st !! (c + 1)) as [v|] eqn:Hkey.
  { exists st, rows. split; [reflexivity|]. split; [exact Hinv|].
    split; [intros k Hk; exact Hk|]. rewrite Hkey. eauto. }
  destruct (owner_of_spec D GC w Hvalid c Hc)
    as (Ho & a & b & Ha & Hb & Hab).
  set (p := owner_of D c) in *.
  erewrite find_owner_spec by side. simpl. fold p.
  rewrite (load_Ok _ _ _ (ri_next _ _ Hinv p Ho)). simpl.
  rewrite store_Ok by (rewrite (ri_len _ _ Hinv); lia). simpl.
  assert (Hfresh : ~ In c (rows p)).
  { intros Hc'. apply In_ix in Hc' as (i & _ & Hi').
    destruct (ri_row _ _ Hinv p i c Ho Hi') as (E & _). congruence. }
  assert (Hbound : zlen (rows p) + 1 <= total_nodes D).
  { pose proof (row_bound a b (c :: rows p)) as H.
    unfold zlen in *. simpl length in H.
    assert (b <= total_nodes D) by (apply (D_nonneg D GC w Hvalid (p + 1) b Hb)).
    assert (0 <= a) by (apply (D_nonneg D GC w Hvalid p a Ha)).
    enough (Z.of_nat (S (length (rows p))) <= Z.max 0 (b - a)) by lia.
    apply H.
    - constructor; [rewrite list_elem_of_In; exact Hfresh|].
      apply (rows_NoDup st rows p Hinv Ho).
    - constructor; [lia|]. apply (rows_range st rows p a b Hinv Ho Ha Hb). }
  pose proof (zlen_nonneg (rows p)) as Hnn.
  rewrite wrap32_small by lia.
  eexists. exists (add_request rows p c). split; [reflexivity|].
  split; [|split].
  - split; simpl.
    + rewrite zlen_insert. apply Hinv.
    + intros q Hq. unfold add_request.
      destruct (Z.eqb_spec q p) as [->|Hqp].
      * rewrite ix_insert_eq by (rewrite (ri_len _ _ Hinv); lia).
        rewrite zlen_app. reflexivity.
      * rewrite ix_insert_ne by lia. now apply Hinv.
    + rewrite ix_insert_ne by lia. apply Hinv.
    + intros q i c' Hq Hrow. unfold add_request in Hrow.
      destruct (Z.eqb_spec q p) as [->|Hqp].
      * pose proof (ix_Some_range _ _ _ Hrow) as Hr.
        rewrite zlen_app in Hr. change (zlen [c]) with 1 in Hr.
        destruct (decide (i = zlen (rows p))) as [->|Hlt].
        -- rewrite ix_app_r, Z.sub_diag, ix_0 in Hrow by lia.
           inversion Hrow; subst c'. rewrite lookup_insert_eq.
           repeat split; auto.
        -- rewrite ix_app_l in Hrow by lia.
           destruct (ri_row _ _ Hinv p i c' Ho Hrow) as (E & Hr' & Ho').
           rewrite lookup_insert_ne by (intros Heq; apply Hfresh;
             replace c with c' by lia; eapply ix_In, Hrow).
           auto.
      * destruct (ri_row _ _ Hinv q i c' Hq Hrow) as (E & Hr' & Ho').
        rewrite lookup_insert_ne by (intros Heq;
          replace c' with c in Ho' by lia; fold p in Ho'; lia).
        auto.
    + intros key v Hv.
      destruct (decide (key = c + 1)) as [->|Hk].
      * rewrite lookup_insert_eq in Hv. inversion Hv; subst v.
        exists c. split; [reflexivity|]. unfold add_request. fold p.
        rewrite Z.eqb_refl.
        replace (zlen (rows p) + 1 - 1) with (zlen (rows p)) by lia.
        rewrite ix_app_r, Z.sub_diag, ix_0 by lia. split; [reflexivity|].
        split; auto.
      * rewrite lookup_insert_ne in Hv by congruence.
        destruct (ri_key _ _ Hinv key v Hv) as (c' & -> & Hrow & Hr').
        exists c'. split; [reflexivity|]. split; [|exact Hr'].
        unfold add_request.
        destruct (Z.eqb_spec (owner_of D c') p) as [Heq|Hneq]; [|exact Hrow].
        rewrite Heq in Hrow. rewrite ix_app_l; [exact Hrow|].
        apply (ix_Some_range _ _ _ Hrow).
  - intros k Hk. simpl.
    destruct (decide (k = c + 1)) as [->|Hne'].
    + rewrite lookup_insert_eq. eauto.
    + now rewrite lookup_insert_ne by congruence.
  - simpl. rewrite lookup_insert_eq. eauto.
Qed.

Lemma request_if_nonlocal_step st rows c :
  request_inv st rows -> inhabited w c ->
  exists st',
    request_if_nonlocal checked (graph pe) st c = Ok st'
    /\ (exists rows', request_inv st' rows') /\ grows st st'
    /\ covered st' c.
Proof.
  intros Hinv Hi. pose proof (vw_pe _ _ _ Hvalid _ _ Hin) as Hpe.
  unfold request_if_nonlocal, covered.
  destruct (Graph.is_owned_global_node (graph pe) c) eqn:Hown.
  - exists st. split; [reflexivity|]. split; [eauto|].
    split; [intros k Hk; exact Hk|now left].
  - destruct (request_nonlocal_mapping_step st rows c Hinv)
      as (st' & rows' & E & Hinv' & Hg & Hk).
    + split; [exact Hi|].
      eapply is_owned_false; [exact Hvalid|exact Hpe|exact Hin| |exact Hown].
      now apply inhabited_valid.
    + exists st'. split; [exact E|]. split; [eauto|]. split; [exact Hg|].
      now right.
Qed.

End OnePE.

End Requests.

(** ** The request lists *)

Lemma map_const_replicate {A B} (x : B) (l : list A) :
  map (fun _ => x) l = replicate (length l) x.
Proof. induction l; simpl; congruence. Qed.

(** The entry for cluster [c] of a request list filled from the
    map [m]. *)
Definition placed_entry (m : gmap Z Z) (c : Z) : Z :=
  match m !! (c + 1) with
  | Some _ => c
  | None => 0
  end.

Section RequestLists.

Variable checked : bool.
Variables (D : list Z) (GC : Z -> Z) (w : World).
Hypothesis Hvalid : valid_world D GC w.
Hypothesis Hsmall : small_world D w.

Lemma received_edges_inhabited p :
  Forall (fun e => inhabited w (GlobalEdge.v e)
                   /\ 0 <= GlobalEdge.u e < total_nodes D
                   /\ owner_of D (GlobalEdge.u e) = p)
         (received_edge_records D w p).
Proof.
  apply Forall_forall. intros e He.
  apply list_elem_of_In, in_flat_map in He as (pe & Hpe & He).
  apply List.filter_In in He as [He Hk]. apply Z.eqb_eq in Hk.
  destruct (pe_valid D GC w Hvalid pe Hpe) as (r & Hr & Hv).
  pose proof (sent_edges_valid D GC w Hvalid r pe Hv Hr) as H.
  rewrite Forall_forall in H.
  destruct (H e) as (Hc & _ & x & Hx & Hcx); [now apply list_elem_of_In|].
  split; [|auto]. exists r, pe, x. auto.
Qed.

Section OnePE.

Variables (r : Z) (pe : PE).
Hypothesis Hin : ix w r = Some pe.

(** Every cluster that the construction of the coarse edges looks up
    was asked for: the clusters of the neighbours of the nodes that
    stay, and the targets of the received edges. *)
Definition requests_cover (st : RequestState) : Prop :=
  (forall u ev, 0 <= u < Graph.n (graph pe) ->
     Graph.is_owned_global_node (graph pe) (cluster_at pe u) = true ->
     In ev (adjacency (graph pe) u) ->
     covered pe st (cluster_at pe ev.2))
  /\ (forall e, In e (received_edge_records D w r) ->
        covered pe st (GlobalEdge.v e)).

Lemma grows_refl st : grows st st.
Proof. intros k Hk. exact Hk. Qed.

Lemma grows_trans a b c : grows a b -> grows b c -> grows a c.
Proof. intros H1 H2 k Hk. auto. Qed.

Lemma request_inv_init :
  request_inv D w r
    {| nonlocal_gcluster_to_index := ∅;
       next_index_for_pe := replicate (Z.to_nat (comm_size w + 1)) 0 |}
    (fun _ => []).
Proof.
  pose proof (comm_size_nonneg w).
  split; simpl.
  - apply zlen_replicate. lia.
  - intros p Hp. rewrite ix_replicate by lia. reflexivity.
  - rewrite ix_replicate by lia. reflexivity.
  - intros p i c _ Hc. unfold ix in Hc. destruct (i <? 0); discriminate.
  - intros key v Hk. rewrite lookup_empty in Hk. discriminate.
Qed.

Lemma request_neighbors_step st u :
  (exists rows, request_inv D w r st rows) ->
  In u (seqZ 0 (Graph.n (graph pe))) ->
  exists st',
    request_neighbors checked (graph pe) (lnode_to_gcluster pe) st u = Ok st'
    /\ (exists rows', request_inv D w r st' rows') /\ grows st st'
    /\ (Graph.is_owned_global_node (graph pe) (cluster_at pe u) = true ->
        forall ev, In ev (adjacency (graph pe) u) ->
                   covered pe st' (cluster_at pe ev.2)).
Proof.
  intros Hinv Hu. pose proof (vw_pe _ _ _ Hvalid _ _ Hin) as Hpe.
  apply list_elem_of_In, elem_of_seqZ in Hu.
  pose proof (vp_total D GC r pe Hpe) as Htot.
  pose proof (vp_ghost_n_nonneg D GC r pe Hpe) as Hgn.
  unfold request_neighbors.
  rewrite (load_cluster D GC r pe Hpe u) by lia. simpl.
  destruct (Graph.is_owned_global_node (graph pe) (cluster_at pe u)).
  - destruct (neighbors_spec D GC r pe Hpe u ltac:(lia)) as [-> Hadj].
    simpl.
    destruct (foldM_covers
                (request_neighbor checked (graph pe) (lnode_to_gcluster pe))
                (fun st => exists rows, request_inv D w r st rows)
                grows
                (fun ev st => covered pe st (cluster_at pe ev.2))
                (adjacency (graph pe) u) grows_refl grows_trans)
      with (a := st) as (st' & E & Hinv' & Hg & Hcov); auto.
    + intros ev a a' Hg. now apply covered_grows.
    + intros a ev Hev [rows Ha]. unfold request_neighbor.
      rewrite Forall_forall in Hadj.
      destruct (Hadj ev) as (_ & Hv & _); [now apply list_elem_of_In|].
      rewrite (load_cluster D GC r pe Hpe ev.2) by lia. simpl.
      apply (request_if_nonlocal_step checked D GC w Hvalid Hsmall r pe Hin
               a rows); auto.
      exists r, pe, ev.2. auto.
    + exists st'. auto.
  - exists st. split; [reflexivity|]. split; [exact Hinv|].
    split; [apply grows_refl|]. discriminate.
Qed.

Lemma requests_total :
  exists st rows,
    requests checked w r = Ok st /\ request_inv D w r st rows
    /\ requests_cover st.
Proof.
  pose proof (vw_pe _ _ _ Hvalid _ _ Hin) as Hpe.
  pose proof (rank_range w r pe Hin) as Hr.
  unfold requests. rewrite (load_Ok _ _ _ Hin). simpl.
  erewrite local_edges_spec by side. simpl.
  destruct (foldM_covers
              (request_neighbors checked (graph pe) (lnode_to_gcluster pe))
              (fun st => exists rows, request_inv D w r st rows)
              grows
              (fun u st =>
                 Graph.is_owned_global_node (graph pe) (cluster_at pe u)
                 = true ->
                 forall ev, In ev (adjacency (graph pe) u) ->
                            covered pe st (cluster_at pe ev.2))
              (seqZ 0 (Graph.n (graph pe))) grows_refl grows_trans)
    with (a := {| nonlocal_gcluster_to_index := ∅;
                  next_index_for_pe :=
                    replicate (Z.to_nat (comm_size w + 1)) 0 |})
    as (st1 & E1 & Hinv1 & _ & Hcov1).
  - intros u a a' Hg Hq Hown ev Hev. eapply covered_grows; eauto.
  - intros a u Hu Ha. now apply request_neighbors_step.
  - eexists. apply request_inv_init.
  - rewrite E1. simpl.
    destruct (foldM_covers
                (request_edge checked (graph pe))
                (fun st => exists rows, request_inv D w r st rows)
                grows
                (fun e st => covered pe st (GlobalEdge.v e))
                (parallel_sort source_less (received_edge_records D w r))
                grows_refl grows_trans)
      with (a := st1) as (st2 & E2 & [rows Hinv2] & Hg2 & Hcov2); auto.
    + intros e a a' Hg. now apply covered_grows.
    + intros a e He [rows Ha]. unfold request_edge.
      apply (request_if_nonlocal_step checked D GC w Hvalid Hsmall r pe Hin
               a rows); auto.
      pose proof (received_edges_inhabited r) as H.
      rewrite Forall_forall in H. apply H.
      rewrite <- (parallel_sort_Permutation source_less).
      now apply list_elem_of_In.
    + exists st2, rows. split; [exact E2|]. split; [exact Hinv2|]. split.
      * intros u ev Hu Hown Hev. eapply covered_grows; [exact Hg2|].
        apply (Hcov1 u); auto. apply list_elem_of_In, elem_of_seqZ. lia.
      * intros e He. apply Hcov2. apply list_elem_of_In.
        rewrite (parallel_sort_Permutation source_less).
        now apply list_elem_of_In.
Qed.

(** *** The lists built from the map *)

Section Placing.

Variables (st : RequestState) (rows : Z -> list Z).
Hypothesis Hinv : request_inv D w r st rows.

Definition placed (m : gmap Z Z) : list (list Z) :=
  map (fun p => map (placed_entry m) (rows p)) (ranks w).

Lemma zlen_placed m : zlen (placed m) = comm_size w.
Proof.
  unfold placed, ranks. rewrite zlen_map, zlen_seqZ; auto.
  apply comm_size_nonneg.
Qed.

Lemma ix_placed m p :
  0 <= p < comm_size w ->
  ix (placed m) p = Some (map (placed_entry m) (rows p)).
Proof.
  intros Hp. unfold placed, ranks. rewrite ix_map, ix_seqZ by lia.
  reflexivity.
Qed.

Lemma place_request_step m key v :
  m !! key = None ->
  nonlocal_gcluster_to_index st !! key = Some v ->
  place_request checked (graph pe) key v (Ok (placed m))
  = Ok (placed (<[key := v]> m)).
Proof.
  intros Hnone Hfull. pose proof (vw_pe _ _ _ Hvalid _ _ Hin) as Hpe.
  destruct (ri_key _ _ _ _ _ Hinv key v Hfull) as (c & -> & Hrow & Hrem).
  pose proof (inhabited_valid D GC w Hvalid c (proj1 Hrem)) as Hc.
  pose proof (total_nodes_small D w Hsmall) as HN.
  destruct (owner_of_spec D GC w Hvalid c Hc) as (Ho & _).
  set (p := owner_of D c) in *.
  pose proof (ix_Some_range _ _ _ Hrow) as Hv.
  pose proof (rows_le_total D GC w Hvalid r st rows p Hinv Ho) as Hle.
  unfold place_request. simpl.
  replace (c + 1 - 1) with c by lia.
  rewrite (wrap64_small c) by lia.
  erewrite find_owner_spec by side. simpl. fold p.
  rewrite (wrap64_small (v - 1)) by lia.
  rewrite (load_Ok _ _ _ (ix_placed m p Ho)). simpl.
  rewrite store_Ok by (rewrite zlen_map; lia). simpl.
  rewrite store_Ok by (rewrite zlen_placed; lia).
  f_equal. apply ix_ext.
  { now rewrite zlen_insert, !zlen_placed. }
  intros q Hq. rewrite zlen_insert, zlen_placed in Hq.
  rewrite (ix_placed _ q Hq).
  destruct (decide (q = p)) as [->|Hqp].
  - rewrite ix_insert_eq by (rewrite zlen_placed; lia). f_equal.
    apply ix_ext; [now rewrite zlen_insert, !zlen_map|].
    intros i Hi. rewrite zlen_insert, zlen_map in Hi.
    destruct (decide (i = v - 1)) as [->|Hiv].
    + rewrite ix_insert_eq by (rewrite zlen_map; lia).
      rewrite ix_map, Hrow. simpl. unfold placed_entry.
      now rewrite lookup_insert_eq.
    + rewrite ix_insert_ne by lia. rewrite !ix_map.
      destruct (ix (rows p) i) as [c'|] eqn:Hc'; [|reflexivity].
      simpl. f_equal. unfold placed_entry.
      rewrite lookup_insert_ne; [reflexivity|].
      intros Heq. assert (c' = c) as -> by lia.
      destruct (ri_row _ _ _ _ _ Hinv p i c Ho Hc') as (E & _).
      rewrite Hfull in E. inversion E. lia.
  - rewrite ix_insert_ne by lia. rewrite (ix_placed _ q Hq). f_equal.
    apply map_ext_in. intros c' Hc'. unfold placed_entry.
    rewrite lookup_insert_ne; [reflexivity|].
    intros Heq. assert (c' = c) as -> by lia.
    apply In_ix in Hc' as (i & _ & Hi).
    destruct (ri_row _ _ _ _ _ Hinv q i c Hq Hi) as (_ & _ & Hoq).
    fold p in Hoq. lia.
Qed.

Lemma placed_all :
  placed (nonlocal_gcluster_to_index st) = map rows (ranks w).
Proof.
  unfold placed. apply map_ext_in. intros p Hp. apply (In_rank w) in Hp.
  rewrite <- (map_id (rows p)) at 2. apply map_ext_in. intros c Hc.
  apply In_ix in Hc as (i & _ & Hi).
  destruct (ri_row _ _ _ _ _ Hinv p i c Hp Hi) as (E & _).
  unfold placed_entry. now rewrite E.
Qed.

Lemma placed_empty :
  placed ∅
  = map (fun p => replicate (Z.to_nat (zlen (rows p))) 0) (ranks w).
Proof.
  unfold placed. apply map_ext. intros p.
  unfold zlen. rewrite Nat2Z.id, <- map_const_replicate.
  apply map_ext. intros c. unfold placed_entry. now rewrite lookup_empty.
Qed.

Lemma my_mapping_requests_spec :
  requests checked w r = Ok st ->
  my_mapping_requests checked w r = Ok (map rows (ranks w)).
Proof.
  intros E. unfold my_mapping_requests.
  rewrite (load_Ok _ _ _ Hin). simpl. rewrite E. simpl.
  rewrite (omapM_Ok _ (fun p => replicate (Z.to_nat (zlen (rows p))) 0)).
  2:{ intros p Hp. apply (In_rank w) in Hp.
      now rewrite (load_Ok _ _ _ (ri_next _ _ _ _ _ Hinv p Hp)). }
  simpl. rewrite <- placed_empty, <- placed_all.
  generalize (fun k v (H : nonlocal_gcluster_to_index st !! k = Some v) => H).
  generalize (nonlocal_gcluster_to_index st) at 1 3 4.
  intros m. apply (map_fold_weak_ind
    (fun res m' =>
       (forall k v, m' !! k = Some v ->
                    nonlocal_gcluster_to_index st !! k = Some v) ->
       res = Ok (placed m'))).
  - reflexivity.
  - intros k v m' res Hnone IH Hsub.
    rewrite IH.
    + apply place_request_step; [exact Hnone|].
      apply Hsub. now rewrite lookup_insert_eq.
    + intros k' v' Hk'. apply Hsub.
      rewrite lookup_insert_ne; [exact Hk'|]. congruence.
Qed.

End Placing.

End OnePE.

End RequestLists.

(** ** The answers to the requests *)

Section Responses.

Variable checked : bool.
Variables (D : list Z) (GC : Z -> Z) (w : World).
Hypothesis Hvalid : valid_world D GC w.
Hypothesis Hsmall : small_world D w.

(** The request lists of process [r], and its list for process [p]. *)
Definition rows_of (r : Z) : list (list Z) :=
  value (my_mapping_requests checked w r) [].

Definition row_of (r p : Z) : list Z := default [] (ix (rows_of r) p).

Definition request_state (r : Z) : RequestState :=
  value (requests checked w r)
        {| nonlocal_gcluster_to_index := ∅; next_index_for_pe := [] |}.

Lemma request_inv_ext r st rows rows' :
  (forall p, 0 <= p < comm_size w -> rows p = rows' p) ->
  request_inv D w r st rows -> request_inv D w r st rows'.
Proof.
  intros Hext [H1 H2 H2' H3 H4]. split.
  - exact H1.
  - intros p Hp. rewrite <- Hext by exact Hp. now apply H2.
  - exact H2'.
  - intros p i c Hp Hc. rewrite <- Hext in Hc by exact Hp. now apply H3.
  - intros key v Hk. destruct (H4 key v Hk) as (c & -> & Hrow & Hrem).
    exists c. split; [reflexivity|]. split; [|exact Hrem].
    rewrite <- Hext; [exact Hrow|].
    apply (owner_of_spec D GC w Hvalid c).
    apply (inhabited_valid D GC w Hvalid c), Hrem.
Qed.

Lemma requests_spec r pe :
  ix w r = Some pe ->
  requests checked w r = Ok (request_state r)
  /\ my_mapping_requests checked w r = Ok (rows_of r)
  /\ zlen (rows_of r) = comm_size w
  /\ request_inv D w r (request_state r) (row_of r)
  /\ requests_cover D w r pe (request_state r).
Proof.
  intros Hin.
  destruct (requests_total checked D GC w Hvalid Hsmall r pe Hin)
    as (st & rows & E & Hinv & Hcov).
  pose proof (my_mapping_requests_spec checked D GC w Hvalid Hsmall r pe Hin
                st rows Hinv E) as Erows.
  unfold request_state. rewrite E. simpl.
  assert (Hrows : rows_of r = map rows (ranks w)).
  { unfold rows_of. now rewrite Erows. }
  split; [reflexivity|]. split; [now rewrite Hrows|].
  split; [|split; [|exact Hcov]].
  - rewrite Hrows. unfold ranks. rewrite zlen_map, zlen_seqZ; auto.
    apply comm_size_nonneg.
  - apply (request_inv_ext r st rows); [|exact Hinv].
    intros p Hp. unfold row_of. rewrite Hrows. unfold ranks.
    rewrite ix_map, ix_seqZ by lia. reflexivity.
Qed.

Lemma ix_rows_of r pe p :
  ix w r = Some pe -> 0 <= p < comm_size w ->
  ix (rows_of r) p = Some (row_of r p).
Proof.
  intros Hin Hp. destruct (requests_spec r pe Hin) as (_ & _ & Hlen & _).
  unfold row_of. destruct (ix_in_range (rows_of r) p) as [row ->]; [lia|].
  reflexivity.
Qed.

(** The clusters of a request list belong to the asked process and
    have members. *)
Lemma row_of_spec r pe p i c :
  ix w r = Some pe -> 0 <= p < comm_size w -> ix (row_of r p) i = Some c ->
  inhabited w c /\ owner_of D c = p /\ p <> r
  /\ nonlocal_gcluster_to_index (request_state r) !! (c + 1) = Some (i + 1).
Proof.
  intros Hin Hp Hc.
  destruct (requests_spec r pe Hin) as (_ & _ & _ & Hinv & _).
  destruct (ri_row _ _ _ _ _ Hinv p i c Hp Hc) as (E & [Hi Hne] & Ho).
  repeat split; auto. congruence.
Qed.

Lemma their_mapping_requests_spec p :
  0 <= p < comm_size w ->
  their_mapping_requests checked w p
  = Ok (map (fun r => row_of r p) (ranks w)).
Proof.
  intros Hp. unfold their_mapping_requests, sparse_alltoall_get.
  apply omapM_Ok. intros r Hr. apply (In_rank w) in Hr.
  destruct (rank_pe D GC w Hvalid r Hr) as (pe & Hin & Hpe).
  destruct (requests_spec r pe Hin) as (_ & -> & _). simpl.
  apply load_Ok. now apply (ix_rows_of r pe).
Qed.

Lemma respond_spec p pe c :
  ix w p = Some pe -> inhabited w c -> owner_of D c = p ->
  respond (graph pe) (lcnode checked w p) (cdist checked w) c
  = Ok (coarse_id checked D w c).
Proof.
  intros Hin Hc Ho. pose proof (vw_pe _ _ _ Hvalid _ _ Hin) as Hpe.
  destruct (inhabited_nonempty D GC w Hvalid c p pe Hc Hin Ho)
    as (Hv & Hr & _).
  rewrite (local_index_owner D GC p pe c Hpe Ho) in Hr.
  destruct (coarse_local_spec checked D GC w Hvalid Hsmall c p pe Hc Hin Ho)
    as (Hlc & Hrange).
  pose proof (rank_range w p pe Hin) as Hp.
  pose proof (Graph.wf_total _ (vp_wf _ _ _ _ Hpe)) as Ht.
  pose proof (vp_ghost_n_nonneg D GC p pe Hpe) as Hgn.
  unfold respond.
  rewrite wrap64_small by lia. rewrite wrap32_small by lia.
  rewrite (load_Ok _ _ _ Hlc). simpl.
  rewrite (vp_rank _ _ _ _ Hpe).
  rewrite (load_Ok _ _ _ (ix_cdist checked D GC w Hvalid Hsmall p ltac:(lia))).
  simpl. f_equal.
  pose proof (coarse_id_small checked D GC w Hvalid Hsmall c Hc) as Hs.
  unfold coarse_id in *. rewrite Ho in *. rewrite wrap64_small by lia. lia.
Qed.

Lemma my_mapping_responses_spec p pe :
  ix w p = Some pe ->
  my_mapping_responses checked w p
  = Ok (map (fun r => map (coarse_id checked D w) (row_of r p)) (ranks w)).
Proof.
  intros Hin. pose proof (vw_pe _ _ _ Hvalid _ _ Hin) as Hpe.
  pose proof (rank_range w p pe Hin) as Hp.
  unfold my_mapping_responses. rewrite (load_Ok _ _ _ Hin). simpl.
  rewrite their_mapping_requests_spec by exact Hp. simpl.
  destruct (lnode_to_lcnode_props checked D GC w Hvalid Hsmall p pe Hpe Hin)
    as (-> & _). simpl.
  destruct (c_node_distribution_spec checked D GC w Hvalid Hsmall) as (-> & _).
  simpl.
  rewrite (omapM_Ok _ (map (coarse_id checked D w))).
  - now rewrite map_map.
  - intros row Hrow. apply in_map_iff in Hrow as (r & <- & Hr).
    apply (In_rank w) in Hr.
    destruct (rank_pe D GC w Hvalid r Hr) as (per & Hinr & _).
    apply omapM_Ok. intros c Hc. apply In_ix in Hc as (i & _ & Hi).
    destruct (row_of_spec r per p i c Hinr Hp Hi) as (Hinh & Ho & _).
    now apply respond_spec.
Qed.

Lemma their_mapping_responses_spec r pe :
  ix w r = Some pe ->
  their_mapping_responses checked w r
  = Ok (map (fun p => map (coarse_id checked D w) (row_of r p)) (ranks w)).
Proof.
  intros Hin. pose proof (rank_range w r pe Hin) as Hr.
  unfold their_mapping_responses, sparse_alltoall_get.
  apply omapM_Ok. intros p Hp. apply (In_rank w) in Hp.
  destruct (rank_pe D GC w Hvalid p Hp) as (pep & Hinp & _).
  rewrite (my_mapping_responses_spec p pep Hinp). simpl.
  apply load_Ok. unfold ranks. rewrite ix_map, ix_seqZ by lia. reflexivity.
Qed.

(** The answer found for a requested cluster. *)
Definition responses (r : Z) : list (list Z) :=
  map (fun p => map (coarse_id checked D w) (row_of r p)) (ranks w).

Lemma response_lookup r pe c v :
  ix w r = Some pe ->
  nonlocal_gcluster_to_index (request_state r) !! (c + 1) = Some v ->
  inhabited w c /\ owner_of D c <> r
  /\ 0 <= v - 1 < total_nodes D
  /\ ix (row_of r (owner_of D c)) (v - 1) = Some c
  /\ exists row, ix (responses r) (owner_of D c) = Some row
                 /\ ix row (v - 1) = Some (coarse_id checked D w c).
Proof.
  intros Hin Hk.
  destruct (requests_spec r pe Hin) as (_ & _ & _ & Hinv & _).
  destruct (ri_key _ _ _ _ _ Hinv _ v Hk) as (c' & Hc' & Hrow & Hi & Hne).
  assert (c' = c) as -> by lia.
  pose proof (inhabited_valid D GC w Hvalid c Hi) as Hc.
  destruct (owner_of_spec D GC w Hvalid c Hc) as (Ho & _).
  pose proof (rows_le_total D GC w Hvalid r _ _ _ Hinv Ho) as Hle.
  pose proof (ix_Some_range _ _ _ Hrow) as Hr.
  split; [exact Hi|]. split; [exact Hne|]. split; [lia|].
  split; [exact Hrow|].
  eexists. split.
  - unfold responses, ranks. rewrite ix_map, ix_seqZ by lia. reflexivity.
  - simpl. rewrite Z.add_0_l, ix_map, Hrow. reflexivity.
Qed.

End Responses.

(** ** The map read when the mapping is built *)

Lemma insert_new_lookup key value (m : gmap Z Z) k :
  insert_new key value m !! k
  = match m !! k with
    | Some x => Some x
    | None => if decide (k = key) then Some value else None
    end.
Proof.
  unfold insert_new. destruct (m !! key) as [x|] eqn:Hkey.
  - destruct (m !! k) eqn:Hk; [reflexivity|].
    destruct (decide (k = key)) as [->|]; [congruence|reflexivity].
  - destruct (decide (k = key)) as [->|Hne].
    + now rewrite lookup_insert_eq, Hkey.
    + rewrite lookup_insert_ne by congruence. now destruct (m !! k).
Qed.

(** The value that the echo stores under [k], if any. *)
Fixpoint echo_lookup (global_n : Z) (l : list NodeMapping.t) (k : Z)
  : option Z :=
  match l with
  | [] => None
  | nm :: l' =>
      if decide (k = wrap64 (NodeMapping.u nm + 1)) then
        Some (wrap64 (wrap64 (global_n + NodeMapping.global_c_u nm) + 1))
      else echo_lookup global_n l' k
  end.

Lemma foldl_insert_echo global_n l : forall m k,
  foldl (insert_echo global_n) m l !! k
  = match m !! k with
    | Some x => Some x
    | None => echo_lookup global_n l k
    end.
Proof.
  induction l as [|nm l IH]; intros m k; simpl.
  - now destruct (m !! k).
  - rewrite IH. unfold insert_echo. rewrite insert_new_lookup.
    destruct (m !! k); [reflexivity|].
    now destruct (decide (k = wrap64 (NodeMapping.u nm + 1))).
Qed.

Lemma echo_lookup_Some global_n l k v :
  echo_lookup global_n l k = Some v ->
  exists nm, In nm l /\ k = wrap64 (NodeMapping.u nm + 1)
             /\ v = wrap64 (wrap64 (global_n + NodeMapping.global_c_u nm) + 1).
Proof.
  induction l as [|nm l IH]; simpl; [discriminate|].
  destruct (decide (k = wrap64 (NodeMapping.u nm + 1))) as [->|Hne].
  - intros E. inversion E. exists nm. auto.
  - intros E. destruct (IH E) as (nm' & Hin & Hk & Hv). exists nm'. auto.
Qed.

Lemma echo_lookup_In global_n l nm :
  In nm l ->
  is_Some (echo_lookup global_n l (wrap64 (NodeMapping.u nm + 1))).
Proof.
  induction l as [|nm' l IH]; simpl; [intros []|].
  intros [->|Hin].
  - rewrite decide_True by reflexivity. eauto.
  - destruct (decide _); [eauto|auto].
Qed.

Section Mapping.

Variable checked : bool.
Variables (D : list Z) (GC : Z -> Z) (w : World).
Hypothesis Hvalid : valid_world D GC w.
Hypothesis Hsmall : small_world D w.

Definition dedup (r : Z) : gmap Z Z := value (dedup_map checked w r) ∅.

Section OnePE.

Variables (r : Z) (pe : PE).
Hypothesis Hin : ix w r = Some pe.

Lemma dedup_map_spec :
  dedup_map checked w r = Ok (dedup r)
  /\ forall k,
       dedup r !! k
       = match nonlocal_gcluster_to_index (request_state checked w r) !! k with
         | Some x => Some x
         | None => echo_lookup (Graph.global_n (graph pe))
                               (map (echo_of checked D w) (sent_nodes pe)) k
         end.
Proof.
  destruct (requests_spec checked D GC w Hvalid Hsmall r pe Hin)
    as (E & _).
  assert (Ed : dedup_map checked w r
               = Ok (foldl (insert_echo (Graph.global_n (graph pe)))
                           (nonlocal_gcluster_to_index
                              (request_state checked w r))
                           (map (echo_of checked D w) (sent_nodes pe)))).
  { unfold dedup_map. rewrite (load_Ok _ _ _ Hin). simpl. rewrite E. simpl.
    erewrite local_nodes_mapping_rsps_spec by side. reflexivity. }
  unfold dedup. rewrite Ed. simpl. split; [reflexivity|].
  intros k. apply foldl_insert_echo.
Qed.

(** The two kinds of entries of the map. *)
Lemma dedup_entry key value :
  dedup r !! key = Some value ->
  exists c, key = c + 1 /\ inhabited w c /\ owner_of D c <> r
    /\ ((0 <= value - 1 < Graph.global_n (graph pe)
         /\ nonlocal_gcluster_to_index (request_state checked w r) !! key
            = Some value
         /\ exists row, ix (responses checked D w r) (owner_of D c) = Some row
                        /\ ix row (value - 1)
                           = Some (coarse_id checked D w c))
        \/ (nonlocal_gcluster_to_index (request_state checked w r) !! key
            = None
            /\ value = Graph.global_n (graph pe) + coarse_id checked D w c + 1)).
Proof.
  intros Hk. pose proof (vw_pe _ _ _ Hvalid _ _ Hin) as Hpe.
  destruct dedup_map_spec as (_ & Hd). rewrite Hd in Hk.
  pose proof (total_nodes_small D w Hsmall) as HN.
  destruct (nonlocal_gcluster_to_index (request_state checked w r) !! key)
    as [x|] eqn:Hreq.
  - inversion Hk; subst x.
    destruct (requests_spec checked D GC w Hvalid Hsmall r pe Hin)
      as (_ & _ & _ & Hinv & _).
    destruct (ri_key _ _ _ _ _ Hinv _ _ Hreq) as (c & -> & _).
    destruct (response_lookup checked D GC w Hvalid Hsmall r pe c value
                Hin Hreq) as (Hi & Hne & Hv & _ & Hrow).
    exists c. split; [reflexivity|]. split; [exact Hi|]. split; [exact Hne|].
    left. rewrite (vp_global_n _ _ _ _ Hpe). auto.
  - apply echo_lookup_Some in Hk as (nm & Hnm & -> & ->).
    apply in_map_iff in Hnm as (nd & <- & Hnd).
    pose proof (sent_nodes_inhabited D GC w Hvalid r pe Hin) as H.
    rewrite Forall_forall in H.
    destruct (H nd) as (Hi & Hc & Ho); [now apply list_elem_of_In|].
    pose proof (coarse_id_small checked D GC w Hvalid Hsmall _ Hi) as Hs.
    pose proof (total_nodes_nonneg D GC w Hvalid) as HN0.
    unfold echo_of in *. simpl in *.
    rewrite (vp_global_n _ _ _ _ Hpe) in *.
    rewrite (wrap64_small (GlobalNode.u nd + 1)) in * by lia.
    rewrite (wrap64_small (total_nodes D + _)) by lia.
    rewrite wrap64_small by lia.
    exists (GlobalNode.u nd). split; [reflexivity|]. split; [exact Hi|].
    split; [exact Ho|]. right. auto.
Qed.

(** The cluster of every node that leaves has an entry. *)
Lemma dedup_away u :
  0 <= u < Graph.n (graph pe) ->
  Graph.is_owned_global_node (graph pe) (cluster_at pe u) = false ->
  is_Some (dedup r !! (cluster_at pe u + 1)).
Proof.
  intros Hu Hown. pose proof (vw_pe _ _ _ Hvalid _ _ Hin) as Hpe.
  destruct dedup_map_spec as (_ & Hd). rewrite Hd.
  destruct (nonlocal_gcluster_to_index _ !! _); [eauto|].
  pose proof (In_sent_nodes D GC r pe u Hpe Hu) as Hs.
  unfold away in Hs. rewrite Hown in Hs. specialize (Hs eq_refl).
  pose proof (echo_lookup_In (Graph.global_n (graph pe))
                (map (echo_of checked D w) (sent_nodes pe))
                (echo_of checked D w (node_record pe u))
                (in_map _ _ _ Hs)) as H.
  change (NodeMapping.u (echo_of checked D w (node_record pe u)))
    with (cluster_at pe u) in H.
  pose proof (vp_total D GC r pe Hpe) as Htot.
  pose proof (vp_ghost_n_nonneg D GC r pe Hpe) as Hgn.
  pose proof (cluster_valid D GC w Hvalid r pe Hpe u ltac:(lia)) as Hc.
  pose proof (total_nodes_small D w Hsmall) as HN.
  rewrite wrap64_small in H by lia. exact H.
Qed.

Lemma cluster_inhabited x :
  0 <= x < Graph.total_n (graph pe) -> inhabited w (cluster_at pe x).
Proof. intros Hx. exists r, pe, x. auto. Qed.

(** The coarse node found for a cluster of another process. *)
Lemma dedup_resolves c :
  is_Some (dedup r !! (c + 1)) ->
  (value ← find (dedup r) (c + 1);
   let index := wrap64 (value - 1) in
   if index <? Graph.global_n (graph pe) then
     owner ← find_owner_of_global_node checked (graph pe) c;
     row ← load (responses checked D w r) owner;
     load row index
   else Ok (wrap64 (index - Graph.global_n (graph pe))))
  = Ok (coarse_id checked D w c).
Proof.
  intros [value Hk]. pose proof (vw_pe _ _ _ Hvalid _ _ Hin) as Hpe.
  unfold find. rewrite Hk. simpl.
  destruct (dedup_entry _ _ Hk) as (c' & Hc' & Hi & Hne & Hcase).
  assert (c' = c) as -> by lia.
  pose proof (inhabited_valid D GC w Hvalid c Hi) as Hc.
  pose proof (total_nodes_small D w Hsmall) as HN.
  pose proof (coarse_id_small checked D GC w Hvalid Hsmall _ Hi) as Hs.
  pose proof (vp_global_n _ _ _ _ Hpe) as Hgn.
  destruct Hcase as [(Hv & _ & row & Hrow & Hix)|(_ & ->)].
  - rewrite wrap64_small by lia.
    replace (value - 1 <? Graph.global_n (graph pe)) with true
      by (symmetry; apply Z.ltb_lt; lia).
    erewrite find_owner_spec by side. simpl.
    rewrite (load_Ok _ _ _ Hrow). simpl. now apply load_Ok.
  - replace (Graph.global_n (graph pe) + coarse_id checked D w c + 1 - 1)
      with (Graph.global_n (graph pe) + coarse_id checked D w c) by lia.
    rewrite wrap64_small by lia.
    replace (_ <? Graph.global_n (graph pe)) with false
      by (symmetry; apply Z.ltb_ge; lia).
    f_equal. rewrite wrap64_small; lia.
Qed.

Lemma map_node_spec u :
  0 <= u < Graph.n (graph pe) ->
  map_node checked (graph pe) (lnode_to_gcluster pe) (lcnode checked w r)
           (cdist checked w) (dedup r) (responses checked D w r) u
  = Ok (coarse_id checked D w (cluster_at pe u)).
Proof.
  intros Hu. pose proof (vw_pe _ _ _ Hvalid _ _ Hin) as Hpe.
  pose proof (vp_total D GC r pe Hpe) as Htot.
  pose proof (vp_ghost_n_nonneg D GC r pe Hpe) as Hgn.
  pose proof (cluster_inhabited u ltac:(lia)) as Hi.
  pose proof (inhabited_valid D GC w Hvalid _ Hi) as Hc.
  pose proof (total_nodes_small D w Hsmall) as HN.
  unfold map_node. rewrite (load_cluster D GC r pe Hpe u) by lia. simpl.
  set (c := cluster_at pe u) in *.
  assert (E : (if Graph.is_owned_global_node (graph pe) c then
                 lc ← load (lcnode checked w r)
                           (wrap64 (c - Graph.offset_n (graph pe)));
                 off ← load (cdist checked w) (Graph.rank (graph pe));
                 Ok (wrap64 (lc + off))
               else
                 KASSERT checked
                   (bool_decide (is_Some (dedup r !! wrap64 (c + 1)))) ;;
                 value ← find (dedup r) (wrap64 (c + 1));
                 let index := wrap64 (value - 1) in
                 if index <? Graph.global_n (graph pe) then
                   owner ← find_owner_of_global_node checked (graph pe) c;
                   row ← load (responses checked D w r) owner;
                   load row index
                 else Ok (wrap64 (index - Graph.global_n (graph pe))))
              = Ok (coarse_id checked D w c)).
  { destruct (Graph.is_owned_global_node (graph pe) c) eqn:Hown.
    - apply (coarse_id_computed checked D GC w Hvalid Hsmall r pe c Hin Hi).
      eapply is_owned_owner; side.
    - rewrite wrap64_small by lia.
      pose proof (dedup_away u Hu Hown) as Hk. fold c in Hk.
      rewrite (bool_decide_eq_true_2 _ Hk), KASSERT_true. simpl.
      now apply dedup_resolves. }
  etransitivity; [apply (bind_Ok _ _ _ E)|].
  rewrite (back_cdist checked D GC w Hvalid Hsmall). simpl.
  destruct (coarse_id_range checked D GC w Hvalid Hsmall c Hi) as (_ & _ & Hr).
  replace (_ <? _) with true by (symmetry; apply Z.ltb_lt; lia).
  now rewrite KASSERT_true.
Qed.

Lemma lnode_to_gcnode_spec :
  lnode_to_gcnode checked w r
  = Ok (map (fun u => coarse_id checked D w (cluster_at pe u))
            (seqZ 0 (Graph.n (graph pe)))).
Proof.
  pose proof (vw_pe _ _ _ Hvalid _ _ Hin) as Hpe.
  unfold lnode_to_gcnode. rewrite (load_Ok _ _ _ Hin). simpl.
  destruct (lnode_to_lcnode_props checked D GC w Hvalid Hsmall r pe Hpe Hin)
    as (-> & _). simpl.
  destruct (c_node_distribution_spec checked D GC w Hvalid Hsmall) as (-> & _).
  simpl. destruct dedup_map_spec as (-> & _). simpl.
  erewrite their_mapping_responses_spec by side. simpl.
  apply omapM_Ok. intros u Hu. apply list_elem_of_In, elem_of_seqZ in Hu.
  apply map_node_spec. lia.
Qed.

End OnePE.

End Mapping.

(** ** The example world is a distributed graph *)

(** The clustering of the path: node 1 stays alone, the nodes 0 and 2
    form the cluster 2. *)
Definition path_clustering (v : Z) : Z := if v =? 1 then 1 else 2.

Lemma path_0_valid past :
  valid_pe [0; 1; 3] path_clustering 0
    {| graph := Examples.path_0; lnode_to_gcluster := [2; 1];
       past_local_edges := past |}.
Proof.
  split; simpl; try reflexivity.
  - split; try (vm_compute; congruence).
    + right. reflexivity.
    + intros k l Hk. change (Graph._global_to_ghost Examples.path_0)
        with ({[ 2 := 1 ]} : gmap Z Z) in Hk.
      apply lookup_singleton_Some in Hk as [_ <-].
      vm_compute. split; [discriminate|reflexivity].
  - repeat constructor; vm_compute; congruence.
  - repeat constructor; lia.
  - repeat constructor; vm_compute; congruence.
  - now left.
  - repeat constructor; vm_compute; congruence.
  - intros x Hx. change (Graph.total_n Examples.path_0) with 2 in Hx.
    assert (x = 0 \/ x = 1) as [-> | ->] by lia; reflexivity.
Qed.

Lemma path_1_valid past :
  valid_pe [0; 1; 3] path_clustering 1
    {| graph := Examples.path_1; lnode_to_gcluster := [1; 2; 2];
       past_local_edges := past |}.
Proof.
  split; simpl; try reflexivity.
  - split; try (vm_compute; congruence).
    + right. reflexivity.
    + intros k l Hk. change (Graph._global_to_ghost Examples.path_1)
        with ({[ 1 := 2 ]} : gmap Z Z) in Hk.
      apply lookup_singleton_Some in Hk as [_ <-].
      vm_compute. split; [discriminate|reflexivity].
  - repeat constructor; vm_compute; congruence.
  - repeat constructor; lia.
  - repeat constructor; vm_compute; congruence.
  - now left.
  - repeat constructor; vm_compute; congruence.
  - intros x Hx. change (Graph.total_n Examples.path_1) with 3 in Hx.
    assert (x = 0 \/ x = 1 \/ x = 2) as [-> | [-> | ->]] by lia; reflexivity.
Qed.

Lemma path_world_valid past :
  valid_world [0; 1; 3] path_clustering (Examples.path_world past).
Proof.
  split.
  - reflexivity.
  - reflexivity.
  - reflexivity.
  - repeat constructor; lia.
  - intros v Hv. unfold path_clustering.
    change (total_nodes [0; 1; 3]) with 3 in *.
    destruct (v =? 1); lia.
  - intros r pe Hr. pose proof (ix_Some_range _ _ _ Hr) as Hrange.
    change (zlen (Examples.path_world past)) with 2 in Hrange.
    assert (r = 0 \/ r = 1) as [-> | ->] by lia;
      inversion Hr; [apply path_0_valid|apply path_1_valid].
Qed.

Lemma path_world_small past :
  small_world [0; 1; 3] (Examples.path_world past).
Proof. reflexivity. Qed.

(** ** The mapping from fine to coarse nodes *)

(** What [coarse_id] stands for: the owner [p] of the cluster [c] gave
    it the entry [lnode_to_lcnode[c - offset_n]] of its numbering, and
    its global coarse identifier is that entry shifted by
    [c_node_distribution[p]]. *)
Definition is_coarse_id_of (checked : bool) (D : list Z) (w : World)
    (c gc : Z) : Prop :=
  exists pe m dist lc off,
    ix w (owner_of D c) = Some pe
    /\ lnode_to_lcnode checked w (owner_of D c) = Ok m
    /\ c_node_distribution checked w = Ok dist
    /\ ix m (c - Graph.offset_n (graph pe)) = Some lc
    /\ ix dist (owner_of D c) = Some off
    /\ 0 <= lc < coarse_n m
    /\ gc = off + lc.

Lemma coarse_id_is_coarse_id checked D GC w c :
  valid_world D GC w -> small_world D w -> inhabited w c ->
  is_coarse_id_of checked D w c (coarse_id checked D w c).
Proof.
  intros Hvalid Hsmall Hi.
  pose proof (inhabited_valid D GC w Hvalid c Hi) as Hc.
  destruct (owner_of_spec D GC w Hvalid c Hc) as (Ho & _).
  destruct (rank_pe D GC w Hvalid _ Ho) as (pe & Hin & Hpe).
  destruct (lnode_to_lcnode_props checked D GC w Hvalid Hsmall _ pe Hpe Hin)
    as (Em & _).
  destruct (c_node_distribution_spec checked D GC w Hvalid Hsmall) as (Ed & _).
  destruct (coarse_local_spec checked D GC w Hvalid Hsmall c _ pe Hi Hin
              eq_refl) as (Hlc & Hr).
  exists pe, (lcnode checked w (owner_of D c)), (cdist checked w),
    (coarse_local checked D w c), (coarse_offset checked w (owner_of D c)).
  split; [exact Hin|]. split; [exact Em|]. split; [exact Ed|].
  split; [exact Hlc|].
  split; [apply (ix_cdist checked D GC w Hvalid Hsmall); lia|].
  split; [exact Hr|reflexivity].
Qed.





(** ** Phase B: what a process prepares for sending *)

(** The record [e] has the source and target of [o]. *)
Definition has_key (o e : GlobalEdge.t) : bool :=
  (GlobalEdge.u e =? GlobalEdge.u o) && (GlobalEdge.v e =? GlobalEdge.v o).

(** The sum of the weights of the records of [l] with the source and
    target of [o]. *)
Definition key_weight (o : GlobalEdge.t) (l : list GlobalEdge.t) : Z :=
  sumZ (map GlobalEdge.weight (List.filter (has_key o) l)).

Definition cluster_le (a b : GlobalNode.t) : Prop :=
  GlobalNode.u a <= GlobalNode.u b.

Lemma swrap32_add_l a b : swrap32 (swrap32 a + b) = swrap32 (a + b).
Proof.
  unfold swrap32.
  replace ((a + 2 ^ 31) mod 2 ^ 32 - 2 ^ 31 + b + 2 ^ 31)
    with ((a + 2 ^ 31) mod 2 ^ 32 + b) by lia.
  rewrite Zplus_mod_idemp_l. f_equal. f_equal. lia.
Qed.

Lemma swrap32_idem a : swrap32 (swrap32 a) = swrap32 a.
Proof.
  pose proof (swrap32_add_l a 0) as H. rewrite !Z.add_0_r in H. exact H.
Qed.

Lemma has_key_spec o e : has_key o e = true <-> same_key e o.
Proof.
  unfold has_key, same_key. rewrite andb_true_iff, !Z.eqb_eq. tauto.
Qed.

Lemma has_key_same o o' e : same_key o o' -> has_key o e = has_key o' e.
Proof. unfold has_key. intros [-> ->]. reflexivity. Qed.

Lemma key_weight_cons o e l :
  key_weight o (e :: l)
  = (if has_key o e then GlobalEdge.weight e else 0) + key_weight o l.
Proof. unfold key_weight. simpl. destruct (has_key o e); simpl; lia. Qed.

Lemma key_weight_Permutation o l l' :
  l ≡ₚ l' -> key_weight o l = key_weight o l'.
Proof.
  induction 1 as [|x l l' _ IH|x y l|l l' l'' _ IH1 _ IH2].
  - reflexivity.
  - rewrite !key_weight_cons. lia.
  - rewrite !key_weight_cons. lia.
  - congruence.
Qed.

Lemma key_weight_above o l :
  Forall (fun e => key_lt o e) l -> key_weight o l = 0.
Proof.
  intros H. unfold key_weight. rewrite filter_none; [reflexivity|].
  eapply Forall_impl; [exact H|]. intros e He. cbv beta in He.
  apply not_true_iff_false. rewrite has_key_spec.
  apply edge_less_spec in He. unfold same_key. lia.
Qed.

Lemma coalesce_from_weight cur l :
  StronglySorted key_le (cur :: l) ->
  swrap32 (GlobalEdge.weight cur) = GlobalEdge.weight cur ->
  forall o, In o (coalesce_from cur l) ->
    GlobalEdge.weight o
    = swrap32 ((if has_key o cur then GlobalEdge.weight cur else 0)
               + key_weight o l).
Proof.
  revert cur. induction l as [|e l IH]; intros cur Hs Hcur o Ho; simpl in Ho.
  - destruct Ho as [<-|[]].
    replace (has_key cur cur) with true
      by (symmetry; apply has_key_spec; split; reflexivity).
    unfold key_weight. simpl. now rewrite Z.add_0_r, Hcur.
  - pose proof Hs as Hs0.
    apply StronglySorted_inv in Hs as [Hs Hall].
    apply StronglySorted_inv in Hs as [Hs Hall'].
    apply Forall_cons in Hall as [Hce Hcl].
    assert (Hnext : forall x, GlobalEdge.u x = GlobalEdge.u e ->
              GlobalEdge.v x = GlobalEdge.v e ->
              StronglySorted key_le (x :: l)).
    { intros x Hu Hv. constructor; [exact Hs|].
      eapply Forall_impl; [exact Hall'|].
      intros y Hy. apply key_le_spec. apply key_le_spec in Hy.
      rewrite Hu, Hv. exact Hy. }
    rewrite key_weight_cons.
    destruct (starts_block cur e) eqn:Hsb.
    + assert (Hlt : key_lt cur e).
      { apply edge_less_spec. apply key_le_spec in Hce.
        unfold starts_block in Hsb. apply orb_true_iff in Hsb.
        rewrite !negb_true_iff, !Z.eqb_neq in Hsb. lia. }
      destruct Ho as [<-|Ho].
      * replace (has_key cur cur) with true
          by (symmetry; apply has_key_spec; split; reflexivity).
        replace (has_key cur e) with false.
        2:{ symmetry. apply not_true_iff_false. rewrite has_key_spec.
            apply edge_less_spec in Hlt. unfold same_key. lia. }
        rewrite key_weight_above, !Z.add_0_r; [now rewrite Hcur|].
        eapply Forall_impl; [exact Hall'|]. intros y Hy. cbv beta in Hy.
        apply edge_less_spec. apply edge_less_spec in Hlt.
        apply key_le_spec in Hy. lia.
      * set (first := GlobalEdge.mk (GlobalEdge.u e) (GlobalEdge.v e)
                                    (wadd 0 (GlobalEdge.weight e))) in *.
        destruct (coalesce_from_sorted first l (Hnext first eq_refl eq_refl))
          as [_ Hge].
        rewrite Forall_forall in Hge.
        specialize (Hge o ltac:(now apply list_elem_of_In)).
        rewrite (IH first (Hnext first eq_refl eq_refl)
                   (swrap32_idem _) o Ho).
        replace (has_key o cur) with false.
        2:{ symmetry. apply not_true_iff_false. rewrite has_key_spec.
            apply edge_less_spec in Hlt. apply key_le_spec in Hge.
            unfold same_key. simpl in Hge. lia. }
        replace (has_key o first) with (has_key o e) by reflexivity.
        destruct (has_key o e); simpl.
        -- unfold wadd. rewrite swrap32_add_l. f_equal; lia.
        -- reflexivity.
    + set (more := GlobalEdge.mk (GlobalEdge.u e) (GlobalEdge.v e)
                     (wadd (GlobalEdge.weight cur) (GlobalEdge.weight e)))
        in *.
      rewrite (IH more (Hnext more eq_refl eq_refl) (swrap32_idem _) o Ho).
      apply starts_block_spec in Hsb.
      replace (has_key o more) with (has_key o e) by reflexivity.
      replace (has_key o cur) with (has_key o e).
      2:{ unfold has_key. destruct Hsb as [-> ->]. reflexivity. }
      destruct (has_key o e); simpl.
      * unfold wadd. rewrite swrap32_add_l. f_equal; lia.
      * reflexivity.
Qed.

Lemma coalesce_weight l :
  StronglySorted key_le l ->
  forall o, In o (coalesce l) ->
    GlobalEdge.weight o = swrap32 (key_weight o l).
Proof.
  destruct l as [|e l]; [intros _ o []|]. intros Hs o Ho. simpl in Ho.
  set (first := GlobalEdge.mk (GlobalEdge.u e) (GlobalEdge.v e)
                              (wadd 0 (GlobalEdge.weight e))) in *.
  assert (Hs' : StronglySorted key_le (first :: l)).
  { apply StronglySorted_inv in Hs as [Hs Hall].
    constructor; [exact Hs|].
    eapply Forall_impl; [exact Hall|].
    intros y Hy. apply key_le_spec. apply key_le_spec in Hy. exact Hy. }
  rewrite (coalesce_from_weight first l Hs' (swrap32_idem _) o Ho).
  rewrite key_weight_cons.
  replace (has_key o first) with (has_key o e) by reflexivity.
  destruct (has_key o e); simpl.
  - unfold wadd. rewrite swrap32_add_l. f_equal.
  - reflexivity.
Qed.

Lemma coalesce_from_covers l : forall cur e,
  same_key e cur \/ In e l ->
  exists o, In o (coalesce_from cur l) /\ same_key o e.
Proof.
  induction l as [|x l IH]; intros cur e He; simpl.
  - destruct He as [[Hu Hv]|[]]. exists cur.
    split; [now left|split; congruence].
  - destruct (starts_block cur x) eqn:Hsb.
    + destruct He as [[Hu Hv]|[<-|He]].
      * exists cur. split; [now left|split; congruence].
      * destruct (IH (GlobalEdge.mk (GlobalEdge.u x) (GlobalEdge.v x)
                        (wadd 0 (GlobalEdge.weight x))) x)
          as (o & Ho & Hk); [left; split; reflexivity|].
        exists o. split; [now right|exact Hk].
      * destruct (IH (GlobalEdge.mk (GlobalEdge.u x) (GlobalEdge.v x)
                        (wadd 0 (GlobalEdge.weight x))) e)
          as (o & Ho & Hk); [now right|].
        exists o. split; [now right|exact Hk].
    + apply starts_block_spec in Hsb. destruct Hsb as [Hu' Hv'].
      apply (IH (GlobalEdge.mk (GlobalEdge.u x) (GlobalEdge.v x)
                   (wadd (GlobalEdge.weight cur) (GlobalEdge.weight x))) e).
      destruct He as [[Hu Hv]|[<-|He]].
      * left. split; simpl; congruence.
      * left. split; reflexivity.
      * now right.
Qed.

Lemma coalesce_covers l e :
  In e l -> exists o, In o (coalesce l) /\ same_key o e.
Proof.
  destruct l as [|x l]; [intros []|]. intros He. simpl.
  apply coalesce_from_covers.
  destruct He as [<-|He]; [left; split; reflexivity|now right].
Qed.

Lemma sort_node_list_sorted nodes :
  StronglySorted cluster_le (sort_node_list nodes).
Proof.
  unfold sort_node_list, parallel_sort.
  eapply StronglySorted_weaken with (P := fun _ => True).
  - apply (StronglySorted_merge_sort (not_after node_less)); apply _.
  - apply Forall_forall. auto.
  - intros a b _ _ H. unfold not_after, node_less in H.
    unfold cluster_le. apply Z.ltb_ge in H. exact H.
Qed.




(** ** Edge weight and the memory behind the receive buffer *)

(** The weight of all edge entries of the fine graph, over all
    processes. *)
Definition fine_edge_weight (w : World) : Z :=
  sumZ (map (fun pe =>
               sumZ (map (weight_of_edge (graph pe))
                         (seqZ 0 (zlen (Graph._edges (graph pe))))))
            w).

(** The weight of the edge entries whose endpoints have the same
    cluster. *)
Definition inner_edge_weight (w : World) : Z :=
  sumZ (map (fun pe =>
               sumZ (map (fun u =>
                            sumZ (map (fun ev : Z * Z =>
                                         if cluster_at pe u
                                            =? cluster_at pe ev.2
                                         then weight_of_edge (graph pe) ev.1
                                         else 0)
                                      (adjacency (graph pe) u)))
                         (seqZ 0 (Graph.n (graph pe)))))
            w).

(** The weight of all edge entries of the coarse graph. *)
Definition coarse_edge_weight (checked : bool) (w : World) : outcome Z :=
  weights ← omapM (c_edge_weights checked w) (ranks w);
  Ok (sumZ (map sumZ weights)).

(** C2.  On the path with the clustering 0 -> 2, 1 -> 1, 2 -> 2 no
    edge is inside a cluster, and the four edge entries of weight 1
    become two coarse edges of weight 2 when the record that follows
    the receive buffer of rank 1 in memory has a source that is not the
    coarse node of the last block.  The loop over a block of received
    edges stops only at a record with another source and is not
    bounded by the size of the buffer: when the memory behind the
    buffer holds a record with source 1, the coarse node of the last
    block, its weight 7 is added to the coarse edge from 1 to 0, and the
    coarse edge weight is 11; when nothing can be read behind the
    buffer the contraction has no defined result. *)
Theorem edge_weight_depends_on_memory_past_buffer :
  fine_edge_weight (Examples.path_world []) = 4
  /\ inner_edge_weight (Examples.path_world []) = 0
  /\ coarse_edge_weight true (Examples.path_world [Examples.no_edge]) = Ok 4
  /\ c_edge_weights true
       (Examples.path_world [GlobalEdge.mk 1 1 7; Examples.no_edge]) 1
     = Ok [2; 9]
  /\ coarse_edge_weight true
       (Examples.path_world [GlobalEdge.mk 1 1 7; Examples.no_edge])
     = Ok 11
  /\ coarse_edge_weight true (Examples.path_world []) = Undefined.
Proof. repeat split; reflexivity. Qed.

(** ** Phase F: the coarse ghost nodes *)

Lemma zlen_concat {A} (bs : list (list A)) :
  zlen (concat bs) = sumZ (map zlen bs).
Proof.
  induction bs as [|b bs IH]; [reflexivity|].
  simpl. rewrite zlen_app, IH. reflexivity.
Qed.

Lemma ix_concat {A} (bs : list (list A)) : forall (p : nat) b i,
  bs !! p = Some b -> 0 <= i < zlen b ->
  ix (concat bs) (sumZ (map zlen (take p bs)) + i) = ix b i.
Proof.
  induction bs as [|b0 bs IH]; intros p b i Hp Hi; [discriminate|].
  destruct p as [|p]; simpl in *.
  - inversion Hp; subst b0. rewrite Z.add_0_l. now apply ix_app_l.
  - pose proof (zlen_nonneg b0).
    assert (0 <= sumZ (map zlen (take p bs))).
    { apply sumZ_nonneg, Forall_forall. intros x Hx.
      apply list_elem_of_In, in_map_iff in Hx as (? & <- & _).
      apply zlen_nonneg. }
    rewrite ix_app_r by lia.
    replace (zlen b0 + sumZ (map zlen (take p bs)) + i - zlen b0)
      with (sumZ (map zlen (take p bs)) + i) by lia.
    now apply IH.
Qed.

Lemma sumZ_differ_at (f g : Z -> Z) (size r : Z) :
  0 <= r < size -> (forall p, p <> r -> f p = g p) ->
  sumZ (map f (seqZ 0 size)) = sumZ (map g (seqZ 0 size)) + f r - g r.
Proof.
  intros Hr Hfg.
  rewrite (seqZ_split 0 size r) by lia.
  rewrite (seqZ_cons r) by lia. simpl.
  rewrite !map_app, !sumZ_app. simpl.
  rewrite (map_ext_in f g (seqZ 0 r)).
  2:{ intros p Hp. apply list_elem_of_In, elem_of_seqZ in Hp.
      apply Hfg. lia. }
  rewrite (map_ext_in f g (seqZ (Z.succ r) _)).
  2:{ intros p Hp. apply list_elem_of_In, elem_of_seqZ in Hp.
      apply Hfg. lia. }
  lia.
Qed.

Section GhostOffsets.

Variable checked : bool.
Variables (D : list Z) (GC : Z -> Z) (w : World).
Hypothesis Hvalid : valid_world D GC w.
Hypothesis Hsmall : small_world D w.

(** Counts bounded by the numbers of nodes of the processes sum up to
    at most the number of nodes. *)
Lemma prefix_le_distribution (f : Z -> Z) :
  (forall p a b, 0 <= p < comm_size w ->
     ix D p = Some a -> ix D (p + 1) = Some b -> 0 <= f p <= b - a) ->
  forall k : nat, Z.of_nat k <= comm_size w ->
    exists d, ix D (Z.of_nat k) = Some d
              /\ 0 <= sumZ (take k (map f (ranks w))) <= d.
Proof.
  intros Hf. induction k as [|k IH]; intros Hk.
  - exists 0. change (Z.of_nat 0) with 0.
    rewrite (vw_D_first _ _ _ Hvalid). simpl. split; [reflexivity|lia].
  - destruct IH as (d & Hd & Hle); [lia|].
    destruct (D_entry D GC w Hvalid (Z.of_nat k + 1) ltac:(lia)) as [b Hb].
    specialize (Hf (Z.of_nat k) d b ltac:(lia) Hd Hb).
    rewrite (sumZ_take_snoc _ _ (f (Z.of_nat k))).
    + exists b. replace (Z.of_nat (S k)) with (Z.of_nat k + 1) by lia.
      split; [exact Hb|lia].
    + unfold ranks. rewrite list_lookup_fmap, lookup_seqZ_lt by lia.
      simpl. f_equal.
Qed.

Lemma sum_le_distribution (f : Z -> Z) :
  (forall p a b, 0 <= p < comm_size w ->
     ix D p = Some a -> ix D (p + 1) = Some b -> 0 <= f p <= b - a) ->
  0 <= sumZ (map f (ranks w)) <= total_nodes D.
Proof.
  intros Hf. pose proof (comm_size_nonneg w) as HP.
  destruct (prefix_le_distribution f Hf (Z.to_nat (comm_size w)))
    as (d & Hd & Hle); [lia|].
  rewrite Z2Nat.id in Hd by lia.
  rewrite (D_last D GC w Hvalid) in Hd. inversion Hd; subst d.
  rewrite take_ge in Hle; [exact Hle|].
  unfold ranks. rewrite length_map, length_seqZ. lia.
Qed.

Section OnePE.

Variables (r : Z) (pe : PE).
Hypothesis Hin : ix w r = Some pe.

Definition row_lengths : list Z :=
  map (fun p => zlen (row_of checked w r p)) (ranks w).

(** The first ghost of owner [p], the number of ghosts, the requested
    clusters in the order of the ghosts. *)
Definition goff (p : Z) : Z := sumZ (take (Z.to_nat p) row_lengths).

Definition ghosts_n : Z := sumZ row_lengths.

Definition requested : list Z :=
  concat (map (row_of checked w r) (ranks w)).

Definition ghost_globals : list Z := map (coarse_id checked D w) requested.

Definition ghost_owners : list Z := map (owner_of D) requested.

Lemma row_of_own : row_of checked w r r = [].
Proof.
  pose proof (rank_range w r pe Hin) as Hr.
  destruct (row_of checked w r r) as [|c row] eqn:E; [reflexivity|].
  destruct (row_of_spec checked D GC w Hvalid Hsmall r pe r 0 c Hin Hr)
    as (_ & _ & Hne & _); [rewrite E; reflexivity|]. lia.
Qed.

Lemma row_of_le p a b :
  0 <= p < comm_size w -> ix D p = Some a -> ix D (p + 1) = Some b ->
  zlen (row_of checked w r p) <= b - a.
Proof.
  intros Hp Ha Hb.
  destruct (requests_spec checked D GC w Hvalid Hsmall r pe Hin)
    as (_ & _ & _ & Hinv & _).
  apply (rows_le D GC w Hvalid r _ _ p a b Hinv Hp Ha Hb).
Qed.

Lemma zlen_row_lengths : zlen row_lengths = comm_size w.
Proof.
  unfold row_lengths, ranks. rewrite zlen_map, zlen_seqZ; auto.
  apply comm_size_nonneg.
Qed.

Lemma zlen_requested : zlen requested = ghosts_n.
Proof.
  unfold requested, ghosts_n, row_lengths.
  now rewrite zlen_concat, map_map.
Qed.

(** The coarse nodes and the coarse ghosts of a process are at most as
    many as the nodes of the graph. *)
Lemma coarse_total_n_le :
  0 <= ghosts_n /\ cn checked w r + ghosts_n <= total_nodes D.
Proof.
  pose proof (vw_pe _ _ _ Hvalid _ _ Hin) as Hpe.
  pose proof (rank_range w r pe Hin) as Hr.
  pose proof (cn_range checked D GC w Hvalid Hsmall r pe Hpe Hin) as Hcn.
  set (f := fun p => if p =? r then cn checked w r
                     else zlen (row_of checked w r p)).
  assert (Hf : forall p a b, 0 <= p < comm_size w ->
             ix D p = Some a -> ix D (p + 1) = Some b -> 0 <= f p <= b - a).
  { intros p a b Hp Ha Hb. unfold f.
    destruct (Z.eqb_spec p r) as [->|Hne].
    - rewrite (vp_offset _ _ _ _ Hpe) in Ha.
      rewrite (vp_next _ _ _ _ Hpe) in Hb.
      inversion Ha. inversion Hb. lia.
    - pose proof (row_of_le p a b Hp Ha Hb).
      pose proof (zlen_nonneg (row_of checked w r p)). lia. }
  pose proof (sum_le_distribution f Hf) as Hsum.
  unfold ranks in Hsum.
  rewrite (sumZ_differ_at f (fun p => zlen (row_of checked w r p))
             (comm_size w) r Hr) in Hsum.
  2:{ intros p Hp. unfold f.
      destruct (Z.eqb_spec p r); [contradiction|reflexivity]. }
  unfold f in Hsum. rewrite Z.eqb_refl, row_of_own in Hsum.
  change (zlen []) with 0 in Hsum.
  unfold ghosts_n, row_lengths, ranks.
  split; [|lia].
  apply sumZ_nonneg, Forall_forall. intros x Hx.
  apply list_elem_of_In, in_map_iff in Hx as (? & <- & _).
  apply zlen_nonneg.
Qed.

Lemma goff_succ p :
  0 <= p < comm_size w ->
  goff (p + 1) = goff p + zlen (row_of checked w r p).
Proof.
  intros Hp. unfold goff.
  replace (Z.to_nat (p + 1)) with (S (Z.to_nat p)) by lia.
  rewrite (sumZ_take_snoc _ _ (zlen (row_of checked w r p))); [reflexivity|].
  unfold row_lengths, ranks.
  rewrite list_lookup_fmap, lookup_seqZ_lt by lia. simpl.
  rewrite Z.add_0_l, Z2Nat.id by lia. reflexivity.
Qed.

Lemma goff_0 : goff 0 = 0.
Proof. reflexivity. Qed.

Lemma goff_last : goff (comm_size w) = ghosts_n.
Proof.
  unfold goff, ghosts_n. rewrite take_ge; [reflexivity|].
  pose proof zlen_row_lengths as H. unfold zlen in H. lia.
Qed.

Lemma goff_nonneg p : 0 <= goff p.
Proof.
  unfold goff. apply sumZ_nonneg, Forall_take, Forall_forall. intros x Hx.
  apply list_elem_of_In, in_map_iff in Hx as (? & <- & _). apply zlen_nonneg.
Qed.

Lemma goff_le p :
  0 <= p < comm_size w ->
  goff p + zlen (row_of checked w r p) <= ghosts_n.
Proof.
  intros Hp. rewrite <- goff_succ by exact Hp.
  unfold goff, ghosts_n.
  rewrite <- (take_drop (Z.to_nat (p + 1)) row_lengths) at 2.
  rewrite sumZ_app.
  assert (0 <= sumZ (drop (Z.to_nat (p + 1)) row_lengths)); [|lia].
  apply sumZ_nonneg, Forall_drop, Forall_forall. intros x Hx.
  apply list_elem_of_In, in_map_iff in Hx as (? & <- & _). apply zlen_nonneg.
Qed.

Lemma ix_requested p i :
  0 <= p < comm_size w -> 0 <= i < zlen (row_of checked w r p) ->
  ix requested (goff p + i) = ix (row_of checked w r p) i.
Proof.
  intros Hp Hi. unfold requested, goff, row_lengths.
  rewrite <- (map_map (row_of checked w r) zlen), firstn_map.
  apply ix_concat; [|exact Hi].
  unfold ranks. rewrite list_lookup_fmap, lookup_seqZ_lt by lia.
  simpl. rewrite Z.add_0_l, Z2Nat.id by lia. reflexivity.
Qed.

Lemma next_index_spec :
  next_index_for_pe (request_state checked w r) = row_lengths ++ [0].
Proof.
  destruct (requests_spec checked D GC w Hvalid Hsmall r pe Hin)
    as (_ & _ & _ & Hinv & _).
  pose proof (comm_size_nonneg w) as HP.
  apply ix_ext.
  - rewrite (ri_len _ _ _ _ _ Hinv), zlen_app, zlen_row_lengths. reflexivity.
  - intros p Hp. rewrite (ri_len _ _ _ _ _ Hinv) in Hp.
    destruct (decide (p = comm_size w)) as [->|Hne].
    + rewrite (ri_last _ _ _ _ _ Hinv).
      rewrite ix_app_r, zlen_row_lengths, Z.sub_diag by
        (rewrite zlen_row_lengths; lia).
      reflexivity.
    + rewrite (ri_next _ _ _ _ _ Hinv) by lia.
      rewrite ix_app_l by (rewrite zlen_row_lengths; lia).
      unfold row_lengths, ranks. rewrite ix_map, ix_seqZ by lia.
      reflexivity.
Qed.

Lemma ghost_offsets_spec :
  ghost_offsets checked w r = Ok (displacements 0 (row_lengths ++ [0])).
Proof.
  destruct (requests_spec checked D GC w Hvalid Hsmall r pe Hin) as (E & _).
  unfold ghost_offsets. rewrite E. simpl. rewrite next_index_spec.
  f_equal. apply exclusive_scan_nowrap; [lia| |].
  - apply Forall_app. split; [|repeat constructor; lia].
    apply Forall_forall. intros x Hx.
    apply list_elem_of_In, in_map_iff in Hx as (? & <- & _).
    apply zlen_nonneg.
  - rewrite sumZ_app. simpl. fold ghosts_n.
    pose proof coarse_total_n_le.
    pose proof (total_nodes_small D w Hsmall).
    pose proof (vw_pe _ _ _ Hvalid _ _ Hin) as Hpe.
    pose proof (cn_range checked D GC w Hvalid Hsmall r pe Hpe Hin). lia.
Qed.

Lemma ix_ghost_offsets p :
  0 <= p <= comm_size w ->
  ix (displacements 0 (row_lengths ++ [0])) p = Some (goff p).
Proof.
  intros Hp. rewrite <- (Z2Nat.id p) at 1 by lia.
  pose proof zlen_row_lengths as Hlen. unfold zlen in Hlen.
  rewrite ix_displacements by (rewrite length_app; simpl; lia).
  unfold goff. rewrite take_app_le by lia. f_equal.
Qed.

Lemma c_ghost_n_spec : c_ghost_n checked w r = Ok ghosts_n.
Proof.
  unfold c_ghost_n. rewrite ghost_offsets_spec. simpl.
  pose proof (comm_size_nonneg w) as HP.
  pose proof zlen_row_lengths as Hlen. unfold zlen in Hlen.
  assert (E : back (displacements 0 (row_lengths ++ [0])) = Some ghosts_n).
  { unfold back. rewrite last_lookup, length_displacements, length_app.
    simpl. rewrite <- goff_last, <- (ix_ghost_offsets (comm_size w)) by lia.
    unfold ix. destruct (Z.ltb_spec (comm_size w) 0); [lia|].
    f_equal. lia. }
  now rewrite E.
Qed.

End OnePE.

End GhostOffsets.

(** ** The coarse ghost directory *)

Section CoarseGhostsSpec.

Variable checked : bool.
Variables (D : list Z) (GC : Z -> Z) (w : World).
Hypothesis Hvalid : valid_world D GC w.
Hypothesis Hsmall : small_world D w.

Definition cghosts (r : Z) : CoarseGhosts :=
  value (coarse_ghosts checked w r)
        {| c_global_to_ghost := ∅; c_ghost_to_global := [];
           c_ghost_owner := [] |}.

Section OnePE.

Variables (r : Z) (pe : PE).
Hypothesis Hin : ix w r = Some pe.

Local Abbreviation CN := (cn checked w r).
Local Abbreviation GN := (ghosts_n checked w r).
Local Abbreviation GG := (ghost_globals checked D w r).
Local Abbreviation GO := (ghost_owners checked D w r).

(** The directory after the first [J] ghosts were entered. *)
Record ghosts_inv (J : Z) (gh : CoarseGhosts) : Prop := {
  gi_globals_len : zlen (c_ghost_to_global gh) = GN;
  gi_owners_len : zlen (c_ghost_owner gh) = GN;
  gi_written : forall j, 0 <= j < J ->
      ix (c_ghost_to_global gh) j = ix GG j
      /\ ix (c_ghost_owner gh) j = ix GO j;
  gi_found : forall j g, 0 <= j < J -> ix GG j = Some g ->
      is_Some (c_global_to_ghost gh !! (g + 1));
  gi_entry : forall key l, c_global_to_ghost gh !! key = Some l ->
      CN <= l < CN + J /\ ix GG (l - CN) = Some (key - 1)
}.

Lemma sizes_small :
  0 <= CN /\ 0 <= GN /\ CN + GN < 2 ^ 32.
Proof.
  pose proof (vw_pe _ _ _ Hvalid _ _ Hin) as Hpe.
  pose proof (cn_range checked D GC w Hvalid Hsmall r pe Hpe Hin).
  pose proof (coarse_total_n_le checked D GC w Hvalid Hsmall r pe Hin).
  pose proof (total_nodes_small D w Hsmall). lia.
Qed.

Lemma ghost_at p i c :
  0 <= p < comm_size w -> ix (row_of checked w r p) i = Some c ->
  ix GG (goff checked w r p + i) = Some (coarse_id checked D w c)
  /\ ix GO (goff checked w r p + i) = Some p
  /\ goff checked w r p + i < GN.
Proof.
  intros Hp Hc. pose proof (ix_Some_range _ _ _ Hc) as Hi.
  destruct (row_of_spec checked D GC w Hvalid Hsmall r pe p i c Hin Hp Hc)
    as (_ & Ho & _).
  unfold ghost_globals, ghost_owners.
  rewrite !ix_map, ix_requested, Hc by assumption. simpl.
  pose proof (goff_le checked w r p Hp). rewrite Ho.
  repeat split; lia.
Qed.

Lemma add_ghost_step p i gh :
  0 <= p < comm_size w -> 0 <= i < zlen (row_of checked w r p) ->
  ghosts_inv (goff checked w r p + i) gh ->
  exists gh',
    add_ghost CN (goff checked w r p) p
              (map (coarse_id checked D w) (row_of checked w r p)) gh i
    = Ok gh'
    /\ ghosts_inv (goff checked w r p + i + 1) gh'.
Proof.
  intros Hp Hi Hinv.
  destruct (ix_in_range (row_of checked w r p) i Hi) as [c Hc].
  destruct (row_of_spec checked D GC w Hvalid Hsmall r pe p i c Hin Hp Hc)
    as (Hinh & Ho & _).
  destruct (ghost_at p i c Hp Hc) as (HG & HO & HJ).
  pose proof (coarse_id_small checked D GC w Hvalid Hsmall c Hinh) as Hs.
  pose proof sizes_small as Hsz.
  pose proof (goff_nonneg checked w r p) as Hg0.
  set (J := goff checked w r p + i) in *.
  unfold add_ghost.
  rewrite (load_Ok _ _ (coarse_id checked D w c))
    by (rewrite ix_map, Hc; reflexivity).
  simpl. fold J. rewrite (wrap32_small J) by lia.
  rewrite (store_Ok (c_ghost_to_global gh))
    by (rewrite (gi_globals_len _ _ Hinv); lia).
  simpl.
  rewrite (store_Ok (c_ghost_owner gh))
    by (rewrite (gi_owners_len _ _ Hinv); lia).
  simpl.
  rewrite wrap64_small, wrap32_small by lia.
  eexists. split; [reflexivity|]. split; simpl.
  - rewrite zlen_insert. apply Hinv.
  - rewrite zlen_insert. apply Hinv.
  - intros j Hj. destruct (decide (j = J)) as [->|Hne].
    + rewrite !ix_insert_eq
        by (rewrite ?(gi_globals_len _ _ Hinv), ?(gi_owners_len _ _ Hinv); lia).
      now rewrite HG, HO.
    + rewrite !ix_insert_ne by lia. apply Hinv. lia.
  - intros j g Hj Hg. rewrite insert_new_lookup.
    destruct (c_global_to_ghost gh !! (g + 1)) eqn:Hold; [eauto|].
    destruct (decide (g + 1 = coarse_id checked D w c + 1)); [eauto|].
    exfalso. destruct (decide (j = J)) as [->|Hne].
    + rewrite HG in Hg. inversion Hg. lia.
    + destruct (gi_found _ _ Hinv j g ltac:(lia) Hg) as [l Hl]. congruence.
  - intros key l Hl. rewrite insert_new_lookup in Hl.
    destruct (c_global_to_ghost gh !! key) eqn:Hold.
    + inversion Hl; subst z.
      destruct (gi_entry _ _ Hinv key l Hold). split; [lia|assumption].
    + destruct (decide (key = coarse_id checked D w c + 1)) as [->|];
        [|discriminate].
      inversion Hl; subst l. split; [lia|].
      replace (CN + J - CN) with J by lia.
      replace (coarse_id checked D w c + 1 - 1)
        with (coarse_id checked D w c) by lia.
      exact HG.
Qed.

Lemma add_ghost_loop p (k : nat) : forall i gh,
  0 <= p < comm_size w -> 0 <= i ->
  i + Z.of_nat k = zlen (row_of checked w r p) ->
  ghosts_inv (goff checked w r p + i) gh ->
  exists gh',
    foldM (add_ghost CN (goff checked w r p) p
                     (map (coarse_id checked D w) (row_of checked w r p)))
          gh (seqZ i (Z.of_nat k))
    = Ok gh'
    /\ ghosts_inv (goff checked w r p + zlen (row_of checked w r p)) gh'.
Proof.
  induction k as [|k IH]; intros i gh Hp Hi Hlen Hinv.
  - exists gh. split; [reflexivity|].
    replace (zlen (row_of checked w r p)) with i by lia. exact Hinv.
  - replace (Z.of_nat (S k)) with (Z.succ (Z.of_nat k)) by lia.
    rewrite seqZ_cons by lia. rewrite Z.pred_succ, foldM_cons.
    destruct (add_ghost_step p i gh Hp ltac:(lia) Hinv) as (gh1 & -> & Hinv1).
    rewrite bind_Ok_l.
    apply IH; try lia.
    replace (goff checked w r p + Z.succ i)
      with (goff checked w r p + i + 1) by lia.
    exact Hinv1.
Qed.

Lemma add_ghosts_of_step p gh :
  0 <= p < comm_size w ->
  ghosts_inv (goff checked w r p) gh ->
  exists gh',
    add_ghosts_of CN (rows_of checked w r) (responses checked D w r)
                  (displacements 0 (row_lengths checked w r ++ [0])) gh p
    = Ok gh'
    /\ ghosts_inv (goff checked w r (p + 1)) gh'.
Proof.
  intros Hp Hinv. unfold add_ghosts_of.
  rewrite (load_Ok _ _ _ (ix_rows_of checked D GC w Hvalid Hsmall r pe p
                            Hin Hp)). simpl.
  rewrite (load_Ok _ _ (map (coarse_id checked D w) (row_of checked w r p))).
  2:{ unfold responses, ranks. rewrite ix_map, ix_seqZ by lia. reflexivity. }
  simpl.
  rewrite (load_Ok _ _ _ (ix_ghost_offsets checked w r p ltac:(lia))). simpl.
  rewrite goff_succ by exact Hp.
  unfold zlen at 1. apply add_ghost_loop; try lia.
  - unfold zlen. lia.
  - now rewrite Z.add_0_r.
Qed.

Lemma add_ghosts_loop (k : nat) : forall p gh,
  0 <= p -> p + Z.of_nat k = comm_size w ->
  ghosts_inv (goff checked w r p) gh ->
  exists gh',
    foldM (add_ghosts_of CN (rows_of checked w r) (responses checked D w r)
             (displacements 0 (row_lengths checked w r ++ [0])))
          gh (seqZ p (Z.of_nat k))
    = Ok gh'
    /\ ghosts_inv GN gh'.
Proof.
  induction k as [|k IH]; intros p gh Hp Hlen Hinv.
  - exists gh. split; [reflexivity|].
    rewrite <- (goff_last checked w r).
    replace (comm_size w) with p by lia. exact Hinv.
  - replace (Z.of_nat (S k)) with (Z.succ (Z.of_nat k)) by lia.
    rewrite seqZ_cons by lia. rewrite Z.pred_succ, foldM_cons.
    destruct (add_ghosts_of_step p gh ltac:(lia) Hinv) as (gh1 & -> & Hinv1).
    rewrite bind_Ok_l. apply IH; try lia. exact Hinv1.
Qed.

Lemma coarse_ghosts_spec :
  coarse_ghosts checked w r = Ok (cghosts r)
  /\ c_ghost_to_global (cghosts r) = GG
  /\ c_ghost_owner (cghosts r) = GO
  /\ (forall c, In c (requested checked w r) ->
        is_Some (c_global_to_ghost (cghosts r)
                 !! (coarse_id checked D w c + 1)))
  /\ (forall key l, c_global_to_ghost (cghosts r) !! key = Some l ->
        CN <= l < CN + GN /\ ix GG (l - CN) = Some (key - 1)).
Proof.
  pose proof (vw_pe _ _ _ Hvalid _ _ Hin) as Hpe.
  pose proof sizes_small as Hsz.
  pose proof (comm_size_nonneg w) as HP.
  destruct (requests_spec checked D GC w Hvalid Hsmall r pe Hin)
    as (_ & Erows & _).
  destruct (add_ghosts_loop (Z.to_nat (comm_size w)) 0
              {| c_global_to_ghost := ∅;
                 c_ghost_to_global := replicate (Z.to_nat GN) 0;
                 c_ghost_owner := replicate (Z.to_nat GN) 0 |})
    as (gh & E & Hinv); try lia.
  { split; simpl; try (apply zlen_replicate; lia).
    - intros j Hj. change (goff checked w r 0) with 0 in Hj. lia.
    - intros j g Hj. change (goff checked w r 0) with 0 in Hj. lia.
    - intros key l Hl. rewrite lookup_empty in Hl. discriminate. }
  rewrite Z2Nat.id in E by lia.
  assert (Egh : coarse_ghosts checked w r = Ok gh).
  { unfold coarse_ghosts. rewrite Erows. simpl.
    erewrite their_mapping_responses_spec by side. simpl.
    erewrite ghost_offsets_spec by side. simpl.
    erewrite c_ghost_n_spec by side. simpl.
    erewrite c_n_spec by side. simpl. exact E. }
  unfold cghosts. rewrite Egh. simpl.
  split; [reflexivity|].
  assert (Hlen : zlen GG = GN).
  { unfold ghost_globals. now rewrite zlen_map, zlen_requested. }
  assert (Hlen' : zlen GO = GN).
  { unfold ghost_owners. now rewrite zlen_map, zlen_requested. }
  split; [|split; [|split]].
  - apply ix_ext; [now rewrite (gi_globals_len _ _ Hinv)|].
    intros j Hj. rewrite (gi_globals_len _ _ Hinv) in Hj.
    now apply (gi_written _ _ Hinv).
  - apply ix_ext; [now rewrite (gi_owners_len _ _ Hinv)|].
    intros j Hj. rewrite (gi_owners_len _ _ Hinv) in Hj.
    now apply (gi_written _ _ Hinv).
  - intros c Hc. apply In_ix in Hc as (j & Hj & Hc).
    rewrite zlen_requested in Hj.
    apply (gi_found _ _ Hinv j); [exact Hj|].
    unfold ghost_globals. now rewrite ix_map, Hc.
  - apply (gi_entry _ _ Hinv).
Qed.

(** Every entry of the directory leads to a ghost: a coarse node of
    another process. *)
Lemma ghost_global_remote j g :
  ix GG j = Some g ->
  exists c, inhabited w c /\ owner_of D c <> r
            /\ g = coarse_id checked D w c /\ In c (requested checked w r).
Proof.
  intros Hg. unfold ghost_globals in Hg. rewrite ix_map in Hg.
  destruct (ix (requested checked w r) j) as [c|] eqn:Hc; [|discriminate].
  inversion Hg; subst g. exists c.
  pose proof (ix_In _ _ _ Hc) as Hc'.
  unfold requested in Hc'. apply in_concat in Hc' as (row & Hrow & Hcr).
  apply in_map_iff in Hrow as (p & <- & Hp). apply (In_rank w) in Hp.
  apply In_ix in Hcr as (i & _ & Hi).
  destruct (row_of_spec checked D GC w Hvalid Hsmall r pe p i c Hin Hp Hi)
    as (Hinh & Ho & Hne & _).
  split; [exact Hinh|]. split; [lia|]. split; [reflexivity|].
  eapply ix_In, Hc.
Qed.

End OnePE.

End CoarseGhostsSpec.

(** ** Phase G: the edges handled by a process *)

Lemma find_Some (m : gmap Z Z) key value :
  m !! key = Some value -> find m key = Ok value.
Proof. unfold find. now intros ->. Qed.

Section HandleEdge.

Variable checked : bool.
Variables (D : list Z) (GC : Z -> Z) (w : World).
Hypothesis Hvalid : valid_world D GC w.
Hypothesis Hsmall : small_world D w.

Lemma sent_edges_sources r pe :
  ix w r = Some pe ->
  Forall (fun e => inhabited w (GlobalEdge.u e)) (sent_edges pe).
Proof.
  intros Hin. pose proof (vw_pe _ _ _ Hvalid _ _ Hin) as Hpe.
  apply Forall_forall. intros e He.
  apply list_elem_of_In in He. unfold sent_edges in He.
  apply coalesce_keys in He as (e' & He' & [Hu _]).
  apply list_elem_of_In in He'.
  rewrite (parallel_sort_Permutation edge_less) in He'.
  apply list_elem_of_In, in_flat_map in He' as (u & Hu' & He').
  apply List.filter_In in Hu' as [Hu' _].
  apply list_elem_of_In, elem_of_seqZ in Hu'.
  apply in_map_iff in He' as (ev & <- & _). simpl in Hu.
  pose proof (vp_total D GC r pe Hpe).
  pose proof (vp_ghost_n_nonneg D GC r pe Hpe).
  exists r, pe, u. split; [exact Hin|]. split; [lia|exact Hu].
Qed.

Lemma received_edges_sources p :
  Forall (fun e => inhabited w (GlobalEdge.u e)) (received_edge_records D w p).
Proof.
  apply Forall_forall. intros e He.
  apply list_elem_of_In, in_flat_map in He as (pe & Hpe & He).
  apply List.filter_In in He as [He _].
  destruct (pe_valid D GC w Hvalid pe Hpe) as (r & Hr & _).
  pose proof (sent_edges_sources r pe Hr) as H.
  rewrite Forall_forall in H. apply H. now apply list_elem_of_In.
Qed.

Section OnePE.

Variables (r : Z) (pe : PE).
Hypothesis Hin : ix w r = Some pe.

Local Abbreviation CN := (cn checked w r).
Local Abbreviation GN := (ghosts_n checked w r).
Local Abbreviation GG := (ghost_globals checked D w r).

(** The receive buffer after sorting, and after
    [localize_global_edge_list]. *)
Definition sorted_edges : list GlobalEdge.t :=
  parallel_sort source_less (received_edge_records D w r).

Definition localize (e : GlobalEdge.t) : GlobalEdge.t :=
  GlobalEdge.mk (coarse_local checked D w (GlobalEdge.u e))
                (GlobalEdge.v e) (GlobalEdge.weight e).

Definition ledges : list GlobalEdge.t := map localize sorted_edges.

Lemma sorted_edges_spec :
  Forall (fun e => inhabited w (GlobalEdge.u e)
                   /\ owner_of D (GlobalEdge.u e) = r
                   /\ inhabited w (GlobalEdge.v e)
                   /\ covered pe (request_state checked w r) (GlobalEdge.v e))
         sorted_edges.
Proof.
  destruct (requests_spec checked D GC w Hvalid Hsmall r pe Hin)
    as (_ & _ & _ & _ & _ & Hcov).
  pose proof (received_edges_sources r) as H1.
  pose proof (received_edges_inhabited D GC w Hvalid r) as H2.
  rewrite Forall_forall in H1, H2.
  apply Forall_forall. intros e He. unfold sorted_edges in He.
  rewrite (parallel_sort_Permutation source_less) in He.
  destruct (H2 e He) as (Hv & _ & Ho).
  split; [now apply H1|]. split; [exact Ho|]. split; [exact Hv|].
  apply Hcov. now apply list_elem_of_In.
Qed.

Lemma ledges_sources :
  Forall (fun e => 0 <= GlobalEdge.u e < CN) ledges.
Proof.
  unfold ledges. apply Forall_map.
  eapply Forall_impl; [apply sorted_edges_spec|].
  intros e (Hu & Ho & _). simpl.
  apply (coarse_local_spec checked D GC w Hvalid Hsmall _ r pe Hu Hin Ho).
Qed.

Lemma localized_edges_spec : localized_edges checked w r = Ok ledges.
Proof.
  pose proof (vw_pe _ _ _ Hvalid _ _ Hin) as Hpe.
  pose proof (rank_range w r pe Hin) as Hr.
  unfold localized_edges. rewrite (load_Ok _ _ _ Hin). simpl.
  erewrite local_edges_spec by side. simpl.
  destruct (lnode_to_lcnode_props checked D GC w Hvalid Hsmall r pe Hpe Hin)
    as (-> & _). simpl.
  unfold localize_global_edge_list. apply omapM_Ok. intros e He.
  pose proof sorted_edges_spec as H. rewrite Forall_forall in H.
  destruct (H e) as (Hu & Ho & _); [now apply list_elem_of_In|].
  destruct (inhabited_nonempty D GC w Hvalid _ r pe Hu Hin Ho)
    as (Hv & Hr' & _).
  rewrite (local_index_owner D GC r pe _ Hpe Ho) in Hr'.
  destruct (coarse_local_spec checked D GC w Hvalid Hsmall _ r pe Hu Hin Ho)
    as (Hlc & _).
  pose proof (Graph.wf_total _ (vp_wf _ _ _ _ Hpe)) as Ht.
  pose proof (vp_ghost_n_nonneg D GC r pe Hpe) as Hgn.
  rewrite wrap64_small by lia. rewrite wrap32_small by lia.
  now rewrite (load_Ok _ _ _ Hlc).
Qed.

(** The coarse local node of a cluster: the coarse node of an owned
    cluster, the coarse ghost of the coarse node of another one. *)
Definition clocal (c : Z) : Z :=
  if Graph.is_owned_global_node (graph pe) c then coarse_local checked D w c
  else default 0 (c_global_to_ghost (cghosts checked w r)
                  !! (coarse_id checked D w c + 1)).

Definition ctx : EdgeContext :=
  {| ec_graph := graph pe;
     ec_clustering := lnode_to_gcluster pe;
     ec_lnode_to_lcnode := lcnode checked w r;
     ec_dedup := dedup checked w r;
     ec_their_mapping_responses := responses checked D w r;
     ec_c_global_to_ghost := c_global_to_ghost (cghosts checked w r);
     ec_memory := ledges ++ past_local_edges pe |}.

Lemma edge_context_spec : edge_context checked w r = Ok ctx.
Proof.
  pose proof (vw_pe _ _ _ Hvalid _ _ Hin) as Hpe.
  unfold edge_context. rewrite (load_Ok _ _ _ Hin). simpl.
  destruct (lnode_to_lcnode_props checked D GC w Hvalid Hsmall r pe Hpe Hin)
    as (-> & _). simpl.
  destruct (dedup_map_spec checked D GC w Hvalid Hsmall r pe Hin) as (-> & _).
  simpl. erewrite their_mapping_responses_spec by side. simpl.
  destruct (coarse_ghosts_spec checked D GC w Hvalid Hsmall r pe Hin)
    as (-> & _). simpl.
  rewrite localized_edges_spec. reflexivity.
Qed.

Lemma clocal_owned c :
  inhabited w c -> Graph.is_owned_global_node (graph pe) c = true ->
  0 <= clocal c < CN
  /\ clocal c = coarse_local checked D w c
  /\ ix (lcnode checked w r) (c - Graph.offset_n (graph pe))
     = Some (clocal c).
Proof.
  intros Hc Hown. pose proof (vw_pe _ _ _ Hvalid _ _ Hin) as Hpe.
  assert (Ho : owner_of D c = r).
  { eapply is_owned_owner; [exact Hvalid|exact Hpe|exact Hin| |exact Hown].
    now apply (inhabited_valid D GC w Hvalid). }
  destruct (coarse_local_spec checked D GC w Hvalid Hsmall c r pe Hc Hin Ho)
    as (Hlc & Hr).
  unfold clocal. rewrite Hown. auto.
Qed.

Lemma requested_In c v :
  nonlocal_gcluster_to_index (request_state checked w r) !! (c + 1) = Some v ->
  In c (requested checked w r).
Proof.
  intros Hk.
  destruct (response_lookup checked D GC w Hvalid Hsmall r pe c v Hin Hk)
    as (Hi & _ & _ & Hrow & _).
  pose proof (inhabited_valid D GC w Hvalid c Hi) as Hc.
  destruct (owner_of_spec D GC w Hvalid c Hc) as (Ho & _).
  unfold requested. apply in_concat.
  exists (row_of checked w r (owner_of D c)). split.
  - apply in_map. apply list_elem_of_In, elem_of_seqZ. lia.
  - eapply ix_In, Hrow.
Qed.

Lemma clocal_ghost c :
  inhabited w c -> covered pe (request_state checked w r) c ->
  Graph.is_owned_global_node (graph pe) c = false ->
  CN <= clocal c < CN + GN
  /\ ix GG (clocal c - CN) = Some (coarse_id checked D w c)
  /\ c_global_to_ghost (cghosts checked w r) !! (coarse_id checked D w c + 1)
     = Some (clocal c).
Proof.
  intros Hc Hcov Hown.
  destruct Hcov as [Hcov|[v Hv]]; [congruence|].
  destruct (coarse_ghosts_spec checked D GC w Hvalid Hsmall r pe Hin)
    as (_ & _ & _ & Hfound & Hentry).
  destruct (Hfound c (requested_In c v Hv)) as [l Hl].
  destruct (Hentry _ _ Hl) as [Hr Hg].
  unfold clocal. rewrite Hown, Hl. simpl.
  replace (coarse_id checked D w c + 1 - 1)
    with (coarse_id checked D w c) in Hg by lia.
  auto.
Qed.

Lemma handle_edge_spec c_u map weight c :
  inhabited w c -> covered pe (request_state checked w r) c ->
  handle_edge checked ctx c_u map weight c
  = Ok (add_unless_loop c_u map (clocal c) weight).
Proof.
  intros Hc Hcov. pose proof (vw_pe _ _ _ Hvalid _ _ Hin) as Hpe.
  pose proof (inhabited_valid D GC w Hvalid c Hc) as Hv.
  pose proof (total_nodes_small D w Hsmall) as HN.
  unfold handle_edge. simpl.
  destruct (Graph.is_owned_global_node (graph pe) c) eqn:Hown.
  - destruct (clocal_owned c Hc Hown) as (_ & _ & Hlc).
    pose proof (proj1 (is_owned_spec D GC r pe Hpe c) Hown) as Hr.
    pose proof (Graph.wf_range _ (vp_wf _ _ _ _ Hpe)) as Ht.
    pose proof (Graph.wf_offset _ (vp_wf _ _ _ _ Hpe)) as Ht0.
    rewrite wrap64_small by lia.
    now rewrite (load_Ok _ _ _ Hlc).
  - destruct (clocal_ghost c Hc Hcov Hown) as (_ & _ & Hl).
    destruct Hcov as [Hcov|[v Hk]]; [congruence|].
    destruct (response_lookup checked D GC w Hvalid Hsmall r pe c v Hin Hk)
      as (_ & _ & Hvr & _ & row & Hrow & Hix).
    destruct (dedup_map_spec checked D GC w Hvalid Hsmall r pe Hin)
      as (_ & Hd).
    pose proof (coarse_id_small checked D GC w Hvalid Hsmall c Hc) as Hs.
    rewrite wrap64_small by lia.
    rewrite Hd, Hk. rewrite (vp_global_n _ _ _ _ Hpe).
    rewrite wrap64_small by lia.
    replace (v - 1 <? total_nodes D) with true
      by (symmetry; apply Z.ltb_lt; lia).
    rewrite KASSERT_true. simpl.
    rewrite (find_Some (dedup checked w r) (c + 1) v)
      by (now rewrite Hd, Hk).
    simpl. erewrite find_owner_spec by side. simpl.
    rewrite (load_Ok _ _ _ Hrow). simpl.
    rewrite wrap64_small by lia.
    rewrite (load_Ok _ _ _ Hix). simpl.
    rewrite wrap64_small by lia.
    now rewrite (find_Some _ _ _ Hl).
Qed.

End OnePE.

End HandleEdge.

(** ** The buckets of the coarse nodes *)

Lemma omapM_id {A} (f : A -> outcome A) (l : list A) :
  (forall x, In x l -> f x = Ok x) -> omapM f l = Ok l.
Proof.
  intros H. rewrite <- (map_id l) at 2. now apply omapM_Ok.
Qed.

Lemma foldM_pure {A B} (f : A -> B -> outcome A) (g : A -> B -> A)
    (l : list B) : forall a,
  (forall a x, In x l -> f a x = Ok (g a x)) ->
  foldM f a l = Ok (fold_left g l a).
Proof.
  induction l as [|x l IH]; intros a H; [reflexivity|].
  simpl. rewrite H by now left. simpl. apply IH.
  intros a' y Hy. apply H. now right.
Qed.

Lemma zip_map_r {A B} (f : A -> B) (l : list A) :
  zip l (map f l) = map (fun x => (x, f x)) l.
Proof. induction l as [|x l IH]; simpl; [reflexivity|now rewrite IH]. Qed.

Lemma sumZ_map_le {A} (f g : A -> Z) (l : list A) :
  (forall x, In x l -> f x <= g x) -> sumZ (map f l) <= sumZ (map g l).
Proof.
  induction l as [|x l IH]; intros H; simpl; [lia|].
  pose proof (H x (or_introl eq_refl)).
  specialize (IH (fun y Hy => H y (or_intror Hy))). lia.
Qed.

Lemma zlen_flat_map_sum {A B} (f : A -> list B) (l : list A) :
  zlen (flat_map f l) = sumZ (map (fun x => zlen (f x)) l).
Proof.
  induction l as [|x l IH]; [reflexivity|].
  simpl. rewrite zlen_app, IH. reflexivity.
Qed.

(** Every entry of [run_starts] is the first edge of a run: its key is
    the source of the edge at the position it names. *)
Lemma run_starts_from_spec n (edges : list GlobalEdge.t) :
  forall prev i k x,
    In (k, x) (run_starts_from n prev i edges) ->
    exists j e, 0 <= j < zlen edges /\ ix edges j = Some e
                /\ GlobalEdge.u e = k /\ x = wrap32 (wrap64 (n + (i + j))).
Proof.
  induction edges as [|e edges IH]; intros prev i k x Hin; [destruct Hin|].
  simpl in Hin. apply in_app_or in Hin as [Hin|Hin].
  - destruct (GlobalEdge.u e =? prev); [destruct Hin|].
    destruct Hin as [Hin|[]]. inversion Hin; subst.
    exists 0, e. unfold zlen. simpl length.
    rewrite ix_0, Z.add_0_r. repeat split; lia.
  - destruct (IH _ _ _ _ Hin) as (j & e' & Hj & He' & Hu & Hx).
    exists (j + 1), e'. unfold zlen in *. simpl length.
    rewrite ix_cons by lia. replace (j + 1 - 1) with j by lia.
    repeat split; try lia; auto.
    rewrite Hx. f_equal. f_equal. lia.
Qed.

Lemma run_starts_spec n (edges : list GlobalEdge.t) k x :
  In (k, x) (run_starts n edges) ->
  exists j e, 0 <= j < zlen edges /\ ix edges j = Some e
              /\ GlobalEdge.u e = k /\ x = wrap32 (wrap64 (n + j)).
Proof.
  destruct edges as [|e edges]; [intros []|]. simpl. intros [Hin|Hin].
  - inversion Hin; subst. exists 0, e. unfold zlen. simpl length.
    rewrite ix_0, Z.add_0_r. repeat split; lia.
  - destruct (run_starts_from_spec _ _ _ _ _ _ Hin)
      as (j & e' & Hj & He' & Hu & Hx).
    exists (1 + j), e'. unfold zlen in *. simpl length.
    rewrite ix_cons by lia. replace (1 + j - 1) with j by lia.
    repeat split; try lia; auto.
Qed.

(** The record behind the receive buffer does not look like a received
    edge: its source is not a local index. *)
Definition quiet_past (pe : PE) : Prop :=
  exists s rest, past_local_edges pe = s :: rest
                 /\ ~ (0 <= GlobalEdge.u s < Graph.n (graph pe)).

(** The loops over the blocks of received edges stop inside the
    receive buffer. *)
Definition benign_past (D : list Z) (w : World) (r : Z) (pe : PE) : Prop :=
  received_edge_records D w r = [] \/ quiet_past pe.

Section Buckets.

Variable checked : bool.
Variables (D : list Z) (GC : Z -> Z) (w : World).
Hypothesis Hvalid : valid_world D GC w.
Hypothesis Hsmall : small_world D w.

Lemma zlen_received_edges p :
  zlen (received_edge_records D w p) <= total_edges w.
Proof.
  unfold received_edge_records, total_edges.
  rewrite zlen_flat_map_sum. apply sumZ_map_le. intros pe Hpe.
  destruct (pe_valid D GC w Hvalid pe Hpe) as (r & Hr & Hv).
  pose proof (zlen_sent_edges D GC r pe Hv) as Hle.
  pose proof (filter_length_le (fun e => edge_owner D e =? p) (sent_edges pe)).
  lia.
Qed.

Section OnePE.

Variables (r : Z) (pe : PE).
Hypothesis Hin : ix w r = Some pe.

Local Abbreviation CN := (cn checked w r).

Lemma zlen_ledges :
  zlen (ledges checked D w r) <= total_edges w.
Proof.
  unfold ledges, sorted_edges. rewrite zlen_map. unfold zlen.
  rewrite parallel_sort_length. apply zlen_received_edges.
Qed.

Lemma n_le_total : 0 <= Graph.n (graph pe) <= total_nodes D.
Proof.
  pose proof (vw_pe _ _ _ Hvalid _ _ Hin) as Hpe.
  pose proof (own_range_top D GC w Hvalid r pe Hpe).
  pose proof (Graph.wf_offset _ (vp_wf _ _ _ _ Hpe)).
  pose proof (vp_n_nonneg D GC r pe Hpe). lia.
Qed.

(** The nodes that stay, with their coarse nodes. *)
Definition home_entry (u : Z) : list (Z * Z) :=
  if Graph.is_owned_global_node (graph pe) (cluster_at pe u)
  then [(coarse_local checked D w (cluster_at pe u), u)]
  else [].

Definition home_entries : list (Z * Z) :=
  flat_map home_entry (seqZ 0 (Graph.n (graph pe))).

Definition contributors : list (Z * Z) :=
  home_entries ++ run_starts (Graph.n (graph pe)) (ledges checked D w r).

Definition bucket (c_u : Z) : list Z :=
  rev (map snd (List.filter (fun kv : Z * Z => kv.1 =? c_u) contributors)).

Lemma home_contributor_spec u :
  0 <= u < Graph.n (graph pe) ->
  home_contributor checked (graph pe) (lnode_to_gcluster pe)
                   (lcnode checked w r) CN u
  = Ok (home_entry u).
Proof.
  intros Hu. pose proof (vw_pe _ _ _ Hvalid _ _ Hin) as Hpe.
  pose proof (vp_total D GC r pe Hpe) as Htot.
  pose proof (vp_ghost_n_nonneg D GC r pe Hpe) as Hgn.
  unfold home_contributor, home_entry.
  rewrite (load_cluster D GC r pe Hpe u) by lia. simpl.
  destruct (Graph.is_owned_global_node (graph pe) (cluster_at pe u))
    eqn:Hown; [|reflexivity].
  assert (Hi : inhabited w (cluster_at pe u)).
  { exists r, pe, u. split; [exact Hin|]. split; [lia|reflexivity]. }
  destruct (clocal_owned checked D GC w Hvalid Hsmall r pe Hin _ Hi Hown)
    as (Hr & Heq & Hlc).
  pose proof (proj1 (is_owned_spec D GC r pe Hpe _) Hown) as Hrange.
  pose proof (Graph.wf_total _ (vp_wf _ _ _ _ Hpe)) as Ht.
  destruct (sizes_small checked D GC w Hvalid Hsmall r pe Hin) as (? & ? & ?).
  unfold local_cluster.
  rewrite !wrap64_small by lia. rewrite wrap32_small by lia.
  rewrite (load_Ok _ _ _ Hlc). simpl.
  replace (_ <? CN + 1) with true by (symmetry; apply Z.ltb_lt; lia).
  rewrite KASSERT_true. simpl. now rewrite Heq.
Qed.

Lemma build_node_buckets_spec :
  build_node_buckets checked (graph pe) (lcnode checked w r) CN
                     (ledges checked D w r) (lnode_to_gcluster pe)
  = Ok (map bucket (seqZ 0 CN)).
Proof.
  unfold build_node_buckets.
  rewrite (omapM_Ok _ home_entry).
  2:{ intros u Hu. apply list_elem_of_In, elem_of_seqZ in Hu.
      apply home_contributor_spec. lia. }
  simpl. rewrite omapM_id.
  - simpl. rewrite <- flat_map_concat_map. reflexivity.
  - intros [k x] Hkx. unfold check_bucket. simpl.
    destruct (run_starts_spec _ _ _ _ Hkx) as (j & e & _ & He & <- & _).
    pose proof (Forall_ix _ _ _ _
                  (ledges_sources checked D GC w Hvalid Hsmall r pe Hin) He)
      as Hr.
    cbv beta in Hr.
    destruct (sizes_small checked D GC w Hvalid Hsmall r pe Hin) as (? & ? & ?).
    rewrite wrap64_small by lia.
    replace (0 <=? GlobalEdge.u e) with true
      by (symmetry; apply Z.leb_le; lia).
    replace (GlobalEdge.u e <? CN + 1) with true
      by (symmetry; apply Z.ltb_lt; lia).
    reflexivity.
Qed.

(** What a bucket holds: nodes that stay, and positions of received
    edges shifted by [n]. *)
Lemma bucket_entry c_u x :
  In x (bucket c_u) ->
  (0 <= x < Graph.n (graph pe)
   /\ Graph.is_owned_global_node (graph pe) (cluster_at pe x) = true
   /\ coarse_local checked D w (cluster_at pe x) = c_u)
  \/ (exists j e, 0 <= j < zlen (ledges checked D w r)
                  /\ ix (ledges checked D w r) j = Some e
                  /\ GlobalEdge.u e = c_u
                  /\ x = Graph.n (graph pe) + j
                  /\ x < 2 ^ 32).
Proof.
  intros Hx. unfold bucket in Hx. apply in_rev, in_map_iff in Hx
    as ([k x'] & Hsnd & Hkx). simpl in Hsnd. subst x'.
  apply List.filter_In in Hkx as [Hkx Hk]. simpl in Hk.
  apply Z.eqb_eq in Hk. subst k.
  unfold contributors in Hkx. apply in_app_or in Hkx as [Hh|Hr].
  - left. unfold home_entries in Hh. apply in_flat_map in Hh as (u & Hu & Hh).
    apply list_elem_of_In, elem_of_seqZ in Hu. unfold home_entry in Hh.
    destruct (Graph.is_owned_global_node (graph pe) (cluster_at pe u))
      eqn:Hown; [|destruct Hh].
    destruct Hh as [Hh|[]]. inversion Hh; subst.
    split; [lia|]. split; [exact Hown|reflexivity].
  - right. destruct (run_starts_spec _ _ _ _ Hr) as (j & e & Hj & He & Hu & Hx).
    exists j, e. pose proof zlen_ledges. pose proof n_le_total.
    unfold small_world in Hsmall.
    rewrite wrap64_small, wrap32_small in Hx by lia.
    repeat split; try lia; auto.
Qed.

End OnePE.

End Buckets.

(** ** The edges collected for a coarse node *)

(** The run of edges with source [c_u] at the head of a list. *)
Fixpoint run_of (c_u : Z) (l : list GlobalEdge.t) : list GlobalEdge.t :=
  match l with
  | [] => []
  | e :: l' => if GlobalEdge.u e =? c_u then e :: run_of c_u l' else []
  end.

Lemma run_of_incl c_u l e :
  In e (run_of c_u l) -> In e l /\ GlobalEdge.u e = c_u.
Proof.
  induction l as [|x l IH]; simpl; [intros []|].
  destruct (Z.eqb_spec (GlobalEdge.u x) c_u) as [Heq|]; [|intros []].
  intros [<-|He]; [auto|]. destruct (IH He). auto.
Qed.

Section Collect.

Variable checked : bool.
Variables (D : list Z) (GC : Z -> Z) (w : World).
Hypothesis Hvalid : valid_world D GC w.
Hypothesis Hsmall : small_world D w.

Section OnePE.

Variables (r : Z) (pe : PE).
Hypothesis Hin : ix w r = Some pe.
Hypothesis Hbenign : benign_past D w r pe.

Local Abbreviation CN := (cn checked w r).
Local Abbreviation LE := (ledges checked D w r).
Local Abbreviation CTX := (ctx checked D w r pe).
Local Abbreviation CL := (clocal checked D w r pe).

Definition pure_neighbor (c_u : Z) (map : RatingMap) (ev : Z * Z)
  : RatingMap :=
  add_unless_loop c_u map (CL (cluster_at pe ev.2))
                  (weight_of_edge (graph pe) ev.1).

Definition pure_edge (c_u : Z) (map : RatingMap) (e : GlobalEdge.t)
  : RatingMap :=
  add_unless_loop c_u map (CL (GlobalEdge.v e)) (GlobalEdge.weight e).

Definition run_at (c_u i : Z) : list GlobalEdge.t :=
  run_of c_u (drop (Z.to_nat i) LE).

Definition pure_contributor (c_u : Z) (st : Z * RatingMap) (x : Z)
  : Z * RatingMap :=
  if x <? Graph.n (graph pe) then
    (wadd st.1 (weight_of_node (graph pe) x),
     fold_left (pure_neighbor c_u) (adjacency (graph pe) x) st.2)
  else
    (st.1, fold_left (pure_edge c_u) (run_at c_u (x - Graph.n (graph pe))) st.2).

Definition pure_collect (c_u : Z) : Z * RatingMap :=
  fold_left (pure_contributor c_u) (bucket checked D w r pe c_u) (0, []).

Lemma handle_neighbor_spec c_u map u ev :
  0 <= u < Graph.n (graph pe) ->
  Graph.is_owned_global_node (graph pe) (cluster_at pe u) = true ->
  In ev (adjacency (graph pe) u) ->
  handle_neighbor checked CTX c_u map ev = Ok (pure_neighbor c_u map ev).
Proof.
  intros Hu Hown Hev. pose proof (vw_pe _ _ _ Hvalid _ _ Hin) as Hpe.
  destruct (neighbors_spec D GC r pe Hpe u Hu) as [_ Hadj].
  rewrite Forall_forall in Hadj.
  destruct (Hadj ev) as (He & Hv & _); [now apply list_elem_of_In|].
  destruct (requests_spec checked D GC w Hvalid Hsmall r pe Hin)
    as (_ & _ & _ & _ & Hcov & _).
  unfold handle_neighbor. simpl.
  rewrite (edge_weight_spec D GC r pe Hpe ev.1 He). simpl.
  rewrite (load_cluster D GC r pe Hpe ev.2 Hv). simpl.
  apply (handle_edge_spec checked D GC w Hvalid Hsmall r pe Hin); auto.
  - exists r, pe, ev.2. auto.
  - now apply (Hcov u).
Qed.

Lemma ledges_targets e :
  In e LE ->
  inhabited w (GlobalEdge.v e)
  /\ covered pe (request_state checked w r) (GlobalEdge.v e).
Proof.
  intros He. unfold ledges in He. apply in_map_iff in He as (e0 & <- & He0).
  pose proof (sorted_edges_spec checked D GC w Hvalid Hsmall r pe Hin) as H.
  rewrite Forall_forall in H.
  destruct (H e0) as (_ & _ & Hv & Hcov); [now apply list_elem_of_In|].
  simpl. auto.
Qed.

Lemma received_block_spec c_u :
  quiet_past pe -> 0 <= c_u < CN ->
  forall rest pre fuel map,
    LE = pre ++ rest -> (length rest < fuel)%nat ->
    received_block checked fuel CTX c_u map (zlen pre)
    = Ok (fold_left (pure_edge c_u) (run_of c_u rest) map).
Proof.
  intros (s & past & Hpast & Hs) Hcu.
  pose proof (vw_pe _ _ _ Hvalid _ _ Hin) as Hpe.
  pose proof (cn_range checked D GC w Hvalid Hsmall r pe Hpe Hin) as Hcn.
  induction rest as [|e rest IH]; intros pre fuel map Hle Hfuel;
    (destruct fuel as [|fuel]; [simpl in Hfuel; lia|]); simpl.
  - rewrite Hle, Hpast, app_nil_r.
    rewrite (load_Ok _ _ s).
    2:{ rewrite ix_app_r, Z.sub_diag by lia. apply ix_0. }
    simpl.
    destruct (Z.eqb_spec (GlobalEdge.u s) c_u) as [Heq|]; [lia|reflexivity].
  - rewrite (load_Ok _ _ e).
    2:{ rewrite Hle, <- app_assoc.
        rewrite ix_app_r, Z.sub_diag by lia. apply ix_0. }
    simpl.
    destruct (Z.eqb_spec (GlobalEdge.u e) c_u) as [Heq|]; [|reflexivity].
    destruct (ledges_targets e) as (Hv & Hcov).
    { rewrite Hle. apply in_or_app. right. now left. }
    rewrite (handle_edge_spec checked D GC w Hvalid Hsmall r pe Hin
               c_u map _ _ Hv Hcov). simpl.
    pose proof (zlen_ledges checked D GC w Hvalid r) as Hlen.
    rewrite Hle, zlen_app in Hlen.
    pose proof (zlen_nonneg pre). pose proof (zlen_nonneg (e :: rest)).
    assert (total_edges w < 2 ^ 32).
    { pose proof (total_nodes_nonneg D GC w Hvalid).
      unfold small_world in Hsmall. lia. }
    unfold zlen in *. simpl length in *.
    rewrite wrap64_small by lia.
    replace (Z.of_nat (length pre) + 1)
      with (Z.of_nat (length (pre ++ [e])))
      by (rewrite length_app; simpl; lia).
    apply (IH (pre ++ [e])).
    + now rewrite <- app_assoc.
    + simpl in Hfuel. lia.
Qed.

Local Arguments received_block : simpl never.

Lemma collect_contributor_spec c_u st x :
  0 <= c_u < CN -> In x (bucket checked D w r pe c_u) ->
  collect_contributor checked CTX c_u st x = Ok (pure_contributor c_u st x).
Proof.
  intros Hcu Hx. pose proof (vw_pe _ _ _ Hvalid _ _ Hin) as Hpe.
  pose proof (vp_total D GC r pe Hpe) as Htot.
  pose proof (vp_ghost_n_nonneg D GC r pe Hpe) as Hgn.
  pose proof (vp_n_nonneg D GC r pe Hpe) as Hn.
  unfold collect_contributor, pure_contributor. simpl.
  destruct (bucket_entry checked D GC w Hvalid Hsmall r pe Hin c_u x Hx)
    as [(Hu & Hown & Hc)|(j & e & Hj & He & Heu & -> & Hsm)].
  - replace (x <? Graph.n (graph pe)) with true
      by (symmetry; apply Z.ltb_lt; lia).
    rewrite (node_weight_spec D GC r pe Hpe x) by lia. simpl.
    destruct (neighbors_spec D GC r pe Hpe x Hu) as [-> _]. simpl.
    rewrite (foldM_pure _ (pure_neighbor c_u)); [reflexivity|].
    intros map ev Hev. now apply (handle_neighbor_spec c_u map x).
  - replace (Graph.n (graph pe) + j <? Graph.n (graph pe)) with false
      by (symmetry; apply Z.ltb_ge; lia).
    replace (Graph.n (graph pe) + j - Graph.n (graph pe)) with j by lia.
    rewrite wrap32_small, wrap64_small by lia.
    assert (Hq : quiet_past pe).
    { destruct Hbenign as [Hnil|Hq]; [|exact Hq].
      exfalso. apply ix_In in He. unfold ledges, sorted_edges in He.
      apply in_map_iff in He as (e0 & _ & He0).
      apply list_elem_of_In in He0.
      rewrite (parallel_sort_Permutation source_less), Hnil in He0.
      inversion He0. }
    assert (Hlen : zlen (take (Z.to_nat j) LE) = j).
    { unfold zlen in *. rewrite length_take. lia. }
    assert (Hfuel : (length (drop (Z.to_nat j) LE)
                     < S (length (LE ++ past_local_edges pe)))%nat).
    { rewrite length_drop, length_app. lia. }
    pose proof (received_block_spec c_u Hq Hcu (drop (Z.to_nat j) LE)
                  (take (Z.to_nat j) LE) _ st.2
                  (eq_sym (take_drop _ _)) Hfuel) as E.
    rewrite Hlen in E. rewrite E. reflexivity.
Qed.

Lemma collected_spec :
  collected checked w r = Ok (map pure_collect (seqZ 0 CN)).
Proof.
  pose proof (vw_pe _ _ _ Hvalid _ _ Hin) as Hpe.
  unfold collected. rewrite (load_Ok _ _ _ Hin). simpl.
  rewrite (edge_context_spec checked D GC w Hvalid Hsmall r pe Hin). simpl.
  erewrite c_n_spec by side. simpl.
  rewrite (localized_edges_spec checked D GC w Hvalid Hsmall r pe Hin). simpl.
  rewrite (build_node_buckets_spec checked D GC w Hvalid Hsmall r pe Hin).
  simpl. rewrite zip_map_r.
  rewrite <- (map_map (fun c_u => (c_u, bucket checked D w r pe c_u))
                      (fun cb : Z * list Z => pure_collect cb.1)).
  apply omapM_Ok. intros [c_u b] Hcb.
  apply in_map_iff in Hcb as (c & Hc & Hcr). inversion Hc; subst.
  apply list_elem_of_In, elem_of_seqZ in Hcr.
  unfold collect_edges, pure_collect. simpl.
  apply foldM_pure. intros st x Hx.
  apply collect_contributor_spec; [lia|exact Hx].
Qed.

End OnePE.

End Collect.

(** ** The coarse node weights *)

Lemma set_weight_Ok (ws : list Z) (i v : Z) :
  0 <= i < zlen ws -> set_weight ws (i, v) = Ok (<[Z.to_nat i := v]> ws).
Proof. intros H. unfold set_weight. simpl. now apply store_Ok. Qed.

Lemma set_weight_loop (vals : list Z) : forall (pre : list Z) (k : nat),
  foldM set_weight (pre ++ replicate (length vals + k) 0)
        (zip (seqZ (zlen pre) (zlen vals)) vals)
  = Ok (pre ++ vals ++ replicate k 0).
Proof.
  induction vals as [|v vals IH]; intros pre k; [reflexivity|].
  unfold zlen. simpl length.
  replace (Z.of_nat (S (length vals))) with (Z.succ (Z.of_nat (length vals)))
    by lia.
  rewrite seqZ_cons by lia. rewrite Z.pred_succ. simpl.
  rewrite set_weight_Ok.
  2:{ rewrite zlen_app. unfold zlen. simpl length. lia. }
  simpl. rewrite Nat2Z.id.
  rewrite insert_app_r_alt, Nat.sub_diag by lia. simpl.
  replace (pre ++ v :: replicate (length vals + k) 0)
    with ((pre ++ [v]) ++ replicate (length vals + k) 0)
    by now rewrite <- app_assoc.
  replace (Z.succ (Z.of_nat (length pre))) with (zlen (pre ++ [v]))
    by (unfold zlen; rewrite length_app; simpl; lia).
  fold (zlen vals). rewrite IH. now rewrite <- app_assoc.
Qed.

Section NodeWeights.

Variable checked : bool.
Variables (D : list Z) (GC : Z -> Z) (w : World).
Hypothesis Hvalid : valid_world D GC w.
Hypothesis Hsmall : small_world D w.

Section OnePE.

Variables (r : Z) (pe : PE).
Hypothesis Hin : ix w r = Some pe.
Hypothesis Hbenign : benign_past D w r pe.

Local Abbreviation CN := (cn checked w r).
Local Abbreviation GN := (ghosts_n checked w r).

(** [c_node_weights] before the weights of the received nodes are
    added. *)
Definition home_weights : list Z :=
  map (fun c_u => (pure_collect checked D w r pe c_u).1) (seqZ 0 CN)
  ++ replicate (Z.to_nat GN) 0.

(** One received node record is added to its coarse node. *)
Definition integrate (ws : list Z) (nd : GlobalNode.t) : list Z :=
  <[Z.to_nat (coarse_local checked D w (GlobalNode.u nd)) :=
      wadd (default 0 (ix ws (coarse_local checked D w (GlobalNode.u nd))))
           (GlobalNode.weight nd)]> ws.

Definition cweights : list Z :=
  fold_left integrate (received_nodes D w r) home_weights.

Lemma zlen_home_weights : zlen home_weights = CN + GN.
Proof.
  destruct (sizes_small checked D GC w Hvalid Hsmall r pe Hin) as (? & ? & ?).
  unfold home_weights.
  rewrite zlen_app, zlen_map, zlen_seqZ, zlen_replicate; lia.
Qed.

Lemma zlen_integrate ws nd : zlen (integrate ws nd) = zlen ws.
Proof. unfold integrate. apply zlen_insert. Qed.

Lemma zlen_fold_integrate nodes : forall ws,
  zlen (fold_left integrate nodes ws) = zlen ws.
Proof.
  induction nodes as [|nd nodes IH]; intros ws; [reflexivity|].
  simpl. now rewrite IH, zlen_integrate.
Qed.

Lemma zlen_cweights : zlen cweights = CN + GN.
Proof. unfold cweights. now rewrite zlen_fold_integrate, zlen_home_weights. Qed.

Lemma integrate_node_spec ws nd :
  zlen ws = CN + GN -> In nd (received_nodes D w r) ->
  integrate_node (graph pe) (lcnode checked w r) ws nd = Ok (integrate ws nd).
Proof.
  intros Hlen Hnd. pose proof (vw_pe _ _ _ Hvalid _ _ Hin) as Hpe.
  pose proof (received_nodes_inhabited D GC w Hvalid r) as H.
  rewrite Forall_forall in H.
  destruct (H nd) as (Hi & Hc & Ho); [now apply list_elem_of_In|].
  destruct (inhabited_nonempty D GC w Hvalid _ r pe Hi Hin Ho)
    as (_ & Hr & _).
  rewrite (local_index_owner D GC r pe _ Hpe Ho) in Hr.
  destruct (coarse_local_spec checked D GC w Hvalid Hsmall _ r pe Hi Hin Ho)
    as (Hlc & Hrange).
  destruct (sizes_small checked D GC w Hvalid Hsmall r pe Hin) as (? & ? & ?).
  pose proof (Graph.wf_total _ (vp_wf _ _ _ _ Hpe)) as Ht.
  pose proof (vp_ghost_n_nonneg D GC r pe Hpe) as Hgn.
  unfold integrate_node, integrate.
  rewrite wrap64_small by lia. rewrite (load_Ok _ _ _ Hlc). simpl.
  destruct (ix_in_range ws (coarse_local checked D w (GlobalNode.u nd)))
    as [old Hold]; [lia|].
  rewrite (load_Ok _ _ _ Hold), Hold. simpl.
  apply store_Ok. lia.
Qed.

Lemma c_node_weights_spec : c_node_weights checked w r = Ok cweights.
Proof.
  pose proof (vw_pe _ _ _ Hvalid _ _ Hin) as Hpe.
  pose proof (rank_range w r pe Hin) as Hr.
  destruct (sizes_small checked D GC w Hvalid Hsmall r pe Hin) as (? & ? & ?).
  unfold c_node_weights. rewrite (load_Ok _ _ _ Hin). simpl.
  erewrite c_n_spec by side. simpl.
  erewrite c_ghost_n_spec by side. simpl.
  destruct (lnode_to_lcnode_props checked D GC w Hvalid Hsmall r pe Hpe Hin)
    as (-> & _). simpl.
  erewrite local_nodes_spec by side. simpl.
  rewrite (collected_spec checked D GC w Hvalid Hsmall r pe Hin Hbenign).
  simpl. rewrite wrap32_small by lia. rewrite map_map.
  set (vals := map (fun c_u => (pure_collect checked D w r pe c_u).1)
                   (seqZ 0 CN)).
  assert (Hvals : zlen vals = CN).
  { unfold vals. rewrite zlen_map, zlen_seqZ; lia. }
  pose proof (set_weight_loop vals [] (Z.to_nat GN)) as E.
  simpl in E. change (zlen []) with 0 in E. rewrite Hvals in E.
  replace (Z.to_nat (CN + GN)) with (length vals + Z.to_nat GN)%nat
    by (unfold zlen in Hvals; lia).
  rewrite E. simpl. fold home_weights.
  unfold cweights.
  assert (Hgen : forall nodes ws,
            zlen ws = CN + GN ->
            (forall nd, In nd nodes -> In nd (received_nodes D w r)) ->
            foldM (integrate_node (graph pe) (lcnode checked w r)) ws nodes
            = Ok (fold_left integrate nodes ws)).
  { induction nodes as [|nd nodes IH]; intros ws Hlen Hsub; [reflexivity|].
    simpl. rewrite integrate_node_spec by (auto; apply Hsub; now left).
    simpl. apply IH; [now rewrite zlen_integrate|].
    intros nd' Hnd'. apply Hsub. now right. }
  apply Hgen; [apply zlen_home_weights|auto].
Qed.

End OnePE.

End NodeWeights.

(** ** The coarse edges *)

Lemma fold_left_invariant {A B} (f : A -> B -> A) (P : A -> Prop)
    (l : list B) : forall a,
  P a -> (forall a x, In x l -> P a -> P (f a x)) -> P (fold_left f l a).
Proof.
  induction l as [|x l IH]; intros a Ha H; [exact Ha|].
  simpl. apply IH.
  - apply H; [now left|exact Ha].
  - intros a' y Hy. apply H. now right.
Qed.

Lemma rating_add_keys (P : Z -> Prop) (map : RatingMap) key weight :
  Forall (fun kv : Z * Z => P kv.1) map -> P key ->
  Forall (fun kv : Z * Z => P kv.1) (rating_add map key weight).
Proof.
  intros Hmap Hkey. induction Hmap as [|[k x] map Hk Hmap IH]; simpl.
  - repeat constructor. exact Hkey.
  - destruct (k =? key); constructor; auto.
Qed.

Lemma add_unless_loop_keys (P : Z -> Prop) c_u (map : RatingMap) key weight :
  Forall (fun kv : Z * Z => P kv.1) map -> (key <> c_u -> P key) ->
  Forall (fun kv : Z * Z => P kv.1) (add_unless_loop c_u map key weight).
Proof.
  intros Hmap Hkey. unfold add_unless_loop.
  destruct (Z.eqb_spec key c_u); [exact Hmap|].
  apply rating_add_keys; auto.
Qed.

Lemma In_drop {A} (k : nat) (l : list A) x : In x (drop k l) -> In x l.
Proof.
  intros H. rewrite <- (take_drop k l). apply in_or_app. now right.
Qed.

Lemma length_prefix_sum_from bits acc l :
  length (prefix_sum_from bits acc l) = length l.
Proof. revert acc. induction l; intros; simpl; auto. Qed.

Section CoarseEdges.

Variable checked : bool.
Variables (D : list Z) (GC : Z -> Z) (w : World).
Hypothesis Hvalid : valid_world D GC w.
Hypothesis Hsmall : small_world D w.

Section OnePE.

Variables (r : Z) (pe : PE).
Hypothesis Hin : ix w r = Some pe.

Local Abbreviation CN := (cn checked w r).
Local Abbreviation GN := (ghosts_n checked w r).
Local Abbreviation GG := (ghost_globals checked D w r).
Local Abbreviation CL := (clocal checked D w r pe).

(** A target of a coarse edge of [c_u]: another coarse node of the
    process, or a coarse ghost that stands for a coarse node of another
    process. *)
Definition good_key (c_u k : Z) : Prop :=
  k <> c_u
  /\ (0 <= k < CN
      \/ (CN <= k < CN + GN
          /\ exists c, inhabited w c /\ owner_of D c <> r
                       /\ ix GG (k - CN) = Some (coarse_id checked D w c))).

Lemma clocal_good c_u c :
  inhabited w c -> covered pe (request_state checked w r) c ->
  CL c <> c_u -> good_key c_u (CL c).
Proof.
  intros Hc Hcov Hne. pose proof (vw_pe _ _ _ Hvalid _ _ Hin) as Hpe.
  split; [exact Hne|].
  destruct (Graph.is_owned_global_node (graph pe) c) eqn:Hown.
  - left. apply (clocal_owned checked D GC w Hvalid Hsmall r pe Hin c Hc Hown).
  - right.
    destruct (clocal_ghost checked D GC w Hvalid Hsmall r pe Hin c Hc Hcov Hown)
      as (Hr & Hg & _).
    split; [exact Hr|]. exists c. split; [exact Hc|]. split; [|exact Hg].
    eapply is_owned_false; [exact Hvalid|exact Hpe|exact Hin| |exact Hown].
    now apply (inhabited_valid D GC w Hvalid).
Qed.

Lemma pure_collect_keys c_u :
  0 <= c_u < CN ->
  Forall (fun kv : Z * Z => good_key c_u kv.1)
         (pure_collect checked D w r pe c_u).2.
Proof.
  intros Hcu. pose proof (vw_pe _ _ _ Hvalid _ _ Hin) as Hpe.
  destruct (requests_spec checked D GC w Hvalid Hsmall r pe Hin)
    as (_ & _ & _ & _ & Hcov & _).
  unfold pure_collect.
  apply (fold_left_invariant _
           (fun st => Forall (fun kv : Z * Z => good_key c_u kv.1) st.2)).
  { constructor. }
  intros st x Hx Hst. unfold pure_contributor.
  destruct (bucket_entry checked D GC w Hvalid Hsmall r pe Hin c_u x Hx)
    as [(Hu & Hown & _)|(j & e & Hj & He & Heu & -> & Hsm)].
  - replace (x <? Graph.n (graph pe)) with true
      by (symmetry; apply Z.ltb_lt; lia).
    simpl. apply fold_left_invariant; [exact Hst|].
    intros map ev Hev Hmap. unfold pure_neighbor.
    apply add_unless_loop_keys; [exact Hmap|].
    destruct (neighbors_spec D GC r pe Hpe x Hu) as [_ Hadj].
    rewrite Forall_forall in Hadj.
    destruct (Hadj ev) as (_ & Hv & _); [now apply list_elem_of_In|].
    apply clocal_good.
    + exists r, pe, ev.2. auto.
    + now apply (Hcov x).
  - replace (Graph.n (graph pe) + j <? Graph.n (graph pe)) with false
      by (symmetry; apply Z.ltb_ge; lia).
    simpl. apply fold_left_invariant; [exact Hst|].
    intros map e' He' Hmap. unfold pure_edge.
    apply add_unless_loop_keys; [exact Hmap|].
    unfold run_at in He'. apply run_of_incl in He' as [He' _].
    apply In_drop in He'.
    destruct (ledges_targets checked D GC w Hvalid Hsmall r pe Hin e' He')
      as (Hv & Hc).
    now apply clocal_good.
Qed.

(** The arrays of the coarse graph. *)
Definition ccollected : list (Z * RatingMap) :=
  map (pure_collect checked D w r pe) (seqZ 0 CN).

Definition cnodes : list Z :=
  prefix_sum 32 (0 :: map (fun c : Z * RatingMap => zlen c.2) ccollected).

Definition cedges : list Z :=
  concat (map (fun c : Z * RatingMap => map fst c.2) ccollected).

Definition cedge_weights : list Z :=
  concat (map (fun c : Z * RatingMap => map snd c.2) ccollected).

Lemma zlen_ccollected : zlen ccollected = CN.
Proof.
  pose proof (vw_pe _ _ _ Hvalid _ _ Hin) as Hpe.
  pose proof (cn_range checked D GC w Hvalid Hsmall r pe Hpe Hin).
  unfold ccollected. rewrite zlen_map, zlen_seqZ; lia.
Qed.

Lemma zlen_cnodes : zlen cnodes = CN + 1.
Proof.
  unfold cnodes, prefix_sum, zlen. rewrite length_prefix_sum_from.
  simpl length. rewrite length_map.
  pose proof zlen_ccollected as H. unfold zlen in H. lia.
Qed.

Section Benign.

Hypothesis Hbenign : benign_past D w r pe.

Lemma c_nodes_spec : c_nodes checked w r = Ok cnodes.
Proof.
  unfold c_nodes.
  now rewrite (collected_spec checked D GC w Hvalid Hsmall r pe Hin Hbenign).
Qed.

Lemma c_m_total : exists m, c_m checked w r = Ok m.
Proof.
  unfold c_m. rewrite c_nodes_spec, bind_Ok_l.
  destruct (back cnodes) as [b|] eqn:E; [eexists; reflexivity|].
  unfold back in E. apply last_None in E.
  pose proof zlen_cnodes as H. rewrite E in H.
  pose proof (vw_pe _ _ _ Hvalid _ _ Hin) as Hpe.
  pose proof (cn_range checked D GC w Hvalid Hsmall r pe Hpe Hin).
  change (zlen []) with 0 in H. lia.
Qed.

End Benign.

End OnePE.

Hypothesis Hbenign_all :
  forall q peq, ix w q = Some peq -> benign_past D w q peq.

Definition cedist : list Z := value (c_edge_distribution checked w) [].

Lemma c_edge_distribution_spec : c_edge_distribution checked w = Ok cedist.
Proof.
  unfold cedist.
  destruct (omapM_exists (c_m checked w) (fun _ _ => True) (ranks w))
    as (counts & E & _).
  { intros q Hq. apply (In_rank w) in Hq.
    destruct (rank_pe D GC w Hvalid q Hq) as (peq & Hinq & _).
    destruct (c_m_total q peq Hinq (Hbenign_all q peq Hinq)) as [m Hm].
    eauto. }
  unfold c_edge_distribution. rewrite E. reflexivity.
Qed.

(** The coarse graph before the ghost weights are synchronized. *)
Definition cgraph (r : Z) (pe : PE) : Graph.t :=
  Graph.make (cdist checked w) cedist (cnodes r pe) (cedges r pe)
             (cweights checked D w r pe) (cedge_weights r pe)
             (ghost_owners checked D w r) (ghost_globals checked D w r)
             (c_global_to_ghost (cghosts checked w r)) false r.

Lemma coarse_graph_spec r pe :
  ix w r = Some pe -> coarse_graph checked w r = Ok (cgraph r pe).
Proof.
  intros Hin. pose proof (vw_pe _ _ _ Hvalid _ _ Hin) as Hpe.
  pose proof (Hbenign_all r pe Hin) as Hb.
  unfold coarse_graph. rewrite (load_Ok _ _ _ Hin). simpl.
  destruct (c_node_distribution_spec checked D GC w Hvalid Hsmall) as (-> & _).
  simpl. rewrite c_edge_distribution_spec. simpl.
  rewrite (c_nodes_spec r pe Hin Hb). simpl.
  unfold c_edges, c_edge_weights.
  rewrite (collected_spec checked D GC w Hvalid Hsmall r pe Hin Hb). simpl.
  rewrite (c_node_weights_spec checked D GC w Hvalid Hsmall r pe Hin Hb).
  simpl.
  destruct (coarse_ghosts_spec checked D GC w Hvalid Hsmall r pe Hin)
    as (Egh & Eg & Eo & _).
  rewrite Egh. simpl. rewrite Eg, Eo, (vp_rank _ _ _ _ Hpe). reflexivity.
Qed.

Lemma cgraph_sizes r pe :
  ix w r = Some pe ->
  Graph.n (cgraph r pe) = cn checked w r
  /\ Graph.ghost_n (cgraph r pe) = ghosts_n checked w r
  /\ Graph.total_n (cgraph r pe) = cn checked w r + ghosts_n checked w r
  /\ Graph.offset_n (cgraph r pe) = coarse_offset checked w r.
Proof.
  intros Hin.
  destruct (sizes_small checked D GC w Hvalid Hsmall r pe Hin) as (? & ? & ?).
  pose proof (rank_range w r pe Hin) as Hr.
  assert (En : Graph.n (cgraph r pe) = cn checked w r).
  { unfold Graph.n, cgraph. simpl. rewrite (zlen_cnodes r pe Hin).
    replace (cn checked w r + 1 - 1) with (cn checked w r) by lia.
    rewrite wrap64_small, wrap32_small; lia. }
  assert (Eg : Graph.ghost_n (cgraph r pe) = ghosts_n checked w r).
  { unfold Graph.ghost_n, cgraph. simpl. unfold ghost_globals.
    rewrite zlen_map, zlen_requested. apply wrap32_small. lia. }
  split; [exact En|]. split; [exact Eg|]. split.
  - unfold Graph.total_n. rewrite En, Eg. rewrite wrap32_small; lia.
  - unfold Graph.offset_n, cgraph. simpl.
    now rewrite (ix_cdist checked D GC w Hvalid Hsmall r ltac:(lia)).
Qed.

(** The global identifiers of the coarse local nodes. *)
Lemma cgraph_global_owned r pe c_u :
  ix w r = Some pe -> 0 <= c_u < cn checked w r ->
  Graph.local_to_global_node checked (cgraph r pe) c_u
  = Ok (coarse_offset checked w r + c_u).
Proof.
  intros Hin Hcu.
  destruct (cgraph_sizes r pe Hin) as (Hn & Hg & Ht & Ho).
  destruct (sizes_small checked D GC w Hvalid Hsmall r pe Hin) as (? & ? & ?).
  pose proof (rank_range w r pe Hin) as Hr.
  pose proof (coarse_offset_nonneg checked D GC w Hvalid Hsmall r ltac:(lia)).
  pose proof (coarse_offset_mono checked D GC w Hvalid Hsmall r (comm_size w)
                ltac:(lia) ltac:(lia)).
  pose proof (coarse_total_small checked D GC w Hvalid Hsmall).
  unfold Graph.local_to_global_node, Graph.contains_local_node,
    Graph.is_owned_node.
  rewrite Ht, Hn. fold (Graph.offset_n (cgraph r pe)). rewrite Ho.
  replace (c_u <? cn checked w r + ghosts_n checked w r) with true
    by (symmetry; apply Z.ltb_lt; lia).
  rewrite KASSERT_true. simpl.
  replace (c_u <? cn checked w r) with true
    by (symmetry; apply Z.ltb_lt; lia).
  f_equal. apply wrap64_small. lia.
Qed.

Lemma cgraph_global_ghost r pe c_v g :
  ix w r = Some pe ->
  cn checked w r <= c_v < cn checked w r + ghosts_n checked w r ->
  ix (ghost_globals checked D w r) (c_v - cn checked w r) = Some g ->
  Graph.local_to_global_node checked (cgraph r pe) c_v = Ok g.
Proof.
  intros Hin Hcv Hg.
  destruct (cgraph_sizes r pe Hin) as (Hn & Hgn & Ht & Ho).
  destruct (sizes_small checked D GC w Hvalid Hsmall r pe Hin) as (? & ? & ?).
  unfold Graph.local_to_global_node, Graph.contains_local_node,
    Graph.is_owned_node.
  rewrite Ht, Hn.
  replace (c_v <? cn checked w r + ghosts_n checked w r) with true
    by (symmetry; apply Z.ltb_lt; lia).
  rewrite KASSERT_true. simpl.
  replace (c_v <? cn checked w r) with false
    by (symmetry; apply Z.ltb_ge; lia).
  rewrite wrap32_small by lia.
  change (Graph._ghost_to_global (cgraph r pe))
    with (ghost_globals checked D w r).
  now rewrite Hg.
Qed.

(** A coarse node of another process is none of the coarse nodes of the
    process. *)
Lemma remote_coarse_id r pe c c_u :
  ix w r = Some pe -> inhabited w c -> owner_of D c <> r ->
  0 <= c_u < cn checked w r ->
  coarse_id checked D w c <> coarse_offset checked w r + c_u.
Proof.
  intros Hin Hc Hne Hcu. pose proof (rank_range w r pe Hin) as Hr.
  destruct (coarse_id_range checked D GC w Hvalid Hsmall c Hc)
    as (Hlo & Hhi & _).
  pose proof (inhabited_valid D GC w Hvalid c Hc) as Hv.
  destruct (owner_of_spec D GC w Hvalid c Hv) as (Ho & _).
  pose proof (coarse_offset_succ checked w r Hr) as Hs.
  destruct (Z.lt_ge_cases (owner_of D c) r).
  - pose proof (coarse_offset_mono checked D GC w Hvalid Hsmall
                  (owner_of D c + 1) r ltac:(lia) ltac:(lia)). lia.
  - pose proof (coarse_offset_mono checked D GC w Hvalid Hsmall
                  (r + 1) (owner_of D c) ltac:(lia) ltac:(lia)). lia.
Qed.

End CoarseEdges.

(** ** Phase H changes node weights only *)

(** [g'] is [g] with other node weights. *)
Definition same_structure (g g' : Graph.t) : Prop :=
  exists ws, g' = Graph.with_node_weights g ws.

Lemma same_structure_refl g : same_structure g g.
Proof. exists (Graph._node_weights g). now destruct g. Qed.

Lemma same_structure_trans g1 g2 g3 :
  same_structure g1 g2 -> same_structure g2 g3 -> same_structure g1 g3.
Proof. intros [ws1 ->] [ws2 ->]. exists ws2. reflexivity. Qed.

Lemma set_ghost_node_weight_structure checked g u weight g' :
  Graph.set_ghost_node_weight checked g u weight = Ok g' ->
  same_structure g g'.
Proof.
  unfold Graph.set_ghost_node_weight. intros E.
  apply bind_inv in E as (b & _ & E).
  apply bind_inv in E as (? & _ & E).
  apply bind_inv in E as (? & _ & E).
  destruct (_ && _); [|discriminate].
  inversion E. eexists. reflexivity.
Qed.

Lemma receive_weight_structure checked pe g msg g' :
  receive_weight checked pe g msg = Ok g' -> same_structure g g'.
Proof.
  unfold receive_weight. intros E.
  apply bind_inv in E as (off & _ & E).
  apply bind_inv in E as (l & _ & E).
  eapply set_ghost_node_weight_structure, E.
Qed.

Lemma update_ghost_node_weights_structure checked g received g' :
  update_ghost_node_weights checked g received = Ok g' ->
  same_structure g g'.
Proof.
  unfold update_ghost_node_weights. intros E.
  apply (foldM_invariant _ (same_structure g) _ _ _ E).
  - apply same_structure_refl.
  - intros g1 buf g2 _ H1 E2.
    apply (same_structure_trans _ _ _ H1).
    apply (foldM_invariant _ (same_structure g1) _ _ _ E2).
    + apply same_structure_refl.
    + intros g3 msg g4 _ H3 E4.
      apply (same_structure_trans _ _ _ H3).
      eapply receive_weight_structure, E4.
Qed.

Lemma contract_clustering_structure checked w r c_graph M :
  contract_clustering checked w r = Ok (c_graph, M) ->
  exists cg, coarse_graph checked w r = Ok cg /\ same_structure cg c_graph.
Proof.
  unfold contract_clustering. intros E.
  apply bind_inv in E as (cg & Ecg & E).
  apply bind_inv in E as (rcv & _ & E).
  apply bind_inv in E as (g2 & Eg2 & E).
  apply bind_inv in E as (M' & _ & E).
  inversion E; subst. exists cg. split; [exact Ecg|].
  eapply update_ghost_node_weights_structure, Eg2.
Qed.

Lemma path_world_benign q peq :
  ix (Examples.path_world [Examples.no_edge]) q = Some peq ->
  benign_past [0; 1; 3] (Examples.path_world [Examples.no_edge]) q peq.
Proof.
  intros Hq. right. pose proof (ix_Some_range _ _ _ Hq) as Hrange.
  change (zlen (Examples.path_world [Examples.no_edge])) with 2 in Hrange.
  assert (q = 0 \/ q = 1) as [-> | ->] by lia; inversion Hq;
    exists Examples.no_edge, []; (split; [reflexivity|]);
    vm_compute; intros [_ H]; discriminate.
Qed.

(** ** Sums of node weights *)

Lemma sumZ_Permutation l l' : l ≡ₚ l' -> sumZ l = sumZ l'.
Proof. induction 1; simpl; lia. Qed.

Lemma sumZ_rev l : sumZ (rev l) = sumZ l.
Proof. apply sumZ_Permutation. symmetry. apply Permutation_rev. Qed.

Lemma sumZ_map_add {A} (f g : A -> Z) (l : list A) :
  sumZ (map (fun x => f x + g x) l) = sumZ (map f l) + sumZ (map g l).
Proof. induction l; simpl; lia. Qed.

Lemma sumZ_map_zero {A} (f : A -> Z) (l : list A) :
  (forall x, In x l -> f x = 0) -> sumZ (map f l) = 0.
Proof.
  induction l as [|x l IH]; intros H; [reflexivity|]. simpl.
  rewrite (H x) by now left. rewrite IH; [lia|].
  intros y Hy. apply H. now right.
Qed.

Lemma sumZ_flat_map {A B} (f : B -> Z) (h : A -> list B) (l : list A) :
  sumZ (map f (flat_map h l)) = sumZ (map (fun x => sumZ (map f (h x))) l).
Proof.
  induction l as [|x l IH]; [reflexivity|].
  simpl. rewrite map_app, sumZ_app, IH. reflexivity.
Qed.

(** Exchange of two sums. *)
Lemma sumZ_exchange {A B} (g : A -> B -> Z) (l : list A) (k : list B) :
  sumZ (map (fun x => sumZ (map (g x) k)) l)
  = sumZ (map (fun y => sumZ (map (fun x => g x y) l)) k).
Proof.
  induction l as [|x l IH]; simpl.
  - symmetry. now apply sumZ_map_zero.
  - rewrite IH, <- sumZ_map_add. reflexivity.
Qed.

Lemma sumZ_one_hot (k size v : Z) :
  0 <= k < size ->
  sumZ (map (fun c => if k =? c then v else 0) (seqZ 0 size)) = v.
Proof.
  intros Hk.
  rewrite (seqZ_split 0 size k) by lia.
  rewrite (seqZ_cons k) by lia.
  rewrite map_app, sumZ_app. simpl. rewrite Z.eqb_refl.
  rewrite !sumZ_map_zero; [lia| |].
  - intros c Hc. apply list_elem_of_In, elem_of_seqZ in Hc.
    destruct (Z.eqb_spec k c); [lia|reflexivity].
  - intros c Hc. apply list_elem_of_In, elem_of_seqZ in Hc.
    destruct (Z.eqb_spec k c); [lia|reflexivity].
Qed.

(** A sum over a list is the sum, over the keys, of the sums over the
    elements with that key. *)
Lemma sumZ_by_key {A} (key : A -> Z) (f : A -> Z) (size : Z) (l : list A) :
  Forall (fun x => 0 <= key x < size) l ->
  sumZ (map (fun c => sumZ (map f (List.filter (fun x => key x =? c) l)))
            (seqZ 0 size))
  = sumZ (map f l).
Proof.
  induction 1 as [|x l Hx Hl IH]; simpl.
  - now apply sumZ_map_zero.
  - rewrite <- IH, <- (sumZ_one_hot (key x) size (f x) Hx) at 1.
    rewrite <- sumZ_map_add. f_equal. apply map_ext. intros c.
    destruct (key x =? c); simpl; lia.
Qed.

Lemma sumZ_filter_split {A} (p : A -> bool) (f : A -> Z) (l : list A) :
  sumZ (map (fun x => if p x then f x else 0) l)
  + sumZ (map f (List.filter (fun x => negb (p x)) l))
  = sumZ (map f l).
Proof.
  induction l as [|x l IH]; [reflexivity|].
  simpl. destruct (p x); simpl; lia.
Qed.

Lemma sumZ_insert (l : list Z) (i : nat) (old x : Z) :
  l !! i = Some old -> sumZ (<[i := x]> l) = sumZ l - old + x.
Proof.
  revert i. induction l as [|y l IH]; intros i Hi; [discriminate|].
  destruct i as [|i]; simpl in *.
  - inversion Hi. lia.
  - rewrite (IH i Hi). lia.
Qed.

Lemma swrap32_small x : - 2 ^ 31 <= x < 2 ^ 31 -> swrap32 x = x.
Proof.
  intros H. unfold swrap32. rewrite Z.mod_small; lia.
Qed.

(** ** The weight that stays and the weight that leaves *)

Definition fine_node_weight (w : World) : Z :=
  sumZ (map (fun pe => sumZ (map (weight_of_node (graph pe))
                                 (seqZ 0 (Graph.n (graph pe)))))
            w).

Definition weights_nonneg (w : World) : Prop :=
  forall pe u, In pe w -> 0 <= u < Graph.n (graph pe) ->
               0 <= weight_of_node (graph pe) u.

(** The weight of the nodes of a process whose cluster it owns. *)
Definition staying_weight (pe : PE) : Z :=
  sumZ (map (fun u =>
               if Graph.is_owned_global_node (graph pe) (cluster_at pe u)
               then weight_of_node (graph pe) u else 0)
            (seqZ 0 (Graph.n (graph pe)))).

Definition away_weight (pe : PE) : Z :=
  sumZ (map (weight_of_node (graph pe)) (away_nodes pe)).

Definition received_weight (D : list Z) (w : World) (r : Z) : Z :=
  sumZ (map GlobalNode.weight (received_nodes D w r)).

Lemma staying_away pe :
  staying_weight pe + away_weight pe
  = sumZ (map (weight_of_node (graph pe)) (seqZ 0 (Graph.n (graph pe)))).
Proof.
  unfold staying_weight, away_weight, away_nodes, away.
  apply (sumZ_filter_split
           (fun u => Graph.is_owned_global_node (graph pe) (cluster_at pe u))).
Qed.

Lemma sent_weight pe :
  sumZ (map GlobalNode.weight (sent_nodes pe)) = away_weight pe.
Proof.
  unfold sent_nodes, sort_node_list, away_weight.
  rewrite (sumZ_Permutation _ (map GlobalNode.weight (raw_nonlocal_nodes pe))).
  - unfold raw_nonlocal_nodes. rewrite map_map. reflexivity.
  - apply Permutation_map, parallel_sort_Permutation.
Qed.

Section WeightSums.

Variables (D : list Z) (GC : Z -> Z) (w : World).
Hypothesis Hvalid : valid_world D GC w.

(** What all processes receive is what all processes send. *)
Lemma received_weight_total :
  sumZ (map (received_weight D w) (ranks w)) = sumZ (map away_weight w).
Proof.
  unfold received_weight, received_nodes.
  rewrite (map_ext _ (fun r => sumZ (map (fun pe =>
             sumZ (map GlobalNode.weight
                       (List.filter (fun nd => node_owner D nd =? r)
                                    (sent_nodes pe)))) w))).
  2:{ intros r. apply sumZ_flat_map. }
  rewrite sumZ_exchange. f_equal. apply map_ext_in. intros pe Hpe.
  destruct (pe_valid D GC w Hvalid pe Hpe) as (q & Hq & Hv).
  unfold ranks. rewrite sumZ_by_key; [apply sent_weight|].
  apply (sent_nodes_keys D GC w Hvalid q pe Hv Hq).
Qed.

(** Every node stays or leaves. *)
Lemma staying_received_total :
  sumZ (map staying_weight w) + sumZ (map (received_weight D w) (ranks w))
  = fine_node_weight w.
Proof.
  rewrite received_weight_total, <- sumZ_map_add. unfold fine_node_weight.
  f_equal. apply map_ext. intros pe. apply staying_away.
Qed.

Hypothesis Hnonneg : weights_nonneg w.

Lemma staying_weight_nonneg pe : In pe w -> 0 <= staying_weight pe.
Proof.
  intros Hpe. unfold staying_weight. apply sumZ_nonneg, Forall_forall.
  intros x Hx. apply list_elem_of_In, in_map_iff in Hx as (u & <- & Hu).
  apply list_elem_of_In, elem_of_seqZ in Hu.
  destruct (Graph.is_owned_global_node _ _); [|lia].
  apply Hnonneg; [exact Hpe|lia].
Qed.

Lemma received_weights_nonneg r :
  Forall (fun nd => 0 <= GlobalNode.weight nd) (received_nodes D w r).
Proof.
  apply Forall_forall. intros nd Hnd.
  apply list_elem_of_In, in_flat_map in Hnd as (pe & Hpe & Hnd).
  apply List.filter_In in Hnd as [Hnd _].
  unfold sent_nodes, sort_node_list in Hnd.
  apply list_elem_of_In in Hnd.
  rewrite (parallel_sort_Permutation node_less) in Hnd.
  apply list_elem_of_In, in_map_iff in Hnd as (u & <- & Hu).
  apply List.filter_In in Hu as [Hu _].
  apply list_elem_of_In, elem_of_seqZ in Hu. simpl.
  apply Hnonneg; [exact Hpe|lia].
Qed.

Lemma received_weight_nonneg r : 0 <= received_weight D w r.
Proof.
  unfold received_weight. apply sumZ_nonneg.
  apply Forall_map. apply received_weights_nonneg.
Qed.

(** The weight that ends on one process is at most the weight of the
    graph. *)
Lemma process_weight_le r pe :
  ix w r = Some pe ->
  staying_weight pe + received_weight D w r <= fine_node_weight w.
Proof.
  intros Hin. rewrite <- staying_received_total.
  pose proof (sumZ_member_le (map staying_weight w) (staying_weight pe)) as H1.
  pose proof (sumZ_member_le (map (received_weight D w) (ranks w))
                (received_weight D w r)) as H2.
  pose proof (rank_range w r pe Hin) as Hr.
  assert (staying_weight pe <= sumZ (map staying_weight w)).
  { apply H1.
    - apply Forall_forall. intros x Hx.
      apply list_elem_of_In, in_map_iff in Hx as (pe' & <- & Hpe').
      now apply staying_weight_nonneg.
    - apply in_map. eapply ix_In, Hin. }
  assert (received_weight D w r
          <= sumZ (map (received_weight D w) (ranks w))).
  { apply H2.
    - apply Forall_forall. intros x Hx.
      apply list_elem_of_In, in_map_iff in Hx as (q & <- & _).
      apply received_weight_nonneg.
    - apply in_map. apply list_elem_of_In, elem_of_seqZ. lia. }
  lia.
Qed.

End WeightSums.

(** ** The weight of the coarse nodes of a process *)

(** The weight of the owned nodes of a graph: the first [n] entries of
    [_node_weights]. *)
Definition owned_node_weight (g : Graph.t) : Z :=
  sumZ (take (Z.to_nat (Graph.n g)) (Graph._node_weights g)).

(** The weight of the owned coarse nodes of all processes. *)
Definition coarse_node_weight (checked : bool) (w : World) : outcome Z :=
  weights ← omapM (fun r => cg ← coarse_graph checked w r;
                            Ok (owned_node_weight cg))
                  (ranks w);
  Ok (sumZ weights).

Definition no_pe : PE :=
  {| graph := Graph.make [] [] [] [] [] [] [] [] ∅ false 0;
     lnode_to_gcluster := []; past_local_edges := [] |}.

Section CoarseWeight.

Variable checked : bool.
Variables (D : list Z) (GC : Z -> Z) (w : World).
Hypothesis Hvalid : valid_world D GC w.
Hypothesis Hsmall : small_world D w.
Hypothesis Hnonneg : weights_nonneg w.
Hypothesis Hbound : fine_node_weight w < 2 ^ 31.

Section OnePE.

Variables (r : Z) (pe : PE).
Hypothesis Hin : ix w r = Some pe.

Local Abbreviation CN := (cn checked w r).
Local Abbreviation GN := (ghosts_n checked w r).

(** The weight that a contributor of a bucket adds to the coarse
    node. *)
Definition home_part (x : Z) : Z :=
  if x <? Graph.n (graph pe) then weight_of_node (graph pe) x else 0.

Lemma home_part_nonneg x : 0 <= x -> 0 <= home_part x.
Proof.
  intros Hx. unfold home_part.
  destruct (Z.ltb_spec x (Graph.n (graph pe))); [|lia].
  apply Hnonneg; [eapply ix_In, Hin|lia].
Qed.

Lemma contributors_keys :
  Forall (fun kv : Z * Z => 0 <= kv.1 < CN /\ 0 <= kv.2)
         (contributors checked D w r pe).
Proof.
  pose proof (vw_pe _ _ _ Hvalid _ _ Hin) as Hpe.
  pose proof (vp_total D GC r pe Hpe) as Htot.
  pose proof (vp_ghost_n_nonneg D GC r pe Hpe) as Hgn.
  apply Forall_app. split; apply Forall_forall; intros [k x] Hkx;
    apply list_elem_of_In in Hkx; simpl.
  - unfold home_entries in Hkx. apply in_flat_map in Hkx as (u & Hu & Hkx).
    apply list_elem_of_In, elem_of_seqZ in Hu. unfold home_entry in Hkx.
    destruct (Graph.is_owned_global_node (graph pe) (cluster_at pe u))
      eqn:Hown; [|destruct Hkx].
    destruct Hkx as [Hkx|[]]. inversion Hkx; subst.
    split; [|lia].
    assert (Hi : inhabited w (cluster_at pe x)).
    { exists r, pe, x. split; [exact Hin|]. split; [lia|reflexivity]. }
    destruct (clocal_owned checked D GC w Hvalid Hsmall r pe Hin _ Hi Hown)
      as (Hr & Heq & _).
    now rewrite <- Heq.
  - destruct (run_starts_spec _ _ _ _ Hkx) as (j & e & Hj & He & <- & ->).
    split.
    + apply (Forall_ix _ _ _ _
               (ledges_sources checked D GC w Hvalid Hsmall r pe Hin) He).
    + unfold wrap32, wrap. apply Z.mod_pos_bound. lia.
Qed.

Lemma run_starts_home_part k x :
  In (k, x) (run_starts (Graph.n (graph pe)) (ledges checked D w r)) ->
  home_part x = 0.
Proof.
  intros Hkx.
  destruct (run_starts_spec _ _ _ _ Hkx) as (j & e & Hj & He & _ & ->).
  pose proof (zlen_ledges checked D GC w Hvalid r).
  pose proof (n_le_total D GC w Hvalid r pe Hin).
  unfold small_world in Hsmall.
  rewrite wrap64_small, wrap32_small by lia.
  unfold home_part.
  destruct (Z.ltb_spec (Graph.n (graph pe) + j) (Graph.n (graph pe)));
    [lia|reflexivity].
Qed.

(** The buckets hold every node that stays once. *)
Lemma buckets_weight :
  sumZ (map (fun c => sumZ (map home_part (bucket checked D w r pe c)))
            (seqZ 0 CN))
  = staying_weight pe.
Proof.
  unfold bucket.
  rewrite (map_ext _ (fun c =>
             sumZ (map (fun kv : Z * Z => home_part kv.2)
                       (List.filter (fun kv : Z * Z => kv.1 =? c)
                                    (contributors checked D w r pe))))).
  2:{ intros c. rewrite map_rev, sumZ_rev, map_map. reflexivity. }
  rewrite (sumZ_by_key fst).
  2:{ eapply Forall_impl; [apply contributors_keys|]. intros kv H. apply H. }
  unfold contributors. rewrite map_app, sumZ_app.
  rewrite (sumZ_map_zero _ (run_starts _ _)).
  2:{ intros [k x] Hkx. simpl. eapply run_starts_home_part, Hkx. }
  rewrite Z.add_0_r. unfold home_entries. rewrite sumZ_flat_map.
  unfold staying_weight. f_equal. apply map_ext_in. intros u Hu.
  apply list_elem_of_In, elem_of_seqZ in Hu. unfold home_entry.
  destruct (Graph.is_owned_global_node _ _); [|reflexivity].
  simpl. unfold home_part.
  destruct (Z.ltb_spec u (Graph.n (graph pe))); lia.
Qed.

Lemma bucket_weight_le c :
  0 <= c < CN ->
  0 <= sumZ (map home_part (bucket checked D w r pe c)) <= staying_weight pe.
Proof.
  intros Hc.
  assert (Hall : Forall (fun y => 0 <= y)
            (map (fun c => sumZ (map home_part (bucket checked D w r pe c)))
                 (seqZ 0 CN))).
  { apply Forall_forall. intros y Hy.
    apply list_elem_of_In, in_map_iff in Hy as (c' & <- & _).
    apply sumZ_nonneg, Forall_forall. intros y Hy.
    apply list_elem_of_In, in_map_iff in Hy as (x & <- & Hx).
    apply home_part_nonneg.
    unfold bucket in Hx. apply in_rev, in_map_iff in Hx as (kv & <- & Hkv).
    apply List.filter_In in Hkv as [Hkv _].
    pose proof contributors_keys as H. rewrite Forall_forall in H.
    apply (H kv). now apply list_elem_of_In. }
  rewrite <- buckets_weight. split.
  - rewrite Forall_forall in Hall. apply Hall.
    apply list_elem_of_In, in_map_iff. exists c. split; [reflexivity|].
    apply list_elem_of_In, elem_of_seqZ. lia.
  - apply sumZ_member_le; [exact Hall|].
    apply in_map_iff. exists c. split; [reflexivity|].
    apply list_elem_of_In, elem_of_seqZ. lia.
Qed.

Lemma staying_weight_small : staying_weight pe < 2 ^ 31.
Proof.
  pose proof (process_weight_le D GC w Hvalid Hnonneg r pe Hin).
  pose proof (received_weight_nonneg D w Hnonneg r). lia.
Qed.

Lemma fold_contributor_fst c_u (b : list Z) : forall st,
  Forall (fun x => 0 <= x) b -> 0 <= st.1 ->
  st.1 + sumZ (map home_part b) < 2 ^ 31 ->
  (fold_left (pure_contributor checked D w r pe c_u) b st).1
  = st.1 + sumZ (map home_part b).
Proof.
  induction b as [|x b IH]; intros st Hb Hst Hsum; simpl in *; [lia|].
  apply Forall_cons in Hb as [Hx Hb].
  pose proof (home_part_nonneg x Hx) as Hhp.
  assert (0 <= sumZ (map home_part b)).
  { apply sumZ_nonneg, Forall_map.
    eapply Forall_impl; [exact Hb|]. intros y Hy. now apply home_part_nonneg. }
  assert (E : (pure_contributor checked D w r pe c_u st x).1
              = st.1 + home_part x).
  { unfold pure_contributor.
    destruct (x <? Graph.n (graph pe)) eqn:Hlt.
    - assert (Ex : home_part x = weight_of_node (graph pe) x)
        by (unfold home_part; now rewrite Hlt).
      rewrite Ex in *. simpl. unfold wadd. apply swrap32_small. lia.
    - assert (Ex : home_part x = 0)
        by (unfold home_part; now rewrite Hlt).
      rewrite Ex. simpl. lia. }
  rewrite IH; rewrite ?E; auto; lia.
Qed.

Lemma pure_collect_fst c_u :
  0 <= c_u < CN ->
  (pure_collect checked D w r pe c_u).1
  = sumZ (map home_part (bucket checked D w r pe c_u)).
Proof.
  intros Hcu. unfold pure_collect.
  pose proof (bucket_weight_le c_u Hcu). pose proof staying_weight_small.
  rewrite fold_contributor_fst; simpl; try lia.
  apply Forall_forall. intros x Hx. apply list_elem_of_In in Hx.
  unfold bucket in Hx. apply in_rev, in_map_iff in Hx as (kv & <- & Hkv).
  apply List.filter_In in Hkv as [Hkv _].
  pose proof contributors_keys as Hk. rewrite Forall_forall in Hk.
  apply (Hk kv). now apply list_elem_of_In.
Qed.

Lemma take_home_weights :
  take (Z.to_nat CN) (home_weights checked D w r pe)
  = map (fun c => sumZ (map home_part (bucket checked D w r pe c)))
        (seqZ 0 CN).
Proof.
  destruct (sizes_small checked D GC w Hvalid Hsmall r pe Hin) as (? & ? & ?).
  unfold home_weights.
  rewrite take_app_length'
    by (rewrite length_map, length_seqZ; reflexivity).
  apply map_ext_in. intros c Hc. apply list_elem_of_In, elem_of_seqZ in Hc.
  apply pure_collect_fst. lia.
Qed.

(** Adding the received nodes. *)
Lemma integrate_sum (nodes : list GlobalNode.t) : forall ws,
  zlen ws = CN + GN ->
  Forall (fun x => 0 <= x) (take (Z.to_nat CN) ws) ->
  (forall nd, In nd nodes -> In nd (received_nodes D w r)) ->
  sumZ (take (Z.to_nat CN) ws) + sumZ (map GlobalNode.weight nodes) < 2 ^ 31 ->
  sumZ (take (Z.to_nat CN)
             (fold_left (integrate checked D w) nodes ws))
  = sumZ (take (Z.to_nat CN) ws) + sumZ (map GlobalNode.weight nodes).
Proof.
  destruct (sizes_small checked D GC w Hvalid Hsmall r pe Hin) as (? & ? & ?).
  induction nodes as [|nd nodes IH]; intros ws Hlen Hnn Hsub Hsum;
    simpl in *; [lia|].
  pose proof (received_nodes_inhabited D GC w Hvalid r) as H'.
  rewrite Forall_forall in H'.
  destruct (H' nd) as (Hi & _ & Ho);
    [apply list_elem_of_In, Hsub; now left|].
  destruct (coarse_local_spec checked D GC w Hvalid Hsmall _ r pe Hi Hin Ho)
    as (_ & Hrange).
  set (c := coarse_local checked D w (GlobalNode.u nd)) in *.
  pose proof (received_weights_nonneg D w Hnonneg r) as Hw.
  rewrite Forall_forall in Hw.
  assert (Hwt : 0 <= GlobalNode.weight nd)
    by (apply Hw, list_elem_of_In, Hsub; now left).
  assert (Hrest : 0 <= sumZ (map GlobalNode.weight nodes)).
  { apply sumZ_nonneg, Forall_forall. intros y Hy.
    apply list_elem_of_In, in_map_iff in Hy as (nd' & <- & Hnd').
    apply Hw, list_elem_of_In, Hsub. now right. }
  destruct (ix_in_range ws c) as [old Hold]; [lia|].
  assert (Hold' : take (Z.to_nat CN) ws !! Z.to_nat c = Some old).
  { rewrite lookup_take_lt by lia. unfold ix in Hold.
    destruct (c <? 0) eqn:E; [apply Z.ltb_lt in E; lia|exact Hold]. }
  assert (Hold0 : 0 <= old <= sumZ (take (Z.to_nat CN) ws)).
  { split.
    - rewrite Forall_forall in Hnn. eapply Hnn, list_elem_of_lookup_2, Hold'.
    - apply sumZ_member_le; [exact Hnn|].
      eapply list_elem_of_In, list_elem_of_lookup_2, Hold'. }
  assert (Estep : take (Z.to_nat CN) (integrate checked D w ws nd)
                  = <[Z.to_nat c := old + GlobalNode.weight nd]>
                      (take (Z.to_nat CN) ws)).
  { unfold integrate. fold c. rewrite Hold. simpl.
    rewrite take_insert_lt by lia. f_equal.
    unfold wadd. apply swrap32_small. lia. }
  rewrite IH.
  - rewrite Estep, (sumZ_insert _ _ old) by exact Hold'. lia.
  - now rewrite zlen_integrate.
  - rewrite Estep. apply Forall_insert; [exact Hnn|lia].
  - intros nd' Hnd'. apply Hsub. now right.
  - rewrite Estep, (sumZ_insert _ _ old) by exact Hold'. lia.
Qed.

Lemma cweights_sum :
  sumZ (take (Z.to_nat CN) (cweights checked D w r pe))
  = staying_weight pe + received_weight D w r.
Proof.
  unfold cweights.
  pose proof (process_weight_le D GC w Hvalid Hnonneg r pe Hin) as Hle.
  rewrite integrate_sum.
  - rewrite take_home_weights, buckets_weight. reflexivity.
  - apply (zlen_home_weights checked D GC w Hvalid Hsmall r pe Hin).
  - rewrite take_home_weights. apply Forall_forall. intros y Hy.
    apply list_elem_of_In, in_map_iff in Hy as (c & <- & Hc).
    apply list_elem_of_In, elem_of_seqZ in Hc.
    apply bucket_weight_le. lia.
  - auto.
  - rewrite take_home_weights, buckets_weight.
    unfold received_weight in Hle. lia.
Qed.

Lemma cgraph_owned_weight :
  owned_node_weight (cgraph checked D w r pe)
  = staying_weight pe + received_weight D w r.
Proof.
  destruct (cgraph_sizes checked D GC w Hvalid Hsmall r pe Hin) as (Hn & _).
  unfold owned_node_weight. rewrite Hn. apply cweights_sum.
Qed.

End OnePE.

Hypothesis Hbenign_all :
  forall q peq, ix w q = Some peq -> benign_past D w q peq.

Lemma coarse_node_weight_spec :
  coarse_node_weight checked w = Ok (fine_node_weight w).
Proof.
  unfold coarse_node_weight.
  rewrite (omapM_Ok _ (fun r => staying_weight (default no_pe (ix w r))
                                + received_weight D w r)).
  - simpl. f_equal. rewrite sumZ_map_add.
    rewrite (map_ranks staying_weight no_pe w).
    apply (staying_received_total D GC w Hvalid).
  - intros r Hr. apply (In_rank w) in Hr.
    destruct (rank_pe D GC w Hvalid r Hr) as (pe & Hin & _).
    rewrite Hin. simpl.
    rewrite (coarse_graph_spec checked D GC w Hvalid Hsmall Hbenign_all r pe
               Hin).
    simpl. now rewrite cgraph_owned_weight.
Qed.

End CoarseWeight.

(** ** Phase H keeps the weights of the owned coarse nodes *)

Lemma ghost_owner_inv checked g v p :
  ghost_owner checked g v = Ok p -> In p (Graph._ghost_owner g).
Proof.
  unfold ghost_owner. intros E.
  apply bind_inv in E as (b & _ & E).
  apply bind_inv in E as (? & _ & E).
  apply bind_inv in E as (? & _ & E).
  eapply ix_In, load_inv, E.
Qed.

Lemma interface_message_inv checked g p u msgs m :
  interface_message checked g p u = Ok msgs -> In m msgs ->
  m.1 = u /\ (p = -1 \/ In p (Graph._ghost_owner g)).
Proof.
  unfold interface_message. intros E Hm.
  apply bind_inv in E as (nb & _ & E).
  apply bind_inv in E as (owners & Eo & E).
  destruct (existsb (Z.eqb p) owners) eqn:Hex.
  - apply bind_inv in E as (weight & _ & E). inversion E; subst msgs.
    destruct Hm as [<-|[]]. split; [reflexivity|].
    apply existsb_exists in Hex as (o & Ho & Hp).
    apply Z.eqb_eq in Hp. subst o.
    apply In_ix in Ho as (i & _ & Hi).
    destruct (omapM_ix_r _ _ _ _ _ Eo Hi) as (ev & _ & Hev).
    destruct (ev.2 <? Graph.n g).
    + left. now inversion Hev.
    + right. eapply ghost_owner_inv, Hev.
  - inversion E; subst msgs. destruct Hm.
Qed.

Lemma interface_messages_inv checked g p msgs m :
  interface_messages checked g p = Ok msgs -> In m msgs ->
  0 <= m.1 < Graph.n g /\ (p = -1 \/ In p (Graph._ghost_owner g)).
Proof.
  unfold interface_messages. intros E Hm.
  apply bind_inv in E as (blocks & Eb & E). inversion E; subst msgs.
  apply in_concat in Hm as (block & Hblock & Hm).
  apply In_ix in Hblock as (i & _ & Hi).
  destruct (omapM_ix_r _ _ _ _ _ Eb Hi) as (u & Hu & Eu).
  destruct (interface_message_inv _ _ _ _ _ _ Eu Hm) as (-> & Hp).
  split; [|exact Hp].
  apply ix_In, list_elem_of_In, elem_of_seqZ in Hu. lia.
Qed.

(** [g'] is [g] with other weights of ghost nodes. *)
Definition owned_kept (g g' : Graph.t) : Prop :=
  exists ws,
    g' = Graph.with_node_weights g ws
    /\ zlen ws = zlen (Graph._node_weights g)
    /\ take (Z.to_nat (Graph.n g)) ws
       = take (Z.to_nat (Graph.n g)) (Graph._node_weights g).

Lemma owned_kept_refl g : owned_kept g g.
Proof. exists (Graph._node_weights g). now destruct g. Qed.

Lemma owned_kept_weight g g' :
  owned_kept g g' -> owned_node_weight g' = owned_node_weight g.
Proof.
  intros (ws & -> & _ & E). unfold owned_node_weight. simpl.
  unfold Graph.n in *. simpl. now rewrite E.
Qed.

Section GhostWeights.

Variable checked : bool.
Variables (D : list Z) (GC : Z -> Z) (w : World).
Hypothesis Hvalid : valid_world D GC w.
Hypothesis Hsmall : small_world D w.
Hypothesis Hbenign_all :
  forall q peq, ix w q = Some peq -> benign_past D w q peq.

Lemma ghost_owner_remote r pe o :
  ix w r = Some pe -> In o (ghost_owners checked D w r) ->
  o <> r /\ 0 <= o < comm_size w.
Proof.
  intros Hin Ho. unfold ghost_owners in Ho.
  apply in_map_iff in Ho as (c & <- & Hc).
  unfold requested in Hc. apply in_concat in Hc as (row & Hrow & Hc).
  apply in_map_iff in Hrow as (p & <- & Hp). apply (In_rank w) in Hp.
  apply In_ix in Hc as (i & _ & Hi).
  destruct (row_of_spec checked D GC w Hvalid Hsmall r pe p i c Hin Hp Hi)
    as (_ & Ho & Hne & _).
  lia.
Qed.

(** A weight that arrives from another process is written to a ghost
    node. *)
Lemma receive_weight_owned r pe q m g' g'' :
  ix w r = Some pe -> 0 <= q < comm_size w -> q <> r ->
  0 <= m.1 < cn checked w q ->
  owned_kept (cgraph checked D w r pe) g' ->
  receive_weight checked q g' m = Ok g'' ->
  owned_kept (cgraph checked D w r pe) g''.
Proof.
  intros Hin Hq Hne Hm (ws & -> & Hlen & Htake) E.
  destruct (cgraph_sizes checked D GC w Hvalid Hsmall r pe Hin)
    as (Hn & Hg & Ht & Ho).
  destruct (sizes_small checked D GC w Hvalid Hsmall r pe Hin) as (? & ? & ?).
  pose proof (rank_range w r pe Hin) as Hr.
  pose proof (coarse_offset_nonneg checked D GC w Hvalid Hsmall q ltac:(lia)).
  pose proof (coarse_offset_nonneg checked D GC w Hvalid Hsmall r ltac:(lia)).
  pose proof (coarse_offset_succ checked w q Hq) as Hsq.
  pose proof (coarse_offset_succ checked w r Hr) as Hsr.
  pose proof (coarse_offset_mono checked D GC w Hvalid Hsmall (q + 1)
                (comm_size w) ltac:(lia) ltac:(lia)).
  pose proof (coarse_offset_mono checked D GC w Hvalid Hsmall (r + 1)
                (comm_size w) ltac:(lia) ltac:(lia)).
  pose proof (coarse_total_small checked D GC w Hvalid Hsmall).
  unfold receive_weight in E.
  apply bind_inv in E as (off & Eoff & E).
  apply bind_inv in E as (l & El & E).
  apply load_inv in Eoff.
  change (Graph._node_distribution
            (Graph.with_node_weights (cgraph checked D w r pe) ws))
    with (cdist checked w) in Eoff.
  rewrite (ix_cdist checked D GC w Hvalid Hsmall q ltac:(lia)) in Eoff.
  inversion Eoff; subst off.
  assert (Hl : cn checked w r <= l).
  { unfold Graph.global_to_local_node in El.
    apply bind_inv in El as (? & _ & El).
    change (Graph.offset_n
              (Graph.with_node_weights (cgraph checked D w r pe) ws))
      with (Graph.offset_n (cgraph checked D w r pe)) in El.
    change (Graph.n (Graph.with_node_weights (cgraph checked D w r pe) ws))
      with (Graph.n (cgraph checked D w r pe)) in El.
    rewrite Ho, Hn in El. rewrite !wrap64_small in El by lia.
    replace ((coarse_offset checked w r <=? coarse_offset checked w q + m.1)
             && (coarse_offset checked w q + m.1
                 <? coarse_offset checked w r + cn checked w r))
      with false in El.
    2:{ symmetry. apply andb_false_iff.
        destruct (Z.lt_ge_cases q r).
        - left. apply Z.leb_gt.
          pose proof (coarse_offset_mono checked D GC w Hvalid Hsmall (q + 1) r
                        ltac:(lia) ltac:(lia)). lia.
        - right. apply Z.ltb_ge.
          pose proof (coarse_offset_mono checked D GC w Hvalid Hsmall (r + 1) q
                        ltac:(lia) ltac:(lia)). lia. }
    apply bind_inv in El as (? & _ & El).
    change (Graph._global_to_ghost
              (Graph.with_node_weights (cgraph checked D w r pe) ws))
      with (c_global_to_ghost (cghosts checked w r)) in El.
    rewrite wrap64_small in El by lia.
    destruct (c_global_to_ghost (cghosts checked w r)
              !! (coarse_offset checked w q + m.1 + 1)) as [l'|] eqn:Hl';
      [|discriminate].
    inversion El; subst l'.
    destruct (coarse_ghosts_spec checked D GC w Hvalid Hsmall r pe Hin)
      as (_ & _ & _ & _ & Hentry).
    destruct (Hentry _ _ Hl'). lia. }
  unfold Graph.set_ghost_node_weight in E.
  apply bind_inv in E as (b & _ & E).
  apply bind_inv in E as (? & _ & E).
  apply bind_inv in E as (? & _ & E).
  destruct (_ && _); [|discriminate].
  inversion E. simpl.
  exists (<[Z.to_nat l := m.2]> ws).
  split; [reflexivity|]. split; [now rewrite zlen_insert|].
  rewrite Hn in *. rewrite take_insert_ge by lia. exact Htake.
Qed.

Lemma contract_clustering_owned r pe c_graph M :
  ix w r = Some pe ->
  contract_clustering checked w r = Ok (c_graph, M) ->
  owned_kept (cgraph checked D w r pe) c_graph.
Proof.
  intros Hin E. unfold contract_clustering in E.
  rewrite (coarse_graph_spec checked D GC w Hvalid Hsmall Hbenign_all r pe Hin)
    in E.
  rewrite bind_Ok_l in E.
  apply bind_inv in E as (received & Ercv & E).
  apply bind_inv in E as (g2 & Eg2 & E).
  apply bind_inv in E as (M' & _ & E).
  inversion E; subst. clear E.
  unfold update_ghost_node_weights in Eg2.
  apply (foldM_invariant _ (owned_kept (cgraph checked D w r pe)) _ _ _ Eg2).
  { apply owned_kept_refl. }
  intros g1 [q msgs] g3 Hbuf Hg1 Eg3. simpl in Eg3.
  apply In_ix in Hbuf as (i & _ & Hi).
  destruct (omapM_ix_r _ _ _ _ _ Ercv Hi) as (q' & Hq' & Eq).
  apply ix_In, (In_rank w) in Hq'.
  destruct (rank_pe D GC w Hvalid q' Hq') as (peq & Hinq & _).
  rewrite (coarse_graph_spec checked D GC w Hvalid Hsmall Hbenign_all q' peq
             Hinq) in Eq.
  rewrite bind_Ok_l in Eq.
  apply bind_inv in Eq as (msgs' & Emsgs & Eq).
  inversion Eq; subst q' msgs'. clear Eq.
  destruct (cgraph_sizes checked D GC w Hvalid Hsmall q peq Hinq) as (Hnq & _).
  pose proof (rank_range w r pe Hin) as Hr.
  apply (foldM_invariant _ (owned_kept (cgraph checked D w r pe)) _ _ _ Eg3).
  { exact Hg1. }
  intros g4 m g5 Hm Hg4 Eg5.
  destruct (interface_messages_inv _ _ _ _ _ Emsgs Hm) as (Hrange & Hown).
  rewrite Hnq in Hrange.
  destruct Hown as [Hown|Hown]; [lia|].
  change (Graph._ghost_owner (cgraph checked D w q peq))
    with (ghost_owners checked D w q) in Hown.
  destruct (ghost_owner_remote q peq r Hinq Hown) as (Hne & _).
  eapply (receive_weight_owned r pe q m); eauto.
Qed.

End GhostWeights.

(** ** The node weights of the example *)

Lemma path_world_nonneg past : weights_nonneg (Examples.path_world past).
Proof.
  intros pe u Hpe Hu. destruct Hpe as [<-|[<-|[]]].
  - change (Graph.n _) with 1 in Hu. assert (u = 0) as -> by lia.
    vm_compute. discriminate.
  - change (Graph.n _) with 2 in Hu.
    assert (u = 0 \/ u = 1) as [-> | ->] by lia; vm_compute; discriminate.
Qed.

(** ** The identity clustering *)

(** Every node is its own cluster. *)
Definition identity (v : Z) : Z := v.

Lemma flat_map_nil {A B} (f : A -> list B) (l : list A) :
  (forall x, In x l -> f x = []) -> flat_map f l = [].
Proof.
  induction l as [|x l IH]; intros H; [reflexivity|].
  simpl. rewrite (H x) by now left. apply IH. intros y Hy. apply H. now right.
Qed.

Lemma filter_nil {A} (p : A -> bool) (l : list A) :
  (forall x, In x l -> p x = false) -> List.filter p l = [].
Proof.
  induction l as [|x l IH]; intros H; [reflexivity|].
  simpl. rewrite (H x) by now left. apply IH. intros y Hy. apply H. now right.
Qed.

Lemma filter_keeps_all {A} (p : A -> bool) (l : list A) :
  (forall x, In x l -> p x = true) -> List.filter p l = l.
Proof.
  induction l as [|x l IH]; intros H; [reflexivity|].
  simpl. rewrite (H x) by now left. f_equal. apply IH.
  intros y Hy. apply H. now right.
Qed.

Section Identity.

Variable checked : bool.
Variables (D : list Z) (w : World).
Hypothesis Hvalid : valid_world D identity w.
Hypothesis Hsmall : small_world D w.

Section OnePE.

Variables (r : Z) (pe : PE).
Hypothesis Hin : ix w r = Some pe.

Lemma id_cluster x :
  0 <= x < Graph.total_n (graph pe) ->
  cluster_at pe x = global_of (graph pe) x.
Proof.
  intros Hx. pose proof (vw_pe _ _ _ Hvalid _ _ Hin) as Hpe.
  apply (cluster_spec D identity r pe Hpe x Hx).
Qed.

Lemma id_cluster_owned u :
  0 <= u < Graph.n (graph pe) ->
  cluster_at pe u = Graph.offset_n (graph pe) + u
  /\ Graph.is_owned_global_node (graph pe) (cluster_at pe u) = true.
Proof.
  intros Hu. pose proof (vw_pe _ _ _ Hvalid _ _ Hin) as Hpe.
  pose proof (vp_total D identity r pe Hpe) as Htot.
  pose proof (vp_ghost_n_nonneg D identity r pe Hpe) as Hgn.
  assert (E : cluster_at pe u = Graph.offset_n (graph pe) + u).
  { rewrite id_cluster by lia. unfold global_of.
    destruct (Z.ltb_spec u (Graph.n (graph pe))); [reflexivity|lia]. }
  split; [exact E|].
  apply (is_owned_spec D identity r pe Hpe). lia.
Qed.

(** No node leaves its process. *)
Lemma id_away_nodes : away_nodes pe = [].
Proof.
  unfold away_nodes. apply filter_nil. intros u Hu.
  apply list_elem_of_In, elem_of_seqZ in Hu. unfold away.
  destruct (id_cluster_owned u) as [_ ->]; [lia|reflexivity].
Qed.

Lemma id_sent_nodes : sent_nodes pe = [].
Proof.
  unfold sent_nodes, raw_nonlocal_nodes. now rewrite id_away_nodes.
Qed.

Lemma id_sent_edges : sent_edges pe = [].
Proof.
  unfold sent_edges, raw_nonlocal_edges. now rewrite id_away_nodes.
Qed.

End OnePE.

Lemma id_received_nodes p : received_nodes D w p = [].
Proof.
  unfold received_nodes. apply flat_map_nil. intros pe Hpe.
  destruct (pe_valid D identity w Hvalid pe Hpe) as (q & Hq & _).
  now rewrite (id_sent_nodes q pe Hq).
Qed.

Lemma id_received_edges p : received_edge_records D w p = [].
Proof.
  unfold received_edge_records. apply flat_map_nil. intros pe Hpe.
  destruct (pe_valid D identity w Hvalid pe Hpe) as (q & Hq & _).
  now rewrite (id_sent_edges q pe Hq).
Qed.

Lemma id_benign q peq : ix w q = Some peq -> benign_past D w q peq.
Proof. intros _. left. apply id_received_edges. Qed.

Section Numbering.

Variables (r : Z) (pe : PE).
Hypothesis Hin : ix w r = Some pe.

(** Every cluster has its own node. *)
Lemma id_nonempty i :
  0 <= i < Graph.n (graph pe) ->
  cluster_nonempty (graph pe) (lnode_to_gcluster pe) (received_nodes D w r) i
  = true.
Proof.
  intros Hi. pose proof (vw_pe _ _ _ Hvalid _ _ Hin) as Hpe.
  pose proof (vp_total D identity r pe Hpe) as Htot.
  pose proof (vp_ghost_n_nonneg D identity r pe Hpe) as Hgn.
  unfold cluster_nonempty. apply orb_true_iff. left.
  apply existsb_exists. exists i. split.
  - apply list_elem_of_In, elem_of_seqZ. lia.
  - unfold hits_own.
    destruct (cluster_spec D identity r pe Hpe i ltac:(lia)) as [-> _].
    destruct (id_cluster_owned r pe Hin i Hi) as [E ->]. rewrite E.
    simpl. apply Z.eqb_eq. lia.
Qed.

Lemma id_nonempty_at :
  nonempty_at D w r pe = seqZ 0 (Graph.n (graph pe)).
Proof.
  unfold nonempty_at, nonempty_clusters. apply filter_keeps_all. intros i Hi.
  apply list_elem_of_In, elem_of_seqZ in Hi. apply id_nonempty. lia.
Qed.

Lemma id_cn : cn checked w r = Graph.n (graph pe).
Proof.
  pose proof (vw_pe _ _ _ Hvalid _ _ Hin) as Hpe.
  pose proof (vp_n_nonneg D identity r pe Hpe) as Hn.
  destruct (lnode_to_lcnode_props checked D identity w Hvalid Hsmall r pe Hpe
              Hin) as (_ & _ & -> & _).
  rewrite id_nonempty_at. now apply zlen_seqZ.
Qed.

Lemma id_lcnode i :
  0 <= i < Graph.n (graph pe) -> ix (lcnode checked w r) i = Some i.
Proof.
  intros Hi. pose proof (vw_pe _ _ _ Hvalid _ _ Hin) as Hpe.
  destruct (lnode_to_lcnode_props checked D identity w Hvalid Hsmall r pe Hpe
              Hin) as (_ & _ & _ & H).
  destruct (H i Hi (id_nonempty i Hi)) as (c & Hc & Hrange & Hback).
  rewrite id_cn in Hrange.
  rewrite id_nonempty_at, ix_seqZ in Hback by lia.
  inversion Hback. rewrite Hc. f_equal. lia.
Qed.

End Numbering.

(** The coarse node distribution is the node distribution. *)
Lemma id_coarse_offset p :
  0 <= p <= comm_size w -> ix D p = Some (coarse_offset checked w p).
Proof.
  intros Hp. rewrite <- (Z2Nat.id p) in * by lia.
  induction (Z.to_nat p) as [|k IH].
  - apply (vw_D_first _ _ _ Hvalid).
  - replace (Z.of_nat (S k)) with (Z.of_nat k + 1) in * by lia.
    destruct (rank_pe D identity w Hvalid (Z.of_nat k) ltac:(lia))
      as (pe & Hin & Hpe).
    rewrite (vp_next _ _ _ _ Hpe).
    rewrite coarse_offset_succ by lia.
    specialize (IH ltac:(lia)).
    rewrite (vp_offset _ _ _ _ Hpe) in IH. inversion IH as [E].
    now rewrite (id_cn _ pe Hin).
Qed.

Lemma id_cdist : cdist checked w = D.
Proof.
  pose proof (zlen_cdist checked D identity w Hvalid Hsmall) as Hlen.
  apply ix_ext.
  - now rewrite Hlen, (vw_D_len _ _ _ Hvalid).
  - intros i Hi. rewrite Hlen in Hi.
    rewrite (ix_cdist checked D identity w Hvalid Hsmall i) by lia.
    symmetry. apply id_coarse_offset. lia.
Qed.

(** A cluster is its own coarse node. *)
Lemma id_coarse_local c p pe :
  inhabited w c -> ix w p = Some pe -> owner_of D c = p ->
  coarse_local checked D w c = c - Graph.offset_n (graph pe)
  /\ 0 <= c - Graph.offset_n (graph pe) < Graph.n (graph pe).
Proof.
  intros Hc Hin Ho. pose proof (vw_pe _ _ _ Hvalid _ _ Hin) as Hpe.
  destruct (coarse_local_spec checked D identity w Hvalid Hsmall c p pe Hc Hin
              Ho) as (Hlc & _).
  destruct (inhabited_nonempty D identity w Hvalid c p pe Hc Hin Ho)
    as (_ & Hrange & _).
  rewrite (local_index_owner D identity p pe c Hpe Ho) in Hrange.
  rewrite (id_lcnode p pe Hin) in Hlc by exact Hrange.
  split; [congruence|exact Hrange].
Qed.

Lemma id_coarse_id c : inhabited w c -> coarse_id checked D w c = c.
Proof.
  intros Hc.
  pose proof (inhabited_valid D identity w Hvalid c Hc) as Hrange.
  destruct (owner_of_spec D identity w Hvalid c Hrange) as (Ho & _).
  destruct (rank_pe D identity w Hvalid _ Ho) as (pe & Hin & Hpe).
  destruct (id_coarse_local c _ pe Hc Hin eq_refl) as (E & _).
  pose proof (id_coarse_offset (owner_of D c) ltac:(lia)) as Hoff.
  rewrite (vp_offset _ _ _ _ Hpe) in Hoff.
  assert (E' : Graph.offset_n (graph pe)
               = coarse_offset checked w (owner_of D c)) by congruence.
  unfold coarse_id. rewrite E, <- E'. lia.
Qed.

(** The mapping sends every node to itself. *)
Lemma id_mapping r pe :
  ix w r = Some pe ->
  lnode_to_gcnode checked w r
  = Ok (map (fun u => Graph.offset_n (graph pe) + u)
            (seqZ 0 (Graph.n (graph pe)))).
Proof.
  intros Hin. pose proof (vw_pe _ _ _ Hvalid _ _ Hin) as Hpe.
  pose proof (vp_total D identity r pe Hpe) as Htot.
  pose proof (vp_ghost_n_nonneg D identity r pe Hpe) as Hgn.
  rewrite (lnode_to_gcnode_spec checked D identity w Hvalid Hsmall r pe Hin).
  f_equal. apply map_ext_in. intros u Hu.
  apply list_elem_of_In, elem_of_seqZ in Hu.
  rewrite id_coarse_id.
  - apply (id_cluster_owned r pe Hin). lia.
  - exists r, pe, u. split; [exact Hin|]. split; [lia|reflexivity].
Qed.

End Identity.

(** ** The rating maps of a simple graph under the identity clustering *)

Lemma rating_add_fresh (map : RatingMap) (key weight : Z) :
  ~ In key (List.map fst map) ->
  rating_add map key weight = map ++ [(key, wadd 0 weight)].
Proof.
  induction map as [|[k x] m IH]; simpl; intros H; [reflexivity|].
  destruct (Z.eqb_spec k key) as [->|Hne]; [exfalso; apply H; now left|].
  f_equal. apply IH. intros Hin. apply H. now right.
Qed.

(** Edges to distinct coarse nodes, none of them the coarse node itself,
    are entered one after the other. *)
Lemma fold_add_fresh {A} (c_u : Z) (key wt : A -> Z) (l : list A) :
  forall acc : RatingMap,
    NoDup (map fst acc ++ map key l) -> ~ In c_u (map key l) ->
    fold_left (fun m x => add_unless_loop c_u m (key x) (wt x)) l acc
    = acc ++ map (fun x => (key x, wadd 0 (wt x))) l.
Proof.
  induction l as [|x l IH]; intros acc Hnd Hcu; simpl.
  - now rewrite app_nil_r.
  - assert (E : add_unless_loop c_u acc (key x) (wt x)
                = acc ++ [(key x, wadd 0 (wt x))]).
    { unfold add_unless_loop.
      destruct (Z.eqb_spec (key x) c_u) as [Heq|Hne];
        [exfalso; apply Hcu; now left|].
      apply rating_add_fresh. intros Hin.
      apply NoDup_app in Hnd as (_ & Hdisj & _).
      apply (Hdisj (key x)); [now apply list_elem_of_In|].
      simpl. apply elem_of_cons. now left. }
    rewrite E, IH.
    + now rewrite <- app_assoc.
    + rewrite map_app, <- app_assoc. exact Hnd.
    + intros Hin. apply Hcu. now right.
Qed.

Lemma NoDup_map_transfer {A} (f g : A -> Z) (l : list A) :
  NoDup (map g l) ->
  (forall x y, In x l -> In y l -> f x = f y -> g x = g y) ->
  NoDup (map f l).
Proof.
  induction l as [|a l IH]; simpl; intros Hnd Hinj; [constructor|].
  apply NoDup_cons in Hnd as [Hnotin Hnd]. apply NoDup_cons. split.
  - intros Hin. apply Hnotin.
    apply list_elem_of_In, in_map_iff in Hin as (y & Hy & Hyl).
    apply list_elem_of_In, in_map_iff. exists y. split; [|exact Hyl].
    symmetry. apply Hinj; auto.
  - apply IH; [exact Hnd|]. intros x y Hx Hy. apply Hinj; auto.
Qed.

Lemma filter_diagonal (c len : Z) :
  0 <= c < len ->
  List.filter (fun kv : Z * Z => kv.1 =? c)
              (map (fun u => (u, u)) (seqZ 0 len))
  = [(c, c)].
Proof.
  intros Hc. rewrite (seqZ_split 0 len c) by lia.
  rewrite Z.add_0_l, (seqZ_cons c) by lia.
  rewrite map_app, List.filter_app. simpl. rewrite Z.eqb_refl.
  rewrite !filter_nil; [reflexivity| |].
  - intros [k x] Hkx. apply in_map_iff in Hkx as (u & Heq & Hu).
    inversion Heq; subst. apply list_elem_of_In, elem_of_seqZ in Hu.
    simpl. apply Z.eqb_neq. lia.
  - intros [k x] Hkx. apply in_map_iff in Hkx as (u & Heq & Hu).
    inversion Heq; subst. apply list_elem_of_In, elem_of_seqZ in Hu.
    simpl. apply Z.eqb_neq. lia.
Qed.

(** The translation of the fine graph. *)
Lemma local_to_global_of checked D GC r pe x :
  valid_pe D GC r pe -> 0 <= x < Graph.total_n (graph pe) ->
  Graph.local_to_global_node checked (graph pe) x
  = Ok (global_of (graph pe) x).
Proof.
  intros Hpe Hx.
  pose proof (vp_wf _ _ _ _ Hpe) as [Hn Hgn Ht Hoff Hrange _ _].
  pose proof (vp_total D GC r pe Hpe) as Htot.
  unfold Graph.local_to_global_node, Graph.contains_local_node,
    Graph.is_owned_node, global_of.
  replace (x <? Graph.total_n (graph pe)) with true
    by (symmetry; apply Z.ltb_lt; lia).
  rewrite KASSERT_true. simpl.
  destruct (Z.ltb_spec x (Graph.n (graph pe))).
  - fold (Graph.offset_n (graph pe)). now rewrite wrap64_small by lia.
  - rewrite wrap32_small by lia.
    destruct (ix_in_range (Graph._ghost_to_global (graph pe))
                (x - Graph.n (graph pe))) as [gl Hgl].
    { rewrite (vp_ghosts_len _ _ _ _ Hpe). lia. }
    now rewrite Hgl.
Qed.

(** The coarse local node of a cluster, translated back. *)
Lemma clocal_global checked D GC w r pe c :
  valid_world D GC w -> small_world D w -> ix w r = Some pe ->
  inhabited w c -> covered pe (request_state checked w r) c ->
  Graph.local_to_global_node checked (cgraph checked D w r pe)
                             (clocal checked D w r pe c)
  = Ok (coarse_id checked D w c).
Proof.
  intros Hvalid Hsmall Hin Hc Hcov.
  pose proof (vw_pe _ _ _ Hvalid _ _ Hin) as Hpe.
  pose proof (inhabited_valid D GC w Hvalid c Hc) as Hrange.
  destruct (Graph.is_owned_global_node (graph pe) c) eqn:Hown.
  - destruct (clocal_owned checked D GC w Hvalid Hsmall r pe Hin c Hc Hown)
      as (Hr & E & _).
    rewrite (cgraph_global_owned checked D GC w Hvalid Hsmall r pe _ Hin Hr).
    apply (is_owned_owner D GC w Hvalid r pe Hpe Hin c Hrange) in Hown.
    unfold coarse_id. now rewrite Hown, E.
  - destruct (clocal_ghost checked D GC w Hvalid Hsmall r pe Hin c Hc Hcov Hown)
      as (Hr & Hg & _).
    now apply (cgraph_global_ghost checked D GC w Hvalid Hsmall r pe).
Qed.

(** A graph without loops and without parallel edges: the neighbours
    of a node are distinct nodes of the graph, none of them the node
    itself. *)
Definition simple_at (g : Graph.t) (u : Z) : Prop :=
  NoDup (map (fun ev : Z * Z => global_of g ev.2) (adjacency g u))
  /\ ~ In (global_of g u)
          (map (fun ev : Z * Z => global_of g ev.2) (adjacency g u)).

Section IdentityEdges.

Variable checked : bool.
Variables (D : list Z) (w : World).
Hypothesis Hvalid : valid_world D identity w.
Hypothesis Hsmall : small_world D w.

Variables (r : Z) (pe : PE).
Hypothesis Hin : ix w r = Some pe.

Local Abbreviation CL := (clocal checked D w r pe).

Lemma id_ledges : ledges checked D w r = [].
Proof.
  unfold ledges, sorted_edges.
  now rewrite (id_received_edges D w Hvalid).
Qed.

Lemma id_clocal_owned u :
  0 <= u < Graph.n (graph pe) -> CL (cluster_at pe u) = u.
Proof.
  intros Hu. pose proof (vw_pe _ _ _ Hvalid _ _ Hin) as Hpe.
  pose proof (vp_total D identity r pe Hpe) as Htot.
  pose proof (vp_ghost_n_nonneg D identity r pe Hpe) as Hgn.
  destruct (id_cluster_owned D w Hvalid r pe Hin u Hu) as [E Hown].
  assert (Hc : inhabited w (cluster_at pe u)).
  { exists r, pe, u. split; [exact Hin|]. split; [lia|reflexivity]. }
  pose proof (inhabited_valid D identity w Hvalid _ Hc) as Hrange.
  unfold clocal. rewrite Hown.
  apply (is_owned_owner D identity w Hvalid r pe Hpe Hin _ Hrange) in Hown.
  destruct (id_coarse_local checked D w Hvalid Hsmall _ r pe Hc Hin Hown)
    as [-> _].
  lia.
Qed.

Lemma id_contributors :
  contributors checked D w r pe
  = map (fun u => (u, u)) (seqZ 0 (Graph.n (graph pe))).
Proof.
  pose proof (vw_pe _ _ _ Hvalid _ _ Hin) as Hpe.
  unfold contributors. rewrite id_ledges. simpl. rewrite app_nil_r.
  unfold home_entries. rewrite flat_map_concat_map.
  rewrite (map_ext_in _ (fun u => [(u, u)])).
  - rewrite <- flat_map_concat_map. apply flat_map_singleton.
  - intros u Hu. apply list_elem_of_In, elem_of_seqZ in Hu.
    unfold home_entry.
    destruct (id_cluster_owned D w Hvalid r pe Hin u ltac:(lia)) as [E Hown].
    rewrite Hown. pose proof (id_clocal_owned u ltac:(lia)) as Hcl.
    unfold clocal in Hcl. rewrite Hown in Hcl. now rewrite Hcl.
Qed.

Lemma id_bucket c :
  0 <= c < Graph.n (graph pe) -> bucket checked D w r pe c = [c].
Proof.
  intros Hc. unfold bucket.
  now rewrite id_contributors, filter_diagonal.
Qed.

(** What the construction of the edges of node [u] finds for the
    neighbour [ev]. *)
Lemma id_neighbor u ev :
  0 <= u < Graph.n (graph pe) -> In ev (adjacency (graph pe) u) ->
  cluster_at pe ev.2 = global_of (graph pe) ev.2
  /\ Graph.local_to_global_node checked (cgraph checked D w r pe)
                                (CL (cluster_at pe ev.2))
     = Ok (global_of (graph pe) ev.2).
Proof.
  intros Hu Hev. pose proof (vw_pe _ _ _ Hvalid _ _ Hin) as Hpe.
  destruct (requests_spec checked D identity w Hvalid Hsmall r pe Hin)
    as (_ & _ & _ & _ & Hcov & _).
  destruct (neighbors_spec D identity r pe Hpe u Hu) as [_ Hadj].
  rewrite Forall_forall in Hadj.
  destruct (Hadj ev) as (_ & Hv & _); [now apply list_elem_of_In|].
  destruct (id_cluster_owned D w Hvalid r pe Hin u Hu) as [_ Hown].
  assert (Hc : inhabited w (cluster_at pe ev.2)).
  { exists r, pe, ev.2. auto. }
  pose proof (id_cluster D w Hvalid r pe Hin ev.2 Hv) as E.
  split; [exact E|].
  rewrite (clocal_global checked D identity w r pe _ Hvalid Hsmall Hin Hc
             (Hcov u ev Hu Hown Hev)).
  now rewrite (id_coarse_id checked D w Hvalid Hsmall _ Hc), E.
Qed.

Lemma id_own_global u :
  0 <= u < Graph.n (graph pe) ->
  Graph.local_to_global_node checked (cgraph checked D w r pe) u
  = Ok (global_of (graph pe) u).
Proof.
  intros Hu. pose proof (vw_pe _ _ _ Hvalid _ _ Hin) as Hpe.
  rewrite (cgraph_global_owned checked D identity w Hvalid Hsmall r pe u Hin)
    by now rewrite (id_cn checked D w Hvalid Hsmall r pe Hin).
  pose proof (rank_range w r pe Hin) as Hr.
  pose proof (id_coarse_offset checked D w Hvalid Hsmall r ltac:(lia)) as Hoff.
  rewrite (vp_offset _ _ _ _ Hpe) in Hoff.
  assert (E : Graph.offset_n (graph pe) = coarse_offset checked w r)
    by congruence.
  unfold global_of.
  destruct (Z.ltb_spec u (Graph.n (graph pe))); [|lia]. now rewrite E.
Qed.

Lemma id_pure_collect u :
  0 <= u < Graph.n (graph pe) -> simple_at (graph pe) u ->
  pure_collect checked D w r pe u
  = (wadd 0 (weight_of_node (graph pe) u),
     map (fun ev : Z * Z =>
            (CL (cluster_at pe ev.2), wadd 0 (weight_of_edge (graph pe) ev.1)))
         (adjacency (graph pe) u)).
Proof.
  intros Hu [Hnd Hloop]. unfold pure_collect. rewrite id_bucket by exact Hu.
  simpl. unfold pure_contributor.
  replace (u <? Graph.n (graph pe)) with true
    by (symmetry; apply Z.ltb_lt; lia).
  simpl. f_equal.
  apply (fold_add_fresh u (fun ev : Z * Z => CL (cluster_at pe ev.2))
           (fun ev : Z * Z => weight_of_edge (graph pe) ev.1)
           (adjacency (graph pe) u) []).
  - simpl. apply (NoDup_map_transfer _ _ _ Hnd).
    intros x y Hx Hy Heq.
    destruct (id_neighbor u x Hu Hx) as [_ Ex].
    destruct (id_neighbor u y Hu Hy) as [_ Ey].
    rewrite Heq in Ex. congruence.
  - intros Hcu. apply Hloop.
    apply in_map_iff in Hcu as (ev & Heq & Hev).
    apply in_map_iff. exists ev. split; [|exact Hev].
    destruct (id_neighbor u ev Hu Hev) as [_ Eev].
    rewrite Heq, (id_own_global u Hu) in Eev. congruence.
Qed.

End IdentityEdges.

(** ** The coarse graph of the identity clustering *)

(** The offsets cover the adjacency array, and [m] is its length. *)
Record csr (g : Graph.t) : Prop := {
  csr_first : first_edge g 0 = 0;
  csr_last : first_edge g (Graph.n g) = zlen (Graph._edges g);
  csr_m : Graph.m g = zlen (Graph._edges g)
}.

Definition simple (g : Graph.t) : Prop :=
  forall u, 0 <= u < Graph.n g -> simple_at g u.

(** The weights are values of the 32-bit types [NodeWeight] and
    [EdgeWeight]. *)
Definition weights_32bit (g : Graph.t) : Prop :=
  (forall u, 0 <= u < Graph.n g ->
             - 2 ^ 31 <= weight_of_node g u < 2 ^ 31)
  /\ (forall e, 0 <= e < zlen (Graph._edges g) ->
                - 2 ^ 31 <= weight_of_edge g e < 2 ^ 31).

Lemma psums_telescope (f : Z -> Z) (k : nat) : forall a,
  psums (f a) (map (fun u => f (u + 1) - f u) (seqZ a (Z.of_nat k)))
  = map f (seqZ (a + 1) (Z.of_nat k)).
Proof.
  induction k as [|k IH]; intros a; [reflexivity|].
  rewrite !(seqZ_cons _ (Z.of_nat (S k))) by lia.
  replace (Z.pred (Z.of_nat (S k))) with (Z.of_nat k) by lia.
  replace (Z.succ a) with (a + 1) by lia.
  replace (Z.succ (a + 1)) with (a + 1 + 1) by lia.
  simpl. replace (f a + (f (a + 1) - f a)) with (f (a + 1)) by lia.
  f_equal. apply IH.
Qed.

Lemma sumZ_telescope (f : Z -> Z) (k : nat) : forall a,
  sumZ (map (fun u => f (u + 1) - f u) (seqZ a (Z.of_nat k)))
  = f (a + Z.of_nat k) - f a.
Proof.
  induction k as [|k IH]; intros a.
  - simpl. rewrite Z.add_0_r. lia.
  - replace (Z.of_nat (S k)) with (Z.of_nat k + 1) by lia.
    rewrite (seqZ_cons a) by lia.
    replace (Z.pred (Z.of_nat k + 1)) with (Z.of_nat k) by lia.
    replace (Z.succ a) with (a + 1) by lia.
    rewrite map_cons.
    change (sumZ (?x :: ?l)) with (x + sumZ l).
    rewrite IH.
    replace (a + 1 + Z.of_nat k) with (a + (Z.of_nat k + 1)) by lia.
    lia.
Qed.

Lemma last_displacements (l : list Z) : forall acc d,
  List.last (displacements acc (l ++ [0])) d = acc + sumZ l.
Proof.
  induction l as [|x l IH]; intros acc d; simpl; [lia|].
  destruct (displacements (acc + x) (l ++ [0])) as [|y t] eqn:E.
  - destruct l; discriminate.
  - rewrite <- E, IH. lia.
Qed.

Section AdjacencyArray.

Variables (D : list Z) (GC : Z -> Z) (r : Z) (pe : PE).
Hypothesis Hpe : valid_pe D GC r pe.

Local Abbreviation g := (graph pe).

Lemma nodes_first_edges :
  Graph._nodes g = map (first_edge g) (seqZ 0 (Graph.n g + 1)).
Proof.
  pose proof (vp_n_nonneg D GC r pe Hpe) as Hn.
  apply ix_ext.
  - rewrite (vp_nodes_len _ _ _ _ Hpe), zlen_map, zlen_seqZ; lia.
  - intros i Hi. rewrite (vp_nodes_len _ _ _ _ Hpe) in Hi.
    rewrite ix_map, ix_seqZ by lia. simpl. rewrite Z.add_0_l.
    apply (first_edge_spec D GC r pe Hpe). lia.
Qed.

Lemma concat_adjacency (k : nat) :
  Z.of_nat k <= Graph.n g ->
  concat (map (adjacency g) (seqZ 0 (Z.of_nat k)))
  = map (fun e => (e, default 0 (ix (Graph._edges g) e)))
        (seqZ (first_edge g 0)
              (first_edge g (Z.of_nat k) - first_edge g 0)).
Proof.
  induction k as [|k IH]; intros Hk.
  - simpl. now rewrite Z.sub_diag.
  - replace (Z.of_nat (S k)) with (Z.of_nat k + 1) in * by lia.
    rewrite (seqZ_split 0 (Z.of_nat k + 1) (Z.of_nat k)) by lia.
    replace (Z.of_nat k + 1 - Z.of_nat k) with 1 by lia.
    rewrite map_app, concat_app, IH by lia.
    change (seqZ (0 + Z.of_nat k) 1) with [0 + Z.of_nat k].
    rewrite Z.add_0_l. simpl. rewrite app_nil_r.
    pose proof (first_edge_mono D GC r pe Hpe 0 (Z.of_nat k) ltac:(lia)
                  ltac:(lia)).
    pose proof (first_edge_mono D GC r pe Hpe (Z.of_nat k) (Z.of_nat k + 1)
                  ltac:(lia) ltac:(lia)).
    rewrite (seqZ_split (first_edge g 0)
               (first_edge g (Z.of_nat k + 1) - first_edge g 0)
               (first_edge g (Z.of_nat k) - first_edge g 0)) by lia.
    rewrite map_app. f_equal. unfold adjacency. f_equal. f_equal; lia.
Qed.

End AdjacencyArray.

Section IdentityGraph.

Variable checked : bool.
Variables (D : list Z) (w : World).
Hypothesis Hvalid : valid_world D identity w.
Hypothesis Hsmall : small_world D w.

Section OnePE.

Variables (r : Z) (pe : PE).
Hypothesis Hin : ix w r = Some pe.
Hypothesis Hcsr : csr (graph pe).
Hypothesis Hsimple : simple (graph pe).
Hypothesis Hweights : weights_32bit (graph pe).

Local Abbreviation g := (graph pe).
Local Abbreviation CL := (clocal checked D w r pe).

Lemma id_ccollected :
  ccollected checked D w r pe
  = map (fun u =>
           (weight_of_node g u,
            map (fun ev : Z * Z =>
                   (CL (cluster_at pe ev.2), weight_of_edge g ev.1))
                (adjacency g u)))
        (seqZ 0 (Graph.n g)).
Proof.
  pose proof (vw_pe _ _ _ Hvalid _ _ Hin) as Hpe.
  destruct Hweights as [Hnw Hew].
  unfold ccollected. rewrite (id_cn checked D w Hvalid Hsmall r pe Hin).
  apply map_ext_in. intros u Hu. apply list_elem_of_In, elem_of_seqZ in Hu.
  rewrite (id_pure_collect checked D w Hvalid Hsmall r pe Hin u)
    by (auto; lia).
  f_equal.
  - unfold wadd. rewrite Z.add_0_l. apply swrap32_small, Hnw. lia.
  - apply map_ext_in. intros ev Hev.
    destruct (neighbors_spec D identity r pe Hpe u ltac:(lia)) as [_ Hadj].
    rewrite Forall_forall in Hadj.
    destruct (Hadj ev) as (He & _); [now apply list_elem_of_In|].
    f_equal. unfold wadd. rewrite Z.add_0_l. now apply swrap32_small, Hew.
Qed.

Lemma edges_small : zlen (Graph._edges g) < 2 ^ 32.
Proof.
  pose proof (edges_le_total w pe (ix_In _ _ _ Hin)).
  pose proof (total_nodes_nonneg D identity w Hvalid).
  unfold small_world in Hsmall. lia.
Qed.

Lemma id_cnodes : cnodes checked D w r pe = Graph._nodes g.
Proof.
  pose proof (vw_pe _ _ _ Hvalid _ _ Hin) as Hpe.
  pose proof (vp_n_nonneg D identity r pe Hpe) as Hn.
  pose proof edges_small as Hm.
  destruct Hcsr as [H0 Hlast _].
  unfold cnodes. rewrite id_ccollected, map_map. simpl.
  rewrite (map_ext_in _ (fun u => first_edge g (u + 1) - first_edge g u)).
  2:{ intros u Hu. apply list_elem_of_In, elem_of_seqZ in Hu.
      rewrite zlen_map. apply (length_adjacency D identity r pe Hpe). lia. }
  pose proof (sumZ_telescope (first_edge g) (Z.to_nat (Graph.n g)) 0) as Hsum.
  rewrite Z2Nat.id, Z.add_0_l, H0, Hlast in Hsum by lia.
  unfold prefix_sum. rewrite prefix_sum_from_nowrap.
  - simpl. rewrite (nodes_first_edges D identity r pe Hpe).
    rewrite (seqZ_cons 0 (Graph.n g + 1)) by lia.
    rewrite map_cons, H0. change (0 + 0) with 0. f_equal.
    replace (Z.pred (Graph.n g + 1)) with (Graph.n g) by lia.
    pose proof (psums_telescope (first_edge g) (Z.to_nat (Graph.n g)) 0) as E.
    rewrite Z2Nat.id, H0 in E by lia. exact E.
  - lia.
  - constructor; [lia|]. apply Forall_forall. intros x Hx.
    apply list_elem_of_In, in_map_iff in Hx as (u & <- & Hu).
    apply list_elem_of_In, elem_of_seqZ in Hu.
    pose proof (first_edge_mono D identity r pe Hpe u (u + 1) ltac:(lia)
                  ltac:(lia)). lia.
  - simpl. rewrite Hsum. lia.
Qed.

Lemma all_edges :
  concat (map (adjacency g) (seqZ 0 (Graph.n g)))
  = map (fun e => (e, default 0 (ix (Graph._edges g) e)))
        (seqZ 0 (zlen (Graph._edges g))).
Proof.
  pose proof (vw_pe _ _ _ Hvalid _ _ Hin) as Hpe.
  pose proof (vp_n_nonneg D identity r pe Hpe) as Hn.
  destruct Hcsr as [H0 Hlast _].
  pose proof (concat_adjacency D identity r pe Hpe (Z.to_nat (Graph.n g)))
    as E.
  rewrite Z2Nat.id, H0, Hlast, Z.sub_0_r in E by lia. apply E. lia.
Qed.

Lemma id_cedges :
  cedges checked D w r pe
  = map (fun e => CL (cluster_at pe (default 0 (ix (Graph._edges g) e))))
        (seqZ 0 (zlen (Graph._edges g))).
Proof.
  unfold cedges. rewrite id_ccollected, map_map. simpl.
  rewrite (map_ext _ (fun u => map (fun ev : Z * Z => CL (cluster_at pe ev.2))
                                   (adjacency g u)))
    by (intros u; now rewrite map_map).
  rewrite <- (map_map (adjacency g)), <- concat_map, all_edges, map_map.
  reflexivity.
Qed.

Lemma id_cedge_weights :
  cedge_weights checked D w r pe
  = map (weight_of_edge g) (seqZ 0 (zlen (Graph._edges g))).
Proof.
  unfold cedge_weights. rewrite id_ccollected, map_map. simpl.
  rewrite (map_ext _ (fun u => map (fun ev : Z * Z => weight_of_edge g ev.1)
                                   (adjacency g u)))
    by (intros u; now rewrite map_map).
  rewrite <- (map_map (adjacency g)), <- concat_map, all_edges, map_map.
  reflexivity.
Qed.

Lemma id_cweights :
  take (Z.to_nat (Graph.n g)) (cweights checked D w r pe)
  = map (weight_of_node g) (seqZ 0 (Graph.n g)).
Proof.
  pose proof (vw_pe _ _ _ Hvalid _ _ Hin) as Hpe.
  pose proof (vp_n_nonneg D identity r pe Hpe) as Hn.
  unfold cweights. rewrite (id_received_nodes D w Hvalid). simpl.
  unfold home_weights.
  rewrite (id_cn checked D w Hvalid Hsmall r pe Hin).
  rewrite take_app_length'
    by (rewrite length_map, length_seqZ; reflexivity).
  pose proof id_ccollected as E. unfold ccollected in E.
  rewrite (id_cn checked D w Hvalid Hsmall r pe Hin) in E.
  rewrite <- (map_map (pure_collect checked D w r pe) fst), E, map_map.
  reflexivity.
Qed.

(** An edge of the fine graph is an edge of the coarse graph, at the
    same position and to the same node. *)
Lemma id_edge e v :
  ix (Graph._edges g) e = Some v ->
  ix (cedges checked D w r pe) e = Some (CL (cluster_at pe v))
  /\ Graph.local_to_global_node checked (cgraph checked D w r pe)
                                (CL (cluster_at pe v))
     = Ok (global_of g v).
Proof.
  intros Hv. pose proof (ix_Some_range _ _ _ Hv) as He.
  pose proof (vw_pe _ _ _ Hvalid _ _ Hin) as Hpe.
  split.
  - rewrite id_cedges, ix_map, ix_seqZ by lia. simpl.
    now rewrite Z.add_0_l, Hv.
  - assert (Hev : In (e, v) (concat (map (adjacency g) (seqZ 0 (Graph.n g))))).
    { rewrite all_edges. apply in_map_iff. exists e. rewrite Hv. split;
        [reflexivity|]. apply list_elem_of_In, elem_of_seqZ. lia. }
    apply in_concat in Hev as (adj & Hadj & Hev).
    apply in_map_iff in Hadj as (u & <- & Hu).
    apply list_elem_of_In, elem_of_seqZ in Hu.
    apply (id_neighbor checked D w Hvalid Hsmall r pe Hin u (e, v));
      [lia|exact Hev].
Qed.

Lemma id_c_m :
  c_m checked w r = Ok (zlen (Graph._edges g)).
Proof.
  pose proof (vw_pe _ _ _ Hvalid _ _ Hin) as Hpe.
  pose proof (vp_n_nonneg D identity r pe Hpe) as Hn.
  destruct Hcsr as [_ Hlast _].
  unfold c_m.
  rewrite (c_nodes_spec checked D identity w Hvalid Hsmall r pe Hin
             (id_benign D w Hvalid r pe Hin)).
  rewrite bind_Ok_l, id_cnodes. unfold back. rewrite last_lookup.
  pose proof (vp_nodes_len _ _ _ _ Hpe) as Hlen. unfold zlen in Hlen.
  destruct (first_edge_spec D identity r pe Hpe (Graph.n g) ltac:(lia))
    as [Hix _].
  unfold ix in Hix. destruct (Z.ltb_spec (Graph.n g) 0); [lia|].
  replace (Init.Nat.pred (length (Graph._nodes g))) with (Z.to_nat (Graph.n g))
    by lia.
  now rewrite Hix, Hlast.
Qed.

End OnePE.

Hypothesis Hcsr_all : forall pe, In pe w -> csr (graph pe).
Hypothesis Hsimple_all : forall pe, In pe w -> simple (graph pe).
Hypothesis Hweights_all : forall pe, In pe w -> weights_32bit (graph pe).

Lemma id_global_m r pe :
  ix w r = Some pe ->
  Graph.global_m (cgraph checked D w r pe) = total_edges w.
Proof.
  intros Hin.
  pose proof (c_edge_distribution_spec checked D identity w Hvalid Hsmall
                (id_benign D w Hvalid)) as E.
  unfold c_edge_distribution in E.
  rewrite (omapM_Ok _ (fun q => zlen (Graph._edges
                                        (graph (default no_pe (ix w q))))))
    in E.
  - simpl in E. inversion E as [E'].
    unfold Graph.global_m, cgraph. simpl. rewrite <- E'.
    rewrite (map_ranks (fun pe => zlen (Graph._edges (graph pe))) no_pe w).
    fold (total_edges w). unfold build_distribution.
    assert (0 <= total_edges w).
    { unfold total_edges. apply sumZ_nonneg, Forall_forall.
      intros x Hx. apply list_elem_of_In, in_map_iff in Hx as (? & <- & _).
      apply zlen_nonneg. }
    pose proof (total_nodes_nonneg D identity w Hvalid).
    unfold small_world in Hsmall.
    rewrite exclusive_scan_nowrap.
    + rewrite last_displacements. unfold total_edges. lia.
    + lia.
    + apply Forall_app. split; [|repeat constructor; lia].
      apply Forall_forall. intros x Hx.
      apply list_elem_of_In, in_map_iff in Hx as (? & <- & _).
      apply zlen_nonneg.
    + rewrite sumZ_app. simpl. unfold total_edges in *. lia.
  - intros q Hq. apply (In_rank w) in Hq.
    destruct (rank_pe D identity w Hvalid q Hq) as (peq & Hinq & _).
    rewrite Hinq. simpl. pose proof (ix_In w q peq Hinq) as Hpeq.
    apply id_c_m; auto.
Qed.

End IdentityGraph.

(** ** The examples of the identity clustering *)

Lemma node_weight_ix g u x :
  ix (Graph._node_weights g) u = Some x -> Graph.node_weight g u = Ok x.
Proof.
  intros H. unfold Graph.node_weight, Graph.is_node_weighted.
  rewrite bool_decide_eq_false_2, H; [reflexivity|].
  intros E. rewrite E in H. unfold ix in H.
  destruct (u <? 0); discriminate.
Qed.

Lemma edge_weight_ix g e x :
  ix (Graph._edge_weights g) e = Some x -> Graph.edge_weight g e = Ok x.
Proof.
  intros H. unfold Graph.edge_weight, Graph.is_edge_weighted.
  rewrite bool_decide_eq_false_2, H; [reflexivity|].
  intros E. rewrite E in H. unfold ix in H.
  destruct (e <? 0); discriminate.
Qed.

Lemma identity_0_valid :
  valid_pe [0; 1; 3] identity 0
    {| graph := Examples.path_0; lnode_to_gcluster := [0; 1];
       past_local_edges := [] |}.
Proof.
  split; simpl; try reflexivity.
  - split; try (vm_compute; congruence).
    + right. reflexivity.
    + intros k l Hk. change (Graph._global_to_ghost Examples.path_0)
        with ({[ 2 := 1 ]} : gmap Z Z) in Hk.
      apply lookup_singleton_Some in Hk as [_ <-].
      vm_compute. split; [discriminate|reflexivity].
  - repeat constructor; vm_compute; congruence.
  - repeat constructor; lia.
  - repeat constructor; vm_compute; congruence.
  - now left.
  - repeat constructor; vm_compute; congruence.
  - intros x Hx. change (Graph.total_n Examples.path_0) with 2 in Hx.
    assert (x = 0 \/ x = 1) as [-> | ->] by lia; reflexivity.
Qed.

Lemma identity_1_valid :
  valid_pe [0; 1; 3] identity 1
    {| graph := Examples.path_1; lnode_to_gcluster := [1; 2; 0];
       past_local_edges := [] |}.
Proof.
  split; simpl; try reflexivity.
  - split; try (vm_compute; congruence).
    + right. reflexivity.
    + intros k l Hk. change (Graph._global_to_ghost Examples.path_1)
        with ({[ 1 := 2 ]} : gmap Z Z) in Hk.
      apply lookup_singleton_Some in Hk as [_ <-].
      vm_compute. split; [discriminate|reflexivity].
  - repeat constructor; vm_compute; congruence.
  - repeat constructor; lia.
  - repeat constructor; vm_compute; congruence.
  - now left.
  - repeat constructor; vm_compute; congruence.
  - intros x Hx. change (Graph.total_n Examples.path_1) with 3 in Hx.
    assert (x = 0 \/ x = 1 \/ x = 2) as [-> | [-> | ->]] by lia; reflexivity.
Qed.

Lemma identity_world_valid :
  valid_world [0; 1; 3] identity Examples.identity_world.
Proof.
  split.
  - reflexivity.
  - reflexivity.
  - reflexivity.
  - repeat constructor; lia.
  - intros v Hv. exact Hv.
  - intros r pe Hr. pose proof (ix_Some_range _ _ _ Hr) as Hrange.
    change (zlen Examples.identity_world) with 2 in Hrange.
    assert (r = 0 \/ r = 1) as [-> | ->] by lia;
      inversion Hr; [apply identity_0_valid|apply identity_1_valid].
Qed.

Lemma identity_world_small : small_world [0; 1; 3] Examples.identity_world.
Proof. reflexivity. Qed.

Lemma identity_world_csr pe :
  In pe Examples.identity_world -> csr (graph pe).
Proof. intros [<-|[<-|[]]]; split; reflexivity. Qed.

Lemma identity_world_simple pe :
  In pe Examples.identity_world -> simple (graph pe).
Proof.
  intros [<-|[<-|[]]] u Hu.
  - change (Graph.n _) with 1 in Hu. assert (u = 0) as -> by lia.
    split; [vm_compute; repeat constructor; set_solver|].
    vm_compute. intros [H|[]]. discriminate.
  - change (Graph.n _) with 2 in Hu.
    assert (u = 0 \/ u = 1) as [-> | ->] by lia.
    + split.
      * vm_compute. apply NoDup_cons. split; [|apply NoDup_singleton].
        intros H. apply list_elem_of_In in H as [H|[]]. discriminate.
      * vm_compute. intros [H|[H|[]]]; discriminate.
    + split; [vm_compute; apply NoDup_singleton|].
      vm_compute. intros [H|[]]. discriminate.
Qed.

Lemma identity_world_weights pe :
  In pe Examples.identity_world -> weights_32bit (graph pe).
Proof.
  intros [<-|[<-|[]]]; split.
  - intros u Hu. change (Graph.n _) with 1 in Hu. assert (u = 0) as -> by lia.
    vm_compute. split; [discriminate|reflexivity].
  - intros e He. unfold weight_of_edge. simpl.
    split; [discriminate|reflexivity].
  - intros u Hu. change (Graph.n _) with 2 in Hu.
    assert (u = 0 \/ u = 1) as [-> | ->] by lia;
      vm_compute; (split; [discriminate|reflexivity]).
  - intros e He. unfold weight_of_edge. simpl.
    split; [discriminate|reflexivity].
Qed.

(** The process with the loop is a distributed graph. *)
Lemma loop_world_valid : valid_world [0; 2] identity Examples.loop_world.
Proof.
  split.
  - reflexivity.
  - reflexivity.
  - reflexivity.
  - repeat constructor; lia.
  - intros v Hv. exact Hv.
  - intros r pe Hr. pose proof (ix_Some_range _ _ _ Hr) as Hrange.
    change (zlen Examples.loop_world) with 1 in Hrange.
    assert (r = 0) as -> by lia. inversion Hr.
    split; simpl; try reflexivity.
    + split; try (vm_compute; congruence). now left.
    + repeat constructor; vm_compute; congruence.
    + repeat constructor; lia.
    + repeat constructor; vm_compute; congruence.
    + now left.
    + constructor.
    + intros x Hx. change (Graph.total_n Examples.g_loop) with 2 in Hx.
      assert (x = 0 \/ x = 1) as [-> | ->] by lia; reflexivity.
Qed.

(** ** Identity contraction of a graph with a loop *)


Lemma identity_world_simple_graphs q :
  In q Examples.identity_world ->
  csr (graph q) /\ simple (graph q) /\ weights_32bit (graph q).
Proof.
  intros Hq. split; [now apply identity_world_csr|].
  split; [now apply identity_world_simple|now apply identity_world_weights].
Qed.

(** ** The edges that enter the rating map of a coarse node *)

(** [handle_edge] for an edge given as the pair of its coarse target
    and its weight. *)
Definition enter (c_u : Z) (m : RatingMap) (kw : Z * Z) : RatingMap :=
  add_unless_loop c_u m kw.1 kw.2.

Lemma fold_left_map_arg {A B C} (f : A -> C -> A) (h : B -> C) (l : list B) :
  forall a, fold_left f (map h l) a = fold_left (fun a x => f a (h x)) l a.
Proof. induction l as [|x l IH]; intros a; simpl; auto. Qed.

Lemma zlen_cons {A} (x : A) (l : list A) : zlen (x :: l) = 1 + zlen l.
Proof. unfold zlen. simpl length. lia. Qed.

Lemma rating_add_length (m : RatingMap) (k x : Z) :
  zlen (rating_add m k x) <= zlen m + 1.
Proof.
  induction m as [|[k' x'] m IH]; simpl.
  - unfold zlen. simpl. lia.
  - destruct (k' =? k); rewrite !zlen_cons; lia.
Qed.

Lemma enter_length (c_u : Z) (l : list (Z * Z)) : forall m,
  zlen (fold_left (enter c_u) l m) <= zlen m + zlen l.
Proof.
  induction l as [|kw l IH]; intros m; simpl.
  - unfold zlen at 3. simpl. lia.
  - specialize (IH (enter c_u m kw)). rewrite zlen_cons.
    assert (zlen (enter c_u m kw) <= zlen m + 1).
    { unfold enter, add_unless_loop. destruct (kw.1 =? c_u); [lia|].
      apply rating_add_length. }
    lia.
Qed.

(** Every key of the rating map is the target of an edge that
    entered. *)
Lemma enter_keys (c_u : Z) (l : list (Z * Z)) (k : Z) :
  In k (map fst (fold_left (enter c_u) l [])) ->
  k <> c_u /\ In k (map fst l).
Proof.
  intros Hk.
  assert (H : Forall (fun kv : Z * Z => kv.1 <> c_u /\ In kv.1 (map fst l))
                     (fold_left (enter c_u) l [])).
  { apply fold_left_invariant; [constructor|].
    intros m kw Hkw Hm. unfold enter.
    apply (add_unless_loop_keys
             (fun k' => k' <> c_u /\ In k' (map fst l))); [exact Hm|].
    intros Hne. split; [exact Hne|]. now apply in_map. }
  apply in_map_iff in Hk as (kv & <- & Hkv).
  rewrite Forall_forall in H. apply H. now apply list_elem_of_In.
Qed.

(** The maximal runs of a list of edges sorted by source cover it. *)
Lemma runs_partition (n : Z) (full : list GlobalEdge.t) :
  0 <= n -> n + zlen full < 2 ^ 32 ->
  forall edges pre prev,
    full = pre ++ edges ->
    sumZ (map (fun kx : Z * Z =>
                 zlen (run_of kx.1 (drop (Z.to_nat (kx.2 - n)) full)))
              (run_starts_from n prev (zlen pre) edges))
    = zlen edges - zlen (run_of prev edges).
Proof.
  intros Hn Hsmall edges.
  induction edges as [|e es IH]; intros pre prev Hfull; [reflexivity|].
  assert (Hlen : zlen full = zlen pre + 1 + zlen es).
  { rewrite Hfull, zlen_app, zlen_cons. lia. }
  pose proof (zlen_nonneg pre). pose proof (zlen_nonneg es).
  simpl run_starts_from. rewrite map_app, sumZ_app.
  replace (zlen pre + 1) with (zlen (pre ++ [e]))
    by (rewrite zlen_app; reflexivity).
  rewrite (IH (pre ++ [e]) (GlobalEdge.u e))
    by (now rewrite <- app_assoc).
  simpl run_of. destruct (Z.eqb_spec (GlobalEdge.u e) prev) as [->|Hne].
  - simpl. rewrite !zlen_cons. lia.
  - simpl. rewrite wrap64_small, wrap32_small by lia.
    replace (Z.to_nat (n + zlen pre - n)) with (length pre)
      by (unfold zlen; lia).
    rewrite Hfull, drop_app_length. simpl. rewrite Z.eqb_refl.
    rewrite !zlen_cons. change (zlen []) with 0. lia.
Qed.

Lemma run_starts_partition (n : Z) (edges : list GlobalEdge.t) :
  0 <= n -> n + zlen edges < 2 ^ 32 ->
  sumZ (map (fun kx : Z * Z =>
               zlen (run_of kx.1 (drop (Z.to_nat (kx.2 - n)) edges)))
            (run_starts n edges))
  = zlen edges.
Proof.
  intros Hn Hsmall. destruct edges as [|e es]; [reflexivity|].
  pose proof (zlen_nonneg es).
  unfold run_starts. rewrite map_cons.
  change (sumZ (?x :: ?l)) with (x + sumZ l).
  change 1 with (zlen [e]) at 1.
  rewrite (runs_partition n (e :: es) Hn Hsmall es [e] (GlobalEdge.u e) eq_refl).
  cbn [fst snd]. rewrite wrap64_small, wrap32_small
    by (rewrite zlen_cons in Hsmall; lia).
  rewrite Z.sub_diag. simpl. rewrite Z.eqb_refl. rewrite !zlen_cons. lia.
Qed.

Section Handled.

Variable checked : bool.
Variables (D : list Z) (GC : Z -> Z) (w : World).
Hypothesis Hvalid : valid_world D GC w.
Hypothesis Hsmall : small_world D w.

Section OnePE.

Variables (r : Z) (pe : PE).
Hypothesis Hin : ix w r = Some pe.

Local Abbreviation CN := (cn checked w r).
Local Abbreviation CL := (clocal checked D w r pe).
Local Abbreviation LE := (ledges checked D w r).

(** The edges that contributor [x] of the coarse node [c_u] hands to
    [handle_edge]. *)
Definition handled_by (c_u x : Z) : list (Z * Z) :=
  if x <? Graph.n (graph pe) then
    map (fun ev : Z * Z =>
           (CL (cluster_at pe ev.2), weight_of_edge (graph pe) ev.1))
        (adjacency (graph pe) x)
  else
    map (fun e => (CL (GlobalEdge.v e), GlobalEdge.weight e))
        (run_at checked D w r c_u (x - Graph.n (graph pe))).

Definition handled (c_u : Z) : list (Z * Z) :=
  flat_map (handled_by c_u) (bucket checked D w r pe c_u).

Lemma pure_collect_handled c_u :
  (pure_collect checked D w r pe c_u).2
  = fold_left (enter c_u) (handled c_u) [].
Proof.
  assert (Hgen : forall b st,
            (fold_left (pure_contributor checked D w r pe c_u) b st).2
            = fold_left (enter c_u) (flat_map (handled_by c_u) b) st.2).
  { induction b as [|x b IH]; intros st; [reflexivity|].
    simpl. rewrite fold_left_app, IH. f_equal.
    unfold pure_contributor, handled_by.
    destruct (x <? Graph.n (graph pe)); simpl;
      now rewrite fold_left_map_arg. }
  unfold pure_collect, handled. apply Hgen.
Qed.

(** The number of edges that reach the rating maps of the process. *)
Lemma handled_total :
  sumZ (map (fun c => zlen (handled c)) (seqZ 0 CN))
  = sumZ (map (fun u =>
                 if Graph.is_owned_global_node (graph pe) (cluster_at pe u)
                 then zlen (adjacency (graph pe) u) else 0)
              (seqZ 0 (Graph.n (graph pe))))
    + zlen LE.
Proof.
  pose proof (vw_pe _ _ _ Hvalid _ _ Hin) as Hpe.
  pose proof (n_le_total D GC w Hvalid r pe Hin) as Hn.
  pose proof (zlen_ledges checked D GC w Hvalid r) as Hle.
  unfold small_world in Hsmall.
  rewrite (map_ext _ (fun c =>
             sumZ (map (fun kv : Z * Z => zlen (handled_by kv.1 kv.2))
                       (List.filter (fun kv : Z * Z => kv.1 =? c)
                                    (contributors checked D w r pe))))).
  2:{ intros c. unfold handled, bucket.
      rewrite zlen_flat_map_sum, map_rev, sumZ_rev, map_map.
      f_equal. apply map_ext_in. intros kv Hkv.
      apply List.filter_In in Hkv as [_ Hk]. apply Z.eqb_eq in Hk.
      now rewrite Hk. }
  rewrite (sumZ_by_key fst).
  2:{ eapply Forall_impl;
        [apply (contributors_keys checked D GC w Hvalid Hsmall r pe Hin)|].
      intros kv H. apply H. }
  unfold contributors. rewrite map_app, sumZ_app. f_equal.
  - unfold home_entries. rewrite sumZ_flat_map. f_equal.
    apply map_ext_in. intros u Hu. apply list_elem_of_In, elem_of_seqZ in Hu.
    unfold home_entry.
    destruct (Graph.is_owned_global_node _ _); [|reflexivity].
    simpl. unfold handled_by. simpl.
    replace (u <? Graph.n (graph pe)) with true
      by (symmetry; apply Z.ltb_lt; lia).
    rewrite zlen_map. lia.
  - etransitivity;
      [|apply (run_starts_partition (Graph.n (graph pe)) LE); lia].
    f_equal. apply map_ext_in. intros [k x] Hkx.
    destruct (run_starts_spec _ _ _ _ Hkx) as (j & e & Hj & _ & _ & ->).
    rewrite wrap64_small, wrap32_small by lia.
    unfold handled_by. cbn [fst snd].
    replace (Graph.n (graph pe) + j <? Graph.n (graph pe)) with false
      by (symmetry; apply Z.ltb_ge; lia).
    rewrite zlen_map. reflexivity.
Qed.

End OnePE.

End Handled.

(** ** The adjacency arrays of the coarse graph *)

Lemma list_as_map_seqZ (b : list Z) :
  map (fun i => default 0 (ix b i)) (seqZ 0 (zlen b)) = b.
Proof.
  pose proof (zlen_nonneg b).
  apply ix_ext; [now rewrite zlen_map, zlen_seqZ|].
  intros i Hi. rewrite zlen_map, zlen_seqZ in Hi by lia.
  rewrite ix_map, ix_seqZ by lia. simpl. rewrite Z.add_0_l.
  destruct (ix_in_range b i Hi) as [x ->]. reflexivity.
Qed.

(** The edges of the nodes that stay, and the edge records of the nodes
    that leave. *)
Definition staying_degree (pe : PE) : Z :=
  sumZ (map (fun u =>
               if Graph.is_owned_global_node (graph pe) (cluster_at pe u)
               then zlen (adjacency (graph pe) u) else 0)
            (seqZ 0 (Graph.n (graph pe)))).

Definition away_degree (pe : PE) : Z := zlen (raw_nonlocal_edges pe).

Section Degrees.

Variables (D : list Z) (GC : Z -> Z) (w : World).
Hypothesis Hvalid : valid_world D GC w.

Lemma staying_degree_nonneg pe : 0 <= staying_degree pe.
Proof.
  unfold staying_degree. apply sumZ_nonneg, Forall_forall. intros x Hx.
  apply list_elem_of_In, in_map_iff in Hx as (u & <- & _).
  destruct (Graph.is_owned_global_node _ _); [apply zlen_nonneg|lia].
Qed.

Lemma degrees_split r pe :
  valid_pe D GC r pe ->
  staying_degree pe + away_degree pe <= zlen (Graph._edges (graph pe)).
Proof.
  intros Hpe. pose proof (vp_n_nonneg D GC r pe Hpe) as Hn.
  unfold staying_degree, away_degree, raw_nonlocal_edges.
  rewrite zlen_flat_map_sum.
  rewrite (map_ext (fun u => zlen (edge_records pe u))
                   (fun u => zlen (adjacency (graph pe) u)))
    by (intros u; unfold edge_records; now rewrite zlen_map).
  unfold away_nodes, away.
  rewrite (sumZ_filter_split
             (fun u => Graph.is_owned_global_node (graph pe) (cluster_at pe u))
             (fun u => zlen (adjacency (graph pe) u))).
  rewrite (map_ext_in _ (fun u => first_edge (graph pe) (u + 1)
                                  - first_edge (graph pe) u)).
  2:{ intros u Hu. apply list_elem_of_In, elem_of_seqZ in Hu.
      apply (length_adjacency D GC r pe Hpe). lia. }
  pose proof (sumZ_telescope (first_edge (graph pe))
                (Z.to_nat (Graph.n (graph pe))) 0) as E.
  rewrite Z2Nat.id, Z.add_0_l in E by lia. rewrite E.
  destruct (first_edge_spec D GC r pe Hpe 0) as [_ H0]; [lia|].
  destruct (first_edge_spec D GC r pe Hpe (Graph.n (graph pe))) as [_ H1];
    [lia|].
  lia.
Qed.

Lemma zlen_received_away p :
  zlen (received_edge_records D w p) <= sumZ (map away_degree w).
Proof.
  unfold received_edge_records. rewrite zlen_flat_map_sum.
  apply sumZ_map_le. intros pe Hpe.
  pose proof (filter_length_le (fun e => edge_owner D e =? p) (sent_edges pe)).
  pose proof (length_coalesce
                (parallel_sort edge_less (raw_nonlocal_edges pe))) as Hc.
  unfold sent_edges, away_degree in *. unfold zlen in Hc at 2.
  rewrite parallel_sort_length in Hc. unfold zlen in *. lia.
Qed.

(** The edges that reach the rating maps of a process are edges of the
    fine graph. *)
Lemma staying_received_le r pe :
  ix w r = Some pe ->
  staying_degree pe + zlen (received_edge_records D w r) <= total_edges w.
Proof.
  intros Hin. pose proof (vw_pe _ _ _ Hvalid _ _ Hin) as Hpe.
  pose proof (zlen_received_away r) as Hrec.
  pose proof (degrees_split r pe Hpe) as Hsplit.
  assert (Hall : Forall (fun x => 0 <= x)
            (map (fun q => zlen (Graph._edges (graph q)) - away_degree q) w)).
  { apply Forall_forall. intros x Hx.
    apply list_elem_of_In, in_map_iff in Hx as (q & <- & Hq).
    destruct (pe_valid D GC w Hvalid q Hq) as (rq & _ & Hv).
    pose proof (degrees_split rq q Hv). pose proof (staying_degree_nonneg q).
    lia. }
  pose proof (sumZ_member_le _
                (zlen (Graph._edges (graph pe)) - away_degree pe) Hall) as Hm.
  assert (Hsum : sumZ (map (fun q => zlen (Graph._edges (graph q))
                                     - away_degree q) w)
                 + sumZ (map away_degree w) = total_edges w).
  { rewrite <- sumZ_map_add. unfold total_edges. f_equal.
    apply map_ext. intros q. lia. }
  specialize (Hm ltac:(apply in_map_iff; exists pe; split;
                       [reflexivity|eapply ix_In, Hin])).
  lia.
Qed.

End Degrees.

Section CoarseCSR.

Variable checked : bool.
Variables (D : list Z) (GC : Z -> Z) (w : World).
Hypothesis Hvalid : valid_world D GC w.
Hypothesis Hsmall : small_world D w.

Variables (r : Z) (pe : PE).
Hypothesis Hin : ix w r = Some pe.

Local Abbreviation CN := (cn checked w r).
Local Abbreviation GN := (ghosts_n checked w r).

(** The sizes of the rating maps. *)
Definition sizes : list Z :=
  map (fun c => zlen (pure_collect checked D w r pe c).2) (seqZ 0 CN).

Lemma sizes_nonneg : Forall (fun x => 0 <= x) sizes.
Proof.
  apply Forall_forall. intros x Hx.
  apply list_elem_of_In, in_map_iff in Hx as (c & <- & _). apply zlen_nonneg.
Qed.

Lemma sizes_total : sumZ sizes <= total_edges w.
Proof.
  pose proof (staying_received_le D GC w Hvalid r pe Hin) as Hle.
  pose proof (handled_total checked D GC w Hvalid Hsmall r pe Hin) as Ht.
  fold (staying_degree pe) in Ht.
  assert (Hlen : zlen (ledges checked D w r)
                 = zlen (received_edge_records D w r)).
  { unfold ledges, sorted_edges. rewrite zlen_map. unfold zlen.
    now rewrite parallel_sort_length. }
  rewrite Hlen in Ht. rewrite <- Ht in Hle.
  etransitivity; [|exact Hle]. unfold sizes. apply sumZ_map_le.
  intros c _. rewrite pure_collect_handled.
  pose proof (enter_length c (handled checked D w r pe c) []) as H.
  change (zlen []) with 0 in H. lia.
Qed.

Lemma zlen_sizes : zlen sizes = CN.
Proof.
  destruct (sizes_small checked D GC w Hvalid Hsmall r pe Hin) as (? & _).
  unfold sizes. rewrite zlen_map, zlen_seqZ; lia.
Qed.

Lemma sizes_map :
  map (fun c : Z * RatingMap => zlen c.2) (ccollected checked D w r pe)
  = sizes.
Proof. unfold ccollected, sizes. now rewrite map_map. Qed.

(** [c_nodes] holds the offsets of the rating maps in [c_edges]. *)
Lemma ix_cnodes u :
  0 <= u <= CN ->
  ix (cnodes checked D w r pe) u = Some (sumZ (take (Z.to_nat u) sizes)).
Proof.
  intros Hu. pose proof sizes_total as Htot.
  pose proof (total_nodes_nonneg D GC w Hvalid).
  unfold small_world in Hsmall.
  unfold cnodes, prefix_sum. rewrite sizes_map.
  rewrite prefix_sum_from_nowrap.
  - unfold ix. destruct (Z.ltb_spec u 0); [lia|].
    rewrite psums_lookup.
    + simpl. f_equal.
    + simpl. pose proof zlen_sizes as Hz. unfold zlen in Hz. lia.
  - lia.
  - constructor; [lia|apply sizes_nonneg].
  - simpl. lia.
Qed.

Lemma sizes_lookup u :
  0 <= u < CN ->
  sizes !! Z.to_nat u = Some (zlen (pure_collect checked D w r pe u).2).
Proof.
  intros Hu. unfold sizes.
  rewrite list_lookup_fmap, lookup_seqZ_lt by lia. simpl.
  now rewrite Z.add_0_l, Z2Nat.id by lia.
Qed.

Lemma ix_cedges u i :
  0 <= u < CN -> 0 <= i < zlen (pure_collect checked D w r pe u).2 ->
  ix (cedges checked D w r pe) (sumZ (take (Z.to_nat u) sizes) + i)
  = ix (map fst (pure_collect checked D w r pe u).2) i.
Proof.
  intros Hu Hi. unfold cedges.
  set (bs := map (fun c : Z * RatingMap => map fst c.2)
                 (ccollected checked D w r pe)).
  assert (Hbs : bs !! Z.to_nat u
                = Some (map fst (pure_collect checked D w r pe u).2)).
  { unfold bs, ccollected.
    rewrite !list_lookup_fmap, lookup_seqZ_lt by lia. simpl.
    now rewrite Z.add_0_l, Z2Nat.id by lia. }
  assert (Hs : map zlen bs = sizes).
  { unfold bs. rewrite map_map, <- sizes_map. apply map_ext. intros c.
    now rewrite zlen_map. }
  pose proof (ix_concat bs (Z.to_nat u) _ i Hbs
                ltac:(now rewrite zlen_map)) as E.
  rewrite <- E, <- Hs. f_equal. f_equal. f_equal.
  symmetry. apply (fmap_take zlen).
Qed.

(** The neighbours of a coarse node are the keys of its rating map. *)
Lemma cgraph_neighbors u :
  0 <= u < CN ->
  exists nb,
    neighbors (cgraph checked D w r pe) u = Ok nb
    /\ map snd nb = map fst (pure_collect checked D w r pe u).2.
Proof.
  intros Hu.
  set (b := map fst (pure_collect checked D w r pe u).2).
  set (S_u := sumZ (take (Z.to_nat u) sizes)).
  assert (Hb : zlen b = zlen (pure_collect checked D w r pe u).2)
    by (unfold b; now rewrite zlen_map).
  pose proof (zlen_nonneg b) as Hb0.
  assert (Hnext : sumZ (take (Z.to_nat (u + 1)) sizes) = S_u + zlen b).
  { replace (Z.to_nat (u + 1)) with (S (Z.to_nat u)) by lia.
    rewrite (sumZ_take_snoc _ _ _ (sizes_lookup u Hu)). unfold S_u. lia. }
  assert (Hce : forall i, 0 <= i < zlen b ->
                          ix (cedges checked D w r pe) (S_u + i) = ix b i).
  { intros i Hi. unfold S_u, b. apply ix_cedges; [exact Hu|lia]. }
  exists (map (fun e => (e, default 0 (ix (cedges checked D w r pe) e)))
              (seqZ S_u (zlen b))).
  split.
  - unfold neighbors.
    change (Graph._nodes (cgraph checked D w r pe))
      with (cnodes checked D w r pe).
    change (Graph._edges (cgraph checked D w r pe))
      with (cedges checked D w r pe).
    rewrite (load_Ok _ _ _ (ix_cnodes u ltac:(lia))). simpl.
    rewrite (load_Ok _ _ _ (ix_cnodes (u + 1) ltac:(lia))). simpl.
    rewrite Hnext. fold S_u. replace (S_u + zlen b - S_u) with (zlen b) by lia.
    apply omapM_Ok. intros e He. apply list_elem_of_In, elem_of_seqZ in He.
    pose proof (Hce (e - S_u) ltac:(lia)) as Hc.
    replace (S_u + (e - S_u)) with e in Hc by lia.
    destruct (ix_in_range b (e - S_u)) as [v Hv]; [lia|]. rewrite Hv in Hc.
    rewrite (load_Ok _ _ _ Hc), Hc. reflexivity.
  - rewrite map_map. simpl.
    transitivity (map (fun i => default 0 (ix b i)) (seqZ 0 (zlen b)));
      [|apply list_as_map_seqZ].
    replace (seqZ S_u (zlen b)) with (map (Z.add S_u) (seqZ 0 (zlen b))).
    2:{ pose proof (fmap_add_seqZ S_u 0 (zlen b)) as E.
        rewrite Z.add_0_r in E. exact E. }
    rewrite map_map. apply map_ext_in. intros i Hi.
    apply list_elem_of_In, elem_of_seqZ in Hi. now rewrite Hce by lia.
Qed.

End CoarseCSR.

(** ** The weights that a process sends in phase H *)

Section InterfaceMessages.

Variable checked : bool.
Variables (D : list Z) (GC : Z -> Z) (w : World).
Hypothesis Hvalid : valid_world D GC w.
Hypothesis Hsmall : small_world D w.

Variables (r : Z) (pe : PE).
Hypothesis Hin : ix w r = Some pe.

Local Abbreviation CN := (cn checked w r).
Local Abbreviation GN := (ghosts_n checked w r).
Local Abbreviation GO := (ghost_owners checked D w r).
Local Abbreviation CG := (cgraph checked D w r pe).

Lemma zlen_ghost_owners : zlen GO = GN.
Proof. unfold ghost_owners. now rewrite zlen_map, zlen_requested. Qed.

Lemma cgraph_ghost_owner k :
  CN <= k < CN + GN ->
  exists o, ghost_owner checked CG k = Ok o /\ ix GO (k - CN) = Some o.
Proof.
  intros Hk.
  destruct (cgraph_sizes checked D GC w Hvalid Hsmall r pe Hin)
    as (Hn & Hg & Ht & _).
  destruct (sizes_small checked D GC w Hvalid Hsmall r pe Hin) as (? & ? & ?).
  destruct (ix_in_range GO (k - CN)) as [o Ho];
    [rewrite zlen_ghost_owners; lia|].
  exists o. split; [|exact Ho].
  unfold ghost_owner, Graph.is_ghost_node. rewrite Ht, Hn.
  replace (k <? CN + GN) with true by (symmetry; apply Z.ltb_lt; lia).
  rewrite KASSERT_true. simpl.
  replace (CN <=? k) with true by (symmetry; apply Z.leb_le; lia).
  rewrite KASSERT_true. simpl.
  rewrite wrap32_small by lia.
  change (Graph._ghost_owner CG) with GO.
  replace (k - CN <? zlen GO) with true
    by (symmetry; apply Z.ltb_lt; rewrite zlen_ghost_owners; lia).
  rewrite KASSERT_true. simpl. now apply load_Ok.
Qed.

Lemma cgraph_node_weight u :
  0 <= u < CN + GN -> exists x, Graph.node_weight CG u = Ok x.
Proof.
  intros Hu.
  destruct (ix_in_range (cweights checked D w r pe) u) as [x Hx].
  { now rewrite (zlen_cweights checked D GC w Hvalid Hsmall r pe Hin). }
  exists x. now apply node_weight_ix.
Qed.

(** A coarse node sends its weight to [p] when a key of its rating map
    is a ghost of [p]. *)
Definition borders (u p : Z) : Prop :=
  exists k, In k (map fst (pure_collect checked D w r pe u).2)
            /\ CN <= k /\ ix GO (k - CN) = Some p.

Lemma interface_message_total p u :
  0 <= p -> 0 <= u < CN ->
  exists msgs,
    interface_message checked CG p u = Ok msgs
    /\ forall m, In m msgs -> m.1 = u /\ borders u p.
Proof.
  intros Hp0 Hu.
  destruct (cgraph_sizes checked D GC w Hvalid Hsmall r pe Hin)
    as (Hn & _).
  destruct (sizes_small checked D GC w Hvalid Hsmall r pe Hin) as (? & ? & ?).
  destruct (cgraph_neighbors checked D GC w Hvalid Hsmall r pe Hin u Hu)
    as (nb & Enb & Hsnd).
  pose proof (pure_collect_keys checked D GC w Hvalid Hsmall r pe Hin u Hu)
    as Hkeys.
  rewrite Forall_forall in Hkeys.
  assert (Hnb : forall ev, In ev nb ->
            In ev.2 (map fst (pure_collect checked D w r pe u).2)
            /\ (0 <= ev.2 < CN \/ CN <= ev.2 < CN + GN)).
  { intros ev Hev.
    assert (Hk : In ev.2 (map fst (pure_collect checked D w r pe u).2))
      by (rewrite <- Hsnd; now apply in_map).
    split; [exact Hk|].
    apply in_map_iff in Hk as (kv & Hkv & Hin').
    destruct (Hkeys kv) as (_ & [Hown|(Hgh & _)]);
      [now apply list_elem_of_In| |]; rewrite <- Hkv; auto. }
  destruct (omapM_exists
              (fun ev : Z * Z => if ev.2 <? Graph.n CG then Ok (-1)
                                 else ghost_owner checked CG ev.2)
              (fun ev o => o = -1 \/ (CN <= ev.2 /\ ix GO (ev.2 - CN) = Some o))
              nb) as (owners & Eo & HF).
  { intros ev Hev. destruct (Hnb ev Hev) as (_ & Hcase). rewrite Hn.
    destruct (Z.ltb_spec ev.2 CN).
    - exists (-1). auto.
    - destruct (cgraph_ghost_owner ev.2 ltac:(lia)) as (o & Eg & Ho).
      exists o. split; [exact Eg|]. right. split; [lia|exact Ho]. }
  unfold interface_message. rewrite Enb, bind_Ok_l, Eo, bind_Ok_l.
  destruct (existsb (Z.eqb p) owners) eqn:Hex.
  - destruct (cgraph_node_weight u ltac:(lia)) as (x & Ex).
    rewrite Ex, bind_Ok_l.
    eexists. split; [reflexivity|].
    intros m [<-|[]]. split; [reflexivity|].
    apply existsb_exists in Hex as (o & Ho & Hp). apply Z.eqb_eq in Hp.
    subst o. apply In_ix in Ho as (i & _ & Hi). unfold ix in Hi.
    destruct (i <? 0); [discriminate|].
    destruct (Forall2_lookup_r _ _ _ _ _ HF Hi) as (ev & Hev & Hcase).
    apply list_elem_of_lookup_2, list_elem_of_In in Hev.
    destruct (Hnb ev Hev) as (Hk & _).
    destruct Hcase as [Hneg|[Hge Hgo]].
    + lia.
    + exists ev.2. auto.
  - exists []. split; [reflexivity|]. intros m [].
Qed.

Lemma interface_messages_total p :
  0 <= p ->
  exists msgs,
    interface_messages checked CG p = Ok msgs
    /\ forall m, In m msgs -> 0 <= m.1 < CN /\ borders m.1 p.
Proof.
  intros Hp0.
  destruct (cgraph_sizes checked D GC w Hvalid Hsmall r pe Hin)
    as (Hn & _).
  destruct (omapM_exists (interface_message checked CG p)
              (fun u msgs => forall m, In m msgs ->
                                       0 <= m.1 < CN /\ borders m.1 p)
              (seqZ 0 (Graph.n CG))) as (blocks & Eb & HF).
  { intros u Hu. apply list_elem_of_In, elem_of_seqZ in Hu.
    rewrite Hn in Hu.
    destruct (interface_message_total p u Hp0 ltac:(lia)) as (msgs & E & H).
    exists msgs. split; [exact E|]. intros m Hm.
    destruct (H m Hm) as (-> & Hb). split; [lia|exact Hb]. }
  unfold interface_messages. rewrite Eb. simpl.
  eexists. split; [reflexivity|].
  intros m Hm. apply in_concat in Hm as (block & Hblock & Hm).
  apply In_ix in Hblock as (i & _ & Hi). unfold ix in Hi.
  destruct (i <? 0); [discriminate|].
  destruct (Forall2_lookup_r _ _ _ _ _ HF Hi) as (u & _ & H).
  now apply H.
Qed.

End InterfaceMessages.

(** ** Symmetric graphs *)

(** Every edge has a reverse edge, on the process that owns its
    target. *)
Definition symmetric_world (w : World) : Prop :=
  forall a pea x ev,
    ix w a = Some pea -> 0 <= x < Graph.n (graph pea) ->
    In ev (adjacency (graph pea) x) ->
    exists b peb y ev',
      ix w b = Some peb /\ 0 <= y < Graph.n (graph peb)
      /\ global_of (graph peb) y = global_of (graph pea) ev.2
      /\ In ev' (adjacency (graph peb) y)
      /\ global_of (graph peb) ev'.2 = global_of (graph pea) x.

(** An edge of the fine graph leads from the cluster [c_u] to the
    cluster [c_v]. *)
Definition cluster_edge (w : World) (c_u c_v : Z) : Prop :=
  exists a pea x ev,
    ix w a = Some pea /\ 0 <= x < Graph.n (graph pea)
    /\ In ev (adjacency (graph pea) x)
    /\ cluster_at pea x = c_u /\ cluster_at pea ev.2 = c_v.

Section Symmetric.

Variable checked : bool.
Variables (D : list Z) (GC : Z -> Z) (w : World).
Hypothesis Hvalid : valid_world D GC w.
Hypothesis Hsmall : small_world D w.

Lemma cluster_edge_inhabited c_u c_v :
  cluster_edge w c_u c_v -> inhabited w c_u /\ inhabited w c_v.
Proof.
  intros (a & pea & x & ev & Hin & Hx & Hev & <- & <-).
  pose proof (vw_pe _ _ _ Hvalid _ _ Hin) as Hpe.
  pose proof (vp_total D GC a pea Hpe) as Htot.
  pose proof (vp_ghost_n_nonneg D GC a pea Hpe) as Hgn.
  destruct (neighbors_spec D GC a pea Hpe x Hx) as [_ Hadj].
  rewrite Forall_forall in Hadj.
  destruct (Hadj ev) as (_ & Hv & _); [now apply list_elem_of_In|].
  split.
  - exists a, pea, x. split; [exact Hin|]. split; [lia|reflexivity].
  - exists a, pea, ev.2. auto.
Qed.

Lemma cluster_edge_sym c_u c_v :
  symmetric_world w -> cluster_edge w c_u c_v -> cluster_edge w c_v c_u.
Proof.
  intros Hsym (a & pea & x & ev & Hin & Hx & Hev & <- & <-).
  destruct (Hsym a pea x ev Hin Hx Hev)
    as (b & peb & y & ev' & Hinb & Hy & Hgy & Hev' & Hgx).
  pose proof (vw_pe _ _ _ Hvalid _ _ Hin) as Hpa.
  pose proof (vw_pe _ _ _ Hvalid _ _ Hinb) as Hpb.
  pose proof (vp_total D GC a pea Hpa). pose proof (vp_total D GC b peb Hpb).
  pose proof (vp_ghost_n_nonneg D GC a pea Hpa).
  pose proof (vp_ghost_n_nonneg D GC b peb Hpb).
  destruct (neighbors_spec D GC a pea Hpa x Hx) as [_ Hadj].
  rewrite Forall_forall in Hadj.
  destruct (Hadj ev) as (_ & Hv & _); [now apply list_elem_of_In|].
  destruct (neighbors_spec D GC b peb Hpb y Hy) as [_ Hadj'].
  rewrite Forall_forall in Hadj'.
  destruct (Hadj' ev') as (_ & Hv' & _); [now apply list_elem_of_In|].
  exists b, peb, y, ev'. split; [exact Hinb|]. split; [exact Hy|].
  split; [exact Hev'|].
  destruct (cluster_spec D GC a pea Hpa x ltac:(lia)) as [_ ->].
  destruct (cluster_spec D GC a pea Hpa ev.2 Hv) as [_ ->].
  destruct (cluster_spec D GC b peb Hpb y ltac:(lia)) as [_ ->].
  destruct (cluster_spec D GC b peb Hpb ev'.2 Hv') as [_ ->].
  now rewrite Hgy, Hgx.
Qed.

(** The owner of the source of an edge between clusters asks for the
    coarse node of its target. *)
Lemma cluster_edge_covered r pe c_v c_u :
  ix w r = Some pe -> cluster_edge w c_v c_u -> owner_of D c_v = r ->
  covered pe (request_state checked w r) c_u.
Proof.
  intros Hin Hedge Ho.
  destruct (cluster_edge_inhabited _ _ Hedge) as [Hcv _].
  pose proof (inhabited_valid D GC w Hvalid c_v Hcv) as Hrange.
  destruct Hedge as (b & peb & y & ev & Hinb & Hy & Hev & Ey & Ev).
  pose proof (vw_pe _ _ _ Hvalid _ _ Hinb) as Hpb.
  destruct (requests_spec checked D GC w Hvalid Hsmall r pe Hin)
    as (_ & _ & _ & _ & Hcov1 & Hcov2).
  destruct (Graph.is_owned_global_node (graph peb) c_v) eqn:Hown.
  - pose proof Hown as Hown'.
    apply (is_owned_owner D GC w Hvalid b peb Hpb Hinb c_v Hrange) in Hown'.
    assert (b = r) by congruence. subst b.
    assert (peb = pe) by congruence. subst peb.
    rewrite <- Ev. apply (Hcov1 y ev Hy); [now rewrite Ey|exact Hev].
  - set (e := GlobalEdge.mk c_v c_u (weight_of_edge (graph peb) ev.1)).
    assert (He : In e (raw_nonlocal_edges peb)).
    { unfold raw_nonlocal_edges. apply in_flat_map. exists y. split.
      - unfold away_nodes. apply List.filter_In. split.
        + apply list_elem_of_In, elem_of_seqZ. lia.
        + unfold away. now rewrite Ey, Hown.
      - unfold edge_records. apply in_map_iff. exists ev.
        split; [|exact Hev]. unfold e. now rewrite Ey, Ev. }
    assert (He' : In e (parallel_sort edge_less (raw_nonlocal_edges peb))).
    { apply list_elem_of_In. rewrite parallel_sort_Permutation.
      now apply list_elem_of_In. }
    destruct (coalesce_covers _ _ He') as (o & Ho' & Hu & Hv).
    simpl in Hu, Hv. rewrite <- Hv. apply Hcov2.
    unfold received_edge_records. apply in_flat_map. exists peb.
    split; [eapply ix_In, Hinb|].
    apply List.filter_In. split; [exact Ho'|].
    unfold edge_owner. rewrite Hu. now apply Z.eqb_eq.
Qed.

(** Coarse nodes of different processes are different. *)
Lemma coarse_id_owner c c' :
  inhabited w c -> inhabited w c' ->
  coarse_id checked D w c = coarse_id checked D w c' ->
  owner_of D c = owner_of D c'.
Proof.
  intros Hc Hc' Heq.
  destruct (coarse_id_range checked D GC w Hvalid Hsmall c Hc) as (L & U & _).
  destruct (coarse_id_range checked D GC w Hvalid Hsmall c' Hc')
    as (L' & U' & _).
  destruct (owner_of_spec D GC w Hvalid c (inhabited_valid D GC w Hvalid c Hc))
    as (Ho & _).
  destruct (owner_of_spec D GC w Hvalid c'
              (inhabited_valid D GC w Hvalid c' Hc')) as (Ho' & _).
  destruct (Z.lt_trichotomy (owner_of D c) (owner_of D c')) as [Hlt|[Heq'|Hgt]];
    [|exact Heq'|].
  - pose proof (coarse_offset_mono checked D GC w Hvalid Hsmall
                  (owner_of D c + 1) (owner_of D c') ltac:(lia) ltac:(lia)).
    lia.
  - pose proof (coarse_offset_mono checked D GC w Hvalid Hsmall
                  (owner_of D c' + 1) (owner_of D c) ltac:(lia) ltac:(lia)).
    lia.
Qed.

Lemma requested_entry r pe j c :
  ix w r = Some pe -> ix (requested checked w r) j = Some c ->
  inhabited w c.
Proof.
  intros Hin Hc. apply ix_In in Hc. unfold requested in Hc.
  apply in_concat in Hc as (row & Hrow & Hc).
  apply in_map_iff in Hrow as (p & <- & Hp). apply (In_rank w) in Hp.
  apply In_ix in Hc as (i & _ & Hi).
  apply (row_of_spec checked D GC w Hvalid Hsmall r pe p i c Hin Hp Hi).
Qed.

Section OnePE.

Variables (r : Z) (pe : PE).
Hypothesis Hin : ix w r = Some pe.

Local Abbreviation CN := (cn checked w r).
Local Abbreviation CL := (clocal checked D w r pe).

(** Every key of a rating map comes from an edge of the fine graph. *)
Lemma key_origin u k :
  0 <= u < CN -> In k (map fst (pure_collect checked D w r pe u).2) ->
  exists c_u c_v,
    cluster_edge w c_u c_v
    /\ owner_of D c_u = r /\ coarse_local checked D w c_u = u
    /\ covered pe (request_state checked w r) c_v /\ CL c_v = k.
Proof.
  intros Hu Hk. pose proof (vw_pe _ _ _ Hvalid _ _ Hin) as Hpe.
  pose proof (vp_total D GC r pe Hpe) as Htot.
  pose proof (vp_ghost_n_nonneg D GC r pe Hpe) as Hgn.
  destruct (requests_spec checked D GC w Hvalid Hsmall r pe Hin)
    as (_ & _ & _ & _ & Hcov1 & Hcov2).
  rewrite pure_collect_handled in Hk. apply enter_keys in Hk as [_ Hk].
  apply in_map_iff in Hk as ([k' wt] & Hk' & Hkw). simpl in Hk'. subst k'.
  unfold handled in Hkw. apply in_flat_map in Hkw as (x & Hx & Hkw).
  unfold handled_by in Hkw.
  destruct (bucket_entry checked D GC w Hvalid Hsmall r pe Hin u x Hx)
    as [(Hxr & Hown & Hcl)|(j & e & Hj & He & Heu & -> & Hsm)].
  - replace (x <? Graph.n (graph pe)) with true in Hkw
      by (symmetry; apply Z.ltb_lt; lia).
    apply in_map_iff in Hkw as (ev & Heq & Hev). inversion Heq as [[Ek Ew]].
    exists (cluster_at pe x), (cluster_at pe ev.2).
    split; [exists r, pe, x, ev; auto|].
    assert (Hc : inhabited w (cluster_at pe x)).
    { exists r, pe, x. split; [exact Hin|]. split; [lia|reflexivity]. }
    split.
    { apply (is_owned_owner D GC w Hvalid r pe Hpe Hin); [|exact Hown].
      now apply (inhabited_valid D GC w Hvalid). }
    split; [exact Hcl|]. split; [|reflexivity].
    now apply (Hcov1 x ev).
  - replace (Graph.n (graph pe) + j <? Graph.n (graph pe)) with false in Hkw
      by (symmetry; apply Z.ltb_ge; lia).
    apply in_map_iff in Hkw as (e' & Heq & He'). inversion Heq as [[Ek Ew]].
    unfold run_at in He'. apply run_of_incl in He' as [He' Hu'].
    apply In_drop in He'. unfold ledges in He'.
    apply in_map_iff in He' as (e0 & <- & He0). simpl in *.
    assert (Hrec : In e0 (received_edge_records D w r)).
    { unfold sorted_edges in He0. apply list_elem_of_In in He0.
      rewrite parallel_sort_Permutation in He0. now apply list_elem_of_In. }
    pose proof (Hcov2 e0 Hrec) as Hcov.
    unfold received_edge_records in Hrec.
    apply in_flat_map in Hrec as (pea & Hpea & Hrec).
    apply List.filter_In in Hrec as [Hsent Hown]. apply Z.eqb_eq in Hown.
    unfold sent_edges in Hsent.
    destruct (coalesce_keys _ _ Hsent) as (e1 & He1 & Hu1 & Hv1).
    apply list_elem_of_In in He1. rewrite parallel_sort_Permutation in He1.
    apply list_elem_of_In in He1. unfold raw_nonlocal_edges in He1.
    apply in_flat_map in He1 as (x' & Hx' & He1).
    unfold away_nodes in Hx'. apply List.filter_In in Hx' as [Hx' _].
    apply list_elem_of_In, elem_of_seqZ in Hx'.
    unfold edge_records in He1. apply in_map_iff in He1 as (ev & <- & Hev).
    simpl in Hu1, Hv1.
    destruct (pe_valid D GC w Hvalid pea Hpea) as (a & Hina & _).
    exists (GlobalEdge.u e0), (GlobalEdge.v e0).
    split; [exists a, pea, x', ev; repeat split; auto; lia|].
    split; [exact Hown|]. split; [exact Hu'|]. split; [exact Hcov|reflexivity].
Qed.

End OnePE.

(** What a process sends in phase H, the receiver has as a ghost. *)
Lemma borders_known q peq r pe u :
  symmetric_world w -> ix w q = Some peq -> ix w r = Some pe ->
  0 <= u < cn checked w q -> borders checked D w q peq u r ->
  q <> r
  /\ is_Some (c_global_to_ghost (cghosts checked w r)
              !! (coarse_offset checked w q + u + 1)).
Proof.
  intros Hsym Hinq Hin Hu (k & Hk & Hge & Hgo).
  pose proof (vw_pe _ _ _ Hvalid _ _ Hinq) as Hpq.
  pose proof (vw_pe _ _ _ Hvalid _ _ Hin) as Hpe.
  destruct (ghost_owner_remote checked D GC w Hvalid Hsmall q peq r Hinq
              (ix_In _ _ _ Hgo)) as (Hne & _).
  split; [congruence|].
  destruct (key_origin q peq Hinq u k Hu Hk)
    as (c_u & c_v & Hedge & Hou & Hlu & Hcov & Hcl).
  destruct (cluster_edge_inhabited _ _ Hedge) as [Hcu Hcv].
  (* the target of the edge is owned by the receiver *)
  assert (Hov : owner_of D c_v = r).
  { destruct (Graph.is_owned_global_node (graph peq) c_v) eqn:Hown.
    - destruct (clocal_owned checked D GC w Hvalid Hsmall q peq Hinq c_v Hcv
                  Hown) as (Hr & _). lia.
    - destruct (clocal_ghost checked D GC w Hvalid Hsmall q peq Hinq c_v Hcv
                  Hcov Hown) as (_ & Hg & _).
      rewrite Hcl in Hg. unfold ghost_globals in Hg. unfold ghost_owners in Hgo.
      rewrite ix_map in Hg, Hgo.
      destruct (ix (requested checked w q) (k - cn checked w q)) as [c'|] eqn:Hc';
        [|discriminate].
      simpl in Hg, Hgo.
      assert (Eg : coarse_id checked D w c_v = coarse_id checked D w c')
        by congruence.
      assert (Eo : owner_of D c' = r) by congruence.
      rewrite <- Eo.
      apply coarse_id_owner; [exact Hcv| |exact Eg].
      apply (requested_entry q peq _ c' Hinq Hc'). }
  (* the reverse edge is handled by the receiver *)
  pose proof (cluster_edge_sym _ _ Hsym Hedge) as Hrev.
  pose proof (cluster_edge_covered r pe c_v c_u Hin Hrev Hov) as Hcovr.
  destruct Hcovr as [Hown|[v Hv]].
  { apply (is_owned_owner D GC w Hvalid r pe Hpe Hin) in Hown;
      [congruence|now apply (inhabited_valid D GC w Hvalid)]. }
  destruct (coarse_ghosts_spec checked D GC w Hvalid Hsmall r pe Hin)
    as (_ & _ & _ & Hfound & _).
  pose proof (Hfound c_u (requested_In checked D GC w Hvalid Hsmall r pe Hin
                            c_u v Hv)) as Hsome.
  unfold coarse_id in Hsome. now rewrite Hou, Hlu in Hsome.
Qed.

End Symmetric.

(** ** Phase H returns on symmetric graphs *)

Section PhaseHTotal.

Variable checked : bool.
Variables (D : list Z) (GC : Z -> Z) (w : World).
Hypothesis Hvalid : valid_world D GC w.
Hypothesis Hsmall : small_world D w.
Hypothesis Hbenign_all :
  forall q peq, ix w q = Some peq -> benign_past D w q peq.
Hypothesis Hsym : symmetric_world w.

Variables (r : Z) (pe : PE).
Hypothesis Hin : ix w r = Some pe.

Local Abbreviation CN := (cn checked w r).
Local Abbreviation GN := (ghosts_n checked w r).
Local Abbreviation CG := (cgraph checked D w r pe).

(** The coarse graph with other node weights. *)
Definition reweighted (g' : Graph.t) : Prop :=
  exists ws, g' = Graph.with_node_weights CG ws /\ zlen ws = CN + GN.

Lemma receive_weight_total q m g' :
  0 <= q < comm_size w -> q <> r -> 0 <= m.1 < cn checked w q ->
  is_Some (c_global_to_ghost (cghosts checked w r)
           !! (coarse_offset checked w q + m.1 + 1)) ->
  reweighted g' ->
  exists g'', receive_weight checked q g' m = Ok g'' /\ reweighted g''.
Proof.
  intros Hq Hne Hm [l Hl] (ws & -> & Hlen).
  destruct (cgraph_sizes checked D GC w Hvalid Hsmall r pe Hin)
    as (Hn & Hg & Ht & Ho).
  destruct (sizes_small checked D GC w Hvalid Hsmall r pe Hin) as (? & ? & ?).
  pose proof (rank_range w r pe Hin) as Hr.
  pose proof (coarse_offset_nonneg checked D GC w Hvalid Hsmall q ltac:(lia)).
  pose proof (coarse_offset_nonneg checked D GC w Hvalid Hsmall r ltac:(lia)).
  pose proof (coarse_offset_succ checked w q Hq) as Hsq.
  pose proof (coarse_offset_succ checked w r Hr) as Hsr.
  pose proof (coarse_offset_mono checked D GC w Hvalid Hsmall (q + 1)
                (comm_size w) ltac:(lia) ltac:(lia)).
  pose proof (coarse_offset_mono checked D GC w Hvalid Hsmall (r + 1)
                (comm_size w) ltac:(lia) ltac:(lia)).
  pose proof (coarse_total_small checked D GC w Hvalid Hsmall).
  destruct (coarse_ghosts_spec checked D GC w Hvalid Hsmall r pe Hin)
    as (_ & _ & _ & _ & Hentry).
  destruct (Hentry _ _ Hl) as [Hlr _].
  set (gw := Graph.with_node_weights CG ws).
  assert (Egl : Graph.global_to_local_node checked gw
                  (wrap64 (coarse_offset checked w q + m.1)) = Ok l).
  { unfold Graph.global_to_local_node, Graph.contains_global_node,
      Graph.is_owned_global_node.
    change (Graph.offset_n gw) with (Graph.offset_n CG).
    change (Graph.n gw) with (Graph.n CG).
    change (Graph._global_to_ghost gw)
      with (c_global_to_ghost (cghosts checked w r)).
    rewrite Ho, Hn. rewrite !wrap64_small by lia.
    rewrite (wrap64_small (coarse_offset checked w q + m.1 + 1)) by lia.
    rewrite Hl.
    replace ((coarse_offset checked w r <=? coarse_offset checked w q + m.1)
             && (coarse_offset checked w q + m.1
                 <? coarse_offset checked w r + CN))
      with false.
    2:{ symmetry. apply andb_false_iff.
        destruct (Z.lt_ge_cases q r).
        - left. apply Z.leb_gt.
          pose proof (coarse_offset_mono checked D GC w Hvalid Hsmall (q + 1) r
                        ltac:(lia) ltac:(lia)). lia.
        - right. apply Z.ltb_ge.
          pose proof (coarse_offset_mono checked D GC w Hvalid Hsmall (r + 1) q
                        ltac:(lia) ltac:(lia)). lia. }
    rewrite bool_decide_eq_true_2 by eauto.
    rewrite !KASSERT_true. reflexivity. }
  assert (Hws : ws <> []).
  { intros E. rewrite E in Hlen. change (zlen []) with 0 in Hlen. lia. }
  exists (Graph.with_node_weights CG (<[Z.to_nat l := m.2]> ws)). split.
  - unfold receive_weight.
    change (Graph._node_distribution gw) with (cdist checked w).
    rewrite (load_Ok _ _ _ (ix_cdist checked D GC w Hvalid Hsmall q
                              ltac:(lia))).
    rewrite bind_Ok_l, Egl, bind_Ok_l.
    unfold Graph.set_ghost_node_weight, Graph.is_ghost_node,
      Graph.is_node_weighted.
    change (Graph.total_n gw) with (Graph.total_n CG).
    change (Graph.n gw) with (Graph.n CG).
    change (Graph._node_weights gw) with ws.
    rewrite Ht, Hn.
    replace (l <? CN + GN) with true by (symmetry; apply Z.ltb_lt; lia).
    rewrite KASSERT_true, bind_Ok_l, bind_Ok_l.
    replace (CN <=? l) with true by (symmetry; apply Z.leb_le; lia).
    rewrite KASSERT_true, bind_Ok_l.
    rewrite bool_decide_eq_false_2 by exact Hws.
    rewrite KASSERT_true, bind_Ok_l.
    replace ((0 <=? l) && (l <? zlen ws)) with true; [reflexivity|].
    symmetry. apply andb_true_iff. split; [apply Z.leb_le|apply Z.ltb_lt]; lia.
  - eexists. split; [reflexivity|]. now rewrite zlen_insert.
Qed.

(** [contract_clustering] returns. *)
Lemma contract_clustering_total :
  exists c_graph M, contract_clustering checked w r = Ok (c_graph, M).
Proof.
  pose proof (rank_range w r pe Hin) as Hr.
  unfold contract_clustering.
  rewrite (coarse_graph_spec checked D GC w Hvalid Hsmall Hbenign_all r pe Hin).
  rewrite bind_Ok_l.
  destruct (omapM_exists
              (fun q => other ← coarse_graph checked w q;
                        msgs ← interface_messages checked other r;
                        Ok (q, msgs))
              (fun q (buf : Z * list (Z * Z)) =>
                 buf.1 = q
                 /\ exists peq, ix w q = Some peq
                      /\ forall m, In m buf.2 ->
                           0 <= m.1 < cn checked w q
                           /\ borders checked D w q peq m.1 r)
              (ranks w)) as (received & Ercv & HF).
  { intros q Hq. apply (In_rank w) in Hq.
    destruct (rank_pe D GC w Hvalid q Hq) as (peq & Hinq & _).
    rewrite (coarse_graph_spec checked D GC w Hvalid Hsmall Hbenign_all q peq
               Hinq).
    rewrite bind_Ok_l.
    destruct (interface_messages_total checked D GC w Hvalid Hsmall q peq Hinq
                r ltac:(lia)) as (msgs & -> & Hmsgs).
    rewrite bind_Ok_l. eexists. split; [reflexivity|]. simpl.
    split; [reflexivity|]. exists peq. auto. }
  rewrite Ercv, bind_Ok_l.
  destruct (foldM_total
              (fun g (buf : Z * list (Z * Z)) =>
                 foldM (receive_weight checked buf.1) g buf.2)
              reweighted received CG) as (g2 & Eg2 & _).
  { exists (cweights checked D w r pe). split; [reflexivity|].
    apply (zlen_cweights checked D GC w Hvalid Hsmall r pe Hin). }
  { intros g1 buf Hbuf Hg1.
    apply In_ix in Hbuf as (i & _ & Hi). unfold ix in Hi.
    destruct (i <? 0); [discriminate|].
    destruct (Forall2_lookup_r _ _ _ _ _ HF Hi)
      as (q & Hq & Hq1 & peq & Hinq & Hmsgs).
    apply list_elem_of_lookup_2, list_elem_of_In, (In_rank w) in Hq.
    rewrite Hq1.
    apply (foldM_total (receive_weight checked q) reweighted); [exact Hg1|].
    intros g3 m Hm Hg3. destruct (Hmsgs m Hm) as (Hrange & Hb).
    destruct (borders_known checked D GC w Hvalid Hsmall q peq r pe m.1 Hsym
                Hinq Hin Hrange Hb) as (Hne & Hknown).
    now apply receive_weight_total. }
  unfold update_ghost_node_weights. rewrite Eg2, bind_Ok_l.
  rewrite (lnode_to_gcnode_spec checked D GC w Hvalid Hsmall r pe Hin).
  rewrite bind_Ok_l. eauto.
Qed.

End PhaseHTotal.

(** ** Weights in rating maps and in coalesced edge lists *)

(** The weight of an edge record that [pick] selects by the clusters of
    its endpoints. *)
Definition picked (pick : Z -> Z -> bool) (e : GlobalEdge.t) : Z :=
  if pick (GlobalEdge.u e) (GlobalEdge.v e) then GlobalEdge.weight e else 0.

(** All edges, and the edges between different clusters. *)
Definition every (_ _ : Z) : bool := true.
Definition across (u v : Z) : bool := negb (u =? v).

Lemma picked_every e : picked every e = GlobalEdge.weight e.
Proof. reflexivity. Qed.

Lemma picked_nonneg pick e : 0 <= GlobalEdge.weight e -> 0 <= picked pick e.
Proof. unfold picked. destruct (pick _ _); lia. Qed.

Lemma picked_le pick e :
  0 <= GlobalEdge.weight e -> picked pick e <= GlobalEdge.weight e.
Proof. unfold picked. destruct (pick _ _); lia. Qed.

Lemma wadd_small a b : 0 <= a -> 0 <= b -> a + b < 2 ^ 31 -> wadd a b = a + b.
Proof. intros. unfold wadd. apply swrap32_small. lia. Qed.

Lemma coalesce_from_picked pick (l : list GlobalEdge.t) : forall cur,
  Forall (fun e => 0 <= GlobalEdge.weight e) l ->
  0 <= GlobalEdge.weight cur ->
  GlobalEdge.weight cur + sumZ (map GlobalEdge.weight l) < 2 ^ 31 ->
  sumZ (map (picked pick) (coalesce_from cur l))
  = picked pick cur + sumZ (map (picked pick) l)
  /\ Forall (fun e => 0 <= GlobalEdge.weight e) (coalesce_from cur l).
Proof.
  induction l as [|e l IH]; intros cur Hl Hcur Hsum.
  - simpl. split; [lia|]. repeat constructor. exact Hcur.
  - apply Forall_cons in Hl as [He Hl].
    assert (0 <= sumZ (map GlobalEdge.weight l))
      by (apply sumZ_nonneg, Forall_map; exact Hl).
    cbn [map] in Hsum. change (sumZ (?x :: ?t)) with (x + sumZ t) in Hsum.
    cbn [coalesce_from map].
    change (sumZ (picked pick e :: ?t)) with (picked pick e + sumZ t).
    destruct (starts_block cur e) eqn:Hsb.
    + rewrite wadd_small by lia.
      destruct (IH (GlobalEdge.mk (GlobalEdge.u e) (GlobalEdge.v e)
                                  (0 + GlobalEdge.weight e)) Hl)
        as [E HF]; simpl; try lia.
      split.
      * cbn [map]. change (sumZ (?x :: ?t)) with (x + sumZ t).
        rewrite E. unfold picked. simpl.
        destruct (pick (GlobalEdge.u cur) _), (pick (GlobalEdge.u e) _); lia.
      * constructor; [exact Hcur|exact HF].
    + apply starts_block_spec in Hsb as [Hu Hv].
      rewrite wadd_small by lia.
      destruct (IH (GlobalEdge.mk (GlobalEdge.u e) (GlobalEdge.v e)
                      (GlobalEdge.weight cur + GlobalEdge.weight e)) Hl)
        as [E HF]; simpl; try lia.
      split; [|exact HF].
      rewrite E. unfold picked. simpl. rewrite <- Hu, <- Hv.
      destruct (pick _ _); lia.
Qed.

Lemma coalesce_picked pick (l : list GlobalEdge.t) :
  Forall (fun e => 0 <= GlobalEdge.weight e) l ->
  sumZ (map GlobalEdge.weight l) < 2 ^ 31 ->
  sumZ (map (picked pick) (coalesce l)) = sumZ (map (picked pick) l)
  /\ Forall (fun e => 0 <= GlobalEdge.weight e) (coalesce l).
Proof.
  intros Hl Hsum. destruct l as [|e l]; [split; [reflexivity|constructor]|].
  apply Forall_cons in Hl as [He Hl].
  assert (0 <= sumZ (map GlobalEdge.weight l))
    by (apply sumZ_nonneg, Forall_map; exact Hl).
  cbn [map] in Hsum. change (sumZ (?x :: ?t)) with (x + sumZ t) in Hsum.
  cbn [coalesce map]. change (sumZ (?x :: ?t)) with (x + sumZ t).
  rewrite wadd_small by lia.
  destruct (coalesce_from_picked pick l
              (GlobalEdge.mk (GlobalEdge.u e) (GlobalEdge.v e)
                             (0 + GlobalEdge.weight e)) Hl)
    as [E HF]; simpl; try lia.
  split; [|exact HF]. rewrite E. unfold picked. simpl.
  destruct (pick _ _); lia.
Qed.

(** [map[key] += weight] adds the weight. *)
Lemma rating_add_weight (m : RatingMap) (k wt : Z) :
  Forall (fun kv : Z * Z => 0 <= kv.2) m -> 0 <= wt ->
  sumZ (map snd m) + wt < 2 ^ 31 ->
  sumZ (map snd (rating_add m k wt)) = sumZ (map snd m) + wt
  /\ Forall (fun kv : Z * Z => 0 <= kv.2) (rating_add m k wt).
Proof.
  induction m as [|[k' x] m IH]; intros Hm Hwt Hsum.
  - simpl in *. rewrite wadd_small by lia. split; [lia|].
    repeat constructor. simpl. lia.
  - apply Forall_cons in Hm as [Hx Hm]. simpl in Hx.
    assert (0 <= sumZ (map snd m)).
    { apply sumZ_nonneg, Forall_map. exact Hm. }
    cbn [map snd] in Hsum. change (sumZ (?y :: ?t)) with (y + sumZ t) in Hsum.
    cbn [rating_add]. destruct (k' =? k).
    + rewrite wadd_small by lia. split.
      * cbn [map snd]. change (sumZ (?y :: ?t)) with (y + sumZ t). lia.
      * constructor; [simpl; lia|exact Hm].
    + destruct (IH Hm Hwt ltac:(lia)) as [E HF]. split.
      * cbn [map snd]. change (sumZ (?y :: ?t)) with (y + sumZ t).
        rewrite E. lia.
      * constructor; [exact Hx|exact HF].
Qed.

(** The weight of a rating map is the weight of the edges that entered
    it and do not lead to the coarse node itself. *)
Lemma enter_weight (c_u : Z) (l : list (Z * Z)) : forall m,
  Forall (fun kv : Z * Z => 0 <= kv.2) m ->
  Forall (fun kw : Z * Z => 0 <= kw.2) l ->
  sumZ (map snd m) + sumZ (map snd l) < 2 ^ 31 ->
  sumZ (map snd (fold_left (enter c_u) l m))
  = sumZ (map snd m)
    + sumZ (map (fun kw : Z * Z => if kw.1 =? c_u then 0 else kw.2) l).
Proof.
  induction l as [|kw l IH]; intros m Hm Hl Hsum; [simpl; lia|].
  apply Forall_cons in Hl as [Hkw Hl].
  assert (0 <= sumZ (map snd l))
    by (apply sumZ_nonneg, Forall_map; exact Hl).
  cbn [map] in *. change (sumZ (?y :: ?t)) with (y + sumZ t) in *.
  cbn [fold_left]. unfold enter at 2. unfold add_unless_loop.
  destruct (kw.1 =? c_u).
  - rewrite IH by (auto; lia). lia.
  - destruct (rating_add_weight m kw.1 kw.2 Hm Hkw ltac:(lia)) as [E HF].
    rewrite IH by (auto; lia). lia.
Qed.

(** The runs of a list of edges, weighted. *)
Lemma runs_partition_weight (f : GlobalEdge.t -> Z) (n : Z)
    (full : list GlobalEdge.t) :
  0 <= n -> n + zlen full < 2 ^ 32 ->
  forall edges pre prev,
    full = pre ++ edges ->
    sumZ (map (fun kx : Z * Z =>
                 sumZ (map f (run_of kx.1 (drop (Z.to_nat (kx.2 - n)) full))))
              (run_starts_from n prev (zlen pre) edges))
    = sumZ (map f edges) - sumZ (map f (run_of prev edges)).
Proof.
  intros Hn Hsmall edges.
  induction edges as [|e es IH]; intros pre prev Hfull; [reflexivity|].
  assert (Hlen : zlen full = zlen pre + 1 + zlen es).
  { rewrite Hfull, zlen_app, zlen_cons. lia. }
  pose proof (zlen_nonneg pre). pose proof (zlen_nonneg es).
  cbn [run_starts_from]. rewrite map_app, sumZ_app.
  replace (zlen pre + 1) with (zlen (pre ++ [e]))
    by (rewrite zlen_app; reflexivity).
  rewrite (IH (pre ++ [e]) (GlobalEdge.u e))
    by (now rewrite <- app_assoc).
  cbn [run_of map]. change (sumZ (f e :: ?t)) with (f e + sumZ t).
  destruct (Z.eqb_spec (GlobalEdge.u e) prev) as [->|Hne].
  - cbn [map]. change (sumZ (f e :: ?t)) with (f e + sumZ t).
    change (sumZ []) with 0. lia.
  - cbn [map fst snd]. change (sumZ (?y :: ?t)) with (y + sumZ t).
    rewrite wrap64_small, wrap32_small by lia.
    replace (Z.to_nat (n + zlen pre - n)) with (length pre)
      by (unfold zlen; lia).
    rewrite Hfull, drop_app_length. cbn [run_of]. rewrite Z.eqb_refl.
    cbn [map]. change (sumZ (f e :: ?t)) with (f e + sumZ t).
    change (sumZ []) with 0. lia.
Qed.

Lemma run_starts_partition_weight (f : GlobalEdge.t -> Z) (n : Z)
    (edges : list GlobalEdge.t) :
  0 <= n -> n + zlen edges < 2 ^ 32 ->
  sumZ (map (fun kx : Z * Z =>
               sumZ (map f (run_of kx.1 (drop (Z.to_nat (kx.2 - n)) edges))))
            (run_starts n edges))
  = sumZ (map f edges).
Proof.
  intros Hn Hsmall. destruct edges as [|e es]; [reflexivity|].
  pose proof (zlen_nonneg es).
  unfold run_starts. rewrite map_cons.
  change (sumZ (?x :: ?l)) with (x + sumZ l).
  change 1 with (zlen [e]) at 1.
  rewrite (runs_partition_weight f n (e :: es) Hn Hsmall es [e]
             (GlobalEdge.u e) eq_refl).
  cbn [fst snd]. rewrite wrap64_small, wrap32_small
    by (rewrite zlen_cons in Hsmall; lia).
  rewrite Z.sub_diag. change (Z.to_nat 0) with 0%nat. rewrite drop_0.
  cbn [run_of]. rewrite Z.eqb_refl.
  cbn [map]. change (sumZ (f e :: ?t)) with (f e + sumZ t). lia.
Qed.

(** ** Coarse nodes of different clusters are different *)

Section CoarseInjective.

Variable checked : bool.
Variables (D : list Z) (GC : Z -> Z) (w : World).
Hypothesis Hvalid : valid_world D GC w.
Hypothesis Hsmall : small_world D w.

Lemma coarse_local_inj c c' :
  inhabited w c -> inhabited w c' -> owner_of D c = owner_of D c' ->
  coarse_local checked D w c = coarse_local checked D w c' -> c = c'.
Proof.
  intros Hc Hc' Ho Heq.
  destruct (owner_of_spec D GC w Hvalid c (inhabited_valid D GC w Hvalid c Hc))
    as (Hp & _).
  destruct (rank_pe D GC w Hvalid _ Hp) as (pe & Hin & Hpe).
  destruct (inhabited_nonempty D GC w Hvalid c _ pe Hc Hin eq_refl)
    as (_ & Hi & Hne).
  destruct (inhabited_nonempty D GC w Hvalid c' _ pe Hc' Hin (eq_sym Ho))
    as (_ & Hi' & Hne').
  destruct (lnode_to_lcnode_props checked D GC w Hvalid Hsmall _ pe Hpe Hin)
    as (_ & _ & _ & Hprops).
  destruct (Hprops _ Hi Hne) as (k & Hk & _ & Hback).
  destruct (Hprops _ Hi' Hne') as (k' & Hk' & _ & Hback').
  unfold coarse_local in Heq. rewrite <- Ho in Heq.
  rewrite Hk, Hk' in Heq. simpl in Heq. subst k'.
  rewrite Hback in Hback'.
  assert (E : local_index D c = local_index D c') by congruence.
  rewrite (local_index_owner D GC _ pe c Hpe eq_refl),
          (local_index_owner D GC _ pe c' Hpe (eq_sym Ho)) in E.
  lia.
Qed.

Lemma coarse_id_inj c c' :
  inhabited w c -> inhabited w c' ->
  coarse_id checked D w c = coarse_id checked D w c' -> c = c'.
Proof.
  intros Hc Hc' Heq.
  pose proof (coarse_id_owner checked D GC w Hvalid Hsmall c c' Hc Hc' Heq)
    as Ho.
  apply coarse_local_inj; auto.
  unfold coarse_id in Heq. rewrite Ho in Heq. lia.
Qed.

Lemma clocal_inj r pe c c' :
  ix w r = Some pe ->
  inhabited w c -> covered pe (request_state checked w r) c ->
  inhabited w c' -> covered pe (request_state checked w r) c' ->
  clocal checked D w r pe c = clocal checked D w r pe c' -> c = c'.
Proof.
  intros Hin Hc Hcov Hc' Hcov' Heq.
  pose proof (clocal_global checked D GC w r pe c Hvalid Hsmall Hin Hc Hcov)
    as E.
  pose proof (clocal_global checked D GC w r pe c' Hvalid Hsmall Hin Hc' Hcov')
    as E'.
  rewrite Heq, E' in E. apply coarse_id_inj; auto. congruence.
Qed.

End CoarseInjective.

(** ** The weight of the edges that stay and of the edges that leave *)

Definition edge_weights_nonneg (w : World) : Prop :=
  forall pe e, In pe w -> 0 <= e < zlen (Graph._edges (graph pe)) ->
               0 <= weight_of_edge (graph pe) e.

(** The picked weight of the edges of a node, of all nodes of a process,
    of the nodes whose cluster the process owns, and of the edge records
    that leave the process. *)
Definition node_edge_weight (pick : Z -> Z -> bool) (pe : PE) (u : Z) : Z :=
  sumZ (map (picked pick) (edge_records pe u)).

Definition adjacent_edge_weight (pick : Z -> Z -> bool) (pe : PE) : Z :=
  sumZ (map (node_edge_weight pick pe) (seqZ 0 (Graph.n (graph pe)))).

Definition staying_edge_weight (pick : Z -> Z -> bool) (pe : PE) : Z :=
  sumZ (map (fun u =>
               if Graph.is_owned_global_node (graph pe) (cluster_at pe u)
               then node_edge_weight pick pe u else 0)
            (seqZ 0 (Graph.n (graph pe)))).

Definition away_edge_weight (pick : Z -> Z -> bool) (pe : PE) : Z :=
  sumZ (map (picked pick) (raw_nonlocal_edges pe)).

Definition received_edge_weight (pick : Z -> Z -> bool) (D : list Z)
    (w : World) (r : Z) : Z :=
  sumZ (map (picked pick) (received_edge_records D w r)).

(** The weight of the adjacency lists of all nodes. *)
Definition adjacent_weight (w : World) : Z :=
  sumZ (map (adjacent_edge_weight every) w).

Lemma staying_away_edges pick pe :
  staying_edge_weight pick pe + away_edge_weight pick pe
  = adjacent_edge_weight pick pe.
Proof.
  unfold staying_edge_weight, away_edge_weight, adjacent_edge_weight,
    raw_nonlocal_edges.
  rewrite sumZ_flat_map. unfold away_nodes, away.
  apply (sumZ_filter_split
           (fun u => Graph.is_owned_global_node (graph pe) (cluster_at pe u))
           (node_edge_weight pick pe)).
Qed.

Section EdgeWeightSums.

Variables (D : list Z) (GC : Z -> Z) (w : World).
Hypothesis Hvalid : valid_world D GC w.
Hypothesis Hnonneg : edge_weights_nonneg w.

Lemma edge_record_weights pe u :
  In pe w -> 0 <= u < Graph.n (graph pe) ->
  Forall (fun e => 0 <= GlobalEdge.weight e) (edge_records pe u).
Proof.
  intros Hpe Hu. destruct (pe_valid D GC w Hvalid pe Hpe) as (r & Hr & Hv).
  destruct (neighbors_spec D GC r pe Hv u Hu) as [_ Hadj].
  unfold edge_records. apply Forall_map.
  eapply Forall_impl; [exact Hadj|]. intros ev (He & _). simpl.
  now apply Hnonneg.
Qed.

Lemma node_edge_weight_nonneg pick pe u :
  In pe w -> 0 <= u < Graph.n (graph pe) -> 0 <= node_edge_weight pick pe u.
Proof.
  intros Hpe Hu. unfold node_edge_weight. apply sumZ_nonneg, Forall_map.
  eapply Forall_impl; [apply (edge_record_weights pe u Hpe Hu)|].
  intros e He. now apply picked_nonneg.
Qed.

Lemma staying_edge_nonneg pick pe :
  In pe w -> 0 <= staying_edge_weight pick pe.
Proof.
  intros Hpe. unfold staying_edge_weight. apply sumZ_nonneg, Forall_forall.
  intros x Hx. apply list_elem_of_In, in_map_iff in Hx as (u & <- & Hu).
  apply list_elem_of_In, elem_of_seqZ in Hu.
  destruct (Graph.is_owned_global_node _ _); [|lia].
  apply node_edge_weight_nonneg; [exact Hpe|lia].
Qed.

Lemma raw_edges_nonneg pe :
  In pe w ->
  Forall (fun e => 0 <= GlobalEdge.weight e) (raw_nonlocal_edges pe).
Proof.
  intros Hpe. apply Forall_forall. intros e He.
  apply list_elem_of_In, in_flat_map in He as (u & Hu & He).
  apply List.filter_In in Hu as [Hu _].
  apply list_elem_of_In, elem_of_seqZ in Hu.
  pose proof (edge_record_weights pe u Hpe ltac:(lia)) as H.
  rewrite Forall_forall in H. apply H. now apply list_elem_of_In.
Qed.

Lemma away_edge_nonneg pick pe : In pe w -> 0 <= away_edge_weight pick pe.
Proof.
  intros Hpe. unfold away_edge_weight. apply sumZ_nonneg, Forall_map.
  eapply Forall_impl; [apply (raw_edges_nonneg pe Hpe)|].
  intros e He. now apply picked_nonneg.
Qed.

Lemma adjacent_le pe :
  In pe w -> adjacent_edge_weight every pe <= adjacent_weight w.
Proof.
  intros Hpe. unfold adjacent_weight. apply sumZ_member_le.
  - apply Forall_forall. intros x Hx.
    apply list_elem_of_In, in_map_iff in Hx as (q & <- & Hq).
    rewrite <- staying_away_edges.
    pose proof (staying_edge_nonneg every q Hq).
    pose proof (away_edge_nonneg every q Hq). lia.
  - now apply in_map.
Qed.

Hypothesis Hbound : adjacent_weight w < 2 ^ 31.

Lemma away_edge_small pe : In pe w -> away_edge_weight every pe < 2 ^ 31.
Proof.
  intros Hpe. pose proof (adjacent_le pe Hpe) as H.
  rewrite <- staying_away_edges in H.
  pose proof (staying_edge_nonneg every pe Hpe). lia.
Qed.

(** Coalescing the sorted records keeps their weight. *)
Lemma sent_edge_weight pick pe :
  In pe w ->
  sumZ (map (picked pick) (sent_edges pe)) = away_edge_weight pick pe
  /\ Forall (fun e => 0 <= GlobalEdge.weight e) (sent_edges pe).
Proof.
  intros Hpe. unfold sent_edges.
  destruct (coalesce_picked pick
              (parallel_sort edge_less (raw_nonlocal_edges pe)))
    as [E HF].
  - apply Forall_forall. intros e He.
    rewrite (parallel_sort_Permutation edge_less) in He.
    pose proof (raw_edges_nonneg pe Hpe) as H.
    rewrite Forall_forall in H. now apply H.
  - rewrite (sumZ_Permutation _ (map GlobalEdge.weight (raw_nonlocal_edges pe)))
      by apply Permutation_map, parallel_sort_Permutation.
    apply (away_edge_small pe Hpe).
  - split; [|exact HF]. rewrite E.
    apply sumZ_Permutation, Permutation_map, parallel_sort_Permutation.
Qed.

(** What all processes receive is what all processes send. *)
Lemma received_edge_total pick :
  sumZ (map (received_edge_weight pick D w) (ranks w))
  = sumZ (map (away_edge_weight pick) w).
Proof.
  unfold received_edge_weight, received_edge_records.
  rewrite (map_ext _ (fun r => sumZ (map (fun pe =>
             sumZ (map (picked pick)
                       (List.filter (fun e => edge_owner D e =? r)
                                    (sent_edges pe)))) w))).
  2:{ intros r. apply sumZ_flat_map. }
  rewrite sumZ_exchange. apply f_equal. apply map_ext_in. intros pe Hpe.
  destruct (pe_valid D GC w Hvalid pe Hpe) as (q & Hq & Hv).
  unfold ranks. rewrite sumZ_by_key; [apply (sent_edge_weight pick pe Hpe)|].
  apply (sent_edges_keys D GC w Hvalid q pe Hv Hq).
Qed.

Lemma received_edges_nonneg r :
  Forall (fun e => 0 <= GlobalEdge.weight e) (received_edge_records D w r).
Proof.
  apply Forall_forall. intros e He.
  apply list_elem_of_In, in_flat_map in He as (pe & Hpe & He).
  apply List.filter_In in He as [He _].
  destruct (sent_edge_weight every pe Hpe) as [_ H].
  rewrite Forall_forall in H. apply H. now apply list_elem_of_In.
Qed.

Lemma received_edge_nonneg pick r : 0 <= received_edge_weight pick D w r.
Proof.
  unfold received_edge_weight. apply sumZ_nonneg, Forall_map.
  eapply Forall_impl; [apply received_edges_nonneg|].
  intros e He. now apply picked_nonneg.
Qed.

(** Every edge of a node stays or leaves with the node. *)
Lemma edges_stay_or_leave pick :
  sumZ (map (staying_edge_weight pick) w)
  + sumZ (map (received_edge_weight pick D w) (ranks w))
  = sumZ (map (adjacent_edge_weight pick) w).
Proof.
  rewrite received_edge_total, <- sumZ_map_add.
  apply f_equal. apply map_ext. intros pe. apply staying_away_edges.
Qed.

(** The weight that reaches one process is at most the weight of the
    graph. *)
Lemma process_edge_weight_le r pe :
  ix w r = Some pe ->
  staying_edge_weight every pe + received_edge_weight every D w r
  <= adjacent_weight w.
Proof.
  intros Hin. unfold adjacent_weight. rewrite <- edges_stay_or_leave.
  pose proof (rank_range w r pe Hin) as Hr.
  assert (staying_edge_weight every pe
          <= sumZ (map (staying_edge_weight every) w)).
  { apply sumZ_member_le.
    - apply Forall_forall. intros x Hx.
      apply list_elem_of_In, in_map_iff in Hx as (pe' & <- & Hpe').
      now apply staying_edge_nonneg.
    - apply in_map. eapply ix_In, Hin. }
  assert (received_edge_weight every D w r
          <= sumZ (map (received_edge_weight every D w) (ranks w))).
  { apply sumZ_member_le.
    - apply Forall_forall. intros x Hx.
      apply list_elem_of_In, in_map_iff in Hx as (q & <- & _).
      apply received_edge_nonneg.
    - apply in_map. apply list_elem_of_In, elem_of_seqZ. lia. }
  lia.
Qed.

End EdgeWeightSums.

(** ** The weight in the rating maps of a process *)

Lemma sumZ_concat (l : list (list Z)) : sumZ (concat l) = sumZ (map sumZ l).
Proof.
  induction l as [|x l IH]; [reflexivity|].
  cbn [concat map]. rewrite sumZ_app, IH. reflexivity.
Qed.

(** What an edge to the coarse node [kw.1] with weight [kw.2] adds to
    the rating map of the coarse node [c_u]. *)
Definition entering (c_u : Z) (kw : Z * Z) : Z :=
  if kw.1 =? c_u then 0 else kw.2.

Section RatingWeight.

Variable checked : bool.
Variables (D : list Z) (GC : Z -> Z) (w : World).
Hypothesis Hvalid : valid_world D GC w.
Hypothesis Hsmall : small_world D w.

Section OnePE.

Variables (r : Z) (pe : PE).
Hypothesis Hin : ix w r = Some pe.

Local Abbreviation CN := (cn checked w r).
Local Abbreviation CL := (clocal checked D w r pe).
Local Abbreviation LE := (ledges checked D w r).
Local Abbreviation HD := (handled checked D w r pe).

(** A sum over the edges that reach the rating maps, by where the
    edges come from. *)
Lemma handled_sum (g : Z -> Z * Z -> Z) :
  sumZ (map (fun c => sumZ (map (g c) (HD c))) (seqZ 0 CN))
  = sumZ (map (fun u =>
                 if Graph.is_owned_global_node (graph pe) (cluster_at pe u)
                 then sumZ (map (fun ev : Z * Z =>
                                   g (coarse_local checked D w (cluster_at pe u))
                                     (CL (cluster_at pe ev.2),
                                      weight_of_edge (graph pe) ev.1))
                                (adjacency (graph pe) u))
                 else 0)
              (seqZ 0 (Graph.n (graph pe))))
    + sumZ (map (fun e => g (GlobalEdge.u e)
                            (CL (GlobalEdge.v e), GlobalEdge.weight e))
                LE).
Proof.
  pose proof (vw_pe _ _ _ Hvalid _ _ Hin) as Hpe.
  pose proof (n_le_total D GC w Hvalid r pe Hin) as Hn.
  pose proof (zlen_ledges checked D GC w Hvalid r) as Hle.
  unfold small_world in Hsmall.
  rewrite (map_ext _ (fun c =>
             sumZ (map (fun kv : Z * Z =>
                          sumZ (map (g kv.1)
                                    (handled_by checked D w r pe kv.1 kv.2)))
                       (List.filter (fun kv : Z * Z => kv.1 =? c)
                                    (contributors checked D w r pe))))).
  2:{ intros c. unfold handled, bucket.
      rewrite sumZ_flat_map, map_rev, sumZ_rev, map_map.
      apply f_equal. apply map_ext_in. intros kv Hkv.
      apply List.filter_In in Hkv as [_ Hk]. apply Z.eqb_eq in Hk.
      now rewrite Hk. }
  rewrite (sumZ_by_key fst).
  2:{ eapply Forall_impl;
        [apply (contributors_keys checked D GC w Hvalid Hsmall r pe Hin)|].
      intros kv H. apply H. }
  unfold contributors. rewrite map_app, sumZ_app. f_equal.
  - unfold home_entries. rewrite sumZ_flat_map. apply f_equal.
    apply map_ext_in. intros u Hu. apply list_elem_of_In, elem_of_seqZ in Hu.
    unfold home_entry.
    destruct (Graph.is_owned_global_node _ _); [|reflexivity].
    cbn [map fst snd]. change (sumZ [?x]) with (x + 0).
    unfold handled_by.
    replace (u <? Graph.n (graph pe)) with true
      by (symmetry; apply Z.ltb_lt; lia).
    rewrite map_map. lia.
  - etransitivity;
      [|apply (run_starts_partition_weight
                 (fun e => g (GlobalEdge.u e)
                             (CL (GlobalEdge.v e), GlobalEdge.weight e))
                 (Graph.n (graph pe)) LE); lia].
    apply f_equal. apply map_ext_in. intros [k x] Hkx.
    destruct (run_starts_spec _ _ _ _ Hkx) as (j & e & Hj & _ & _ & ->).
    rewrite wrap64_small, wrap32_small by lia.
    unfold handled_by, run_at. cbn [fst snd].
    replace (Graph.n (graph pe) + j <? Graph.n (graph pe)) with false
      by (symmetry; apply Z.ltb_ge; lia).
    rewrite map_map. apply f_equal. apply map_ext_in. intros e' He'.
    apply run_of_incl in He' as [_ ->]. reflexivity.
Qed.

Lemma owner_owned c :
  0 <= c < total_nodes D -> owner_of D c = r ->
  Graph.is_owned_global_node (graph pe) c = true.
Proof.
  intros Hc Ho. pose proof (vw_pe _ _ _ Hvalid _ _ Hin) as Hpe.
  destruct (Graph.is_owned_global_node (graph pe) c) eqn:E; [reflexivity|].
  apply (is_owned_false D GC w Hvalid r pe Hpe Hin c Hc) in E. contradiction.
Qed.

(** All edges that reach the rating maps. *)
Lemma handled_every :
  sumZ (map (fun c => sumZ (map snd (HD c))) (seqZ 0 CN))
  = staying_edge_weight every pe + received_edge_weight every D w r.
Proof.
  etransitivity; [exact (handled_sum (fun _ kw => kw.2))|]. f_equal.
  - unfold staying_edge_weight. apply f_equal. apply map_ext. intros u.
    destruct (Graph.is_owned_global_node _ _); [|reflexivity].
    unfold node_edge_weight, edge_records. rewrite map_map. reflexivity.
  - unfold received_edge_weight, ledges. rewrite map_map.
    etransitivity;
      [|apply sumZ_Permutation, Permutation_map,
          (parallel_sort_Permutation source_less)].
    reflexivity.
Qed.

(** The edges that reach the rating maps and do not lead to the coarse
    node itself are the edges between different clusters. *)
Lemma handled_across :
  sumZ (map (fun c => sumZ (map (entering c) (HD c))) (seqZ 0 CN))
  = staying_edge_weight across pe + received_edge_weight across D w r.
Proof.
  pose proof (vw_pe _ _ _ Hvalid _ _ Hin) as Hpe.
  pose proof (vp_total D GC r pe Hpe) as Htot.
  pose proof (vp_ghost_n_nonneg D GC r pe Hpe) as Hgn.
  destruct (requests_spec checked D GC w Hvalid Hsmall r pe Hin)
    as (_ & _ & _ & _ & Hcov & _).
  rewrite (handled_sum entering). f_equal.
  - unfold staying_edge_weight. apply f_equal. apply map_ext_in.
    intros u Hu. apply list_elem_of_In, elem_of_seqZ in Hu.
    destruct (Graph.is_owned_global_node (graph pe) (cluster_at pe u))
      eqn:Hown; [|reflexivity].
    unfold node_edge_weight, edge_records. rewrite map_map.
    apply f_equal. apply map_ext_in. intros ev Hev.
    destruct (neighbors_spec D GC r pe Hpe u ltac:(lia)) as [_ Hadj].
    rewrite Forall_forall in Hadj.
    destruct (Hadj ev) as (_ & Hv & _); [now apply list_elem_of_In|].
    assert (Hiu : inhabited w (cluster_at pe u)).
    { exists r, pe, u. split; [exact Hin|]. split; [lia|reflexivity]. }
    assert (Hiv : inhabited w (cluster_at pe ev.2)).
    { exists r, pe, ev.2. auto. }
    destruct (clocal_owned checked D GC w Hvalid Hsmall r pe Hin _ Hiu Hown)
      as (_ & Heq & _).
    unfold entering, picked, across. cbn [fst snd GlobalEdge.u GlobalEdge.v
                                          GlobalEdge.weight].
    rewrite <- Heq.
    destruct (Z.eqb_spec (cluster_at pe u) (cluster_at pe ev.2)) as [E|E].
    + rewrite <- E, Z.eqb_refl. reflexivity.
    + destruct (Z.eqb_spec (CL (cluster_at pe ev.2)) (CL (cluster_at pe u)))
        as [E'|E']; [|reflexivity].
      exfalso. apply E. symmetry.
      apply (clocal_inj checked D GC w Hvalid Hsmall r pe _ _ Hin Hiv
               (Hcov u ev ltac:(lia) Hown Hev) Hiu (or_introl Hown) E').
  - unfold received_edge_weight, ledges. rewrite map_map.
    etransitivity;
      [|apply sumZ_Permutation, Permutation_map,
          (parallel_sort_Permutation source_less)].
    apply f_equal. apply map_ext_in. intros e He.
    pose proof (sorted_edges_spec checked D GC w Hvalid Hsmall r pe Hin) as H.
    rewrite Forall_forall in H.
    destruct (H e) as (Hu & Ho & Hv & Hcv); [now apply list_elem_of_In|].
    pose proof (owner_owned _ (inhabited_valid D GC w Hvalid _ Hu) Ho) as Hown.
    destruct (clocal_owned checked D GC w Hvalid Hsmall r pe Hin _ Hu Hown)
      as (_ & Heq & _).
    unfold entering, picked, across, localize.
    cbn [fst snd GlobalEdge.u GlobalEdge.v GlobalEdge.weight].
    rewrite <- Heq.
    destruct (Z.eqb_spec (GlobalEdge.u e) (GlobalEdge.v e)) as [E|E].
    + rewrite <- E, Z.eqb_refl. reflexivity.
    + destruct (Z.eqb_spec (CL (GlobalEdge.v e)) (CL (GlobalEdge.u e)))
        as [E'|E']; [|reflexivity].
      exfalso. apply E. symmetry.
      apply (clocal_inj checked D GC w Hvalid Hsmall r pe _ _ Hin Hv Hcv Hu
               (or_introl Hown) E').
Qed.

Hypothesis Hnonneg : edge_weights_nonneg w.
Hypothesis Hbound : adjacent_weight w < 2 ^ 31.

Lemma handled_weights c : Forall (fun kw : Z * Z => 0 <= kw.2) (HD c).
Proof.
  pose proof (vw_pe _ _ _ Hvalid _ _ Hin) as Hpe.
  apply Forall_forall. intros kw Hkw.
  apply list_elem_of_In, in_flat_map in Hkw as (x & Hx & Hkw).
  unfold handled_by in Hkw.
  destruct (bucket_entry checked D GC w Hvalid Hsmall r pe Hin c x Hx)
    as [(Hu & _)|(j & e & Hj & _ & _ & -> & _)].
  - replace (x <? Graph.n (graph pe)) with true in Hkw
      by (symmetry; apply Z.ltb_lt; lia).
    apply in_map_iff in Hkw as (ev & <- & Hev).
    destruct (neighbors_spec D GC r pe Hpe x Hu) as [_ Hadj].
    rewrite Forall_forall in Hadj.
    destruct (Hadj ev) as (He & _); [now apply list_elem_of_In|].
    simpl. apply Hnonneg; [eapply ix_In, Hin|exact He].
  - replace (Graph.n (graph pe) + j <? Graph.n (graph pe)) with false in Hkw
      by (symmetry; apply Z.ltb_ge; lia).
    apply in_map_iff in Hkw as (e' & <- & He').
    unfold run_at in He'. apply run_of_incl in He' as [He' _].
    apply In_drop in He'. unfold ledges in He'.
    apply in_map_iff in He' as (e0 & <- & He0).
    apply list_elem_of_In in He0. unfold sorted_edges in He0.
    rewrite (parallel_sort_Permutation source_less) in He0.
    pose proof (received_edges_nonneg D GC w Hvalid Hnonneg Hbound r) as H.
    rewrite Forall_forall in H. simpl. now apply H.
Qed.

End OnePE.

End RatingWeight.

(** ** The weight of the coarse edges *)

(** The weight of the edge entries of the graphs that
    [contract_clustering] returns, over all processes. *)
Definition contracted_edge_weight (checked : bool) (w : World) : outcome Z :=
  weights ← omapM (fun r => res ← contract_clustering checked w r;
                            Ok (sumZ (Graph._edge_weights res.1)))
                  (ranks w);
  Ok (sumZ weights).

(** The edges between different clusters are the edges that are not
    inside a cluster. *)
Lemma across_weight (w : World) :
  sumZ (map (adjacent_edge_weight across) w)
  = adjacent_weight w - inner_edge_weight w.
Proof.
  enough (sumZ (map (adjacent_edge_weight across) w) + inner_edge_weight w
          = adjacent_weight w) by lia.
  unfold inner_edge_weight, adjacent_weight. rewrite <- sumZ_map_add.
  apply f_equal. apply map_ext. intros pe.
  unfold adjacent_edge_weight. rewrite <- sumZ_map_add.
  apply f_equal. apply map_ext. intros u.
  unfold node_edge_weight, edge_records. rewrite !map_map.
  rewrite <- sumZ_map_add. apply f_equal. apply map_ext. intros ev.
  unfold picked, across, every.
  cbn [GlobalEdge.u GlobalEdge.v GlobalEdge.weight].
  destruct (cluster_at pe u =? cluster_at pe ev.2); simpl; lia.
Qed.

(** When the adjacency arrays cover the edge array, the adjacency lists
    hold every edge entry. *)
Lemma adjacent_all_edges (D : list Z) (GC : Z -> Z) (r : Z) (pe : PE) :
  valid_pe D GC r pe -> csr (graph pe) ->
  adjacent_edge_weight every pe
  = sumZ (map (weight_of_edge (graph pe))
              (seqZ 0 (zlen (Graph._edges (graph pe))))).
Proof.
  intros Hpe [H0 Hlast _].
  pose proof (vp_n_nonneg D GC r pe Hpe) as Hn.
  pose proof (concat_adjacency D GC r pe Hpe (Z.to_nat (Graph.n (graph pe))))
    as E.
  rewrite Z2Nat.id, H0, Hlast, Z.sub_0_r in E by lia.
  specialize (E ltac:(lia)).
  transitivity
    (sumZ (map (fun ev : Z * Z => weight_of_edge (graph pe) ev.1)
               (flat_map (adjacency (graph pe))
                         (seqZ 0 (Graph.n (graph pe)))))).
  - rewrite sumZ_flat_map. unfold adjacent_edge_weight.
    apply f_equal. apply map_ext. intros u.
    unfold node_edge_weight, edge_records. rewrite map_map. reflexivity.
  - rewrite flat_map_concat_map, E, map_map. reflexivity.
Qed.

Lemma adjacent_fine (D : list Z) (GC : Z -> Z) (w : World) :
  valid_world D GC w -> (forall pe, In pe w -> csr (graph pe)) ->
  adjacent_weight w = fine_edge_weight w.
Proof.
  intros Hvalid Hcsr. unfold adjacent_weight, fine_edge_weight.
  apply f_equal. apply map_ext_in. intros pe Hpe.
  destruct (pe_valid D GC w Hvalid pe Hpe) as (r & _ & Hv).
  apply (adjacent_all_edges D GC r pe Hv (Hcsr pe Hpe)).
Qed.

Section CoarseEdgeWeight.

Variable checked : bool.
Variables (D : list Z) (GC : Z -> Z) (w : World).
Hypothesis Hvalid : valid_world D GC w.
Hypothesis Hsmall : small_world D w.
Hypothesis Hnonneg : edge_weights_nonneg w.
Hypothesis Hbound : adjacent_weight w < 2 ^ 31.

Section OnePE.

Variables (r : Z) (pe : PE).
Hypothesis Hin : ix w r = Some pe.

Local Abbreviation CN := (cn checked w r).
Local Abbreviation HD := (handled checked D w r pe).

Lemma handled_weight_small c :
  0 <= c < CN -> sumZ (map snd (HD c)) < 2 ^ 31.
Proof.
  intros Hc.
  pose proof (process_edge_weight_le D GC w Hvalid Hnonneg Hbound r pe Hin)
    as Hle.
  rewrite <- (handled_every checked D GC w Hvalid Hsmall r pe Hin) in Hle.
  enough (sumZ (map snd (HD c))
          <= sumZ (map (fun c => sumZ (map snd (HD c))) (seqZ 0 CN))) by lia.
  apply sumZ_member_le.
  - apply Forall_forall. intros x Hx.
    apply list_elem_of_In, in_map_iff in Hx as (c' & <- & _).
    apply sumZ_nonneg, Forall_map.
    apply (handled_weights checked D GC w Hvalid Hsmall r pe Hin Hnonneg
             Hbound c').
  - apply in_map_iff. exists c. split; [reflexivity|].
    apply list_elem_of_In, elem_of_seqZ. lia.
Qed.

(** The weight of the rating map of a coarse node. *)
Lemma rating_weight c :
  0 <= c < CN ->
  sumZ (map snd (pure_collect checked D w r pe c).2)
  = sumZ (map (entering c) (HD c)).
Proof.
  intros Hc. rewrite pure_collect_handled, enter_weight.
  - reflexivity.
  - constructor.
  - apply (handled_weights checked D GC w Hvalid Hsmall r pe Hin Hnonneg
             Hbound c).
  - pose proof (handled_weight_small c Hc). simpl. lia.
Qed.

(** The edge weights of the coarse graph of a process: the weight of
    the edges between different clusters that stay on the process or
    arrive at it. *)
Lemma cedge_weights_sum :
  sumZ (cedge_weights checked D w r pe)
  = staying_edge_weight across pe + received_edge_weight across D w r.
Proof.
  unfold cedge_weights, ccollected. rewrite sumZ_concat, !map_map.
  rewrite <- (handled_across checked D GC w Hvalid Hsmall r pe Hin).
  apply f_equal. apply map_ext_in. intros c Hc.
  apply list_elem_of_In, elem_of_seqZ in Hc. apply rating_weight. lia.
Qed.

Lemma c_edge_weights_spec :
  benign_past D w r pe ->
  c_edge_weights checked w r = Ok (cedge_weights checked D w r pe).
Proof.
  intros Hb. unfold c_edge_weights.
  now rewrite (collected_spec checked D GC w Hvalid Hsmall r pe Hin Hb).
Qed.

End OnePE.

Hypothesis Hbenign_all :
  forall q peq, ix w q = Some peq -> benign_past D w q peq.

Lemma cedge_weights_total :
  sumZ (map (fun r => sumZ (cedge_weights checked D w r
                              (default no_pe (ix w r))))
            (ranks w))
  = adjacent_weight w - inner_edge_weight w.
Proof.
  rewrite <- across_weight.
  rewrite <- (edges_stay_or_leave D GC w Hvalid Hnonneg Hbound across).
  rewrite <- (map_ranks (staying_edge_weight across) no_pe w).
  rewrite <- sumZ_map_add. apply f_equal. apply map_ext_in. intros r Hr.
  apply (In_rank w) in Hr.
  destruct (rank_pe D GC w Hvalid r Hr) as (pe & Hin & _).
  rewrite Hin. simpl. apply (cedge_weights_sum r pe Hin).
Qed.

Lemma coarse_edge_weight_spec :
  coarse_edge_weight checked w
  = Ok (adjacent_weight w - inner_edge_weight w).
Proof.
  unfold coarse_edge_weight.
  rewrite (omapM_Ok _ (fun r => cedge_weights checked D w r
                                  (default no_pe (ix w r)))).
  - simpl. f_equal. rewrite map_map. apply cedge_weights_total.
  - intros r Hr. apply (In_rank w) in Hr.
    destruct (rank_pe D GC w Hvalid r Hr) as (pe & Hin & _).
    rewrite Hin. simpl.
    apply (c_edge_weights_spec r pe Hin (Hbenign_all r pe Hin)).
Qed.

(** Phase H leaves the edge weights as they are. *)
Lemma contract_clustering_edge_weights r pe c_graph M :
  ix w r = Some pe ->
  contract_clustering checked w r = Ok (c_graph, M) ->
  Graph._edge_weights c_graph = cedge_weights checked D w r pe.
Proof.
  intros Hin E.
  destruct (contract_clustering_structure _ _ _ _ _ E)
    as (cg & Ecg & ws & ->).
  rewrite (coarse_graph_spec checked D GC w Hvalid Hsmall Hbenign_all r pe Hin)
    in Ecg.
  inversion Ecg; subst cg. reflexivity.
Qed.

Lemma contracted_edge_weight_spec :
  symmetric_world w ->
  contracted_edge_weight checked w
  = Ok (adjacent_weight w - inner_edge_weight w).
Proof.
  intros Hsym. unfold contracted_edge_weight.
  rewrite (omapM_Ok _ (fun r => sumZ (cedge_weights checked D w r
                                        (default no_pe (ix w r))))).
  - simpl. f_equal. apply cedge_weights_total.
  - intros r Hr. apply (In_rank w) in Hr.
    destruct (rank_pe D GC w Hvalid r Hr) as (pe & Hin & _).
    rewrite Hin. simpl.
    destruct (contract_clustering_total checked D GC w Hvalid Hsmall
                Hbenign_all Hsym r pe Hin) as (c_graph & M & E).
    rewrite E. simpl. f_equal. f_equal.
    apply (contract_clustering_edge_weights r pe c_graph M Hin E).
Qed.

End CoarseEdgeWeight.

(** ** The contraction as a whole *)

(** The weight of the owned nodes of the graphs that
    [contract_clustering] returns, over all processes. *)
Definition contracted_node_weight (checked : bool) (w : World) : outcome Z :=
  weights ← omapM (fun r => res ← contract_clustering checked w r;
                            Ok (owned_node_weight res.1))
                  (ranks w);
  Ok (sumZ weights).

Ltac reverse_edge b peb y ev' :=
  exists b, peb, y, ev';
  split; [reflexivity|];
  split; [vm_compute; split; [discriminate|reflexivity]|];
  split; [reflexivity|];
  split; [vm_compute; auto|reflexivity].

(** The path is symmetric, whatever the clustering. *)
Lemma path_graphs_symmetric cl0 cl1 p0 p1 :
  symmetric_world
    [ {| graph := Examples.path_0; lnode_to_gcluster := cl0;
         past_local_edges := p0 |};
      {| graph := Examples.path_1; lnode_to_gcluster := cl1;
         past_local_edges := p1 |} ].
Proof.
  set (pe0 := {| graph := Examples.path_0; lnode_to_gcluster := cl0;
                 past_local_edges := p0 |}).
  set (pe1 := {| graph := Examples.path_1; lnode_to_gcluster := cl1;
                 past_local_edges := p1 |}).
  intros a pea x ev Ha Hx Hev.
  pose proof (ix_Some_range _ _ _ Ha) as Hr. unfold zlen in Hr. simpl in Hr.
  assert (a = 0 \/ a = 1) as [-> | ->] by lia; inversion Ha; subst pea.
  - change (Graph.n (graph pe0)) with 1 in Hx. assert (x = 0) as -> by lia.
    vm_compute in Hev. destruct Hev as [<-|[]].
    reverse_edge 1 pe1 0 (0, 2).
  - change (Graph.n (graph pe1)) with 2 in Hx.
    assert (x = 0 \/ x = 1) as [-> | ->] by lia.
    + vm_compute in Hev. destruct Hev as [<-|[<-|[]]].
      * reverse_edge 0 pe0 0 (0, 1).
      * reverse_edge 1 pe1 1 (2, 0).
    + vm_compute in Hev. destruct Hev as [<-|[]].
      reverse_edge 1 pe1 0 (1, 1).
Qed.





(** ** Identity contraction *)



(** * Further properties of the contraction *)

(** ** Edge weight when the block loops end inside the receive buffer *)

Lemma path_world_csr past pe :
  In pe (Examples.path_world past) -> csr (graph pe).
Proof. intros [<-|[<-|[]]]; split; reflexivity. Qed.

Lemma path_world_edges_nonneg past :
  edge_weights_nonneg (Examples.path_world past).
Proof.
  intros pe e Hpe He. destruct Hpe as [<-|[<-|[]]].
  - change (zlen _) with 1 in He. assert (e = 0) as -> by lia.
    vm_compute. discriminate.
  - change (zlen _) with 3 in He.
    assert (e = 0 \/ e = 1 \/ e = 2) as [-> | [-> | ->]] by lia;
      vm_compute; discriminate.
Qed.



(** ** The mapping is the quotient by the clustering *)

Lemma offset_search (f : Z -> Z) (x : Z) (k : nat) :
  f 0 <= x < f (Z.of_nat k) ->
  exists p, 0 <= p < Z.of_nat k /\ f p <= x < f (p + 1).
Proof.
  induction k as [|k IH]; intros Hx.
  - change (Z.of_nat 0) with 0 in Hx. lia.
  - destruct (Z_lt_le_dec x (f (Z.of_nat k))) as [Hlt|Hge].
    + destruct IH as (p & Hp & Hfp); [lia|]. exists p. split; [lia|exact Hfp].
    + exists (Z.of_nat k). split; [lia|].
      replace (Z.of_nat k + 1) with (Z.of_nat (S k)) by lia. lia.
Qed.

Lemma ix_NoDup {A} (l : list A) i j x :
  NoDup l -> ix l i = Some x -> ix l j = Some x -> i = j.
Proof.
  intros Hnd Hi Hj.
  pose proof (ix_Some_range _ _ _ Hi). pose proof (ix_Some_range _ _ _ Hj).
  unfold ix in Hi, Hj.
  destruct (Z.ltb_spec i 0); [lia|]. destruct (Z.ltb_spec j 0); [lia|].
  pose proof (proj1 (NoDup_alt l) Hnd _ _ _ Hi Hj). lia.
Qed.

Lemma NoDup_list_filter {A} (f : A -> bool) (l : list A) :
  NoDup l -> NoDup (List.filter f l).
Proof.
  induction 1 as [|x l Hx Hl IH]; simpl; [constructor|].
  destruct (f x); [|exact IH]. constructor; [|exact IH].
  intros Hmem. apply Hx. apply list_elem_of_In in Hmem.
  apply List.filter_In in Hmem as [Hmem _]. now apply list_elem_of_In.
Qed.

Section MappingQuotient.

Variable checked : bool.
Variables (D : list Z) (GC : Z -> Z) (w : World).
Hypothesis Hvalid : valid_world D GC w.
Hypothesis Hsmall : small_world D w.

(** A cluster with a member has a member among the owned nodes of some
    process. *)
Lemma inhabited_owned c :
  inhabited w c ->
  exists s pes u, ix w s = Some pes /\ 0 <= u < Graph.n (graph pes)
                  /\ cluster_at pes u = c.
Proof.
  intros (q & peq & x & Hq & Hx & ->).
  pose proof (vw_pe _ _ _ Hvalid _ _ Hq) as Hpeq.
  pose proof (global_of_valid D GC w Hvalid q peq Hpeq x Hx) as Hv.
  destruct (cluster_spec D GC q peq Hpeq x Hx) as [_ Hcl].
  destruct (home_of D GC w Hvalid _ Hv) as (s & pes & u & Hs & _ & Hu & _ & Hcu).
  exists s, pes, u. split; [exact Hs|]. split; [exact Hu|]. congruence.
Qed.

(** A coarse node of process [p] is the coarse node of a cluster with
    a member. *)
Lemma coarse_node_cluster p pe lc :
  ix w p = Some pe -> 0 <= lc < cn checked w p ->
  exists c, inhabited w c /\ owner_of D c = p
            /\ coarse_local checked D w c = lc.
Proof.
  intros Hin Hlc. pose proof (vw_pe _ _ _ Hvalid _ _ Hin) as Hpe.
  pose proof (vp_n_nonneg D GC p pe Hpe) as Hn.
  pose proof (vp_total D GC p pe Hpe) as Htot.
  pose proof (vp_ghost_n_nonneg D GC p pe Hpe) as Hgn.
  destruct (lnode_to_lcnode_props checked D GC w Hvalid Hsmall p pe Hpe Hin)
    as (_ & _ & Hcn & Hprops).
  destruct (ix_in_range (nonempty_at D w p pe) lc) as [i Hi]; [lia|].
  pose proof (ix_In _ _ _ Hi) as Hmem.
  unfold nonempty_at, nonempty_clusters in Hmem.
  apply List.filter_In in Hmem as [Hrange Hne].
  apply list_elem_of_In, elem_of_seqZ in Hrange.
  destruct (Hprops i ltac:(lia) Hne) as (lc' & Hlc' & _ & Hback).
  assert (lc' = lc).
  { apply (ix_NoDup (nonempty_at D w p pe) lc' lc i); auto.
    unfold nonempty_at, nonempty_clusters.
    apply NoDup_list_filter, NoDup_seqZ. }
  subst lc'.
  set (c := Graph.offset_n (graph pe) + i).
  assert (Hown : Graph.is_owned_global_node (graph pe) c = true).
  { apply (is_owned_spec D GC p pe Hpe). unfold c. lia. }
  assert (Hc : inhabited w c).
  { unfold cluster_nonempty in Hne. apply orb_true_iff in Hne as [Hne|Hne];
      apply existsb_exists in Hne as (y & Hy & Hhit).
    - apply list_elem_of_In, elem_of_seqZ in Hy. unfold hits_own in Hhit.
      destruct (ix (lnode_to_gcluster pe) y) as [cy|] eqn:Ecy; [|discriminate].
      apply andb_true_iff in Hhit as [_ Hhit]. apply Z.eqb_eq in Hhit.
      exists p, pe, y. split; [exact Hin|]. split; [lia|].
      unfold cluster_at. rewrite Ecy. simpl. unfold c. lia.
    - unfold hits_received in Hhit. apply Z.eqb_eq in Hhit.
      pose proof (received_nodes_inhabited D GC w Hvalid p) as H.
      rewrite Forall_forall in H.
      destruct (H y) as (Hy' & _); [now apply list_elem_of_In|].
      replace c with (GlobalNode.u y) by (unfold c; lia). exact Hy'. }
  assert (Ho : owner_of D c = p).
  { apply (is_owned_owner D GC w Hvalid p pe Hpe Hin c); [|exact Hown].
    now apply (inhabited_valid D GC w Hvalid). }
  exists c. split; [exact Hc|]. split; [exact Ho|].
  destruct (coarse_local_spec checked D GC w Hvalid Hsmall c p pe Hc Hin Ho)
    as (Hcl & _).
  replace (c - Graph.offset_n (graph pe)) with i in Hcl by (unfold c; lia).
  congruence.
Qed.

End MappingQuotient.





(** ** What leaves a process and where it arrives *)

Lemma zlen_sum_ones {A} (l : list A) : zlen l = sumZ (map (fun _ => 1) l).
Proof.
  induction l as [|x l IH]; [reflexivity|].
  rewrite zlen_cons, IH. reflexivity.
Qed.

Lemma flat_map_map {A B C} (f : B -> list C) (g : A -> B) (l : list A) :
  flat_map f (map g l) = flat_map (fun x => f (g x)) l.
Proof. induction l as [|x l IH]; simpl; [reflexivity|now rewrite IH]. Qed.

Lemma flat_map_ext_in {A B} (f g : A -> list B) (l : list A) :
  (forall x, In x l -> f x = g x) -> flat_map f l = flat_map g l.
Proof.
  induction l as [|x l IH]; intros H; simpl; [reflexivity|].
  rewrite (H x) by now left. rewrite IH; [reflexivity|].
  intros y Hy. apply H. now right.
Qed.

Lemma filter_ext_in_list {A} (p q : A -> bool) (l : list A) :
  (forall x, In x l -> p x = q x) -> List.filter p l = List.filter q l.
Proof.
  induction l as [|x l IH]; intros H; simpl; [reflexivity|].
  rewrite (H x) by now left. rewrite IH; [reflexivity|].
  intros y Hy. apply H. now right.
Qed.

(** X4.  [find_nonlocal_nodes_and_edges] returns on every process of a
    distributed graph.  A node whose cluster the process owns
    contributes nothing; every other node contributes one node record
    with its cluster and weight and one edge record for each of its
    incident edges, so that no record has a source that the process
    owns, the number of node records is the number of nodes that
    leave, and there are at most as many edge records as edge entries.
    When the process owns the cluster of each of its nodes, both lists
    are empty. *)
Theorem find_nonlocal_nodes_and_edges_leave
    (D : list Z) (GC : Z -> Z) (w : World) (r : Z) (pe : PE) :
  valid_world D GC w -> ix w r = Some pe ->
  exists nodes edges,
    find_nonlocal_nodes_and_edges (graph pe) (lnode_to_gcluster pe)
    = Ok (nodes, edges)
    /\ (forall nd, In nd nodes ->
          Graph.is_owned_global_node (graph pe) (GlobalNode.u nd) = false
          /\ exists u c, 0 <= u < Graph.n (graph pe)
                         /\ ix (lnode_to_gcluster pe) u = Some c
                         /\ Graph.node_weight (graph pe) u
                            = Ok (GlobalNode.weight nd)
                         /\ GlobalNode.u nd = c)
    /\ (forall e, In e edges ->
          Graph.is_owned_global_node (graph pe) (GlobalEdge.u e) = false)
    /\ zlen nodes
       = zlen (List.filter
                 (fun u => negb (Graph.is_owned_global_node
                                   (graph pe) (cluster_at pe u)))
                 (seqZ 0 (Graph.n (graph pe))))
    /\ zlen edges <= zlen (Graph._edges (graph pe))
    /\ ((forall u c, 0 <= u < Graph.n (graph pe) ->
           ix (lnode_to_gcluster pe) u = Some c ->
           Graph.is_owned_global_node (graph pe) c = true) ->
        nodes = [] /\ edges = []).
Proof.
  intros Hvalid Hin. pose proof (vw_pe _ _ _ Hvalid _ _ Hin) as Hpe.
  pose proof (vp_total D GC r pe Hpe) as Htot.
  pose proof (vp_ghost_n_nonneg D GC r pe Hpe) as Hgn.
  exists (raw_nonlocal_nodes pe), (raw_nonlocal_edges pe).
  split; [apply (find_nonlocal_nodes_and_edges_spec D GC r pe Hpe)|].
  split; [|split; [|split; [|split]]].
  - intros nd Hnd. unfold raw_nonlocal_nodes in Hnd.
    apply in_map_iff in Hnd as (u & <- & Hu).
    apply List.filter_In in Hu as [Hu Ha].
    apply list_elem_of_In, elem_of_seqZ in Hu.
    unfold away in Ha. apply negb_true_iff in Ha.
    split; [exact Ha|]. exists u, (cluster_at pe u).
    destruct (cluster_spec D GC r pe Hpe u ltac:(lia)) as [Hc _].
    split; [lia|]. split; [exact Hc|].
    split; [|reflexivity].
    apply (node_weight_spec D GC r pe Hpe). lia.
  - intros e He. unfold raw_nonlocal_edges in He.
    apply in_flat_map in He as (u & Hu & He).
    apply List.filter_In in Hu as [_ Ha].
    unfold away in Ha. apply negb_true_iff in Ha.
    apply in_map_iff in He as (ev & <- & _). exact Ha.
  - unfold raw_nonlocal_nodes, away_nodes. rewrite zlen_map. reflexivity.
  - apply (zlen_raw_nonlocal_edges D GC r pe Hpe).
  - intros Hall.
    assert (E : away_nodes pe = []).
    { unfold away_nodes. apply filter_none. apply Forall_forall.
      intros u Hu. apply elem_of_seqZ in Hu.
      destruct (cluster_spec D GC r pe Hpe u ltac:(lia)) as [Hc _].
      unfold away. now rewrite (Hall u _ ltac:(lia) Hc). }
    unfold raw_nonlocal_nodes, raw_nonlocal_edges. rewrite E. auto.
Qed.

(** Rank 0 of the path: its node 0 leaves for the cluster 2 with its
    weight 3 and its edge to the cluster 1. *)
Lemma find_nonlocal_nodes_and_edges_leave_witness :
  find_nonlocal_nodes_and_edges Examples.path_0 [2; 1]
  = Ok ([GlobalNode.mk 2 3], [GlobalEdge.mk 2 1 1]).
Proof.
  destruct (find_nonlocal_nodes_and_edges_leave [0; 1; 3] path_clustering
              (Examples.path_world [Examples.no_edge]) 0
              {| graph := Examples.path_0; lnode_to_gcluster := [2; 1];
                 past_local_edges := [Examples.no_edge] |}
              (path_world_valid _) eq_refl)
    as (nodes & edges & E & _).
  simpl in E. rewrite E. vm_compute in E. inversion E. reflexivity.
Defined.



(** ** The coarse graphs form a distributed graph *)

(** A graph together with the clustering array that a global
    clustering [GC'] induces on its local nodes. *)
Definition clustered (GC' : Z -> Z) (g : Graph.t) : PE :=
  {| graph := g;
     lnode_to_gcluster :=
       map (fun x => GC' (global_of g x)) (seqZ 0 (Graph.total_n g));
     past_local_edges := [] |}.

Lemma psums_bounds (l : list Z) : forall acc,
  Forall (fun x => 0 <= x) l ->
  Forall (fun x => acc <= x <= acc + sumZ l) (psums acc l)
  /\ StronglySorted Z.le (psums acc l).
Proof.
  induction l as [|x l IH]; intros acc Hl; simpl.
  - split; constructor.
  - apply Forall_cons in Hl as [Hx Hl].
    destruct (IH (acc + x) Hl) as [Hb Hs].
    assert (0 <= sumZ l) by now apply sumZ_nonneg.
    change (sumZ (x :: l)) with (x + sumZ l). split.
    + constructor; [lia|].
      eapply Forall_impl; [exact Hb|]. intros y Hy. simpl in Hy. lia.
    + constructor; [exact Hs|].
      eapply Forall_impl; [exact Hb|]. intros y Hy. simpl in Hy. lia.
Qed.

Lemma displacements_sorted (l : list Z) : forall acc,
  Forall (fun x => 0 <= x) l ->
  Forall (fun x => acc <= x) (displacements acc l)
  /\ StronglySorted Z.le (displacements acc l).
Proof.
  induction l as [|x l IH]; intros acc Hl; simpl.
  - split; constructor.
  - apply Forall_cons in Hl as [Hx Hl].
    destruct (IH (acc + x) Hl) as [Hb Hs]. split.
    + constructor; [lia|].
      eapply Forall_impl; [exact Hb|]. intros y Hy. simpl in Hy. lia.
    + constructor; [exact Hs|].
      eapply Forall_impl; [exact Hb|]. intros y Hy. simpl in Hy. lia.
Qed.

Section CoarseWorld.

Variable checked : bool.
Variables (D : list Z) (GC : Z -> Z) (w : World).
Hypothesis Hvalid : valid_world D GC w.
Hypothesis Hsmall : small_world D w.

Local Abbreviation CD := (cdist checked w).

Lemma cdist_sorted : StronglySorted Z.le CD.
Proof.
  destruct (c_node_distribution_spec checked D GC w Hvalid Hsmall) as (_ & ->).
  apply displacements_sorted. apply Forall_app. split.
  - apply (coarse_counts_nonneg checked D GC w Hvalid Hsmall).
  - repeat constructor. lia.
Qed.

Lemma total_nodes_cdist :
  total_nodes CD = coarse_offset checked w (comm_size w).
Proof.
  pose proof (zlen_cdist checked D GC w Hvalid Hsmall) as Hlen.
  pose proof (comm_size_nonneg w) as Hsize.
  assert (Hne : CD <> []).
  { intros E. rewrite E in Hlen. change (zlen []) with 0 in Hlen. lia. }
  pose proof (last_ix CD 0 Hne) as Hlast.
  rewrite Hlen in Hlast.
  replace (comm_size w + 1 - 1) with (comm_size w) in Hlast by lia.
  rewrite (ix_cdist checked D GC w Hvalid Hsmall) in Hlast by lia.
  unfold total_nodes. congruence.
Qed.

Lemma total_nodes_cdist_le : total_nodes CD <= total_nodes D.
Proof.
  rewrite total_nodes_cdist.
  pose proof (coarse_total_le checked D GC w Hvalid Hsmall) as [_ H].
  unfold coarse_offset. rewrite firstn_all2; [exact H|].
  rewrite (length_coarse_counts checked w). lia.
Qed.

Section OnePE.

Variables (r : Z) (pe : PE).
Hypothesis Hin : ix w r = Some pe.

Local Abbreviation CN := (cn checked w r).
Local Abbreviation GN := (ghosts_n checked w r).
Local Abbreviation CG := (cgraph checked D w r pe).
Local Abbreviation SZ := (sizes checked D w r pe).

Lemma cnodes_psums : cnodes checked D w r pe = psums 0 (0 :: SZ).
Proof.
  pose proof (sizes_total checked D GC w Hvalid Hsmall r pe Hin) as Htot.
  pose proof (total_nodes_nonneg D GC w Hvalid).
  unfold small_world in Hsmall.
  unfold cnodes, prefix_sum. rewrite sizes_map.
  apply prefix_sum_from_nowrap; [lia| |simpl; lia].
  constructor; [lia|apply sizes_nonneg].
Qed.

Lemma zlen_cedges : zlen (cedges checked D w r pe) = sumZ SZ.
Proof.
  unfold cedges. rewrite zlen_concat, map_map, <- sizes_map.
  apply f_equal. apply map_ext. intros c. apply zlen_map.
Qed.

Lemma zlen_cedge_weights :
  zlen (cedge_weights checked D w r pe) = sumZ SZ.
Proof.
  unfold cedge_weights. rewrite zlen_concat, map_map, <- sizes_map.
  apply f_equal. apply map_ext. intros c. apply zlen_map.
Qed.

Lemma cedges_range :
  Forall (fun v => 0 <= v < CN + GN) (cedges checked D w r pe).
Proof.
  destruct (sizes_small checked D GC w Hvalid Hsmall r pe Hin) as (? & ? & ?).
  apply Forall_forall. intros v Hv.
  apply list_elem_of_In in Hv. unfold cedges in Hv.
  apply in_concat in Hv as (l & Hl & Hv).
  apply in_map_iff in Hl as (c & <- & Hc).
  unfold ccollected in Hc. apply in_map_iff in Hc as (c_u & <- & Hcu).
  apply list_elem_of_In, elem_of_seqZ in Hcu.
  apply in_map_iff in Hv as (kv & <- & Hkv).
  pose proof (pure_collect_keys checked D GC w Hvalid Hsmall r pe Hin c_u
                ltac:(lia)) as Hkeys.
  rewrite Forall_forall in Hkeys.
  destruct (Hkeys kv) as (_ & [Hk|(Hk & _)]); [now apply list_elem_of_In|lia|lia].
Qed.

(** The coarse graph of a process, with any weights in the place of
    its node weights, is a process of a distributed graph. *)
Lemma cgraph_valid_pe (GC' : Z -> Z) (ws : list Z) :
  zlen ws = zlen (Graph._node_weights CG) ->
  valid_pe CD GC' r (clustered GC' (Graph.with_node_weights CG ws)).
Proof.
  intros Hws.
  destruct (cgraph_sizes checked D GC w Hvalid Hsmall r pe Hin)
    as (Hn & Hgn & Ht & Ho).
  destruct (sizes_small checked D GC w Hvalid Hsmall r pe Hin) as (? & ? & ?).
  pose proof (rank_range w r pe Hin) as Hr.
  pose proof (coarse_offset_nonneg checked D GC w Hvalid Hsmall r ltac:(lia))
    as Hoff.
  pose proof (coarse_offset_mono checked D GC w Hvalid Hsmall (r + 1)
                (comm_size w) ltac:(lia) ltac:(lia)) as Hmono.
  pose proof (coarse_total_small checked D GC w Hvalid Hsmall) as Hts.
  pose proof (coarse_offset_succ checked w r Hr) as Hsucc.
  destruct (coarse_ghosts_spec checked D GC w Hvalid Hsmall r pe Hin)
    as (_ & _ & _ & _ & Hdir).
  pose proof (sizes_nonneg checked D w r pe) as Hsz.
  destruct (psums_bounds (0 :: SZ) 0 ltac:(constructor; [lia|exact Hsz]))
    as [Hb Hs].
  set (g' := Graph.with_node_weights CG ws).
  assert (En : Graph.n g' = CN) by exact Hn.
  assert (Egn : Graph.ghost_n g' = GN) by exact Hgn.
  assert (Et : Graph.total_n g' = CN + GN) by exact Ht.
  assert (Eo : Graph.offset_n g' = coarse_offset checked w r) by exact Ho.
  split; cbn [clustered graph lnode_to_gcluster].
  - split.
    + rewrite En. lia.
    + rewrite Egn. lia.
    + rewrite En, Egn. lia.
    + rewrite Eo. lia.
    + rewrite Eo, En. lia.
    + right. rewrite Et. change (Graph._node_weights g') with ws.
      rewrite Hws.
      apply (zlen_cweights checked D GC w Hvalid Hsmall r pe Hin).
    + intros k l Hk. rewrite En, Et. apply (Hdir k l Hk).
  - reflexivity.
  - reflexivity.
  - rewrite Eo. apply (ix_cdist checked D GC w Hvalid Hsmall). lia.
  - rewrite Eo, En, <- Hsucc.
    apply (ix_cdist checked D GC w Hvalid Hsmall). lia.
  - reflexivity.
  - change (Graph._nodes g') with (cnodes checked D w r pe).
    rewrite En. apply (zlen_cnodes checked D GC w Hvalid Hsmall r pe Hin).
  - change (Graph._nodes g') with (cnodes checked D w r pe).
    change (Graph._edges g') with (cedges checked D w r pe).
    rewrite cnodes_psums, zlen_cedges.
    eapply Forall_impl; [exact Hb|]. intros x Hx. simpl in Hx.
    change (sumZ (0 :: SZ)) with (0 + sumZ SZ) in Hx. lia.
  - change (Graph._nodes g') with (cnodes checked D w r pe).
    rewrite cnodes_psums. exact Hs.
  - change (Graph._edges g') with (cedges checked D w r pe).
    rewrite Et. apply cedges_range.
  - right.
    change (Graph._edge_weights g') with (cedge_weights checked D w r pe).
    change (Graph._edges g') with (cedges checked D w r pe).
    now rewrite zlen_cedge_weights, zlen_cedges.
  - change (Graph._ghost_to_global g') with (ghost_globals checked D w r).
    rewrite Egn. unfold ghost_globals.
    rewrite zlen_map. apply zlen_requested.
  - change (Graph._ghost_to_global g') with (ghost_globals checked D w r).
    apply Forall_forall. intros gl Hgl.
    apply list_elem_of_In, In_ix in Hgl as (j & _ & Hj).
    destruct (ghost_global_remote checked D GC w Hvalid Hsmall r pe Hin j gl Hj)
      as (c & Hc & Hne & -> & _).
    destruct (coarse_id_range checked D GC w Hvalid Hsmall c Hc)
      as (_ & _ & Hrange).
    rewrite total_nodes_cdist. split; [exact Hrange|].
    unfold Graph.is_owned_global_node. rewrite Eo, En.
    rewrite wrap64_small by lia.
    apply andb_false_iff.
    destruct (Z.leb_spec (coarse_offset checked w r)
                         (coarse_id checked D w c)) as [Hle|]; [|now left].
    right. apply Z.ltb_ge.
    destruct (Z.lt_ge_cases (coarse_id checked D w c)
                            (coarse_offset checked w r + CN)) as [Hlt|]; [|lia].
    exfalso.
    apply (remote_coarse_id checked D GC w Hvalid Hsmall r pe c
             (coarse_id checked D w c - coarse_offset checked w r)
             Hin Hc Hne); lia.
  - rewrite zlen_map, zlen_seqZ; [reflexivity|]. rewrite Et. lia.
  - intros x Hx. rewrite ix_map, ix_seqZ by lia. simpl.
    now rewrite Z.add_0_l.
Qed.

(** The rating maps are not larger than the edges that reach them. *)
Lemma sizes_le :
  sumZ SZ <= staying_degree pe + zlen (received_edge_records D w r).
Proof.
  pose proof (handled_total checked D GC w Hvalid Hsmall r pe Hin) as Ht.
  fold (staying_degree pe) in Ht.
  assert (Hlen : zlen (ledges checked D w r)
                 = zlen (received_edge_records D w r)).
  { unfold ledges, sorted_edges. rewrite zlen_map. unfold zlen.
    now rewrite parallel_sort_length. }
  rewrite Hlen in Ht. rewrite <- Ht.
  unfold sizes. apply sumZ_map_le.
  intros c _. rewrite pure_collect_handled.
  pose proof (enter_length c (handled checked D w r pe c) []) as H.
  change (zlen []) with 0 in H. lia.
Qed.

End OnePE.

(** All processes together receive the edge records that were sent. *)
Lemma received_edges_count :
  sumZ (map (fun r => zlen (received_edge_records D w r)) (ranks w))
  = sumZ (map (fun pe => zlen (sent_edges pe)) w).
Proof.
  rewrite (map_ext _ (fun r => sumZ (map (fun per =>
             sumZ (map (fun _ => 1)
                       (List.filter (fun e => edge_owner D e =? r)
                                    (sent_edges per)))) w))).
  2:{ intros r. unfold received_edge_records.
      rewrite zlen_sum_ones. apply sumZ_flat_map. }
  rewrite sumZ_exchange. apply f_equal. apply map_ext_in. intros per Hper.
  destruct (pe_valid D GC w Hvalid per Hper) as (q & Hq & Hv).
  unfold ranks. rewrite sumZ_by_key; [symmetry; apply zlen_sum_ones|].
  apply (sent_edges_keys D GC w Hvalid q per Hv Hq).
Qed.

(** The coarse graphs have at most as many edge entries as the fine
    graphs. *)
Lemma coarse_edges_le :
  sumZ (map (fun r => zlen (cedges checked D w r (default no_pe (ix w r))))
            (ranks w))
  <= total_edges w.
Proof.
  transitivity
    (sumZ (map (fun r => staying_degree (default no_pe (ix w r))
                         + zlen (received_edge_records D w r)) (ranks w))).
  - apply sumZ_map_le. intros r Hr. apply (In_rank w) in Hr.
    destruct (rank_pe D GC w Hvalid r Hr) as (pe & Hin & _).
    rewrite Hin. simpl. rewrite (zlen_cedges r pe).
    apply (sizes_le r pe Hin).
  - rewrite sumZ_map_add, (map_ranks staying_degree no_pe w).
    rewrite received_edges_count, <- sumZ_map_add.
    unfold total_edges. apply sumZ_map_le. intros pe Hpe.
    destruct (pe_valid D GC w Hvalid pe Hpe) as (q & Hq & Hv).
    pose proof (degrees_split D GC q pe Hv) as Hsplit.
    pose proof (zlen_sent_edges D GC q pe Hv) as Hsent.
    unfold away_degree in Hsplit.
    pose proof (length_coalesce
                  (parallel_sort edge_less (raw_nonlocal_edges pe))) as Hco.
    unfold zlen in Hco at 2. rewrite parallel_sort_length in Hco.
    fold (zlen (raw_nonlocal_edges pe)) in Hco.
    fold (sent_edges pe) in Hco. lia.
Qed.

End CoarseWorld.

(** ** The result of a contraction can be contracted again *)

Section NextLevel.

Variable checked : bool.
Variables (D : list Z) (GC : Z -> Z) (w : World).
Hypothesis Hvalid : valid_world D GC w.
Hypothesis Hsmall : small_world D w.

Variable GC' : Z -> Z.
Hypothesis HGC' :
  forall v, 0 <= v < total_nodes (cdist checked w) ->
            0 <= GC' v < total_nodes (cdist checked w).

Variable graphs : list Graph.t.
Hypothesis Hlen : zlen graphs = comm_size w.
Hypothesis Hkept :
  forall r pe g, ix w r = Some pe -> ix graphs r = Some g ->
                 owned_kept (cgraph checked D w r pe) g.

Local Abbreviation W' := (map (clustered GC') graphs).

Lemma next_level_size : comm_size W' = comm_size w.
Proof. unfold comm_size. now rewrite zlen_map. Qed.

Lemma next_level_valid : valid_world (cdist checked w) GC' W'.
Proof.
  pose proof (comm_size_nonneg w) as Hsize.
  split.
  - rewrite next_level_size. apply (vw_size _ _ _ Hvalid).
  - rewrite next_level_size.
    apply (zlen_cdist checked D GC w Hvalid Hsmall).
  - rewrite (ix_cdist checked D GC w Hvalid Hsmall) by lia. reflexivity.
  - apply (cdist_sorted checked D GC w Hvalid Hsmall).
  - exact HGC'.
  - intros r pe' Hr. rewrite ix_map in Hr.
    destruct (ix graphs r) as [g|] eqn:Eg; [|discriminate].
    inversion Hr; subst pe'.
    pose proof (ix_Some_range _ _ _ Eg) as Hrange. rewrite Hlen in Hrange.
    destruct (rank_pe D GC w Hvalid r Hrange) as (pe & Hin & _).
    destruct (Hkept r pe g Hin Eg) as (ws & -> & Hws & _).
    apply (cgraph_valid_pe checked D GC w Hvalid Hsmall r pe Hin GC' ws Hws).
Qed.

Lemma next_level_edges : total_edges W' <= total_edges w.
Proof.
  etransitivity; [|apply (coarse_edges_le checked D GC w Hvalid Hsmall)].
  unfold total_edges at 1.
  rewrite <- (map_ranks (fun pe => zlen (Graph._edges (graph pe))) no_pe W').
  unfold ranks. rewrite next_level_size.
  apply sumZ_map_le. intros r Hr. apply (In_rank w) in Hr.
  destruct (rank_pe D GC w Hvalid r Hr) as (pe & Hin & _).
  destruct (ix_in_range graphs r) as [g Eg]; [lia|].
  rewrite ix_map, Eg, Hin. simpl.
  destruct (Hkept r pe g Hin Eg) as (ws & -> & _). simpl. lia.
Qed.

Lemma next_level_small : small_world (cdist checked w) W'.
Proof.
  unfold small_world in *.
  pose proof next_level_edges.
  pose proof (total_nodes_cdist_le checked D GC w Hvalid Hsmall). lia.
Qed.

End NextLevel.



(** * Further properties of the distributed graph *)

(** ** Accessors by process *)

Module GraphPE.

(** [n(pe)]: the number of nodes of the process [pe], from the node
    distribution.  [PEID] is a signed 32-bit integer, [NodeID] an
    unsigned one. *)
Definition n (checked : bool) (g : Graph.t) (pe : Z) : outcome Z :=
  KASSERT checked (pe <? swrap32 (zlen (Graph._node_distribution g))) ;;
  hi ← load (Graph._node_distribution g) (pe + 1);
  lo ← load (Graph._node_distribution g) pe;
  Ok (wrap32 (wrap64 (hi - lo))).

(** [offset_n(pe)] *)
Definition offset_n (g : Graph.t) (pe : Z) : outcome Z :=
  load (Graph._node_distribution g) pe.

(** [map_remote_node(their_lnode, owner)] *)
Definition map_remote_node (checked : bool) (g : Graph.t)
    (their_lnode owner : Z) : outcome Z :=
  off ← offset_n g owner;
  Graph.global_to_local_node checked g (wrap64 (their_lnode + off)).

End GraphPE.

(** ** The ghost directory *)

(** The array [_ghost_to_global] and the map [_global_to_ghost] are
    inverse to each other: the ghost with index [i] has the local
    index [n + i], and the map holds it under its global identifier
    plus one.  No ghost is owned by the process. *)
Record directory_consistent (g : Graph.t) : Prop := {
  dc_len : zlen (Graph._ghost_to_global g) = Graph.ghost_n g;
  dc_forth : forall i gl, ix (Graph._ghost_to_global g) i = Some gl ->
      0 <= gl < 2 ^ 64 - 1
      /\ Graph.is_owned_global_node g gl = false
      /\ Graph._global_to_ghost g !! (gl + 1) = Some (Graph.n g + i);
  dc_back : forall k l, Graph._global_to_ghost g !! k = Some l ->
      ix (Graph._ghost_to_global g) (l - Graph.n g) = Some (k - 1)
}.

Lemma g_ghost_consistent : directory_consistent Examples.g_ghost.
Proof.
  split.
  - reflexivity.
  - intros i gl Hi. pose proof (ix_Some_range _ _ _ Hi) as Hr.
    change (zlen _) with 1 in Hr. assert (i = 0) as -> by lia.
    vm_compute in Hi. inversion Hi; subst gl.
    split; [lia|]. split; reflexivity.
  - intros k l Hk.
    change (Graph._global_to_ghost Examples.g_ghost)
      with ({[ 3 := 2 ]} : gmap Z Z) in Hk.
    apply lookup_singleton_Some in Hk as [<- <-]. reflexivity.
Qed.

Lemma local_to_global_owned checked g u :
  Graph.wf g -> 0 <= u < Graph.n g ->
  Graph.local_to_global_node checked g u = Ok (Graph.offset_n g + u).
Proof.
  intros Hwf Hu. pose proof (total_n_eq g Hwf) as Htot.
  destruct Hwf as [Hn Hgn Ht Hoff Hrange _ _].
  unfold Graph.local_to_global_node, Graph.contains_local_node,
    Graph.is_owned_node.
  replace (u <? Graph.total_n g) with true
    by (symmetry; apply Z.ltb_lt; lia).
  rewrite KASSERT_true. simpl.
  replace (u <? Graph.n g) with true by (symmetry; apply Z.ltb_lt; lia).
  f_equal. apply wrap64_small. unfold Graph.offset_n in *. lia.
Qed.

Lemma local_to_global_ghost checked g u :
  Graph.wf g -> Graph.n g <= u < Graph.total_n g ->
  Graph.local_to_global_node checked g u
  = match ix (Graph._ghost_to_global g) (u - Graph.n g) with
    | Some gl => Ok gl
    | None => Undefined
    end.
Proof.
  intros Hwf Hu. pose proof (total_n_eq g Hwf) as Htot.
  destruct Hwf as [Hn Hgn Ht Hoff Hrange _ _].
  unfold Graph.local_to_global_node, Graph.contains_local_node,
    Graph.is_owned_node.
  replace (u <? Graph.total_n g) with true
    by (symmetry; apply Z.ltb_lt; lia).
  rewrite KASSERT_true. simpl.
  replace (u <? Graph.n g) with false by (symmetry; apply Z.ltb_ge; lia).
  rewrite wrap32_small by lia. reflexivity.
Qed.

Lemma global_to_local_owned checked g gu :
  Graph.wf g -> 0 <= gu < 2 ^ 64 ->
  Graph.is_owned_global_node g gu = true ->
  Graph.global_to_local_node checked g gu = Ok (gu - Graph.offset_n g)
  /\ 0 <= gu - Graph.offset_n g < Graph.n g.
Proof.
  intros [Hn Hgn Ht Hoff Hrange _ _] Hgu Hown.
  unfold Graph.global_to_local_node, Graph.contains_global_node.
  fold (Graph.is_owned_global_node g gu). rewrite Hown. simpl.
  rewrite KASSERT_true. simpl.
  unfold Graph.is_owned_global_node in Hown.
  apply andb_true_iff in Hown as [H1 H2].
  rewrite wrap64_small in H2 by lia.
  apply Z.leb_le in H1. apply Z.ltb_lt in H2.
  split; [|lia].
  rewrite wrap64_small by lia. rewrite wrap32_small by lia. reflexivity.
Qed.

Lemma global_to_local_ghost checked g gu l :
  Graph.is_owned_global_node g gu = false ->
  Graph._global_to_ghost g !! wrap64 (gu + 1) = Some l ->
  Graph.global_to_local_node checked g gu = Ok l.
Proof.
  intros Hown Hl.
  unfold Graph.global_to_local_node, Graph.contains_global_node.
  fold (Graph.is_owned_global_node g gu). rewrite Hown, Hl.
  rewrite (bool_decide_eq_true_2 (is_Some (Some l))) by eauto.
  rewrite orb_true_r, !KASSERT_true. reflexivity.
Qed.

Lemma local_node_translation (checked : bool) (g : Graph.t) (u : Z) :
  Graph.wf g -> directory_consistent g -> 0 <= u < Graph.total_n g ->
  exists gu,
    Graph.local_to_global_node checked g u = Ok gu
    /\ Graph.contains_global_node g gu = true
    /\ Graph.global_to_local_node checked g gu = Ok u.
Proof.
  intros Hwf Hdc Hu. pose proof (total_n_eq g Hwf) as Htot.
  pose proof Hwf as [Hn Hgn Ht Hoff Hrange _ Hdir].
  destruct Hdc as [Hlen Hforth Hback].
  destruct (Z.lt_ge_cases u (Graph.n g)) as [Hown|Hghost].
  - exists (Graph.offset_n g + u).
    assert (Ho : Graph.is_owned_global_node g (Graph.offset_n g + u) = true).
    { unfold Graph.is_owned_global_node. rewrite wrap64_small by lia.
      apply andb_true_iff. rewrite Z.leb_le, Z.ltb_lt. lia. }
    split; [apply local_to_global_owned; [exact Hwf|lia]|].
    split; [unfold Graph.contains_global_node; now rewrite Ho|].
    destruct (global_to_local_owned checked g (Graph.offset_n g + u)
                Hwf ltac:(lia) Ho) as [-> _].
    f_equal. lia.
  - destruct (ix_in_range (Graph._ghost_to_global g) (u - Graph.n g))
      as [gl Hgl]; [lia|].
    destruct (Hforth _ _ Hgl) as (Hr & Hno & Hmap).
    replace (Graph.n g + (u - Graph.n g)) with u in Hmap by lia.
    exists gl.
    split; [rewrite local_to_global_ghost, Hgl by (auto; lia); reflexivity|].
    assert (Hw : wrap64 (gl + 1) = gl + 1) by (apply wrap64_small; lia).
    split.
    + unfold Graph.contains_global_node. rewrite Hw, Hmap.
      rewrite (bool_decide_eq_true_2 (is_Some (Some u))) by eauto.
      apply orb_true_r.
    + apply global_to_local_ghost; [exact Hno|]. now rewrite Hw.
Qed.

Lemma global_node_translation (checked : bool) (g : Graph.t) (gu : Z) :
  Graph.wf g -> directory_consistent g ->
  0 <= gu < 2 ^ 64 - 1 ->
  Graph.contains_global_node g gu = true ->
  exists u,
    Graph.global_to_local_node checked g gu = Ok u
    /\ 0 <= u < Graph.total_n g
    /\ Graph.local_to_global_node checked g u = Ok gu.
Proof.
  intros Hwf Hdc Hgu Hc. pose proof (total_n_eq g Hwf) as Htot.
  pose proof Hwf as [Hn Hgn Ht Hoff Hrange _ Hdir].
  destruct Hdc as [Hlen Hforth Hback].
  assert (Hw : wrap64 (gu + 1) = gu + 1) by (apply wrap64_small; lia).
  destruct (Graph.is_owned_global_node g gu) eqn:Ho.
  - destruct (global_to_local_owned checked g gu Hwf ltac:(lia) Ho) as [E Hr].
    exists (gu - Graph.offset_n g). split; [exact E|]. split; [lia|].
    rewrite local_to_global_owned by (auto; lia). f_equal. lia.
  - unfold Graph.contains_global_node in Hc. rewrite Ho, Hw in Hc.
    simpl in Hc. apply bool_decide_eq_true_1 in Hc as [l Hl].
    pose proof (Hdir _ _ Hl) as Hr.
    exists l.
    split; [apply global_to_local_ghost; [exact Ho|now rewrite Hw]|].
    split; [lia|].
    rewrite local_to_global_ghost by (auto; lia).
    rewrite (Hback _ _ Hl). f_equal. lia.
Qed.

(** X7.  From a local node to its global identifier and back.  On a
    graph whose ghost directory is consistent, [local_to_global_node]
    returns for every local node, owned or ghost, a global identifier
    that the graph contains, and [global_to_local_node] of this
    identifier is the node again.  For an index that is no local node
    no identifier is returned: the assertion fails, or the array of the
    ghosts is read behind its end. *)
Theorem local_global_round_trip (checked : bool) (g : Graph.t) (u : Z) :
  Graph.wf g -> directory_consistent g ->
  (0 <= u < Graph.total_n g ->
     exists gu,
       Graph.local_to_global_node checked g u = Ok gu
       /\ Graph.contains_global_node g gu = true
       /\ Graph.global_to_local_node checked g gu = Ok u)
  /\ (Graph.total_n g <= u < 2 ^ 32 ->
      Graph.local_to_global_node checked g u
      = if checked then Fail AssertionFailure else Undefined).
Proof.
  intros Hwf Hdc. pose proof (total_n_eq g Hwf) as Htot.
  pose proof Hwf as [Hn Hgn Ht Hoff Hrange _ Hdir].
  split; [now apply local_node_translation|].
  destruct Hdc as [Hlen Hforth Hback].
  - intros Hu.
    unfold Graph.local_to_global_node, Graph.contains_local_node,
      Graph.is_owned_node.
    replace (u <? Graph.total_n g) with false
      by (symmetry; apply Z.ltb_ge; lia).
    destruct checked; [reflexivity|]. simpl.
    replace (u <? Graph.n g) with false by (symmetry; apply Z.ltb_ge; lia).
    rewrite wrap32_small by lia.
    destruct (ix (Graph._ghost_to_global g) (u - Graph.n g)) as [gl|] eqn:E;
      [|reflexivity].
    apply ix_Some_range in E. lia.
Qed.

(** On [g_ghost] the ghost 2 has the global identifier 2, which leads
    back to it; the index 3 is no local node. *)
Lemma local_global_round_trip_witness :
  (exists gu,
     Graph.local_to_global_node true Examples.g_ghost 2 = Ok gu
     /\ Graph.contains_global_node Examples.g_ghost gu = true
     /\ Graph.global_to_local_node true Examples.g_ghost gu = Ok 2)
  /\ Graph.local_to_global_node false Examples.g_ghost 3 = Undefined.
Proof.
  split.
  - apply (local_global_round_trip true Examples.g_ghost 2 g_ghost_wf
             g_ghost_consistent).
    vm_compute. split; [discriminate|reflexivity].
  - apply (local_global_round_trip false Examples.g_ghost 3 g_ghost_wf
             g_ghost_consistent).
    vm_compute. split; [discriminate|reflexivity].
Defined.

(** X8.  From a global identifier to the local node and back.  On a
    graph whose ghost directory is consistent, [global_to_local_node]
    returns for every global identifier that the graph contains a local
    node, and [local_to_global_node] of this node is the identifier
    again. *)
Theorem global_local_round_trip (checked : bool) (g : Graph.t) (gu : Z) :
  Graph.wf g -> directory_consistent g ->
  0 <= gu < 2 ^ 64 - 1 ->
  Graph.contains_global_node g gu = true ->
  exists u,
    Graph.global_to_local_node checked g gu = Ok u
    /\ 0 <= u < Graph.total_n g
    /\ Graph.local_to_global_node checked g u = Ok gu.
Proof. apply global_node_translation. Qed.

(** On [g_ghost] the global node 2 of the other process is the local
    node 2. *)
Lemma global_local_round_trip_witness :
  exists u,
    Graph.global_to_local_node true Examples.g_ghost 2 = Ok u
    /\ 0 <= u < Graph.total_n Examples.g_ghost
    /\ Graph.local_to_global_node true Examples.g_ghost u = Ok 2.
Proof.
  apply (global_local_round_trip true Examples.g_ghost 2 g_ghost_wf
           g_ghost_consistent); [lia|reflexivity].
Defined.

(** ** Owners and ranges of the processes *)

Lemma upper_bound_all (l : list Z) (c : Z) :
  Forall (fun x => x <= c) l -> Graph.upper_bound l c = zlen l.
Proof.
  induction 1 as [|x l Hx Hl IH]; [reflexivity|].
  cbn [Graph.upper_bound].
  destruct (Z.ltb_spec c x); [lia|]. rewrite IH, zlen_cons. reflexivity.
Qed.

Lemma Forall_tail {A} (P : A -> Prop) (l : list A) :
  Forall P l -> Forall P (tail l).
Proof. intros H. destruct H; [constructor|assumption]. Qed.

Lemma zlen_tail {A} (l : list A) : l <> [] -> zlen (tail l) = zlen l - 1.
Proof. destruct l; [congruence|]. intros _. rewrite zlen_cons. simpl. lia. Qed.

(** X9.  [find_owner_of_global_node] on a process of a distributed
    graph.  For a global node [c] below [global_n] it returns the rank
    [p] of the one process whose range of the node distribution
    contains [c]; this is the process itself exactly when
    [is_owned_global_node] holds.  For an identifier that is not below
    [global_n] the first assertion fails; with assertions elided the
    search ends behind the last entry of the distribution and the
    number of processes is returned, which is the rank of no
    process. *)
Theorem find_owner_of_global_node_range
    (checked : bool) (D : list Z) (GC : Z -> Z) (w : World) (r : Z)
    (pe : PE) (c : Z) :
  valid_world D GC w -> ix w r = Some pe ->
  (0 <= c < Graph.global_n (graph pe) ->
     exists p lo hi,
       find_owner_of_global_node checked (graph pe) c = Ok p
       /\ 0 <= p < comm_size w
       /\ node_distribution checked (graph pe) p = Ok lo
       /\ node_distribution checked (graph pe) (p + 1) = Ok hi
       /\ lo <= c < hi
       /\ (Graph.is_owned_global_node (graph pe) c = true <-> p = r)
       /\ forall q a b,
            0 <= q ->
            node_distribution checked (graph pe) q = Ok a ->
            node_distribution checked (graph pe) (q + 1) = Ok b ->
            a <= c < b -> q = p)
  /\ (Graph.global_n (graph pe) <= c ->
      find_owner_of_global_node checked (graph pe) c
      = if checked then Fail AssertionFailure else Ok (comm_size w)).
Proof.
  intros Hvalid Hin. pose proof (vw_pe _ _ _ Hvalid _ _ Hin) as Hpe.
  pose proof (vw_D_len _ _ _ Hvalid) as Hlen.
  pose proof (comm_size_nonneg w) as Hsize.
  rewrite (vp_global_n _ _ _ _ Hpe).
  assert (Hnd : forall q a,
            node_distribution checked (graph pe) q = Ok a -> ix D q = Some a).
  { intros q a E. unfold node_distribution in E.
    rewrite (vp_dist _ _ _ _ Hpe) in E.
    apply bind_inv in E as (? & _ & E). now apply load_inv. }
  assert (Hnd' : forall q a, ix D q = Some a ->
            node_distribution checked (graph pe) q = Ok a).
  { intros q a E. pose proof (ix_Some_range _ _ _ E).
    unfold node_distribution. rewrite (vp_dist _ _ _ _ Hpe).
    replace (q <? zlen D) with true by (symmetry; apply Z.ltb_lt; lia).
    rewrite KASSERT_true. simpl. now apply load_Ok. }
  split.
  - intros Hc.
    destruct (owner_of_spec D GC w Hvalid c Hc)
      as (Hp & lo & hi & Hlo & Hhi & Hr).
    exists (owner_of D c), lo, hi.
    split; [apply (find_owner_spec checked D GC w Hvalid r pe Hpe c Hc)|].
    split; [exact Hp|]. split; [now apply Hnd'|]. split; [now apply Hnd'|].
    split; [exact Hr|]. split.
    + apply (is_owned_owner D GC w Hvalid r pe Hpe Hin c Hc).
    + intros q a b Hq Ha Hb Hab. symmetry.
      apply (owner_of_unique D GC w Hvalid c q a b); auto.
  - intros Hc. unfold find_owner_of_global_node.
    rewrite (vp_global_n _ _ _ _ Hpe), (vp_dist _ _ _ _ Hpe).
    replace (c <? total_nodes D) with false
      by (symmetry; apply Z.ltb_ge; lia).
    destruct checked; [reflexivity|]. simpl.
    rewrite upper_bound_all.
    + rewrite zlen_tail by (intros E; rewrite E in Hlen;
                            change (zlen []) with 0 in Hlen; lia).
      f_equal. lia.
    + apply Forall_tail, Forall_forall. intros x Hx.
      apply list_elem_of_In, In_ix in Hx as (q & _ & Hq).
      pose proof (D_nonneg D GC w Hvalid q x Hq). lia.
Qed.

(** Rank 0 of the path: the global node 2 belongs to rank 1; the
    identifier 3 is beyond the graph. *)
Lemma find_owner_of_global_node_range_witness :
  (exists p, find_owner_of_global_node true Examples.path_0 2 = Ok p
             /\ 0 <= p < 2)
  /\ find_owner_of_global_node true Examples.path_0 3
     = Fail AssertionFailure
  /\ find_owner_of_global_node false Examples.path_0 3 = Ok 2.
Proof.
  pose proof (find_owner_of_global_node_range true [0; 1; 3] path_clustering
                (Examples.path_world [Examples.no_edge]) 0
                {| graph := Examples.path_0; lnode_to_gcluster := [2; 1];
                   past_local_edges := [Examples.no_edge] |} 2
                (path_world_valid _) eq_refl) as [H1 _].
  pose proof (find_owner_of_global_node_range true [0; 1; 3] path_clustering
                (Examples.path_world [Examples.no_edge]) 0
                {| graph := Examples.path_0; lnode_to_gcluster := [2; 1];
                   past_local_edges := [Examples.no_edge] |} 3
                (path_world_valid _) eq_refl) as [_ H2].
  pose proof (find_owner_of_global_node_range false [0; 1; 3] path_clustering
                (Examples.path_world [Examples.no_edge]) 0
                {| graph := Examples.path_0; lnode_to_gcluster := [2; 1];
                   past_local_edges := [Examples.no_edge] |} 3
                (path_world_valid _) eq_refl) as [_ H3].
  destruct H1 as (p & lo & hi & E & Hp & _); [vm_compute; split; congruence|].
  split; [exists p; split; [exact E|exact Hp]|].
  split; [apply H2|apply H3]; vm_compute; congruence.
Defined.



(** ** Nodes of other processes *)

Lemma path_0_consistent : directory_consistent Examples.path_0.
Proof.
  split.
  - reflexivity.
  - intros i gl Hi. pose proof (ix_Some_range _ _ _ Hi) as Hr.
    change (zlen _) with 1 in Hr. assert (i = 0) as -> by lia.
    vm_compute in Hi. inversion Hi; subst gl.
    split; [lia|]. split; reflexivity.
  - intros k l Hk.
    change (Graph._global_to_ghost Examples.path_0)
      with ({[ 2 := 1 ]} : gmap Z Z) in Hk.
    apply lookup_singleton_Some in Hk as [<- <-]. reflexivity.
Qed.



(** ** The ghost directory of the coarse graph *)

Lemma NoDup_ix {A} (l : list A) :
  (forall i j x, ix l i = Some x -> ix l j = Some x -> i = j) -> NoDup l.
Proof.
  intros H. apply NoDup_alt. intros i j x Hi Hj.
  assert (E : forall k : nat, ix l (Z.of_nat k) = l !! k).
  { intros k. unfold ix. destruct (Z.ltb_spec (Z.of_nat k) 0); [lia|].
    now rewrite Nat2Z.id. }
  pose proof (H (Z.of_nat i) (Z.of_nat j) x) as Hij.
  rewrite !E in Hij. specialize (Hij Hi Hj). lia.
Qed.

(** Lists whose members name the list they are in have nothing in
    common. *)
Lemma NoDup_concat_tagged {A B} (tag : A -> B) (f : B -> list A)
    (l : list B) :
  NoDup l -> (forall x, In x l -> NoDup (f x)) ->
  (forall x c, In x l -> In c (f x) -> tag c = x) ->
  NoDup (concat (map f l)).
Proof.
  induction 1 as [|x l Hx Hl IH]; intros Hrow Htag; [constructor|].
  simpl. apply NoDup_app. split; [apply Hrow; now left|]. split.
  - intros c Hc Hc'. apply Hx.
    apply list_elem_of_In in Hc. apply list_elem_of_In in Hc'.
    apply in_concat in Hc' as (row & Hrow' & Hc').
    apply in_map_iff in Hrow' as (y & <- & Hy).
    rewrite <- (Htag x c (or_introl eq_refl) Hc).
    rewrite (Htag y c (or_intror Hy) Hc'). now apply list_elem_of_In.
  - apply IH.
    + intros y Hy. apply Hrow. now right.
    + intros y c Hy Hc. apply Htag; [now right|exact Hc].
Qed.

Lemma directory_consistent_weights g ws :
  directory_consistent g ->
  directory_consistent (Graph.with_node_weights g ws).
Proof. intros [H1 H2 H3]. split; assumption. Qed.

Section CoarseDirectory.

Variable checked : bool.
Variables (D : list Z) (GC : Z -> Z) (w : World).
Hypothesis Hvalid : valid_world D GC w.
Hypothesis Hsmall : small_world D w.

(** The coarse graphs of all processes, with every coarse node in the
    cluster 0. *)
Definition coarse_world : World :=
  map (clustered (fun _ => 0))
      (map (fun q => cgraph checked D w q (default no_pe (ix w q)))
           (ranks w)).

Lemma coarse_world_valid :
  valid_world (cdist checked w) (fun _ => 0) coarse_world.
Proof.
  pose proof (comm_size_nonneg w) as Hsize.
  apply (next_level_valid checked D GC w Hvalid Hsmall).
  - intros v Hv. lia.
  - unfold ranks. rewrite zlen_map, zlen_seqZ; lia.
  - intros q peq g Hq Hg. pose proof (rank_range w q peq Hq) as Hr.
    unfold ranks in Hg. rewrite ix_map, ix_seqZ in Hg by lia.
    simpl in Hg. rewrite Z.add_0_l, Hq in Hg. simpl in Hg.
    inversion Hg. apply owned_kept_refl.
Qed.

(** The process of a coarse node, by the coarse node distribution, is
    the process of its cluster. *)
Lemma coarse_owner gu p :
  0 <= p < comm_size w ->
  coarse_offset checked w p <= gu < coarse_offset checked w (p + 1) ->
  owner_of (cdist checked w) gu = p.
Proof.
  intros Hp Hgu.
  apply (owner_of_unique _ _ _ coarse_world_valid gu p
           (coarse_offset checked w p) (coarse_offset checked w (p + 1)));
    try lia; apply (ix_cdist checked D GC w Hvalid Hsmall); lia.
Qed.

Variables (r : Z) (pe : PE).
Hypothesis Hin : ix w r = Some pe.

Local Abbreviation CN := (cn checked w r).
Local Abbreviation GN := (ghosts_n checked w r).
Local Abbreviation GG := (ghost_globals checked D w r).
Local Abbreviation CG := (cgraph checked D w r pe).

Lemma requested_member c :
  In c (requested checked w r) ->
  inhabited w c /\ owner_of D c <> r /\ 0 <= owner_of D c < comm_size w.
Proof.
  intros Hc. unfold requested in Hc.
  apply in_concat in Hc as (row & Hrow & Hc).
  apply in_map_iff in Hrow as (p & <- & Hp). apply (In_rank w) in Hp.
  apply In_ix in Hc as (i & _ & Hi).
  destruct (row_of_spec checked D GC w Hvalid Hsmall r pe p i c Hin Hp Hi)
    as (Hinh & Ho & Hne & _).
  rewrite Ho. repeat split; auto; lia.
Qed.

Lemma row_of_NoDup p :
  0 <= p < comm_size w -> NoDup (row_of checked w r p).
Proof.
  intros Hp. apply NoDup_ix. intros i j c Hi Hj.
  destruct (row_of_spec checked D GC w Hvalid Hsmall r pe p i c Hin Hp Hi)
    as (_ & _ & _ & Ei).
  destruct (row_of_spec checked D GC w Hvalid Hsmall r pe p j c Hin Hp Hj)
    as (_ & _ & _ & Ej).
  rewrite Ei in Ej. inversion Ej. lia.
Qed.

(** No cluster is requested twice. *)
Lemma requested_NoDup : NoDup (requested checked w r).
Proof.
  unfold requested. apply (NoDup_concat_tagged (owner_of D)).
  - apply NoDup_seqZ.
  - intros p Hp. apply row_of_NoDup. now apply (In_rank w).
  - intros p c Hp Hc. apply (In_rank w) in Hp.
    apply In_ix in Hc as (i & _ & Hi).
    destruct (row_of_spec checked D GC w Hvalid Hsmall r pe p i c Hin Hp Hi)
      as (_ & Ho & _).
    exact Ho.
Qed.

Lemma ghost_globals_NoDup : NoDup GG.
Proof.
  unfold ghost_globals. apply NoDup_fmap_2_strong; [|apply requested_NoDup].
  intros c c' Hc Hc' E.
  apply list_elem_of_In in Hc. apply list_elem_of_In in Hc'.
  apply (coarse_id_inj checked D GC w Hvalid Hsmall c c'); auto;
    now apply requested_member.
Qed.

Lemma cgraph_directory_consistent : directory_consistent CG.
Proof.
  destruct (cgraph_sizes checked D GC w Hvalid Hsmall r pe Hin)
    as (Hn & Hg & Ht & Ho).
  destruct (coarse_ghosts_spec checked D GC w Hvalid Hsmall r pe Hin)
    as (_ & _ & _ & Hfound & Hentry).
  destruct (sizes_small checked D GC w Hvalid Hsmall r pe Hin) as (? & ? & ?).
  pose proof (rank_range w r pe Hin) as Hr.
  pose proof (coarse_total_small checked D GC w Hvalid Hsmall) as Hsm.
  pose proof (coarse_offset_nonneg checked D GC w Hvalid Hsmall r ltac:(lia)).
  pose proof (coarse_offset_succ checked w r Hr) as Hs.
  pose proof (coarse_offset_mono checked D GC w Hvalid Hsmall (r + 1)
                (comm_size w) ltac:(lia) ltac:(lia)).
  split.
  - rewrite Hg. change (Graph._ghost_to_global CG) with GG.
    unfold ghost_globals. now rewrite zlen_map, zlen_requested.
  - intros i gl Hi. change (Graph._ghost_to_global CG) with GG in Hi.
    change (Graph._global_to_ghost CG)
      with (c_global_to_ghost (cghosts checked w r)).
    rewrite Hn.
    destruct (ghost_global_remote checked D GC w Hvalid Hsmall r pe Hin i gl
                Hi) as (c & Hinh & Hne & -> & Hc).
    destruct (coarse_id_range checked D GC w Hvalid Hsmall c Hinh)
      as (Hlo & Hhi & Hrange).
    split; [lia|]. split.
    + unfold Graph.is_owned_global_node. rewrite Ho, Hn.
      rewrite wrap64_small by lia.
      apply andb_false_iff.
      destruct (Z.leb_spec (coarse_offset checked w r)
                  (coarse_id checked D w c)); [right|left; reflexivity].
      apply Z.ltb_ge.
      destruct (Z.le_gt_cases (coarse_offset checked w r + CN)
                  (coarse_id checked D w c)); [assumption|].
      exfalso.
      apply (remote_coarse_id checked D GC w Hvalid Hsmall r pe c
               (coarse_id checked D w c - coarse_offset checked w r)
               Hin Hinh Hne); lia.
    + destruct (Hfound c Hc) as [l Hl]. rewrite Hl. f_equal.
      destruct (Hentry _ _ Hl) as (Hrange_l & Hix).
      replace (coarse_id checked D w c + 1 - 1)
        with (coarse_id checked D w c) in Hix by lia.
      pose proof (ix_NoDup GG _ _ _ ghost_globals_NoDup Hix Hi). lia.
  - intros k l Hl.
    change (Graph._global_to_ghost CG)
      with (c_global_to_ghost (cghosts checked w r)) in Hl.
    rewrite Hn. destruct (Hentry k l Hl) as (_ & Hix). exact Hix.
Qed.

(** The nodes of a graph that differs from the coarse graph in node
    weights only. *)
Lemma coarse_nodes_translate g u :
  owned_kept CG g -> 0 <= u < Graph.total_n g ->
  exists gu,
    Graph.local_to_global_node checked g u = Ok gu
    /\ Graph.global_to_local_node checked g gu = Ok u
    /\ (u < Graph.n g ->
        gu = Graph.offset_n g + u
        /\ find_owner_of_global_node checked g gu = Ok r)
    /\ (Graph.n g <= u ->
        exists p, ix (Graph._ghost_owner g) (u - Graph.n g) = Some p
                  /\ p <> r
                  /\ find_owner_of_global_node checked g gu = Ok p).
Proof.
  intros (ws & -> & Hws & _) Hu.
  set (g := Graph.with_node_weights CG ws) in *.
  pose proof (cgraph_valid_pe checked D GC w Hvalid Hsmall r pe Hin
                (fun _ => 0) ws Hws) as Hpe.
  fold g in Hpe.
  pose proof (vp_wf _ _ _ _ Hpe) as Hwf.
  change (graph (clustered (fun _ => 0) g)) with g in Hwf.
  pose proof (directory_consistent_weights CG ws cgraph_directory_consistent)
    as Hdc.
  fold g in Hdc.
  destruct (cgraph_sizes checked D GC w Hvalid Hsmall r pe Hin)
    as (Hn & Hg & Ht & Ho).
  change (Graph.n CG) with (Graph.n g) in Hn.
  change (Graph.offset_n CG) with (Graph.offset_n g) in Ho.
  pose proof (rank_range w r pe Hin) as Hr.
  pose proof (coarse_offset_succ checked w r Hr) as Hs.
  pose proof (total_nodes_cdist checked D GC w Hvalid Hsmall) as Htot.
  assert (Hfind : forall gu,
            0 <= gu < coarse_offset checked w (comm_size w) ->
            find_owner_of_global_node checked g gu
            = Ok (owner_of (cdist checked w) gu)).
  { intros gu Hgu.
    apply (find_owner_spec checked _ _ _ coarse_world_valid r _ Hpe gu).
    lia. }
  destruct (local_node_translation checked g u Hwf Hdc Hu)
    as (gu & El & _ & Eg).
  exists gu. split; [exact El|]. split; [exact Eg|]. split.
  - intros Hlt.
    rewrite (local_to_global_owned checked g u Hwf) in El by lia.
    assert (El' : gu = Graph.offset_n g + u) by congruence.
    split; [exact El'|]. rewrite El', Ho.
    pose proof (coarse_offset_nonneg checked D GC w Hvalid Hsmall r
                  ltac:(lia)).
    pose proof (coarse_offset_mono checked D GC w Hvalid Hsmall (r + 1)
                  (comm_size w) ltac:(lia) ltac:(lia)).
    rewrite Hfind by lia. f_equal. apply coarse_owner; lia.
  - intros Hge.
    rewrite (local_to_global_ghost checked g u Hwf) in El by lia.
    change (Graph._ghost_to_global g) with GG in El.
    destruct (ix GG (u - Graph.n g)) as [gl|] eqn:Hgl; [|discriminate].
    inversion El; subst gl.
    unfold ghost_globals in Hgl. rewrite ix_map in Hgl.
    destruct (ix (requested checked w r) (u - Graph.n g)) as [c|] eqn:Hc;
      [|discriminate].
    inversion Hgl as [Hgu].
    destruct (requested_member c (ix_In _ _ _ Hc)) as (Hinh & Hne & Hown).
    destruct (coarse_id_range checked D GC w Hvalid Hsmall c Hinh)
      as (Hlo & Hhi & Hrange).
    exists (owner_of D c). split.
    + change (Graph._ghost_owner g) with (ghost_owners checked D w r).
      unfold ghost_owners. now rewrite ix_map, Hc.
    + split; [exact Hne|].
      rewrite Hfind by lia. f_equal. apply coarse_owner; lia.
Qed.

End CoarseDirectory.



(** ** The coarse adjacency *)

Lemma rating_add_key (m : RatingMap) (k x : Z) :
  In k (map fst (rating_add m k x)).
Proof.
  induction m as [|[k' x'] m IH]; simpl; [now left|].
  destruct (Z.eqb_spec k' k); simpl; [now left|right; exact IH].
Qed.

Lemma rating_add_grows (m : RatingMap) (k x k0 : Z) :
  In k0 (map fst m) -> In k0 (map fst (rating_add m k x)).
Proof.
  induction m as [|[k' x'] m IH]; simpl; [intros []|].
  destruct (k' =? k); simpl; intros [H|H]; auto.
Qed.

Lemma rating_add_inv (m : RatingMap) (k x k0 : Z) :
  In k0 (map fst (rating_add m k x)) -> k0 = k \/ In k0 (map fst m).
Proof.
  induction m as [|[k' x'] m IH]; simpl.
  - intros [H|[]]. now left.
  - destruct (k' =? k); simpl; intros [H|H]; auto.
    destruct (IH H); auto.
Qed.

(** The rating map has one entry for a key. *)
Lemma rating_add_NoDup (m : RatingMap) (k x : Z) :
  NoDup (map fst m) -> NoDup (map fst (rating_add m k x)).
Proof.
  induction m as [|[k' x'] m IH]; simpl; intros Hnd.
  - apply NoDup_singleton.
  - destruct (Z.eqb_spec k' k) as [E|Hne]; simpl; [exact Hnd|].
    apply NoDup_cons in Hnd as [Hnotin Hnd]. apply NoDup_cons.
    split; [|now apply IH].
    intros Hin. apply Hnotin. apply list_elem_of_In.
    apply list_elem_of_In, rating_add_inv in Hin as [E|Hin];
      [contradiction|exact Hin].
Qed.

Lemma enter_NoDup (c_u : Z) (l : list (Z * Z)) : forall m,
  NoDup (map fst m) -> NoDup (map fst (fold_left (enter c_u) l m)).
Proof.
  induction l as [|kw l IH]; intros m Hm; [exact Hm|].
  simpl. apply IH. unfold enter, add_unless_loop.
  destruct (kw.1 =? c_u); [exact Hm|now apply rating_add_NoDup].
Qed.

Lemma enter_grows (c_u : Z) (l : list (Z * Z)) (k : Z) : forall m,
  In k (map fst m) -> In k (map fst (fold_left (enter c_u) l m)).
Proof.
  induction l as [|kw l IH]; intros m Hm; [exact Hm|].
  simpl. apply IH. unfold enter, add_unless_loop.
  destruct (kw.1 =? c_u); [exact Hm|now apply rating_add_grows].
Qed.

(** The target of every edge that entered is a key of the rating map,
    unless it is the coarse node itself. *)
Lemma enter_complete (c_u : Z) (l : list (Z * Z)) (k x : Z) :
  In (k, x) l -> k <> c_u ->
  forall m, In k (map fst (fold_left (enter c_u) l m)).
Proof.
  intros Hin Hne. induction l as [|kw l IH]; [destruct Hin|].
  intros m. destruct Hin as [->|Hin]; [|now apply IH].
  simpl. apply enter_grows. unfold enter, add_unless_loop. simpl.
  destruct (Z.eqb_spec k c_u); [contradiction|apply rating_add_key].
Qed.

(** Every record of a list of edges is in the run that starts at one
    of the run starts. *)
Lemma runs_cover (n : Z) (full : list GlobalEdge.t) :
  0 <= n -> n + zlen full < 2 ^ 32 ->
  forall edges pre prev e,
    full = pre ++ edges -> In e edges ->
    In e (run_of prev edges)
    \/ exists x,
         In (GlobalEdge.u e, x) (run_starts_from n prev (zlen pre) edges)
         /\ In e (run_of (GlobalEdge.u e) (drop (Z.to_nat (x - n)) full)).
Proof.
  intros Hn Hsmall edges.
  induction edges as [|e0 es IH]; intros pre prev e Hfull He;
    [destruct He|].
  assert (Hlen : zlen full = zlen pre + 1 + zlen es).
  { rewrite Hfull, zlen_app, zlen_cons. lia. }
  pose proof (zlen_nonneg pre). pose proof (zlen_nonneg es).
  assert (Hdrop : drop (Z.to_nat (wrap32 (wrap64 (n + zlen pre)) - n)) full
                  = e0 :: es).
  { rewrite wrap64_small, wrap32_small by lia.
    replace (Z.to_nat (n + zlen pre - n)) with (length pre)
      by (unfold zlen; lia).
    rewrite Hfull. apply drop_app_length. }
  simpl run_starts_from. simpl run_of.
  destruct He as [<-|He].
  - destruct (Z.eqb_spec (GlobalEdge.u e0) prev) as [E|Hne].
    + left. now left.
    + right. exists (wrap32 (wrap64 (n + zlen pre))).
      split; [now left|]. rewrite Hdrop. simpl. rewrite Z.eqb_refl. now left.
  - destruct (IH (pre ++ [e0]) (GlobalEdge.u e0) e) as [Hrun|(x & Hx & Hrun)];
      [rewrite <- app_assoc; exact Hfull|exact He| |].
    + destruct (run_of_incl _ _ _ Hrun) as [_ Hu].
      destruct (Z.eqb_spec (GlobalEdge.u e0) prev) as [E|Hne].
      * left. right. rewrite <- E. exact Hrun.
      * right. exists (wrap32 (wrap64 (n + zlen pre))). split.
        { rewrite Hu. now left. }
        rewrite Hdrop, Hu. simpl. rewrite Z.eqb_refl. right. exact Hrun.
    + right. exists x. split; [|exact Hrun].
      apply in_or_app. right.
      rewrite zlen_app in Hx. exact Hx.
Qed.

Lemma run_starts_cover (n : Z) (edges : list GlobalEdge.t) (e : GlobalEdge.t) :
  0 <= n -> n + zlen edges < 2 ^ 32 -> In e edges ->
  exists x,
    In (GlobalEdge.u e, x) (run_starts n edges)
    /\ In e (run_of (GlobalEdge.u e) (drop (Z.to_nat (x - n)) edges)).
Proof.
  intros Hn Hsmall He. destruct edges as [|e0 es]; [destruct He|].
  pose proof (zlen_nonneg es). rewrite zlen_cons in Hsmall.
  assert (Hdrop : drop (Z.to_nat (wrap32 (wrap64 n) - n)) (e0 :: es)
                  = e0 :: es).
  { rewrite wrap64_small, wrap32_small by lia. rewrite Z.sub_diag.
    reflexivity. }
  unfold run_starts. destruct He as [<-|He].
  - exists (wrap32 (wrap64 n)). split; [now left|].
    rewrite Hdrop. simpl. rewrite Z.eqb_refl. now left.
  - destruct (runs_cover n (e0 :: es) Hn ltac:(rewrite zlen_cons; lia)
                es [e0] (GlobalEdge.u e0) e eq_refl He)
      as [Hrun|(x & Hx & Hrun)].
    + destruct (run_of_incl _ _ _ Hrun) as [_ Hu].
      exists (wrap32 (wrap64 n)). split; [rewrite Hu; now left|].
      rewrite Hdrop, Hu. simpl. rewrite Z.eqb_refl. right. exact Hrun.
    + exists x. split; [right; exact Hx|exact Hrun].
Qed.

Section CoarseAdjacency.

Variable checked : bool.
Variables (D : list Z) (GC : Z -> Z) (w : World).
Hypothesis Hvalid : valid_world D GC w.
Hypothesis Hsmall : small_world D w.

Variables (r : Z) (pe : PE).
Hypothesis Hin : ix w r = Some pe.

Local Abbreviation CN := (cn checked w r).
Local Abbreviation CL := (clocal checked D w r pe).
Local Abbreviation LE := (ledges checked D w r).
Local Abbreviation CG := (cgraph checked D w r pe).

Lemma bucket_member c x :
  In (c, x) (contributors checked D w r pe) ->
  In x (bucket checked D w r pe c).
Proof.
  intros H. unfold bucket. apply -> in_rev. apply in_map_iff.
  exists (c, x). split; [reflexivity|].
  apply List.filter_In. split; [exact H|apply Z.eqb_refl].
Qed.

(** An edge of a node that stays reaches the rating map of the coarse
    node of its cluster. *)
Lemma staying_handled x ev :
  0 <= x < Graph.n (graph pe) ->
  Graph.is_owned_global_node (graph pe) (cluster_at pe x) = true ->
  In ev (adjacency (graph pe) x) ->
  In (CL (cluster_at pe ev.2), weight_of_edge (graph pe) ev.1)
     (handled checked D w r pe
              (coarse_local checked D w (cluster_at pe x))).
Proof.
  intros Hx Hown Hev. unfold handled. apply in_flat_map. exists x. split.
  - apply bucket_member. unfold contributors. apply in_or_app. left.
    unfold home_entries. apply in_flat_map. exists x.
    split; [apply list_elem_of_In, elem_of_seqZ; lia|].
    unfold home_entry. rewrite Hown. now left.
  - unfold handled_by.
    replace (x <? Graph.n (graph pe)) with true
      by (symmetry; apply Z.ltb_lt; lia).
    apply in_map_iff. exists ev. split; [reflexivity|exact Hev].
Qed.

(** An edge of a node that leaves for a cluster of the process reaches
    the rating map of the coarse node of the cluster, in the record
    that it was added to. *)
Lemma away_handled a pea x ev :
  ix w a = Some pea -> 0 <= x < Graph.n (graph pea) ->
  In ev (adjacency (graph pea) x) ->
  owner_of D (cluster_at pea x) = r -> a <> r ->
  exists wt,
    In (CL (cluster_at pea ev.2), wt)
       (handled checked D w r pe
                (coarse_local checked D w (cluster_at pea x))).
Proof.
  intros Hina Hx Hev Hown Hne.
  pose proof (vw_pe _ _ _ Hvalid _ _ Hina) as Hpea.
  pose proof (vw_pe _ _ _ Hvalid _ _ Hin) as Hpe.
  pose proof (vp_total D GC a pea Hpea) as Htot.
  pose proof (vp_ghost_n_nonneg D GC a pea Hpea) as Hgn.
  pose proof (cluster_valid D GC w Hvalid a pea Hpea x ltac:(lia)) as Hc.
  set (c_u := cluster_at pea x) in *.
  set (c_v := cluster_at pea ev.2).
  assert (Haway : away pea x = true).
  { unfold away. fold c_u. apply negb_true_iff.
    apply (is_owned_false D GC w Hvalid a pea Hpea Hina c_u Hc). lia. }
  set (e1 := GlobalEdge.mk c_u c_v (weight_of_edge (graph pea) ev.1)).
  assert (H1 : In e1 (raw_nonlocal_edges pea)).
  { unfold raw_nonlocal_edges. apply in_flat_map. exists x. split.
    - unfold away_nodes. apply List.filter_In. split; [|exact Haway].
      apply list_elem_of_In, elem_of_seqZ. lia.
    - unfold edge_records. apply in_map_iff. exists ev.
      split; [reflexivity|exact Hev]. }
  assert (H2 : In e1 (parallel_sort edge_less (raw_nonlocal_edges pea))).
  { apply list_elem_of_In. rewrite parallel_sort_Permutation.
    now apply list_elem_of_In. }
  destruct (coalesce_covers _ _ H2) as (o & Ho & Hu & Hv).
  simpl in Hu, Hv.
  assert (H3 : In o (received_edge_records D w r)).
  { unfold received_edge_records. apply in_flat_map. exists pea.
    split; [eapply ix_In, Hina|].
    apply List.filter_In. split; [exact Ho|].
    unfold edge_owner. rewrite Hu. now apply Z.eqb_eq. }
  assert (H4 : In (localize checked D w o) LE).
  { unfold ledges. apply in_map. unfold sorted_edges.
    apply list_elem_of_In. rewrite parallel_sort_Permutation.
    now apply list_elem_of_In. }
  pose proof (n_le_total D GC w Hvalid r pe Hin) as Hn.
  pose proof (zlen_ledges checked D GC w Hvalid r) as Hle.
  unfold small_world in Hsmall.
  destruct (run_starts_cover (Graph.n (graph pe)) LE _ ltac:(lia) ltac:(lia)
              H4) as (x0 & Hx0 & Hrun).
  simpl in Hx0, Hrun. rewrite Hu in Hx0, Hrun.
  destruct (run_starts_spec _ _ _ _ Hx0) as (j & e & Hj & _ & _ & Ex0).
  rewrite wrap64_small, wrap32_small in Ex0 by lia.
  exists (GlobalEdge.weight o). unfold handled. apply in_flat_map.
  exists x0. split.
  - apply bucket_member. unfold contributors. apply in_or_app. now right.
  - unfold handled_by.
    replace (x0 <? Graph.n (graph pe)) with false
      by (symmetry; apply Z.ltb_ge; lia).
    apply in_map_iff. exists (localize checked D w o).
    split; [simpl; now rewrite Hv|exact Hrun].
Qed.

(** The neighbours of a coarse node are the coarse nodes of the
    clusters that an edge of the fine graph joins to its cluster. *)
Lemma cgraph_adjacency u :
  0 <= u < CN ->
  exists nb,
    neighbors CG u = Ok nb
    /\ NoDup (map snd nb)
    /\ (forall k, In k (map snd nb) ->
          exists c_u c_v,
            cluster_edge w c_u c_v /\ c_u <> c_v
            /\ coarse_id checked D w c_u = coarse_offset checked w r + u
            /\ Graph.local_to_global_node checked CG k
               = Ok (coarse_id checked D w c_v))
    /\ (forall c_u c_v,
          cluster_edge w c_u c_v -> c_u <> c_v ->
          coarse_id checked D w c_u = coarse_offset checked w r + u ->
          exists k,
            In k (map snd nb)
            /\ Graph.local_to_global_node checked CG k
               = Ok (coarse_id checked D w c_v)).
Proof.
  intros Hu. pose proof (vw_pe _ _ _ Hvalid _ _ Hin) as Hpe.
  destruct (cgraph_neighbors checked D GC w Hvalid Hsmall r pe Hin u Hu)
    as (nb & Enb & Hkeys).
  assert (Hlocal : forall c, inhabited w c -> owner_of D c = r ->
            Graph.is_owned_global_node (graph pe) c = true
            /\ CL c = coarse_local checked D w c).
  { intros c Hc Ho.
    assert (Hown : Graph.is_owned_global_node (graph pe) c = true).
    { apply (is_owned_owner D GC w Hvalid r pe Hpe Hin c); [|exact Ho].
      now apply (inhabited_valid D GC w Hvalid). }
    split; [exact Hown|].
    apply (clocal_owned checked D GC w Hvalid Hsmall r pe Hin c Hc Hown). }
  exists nb. split; [exact Enb|]. rewrite Hkeys. split; [|split].
  - rewrite pure_collect_handled. apply enter_NoDup. constructor.
  - intros k Hk.
    destruct (key_origin checked D GC w Hvalid Hsmall r pe Hin u k Hu Hk)
      as (c_u & c_v & Hedge & Ho & Hl & Hcov & Ek).
    destruct (cluster_edge_inhabited D GC w Hvalid c_u c_v Hedge)
      as [Hcu Hcv].
    destruct (Hlocal c_u Hcu Ho) as [Hown Ecl].
    exists c_u, c_v. split; [exact Hedge|]. split; [|split].
    + intros ->.
      pose proof (pure_collect_keys checked D GC w Hvalid Hsmall r pe Hin u
                    Hu) as Hgood.
      rewrite Forall_forall in Hgood.
      apply in_map_iff in Hk as (kv & <- & Hkv).
      destruct (Hgood kv ltac:(now apply list_elem_of_In)) as [Hne _].
      apply Hne. rewrite <- Hl, <- Ecl. congruence.
    + unfold coarse_id. now rewrite Ho, Hl.
    + rewrite <- Ek.
      apply (clocal_global checked D GC w r pe c_v Hvalid Hsmall Hin Hcv Hcov).
  - intros c_u c_v Hedge Hne Eid.
    destruct (cluster_edge_inhabited D GC w Hvalid c_u c_v Hedge)
      as [Hcu Hcv].
    destruct (coarse_node_cluster checked D GC w Hvalid Hsmall r pe u Hin Hu)
      as (c0 & Hc0 & Ho0 & Hl0).
    assert (c0 = c_u) as ->.
    { apply (coarse_id_inj checked D GC w Hvalid Hsmall c0 c_u Hc0 Hcu).
      rewrite Eid. unfold coarse_id. now rewrite Ho0, Hl0. }
    destruct (Hlocal c_u Hcu Ho0) as [Hown Ecl].
    pose proof (cluster_edge_covered checked D GC w Hvalid Hsmall r pe c_u c_v
                  Hin Hedge Ho0) as Hcov.
    assert (Hk : CL c_v <> u).
    { intros E. apply Hne. symmetry.
      apply (clocal_inj checked D GC w Hvalid Hsmall r pe c_v c_u Hin Hcv Hcov
               Hcu (or_introl Hown)).
      rewrite E, Ecl. now symmetry. }
    assert (Hhandled : exists wt,
              In (CL c_v, wt) (handled checked D w r pe u)).
    { destruct Hedge as (a & pea & x & ev & Hina & Hx & Hev & Ecu & Ecv).
      rewrite <- Hl0, <- Ecu, <- Ecv.
      destruct (Z.eq_dec a r) as [->|Har].
      - assert (pea = pe) as -> by congruence.
        eexists. apply staying_handled; [exact Hx| |exact Hev].
        now rewrite Ecu.
      - apply (away_handled a pea x ev Hina Hx Hev); [|exact Har].
        now rewrite Ecu. }
    destruct Hhandled as [wt Hwt].
    exists (CL c_v). split.
    + rewrite pure_collect_handled. now apply (enter_complete u _ _ wt).
    + apply (clocal_global checked D GC w r pe c_v Hvalid Hsmall Hin Hcv Hcov).
Qed.

End CoarseAdjacency.



(** ** The weight of a coarse node *)

(** The weight of the members of the cluster [c]: of the owned nodes of
    all processes that the clustering assigns to [c]. *)
Definition cluster_weight (w : World) (c : Z) : Z :=
  sumZ (map (fun pe =>
               sumZ (map (fun x => if cluster_at pe x =? c
                                   then weight_of_node (graph pe) x else 0)
                         (seqZ 0 (Graph.n (graph pe)))))
            w).

Lemma sumZ_filter {A} (p : A -> bool) (f : A -> Z) (l : list A) :
  sumZ (map f (List.filter p l))
  = sumZ (map (fun x => if p x then f x else 0) l).
Proof.
  induction l as [|x l IH]; [reflexivity|].
  simpl. destruct (p x); simpl; rewrite IH; reflexivity.
Qed.

Lemma sumZ_map_ext_in {A} (f g : A -> Z) (l : list A) :
  (forall x, In x l -> f x = g x) -> sumZ (map f l) = sumZ (map g l).
Proof. intros H. f_equal. now apply map_ext_in. Qed.

Lemma sumZ_differ_in (f g : Z -> Z) (size r : Z) :
  0 <= r < size ->
  (forall p, 0 <= p < size -> p <> r -> f p = g p) ->
  sumZ (map f (seqZ 0 size)) = sumZ (map g (seqZ 0 size)) + f r - g r.
Proof.
  intros Hr H.
  set (clip := fun (h : Z -> Z) p =>
                 if (0 <=? p) && (p <? size) then h p else 0).
  assert (E : forall h, sumZ (map h (seqZ 0 size))
                        = sumZ (map (clip h) (seqZ 0 size))).
  { intros h. apply sumZ_map_ext_in. intros p Hp.
    apply list_elem_of_In, elem_of_seqZ in Hp. unfold clip.
    replace (0 <=? p) with true by (symmetry; apply Z.leb_le; lia).
    replace (p <? size) with true by (symmetry; apply Z.ltb_lt; lia).
    reflexivity. }
  rewrite (E f), (E g).
  rewrite (sumZ_differ_at (clip f) (clip g) size r Hr).
  - unfold clip.
    replace (0 <=? r) with true by (symmetry; apply Z.leb_le; lia).
    replace (r <? size) with true by (symmetry; apply Z.ltb_lt; lia).
    reflexivity.
  - intros p Hp. unfold clip.
    destruct (Z.leb_spec 0 p); [|reflexivity].
    destruct (Z.ltb_spec p size); [|reflexivity].
    simpl. apply H; lia.
Qed.

Section CoarseNodeWeight.

Variable checked : bool.
Variables (D : list Z) (GC : Z -> Z) (w : World).
Hypothesis Hvalid : valid_world D GC w.
Hypothesis Hsmall : small_world D w.
Hypothesis Hnonneg : weights_nonneg w.
Hypothesis Hbound : fine_node_weight w < 2 ^ 31.

Variables (r : Z) (pe : PE).
Hypothesis Hin : ix w r = Some pe.

Local Abbreviation CN := (cn checked w r).
Local Abbreviation GN := (ghosts_n checked w r).
Local Abbreviation COARSE := (coarse_local checked D w).

(** The weight that the received node records add to the coarse node
    [c]. *)
Lemma integrate_at (nodes : list GlobalNode.t) : forall ws,
  zlen ws = CN + GN ->
  Forall (fun x => 0 <= x) (take (Z.to_nat CN) ws) ->
  (forall nd, In nd nodes -> In nd (received_nodes D w r)) ->
  sumZ (take (Z.to_nat CN) ws) + sumZ (map GlobalNode.weight nodes) < 2 ^ 31 ->
  forall c, 0 <= c < CN ->
    ix (fold_left (integrate checked D w) nodes ws) c
    = Some (default 0 (ix ws c)
            + sumZ (map (fun nd => if COARSE (GlobalNode.u nd) =? c
                                   then GlobalNode.weight nd else 0)
                        nodes)).
Proof.
  destruct (sizes_small checked D GC w Hvalid Hsmall r pe Hin) as (? & ? & ?).
  induction nodes as [|nd nodes IH]; intros ws Hlen Hnn Hsub Hsum c Hc;
    simpl in *.
  { destruct (ix_in_range ws c) as [x Hx]; [lia|].
    rewrite Hx. simpl. f_equal. lia. }
  pose proof (received_nodes_inhabited D GC w Hvalid r) as H'.
  rewrite Forall_forall in H'.
  destruct (H' nd) as (Hi & _ & Ho);
    [apply list_elem_of_In, Hsub; now left|].
  destruct (coarse_local_spec checked D GC w Hvalid Hsmall _ r pe Hi Hin Ho)
    as (_ & Hrange).
  set (cl := COARSE (GlobalNode.u nd)) in *.
  pose proof (received_weights_nonneg D w Hnonneg r) as Hw.
  rewrite Forall_forall in Hw.
  assert (Hwt : 0 <= GlobalNode.weight nd)
    by (apply Hw, list_elem_of_In, Hsub; now left).
  assert (Hrest : 0 <= sumZ (map GlobalNode.weight nodes)).
  { apply sumZ_nonneg, Forall_forall. intros y Hy.
    apply list_elem_of_In, in_map_iff in Hy as (nd' & <- & Hnd').
    apply Hw, list_elem_of_In, Hsub. now right. }
  destruct (ix_in_range ws cl) as [old Hold]; [lia|].
  assert (Hold' : take (Z.to_nat CN) ws !! Z.to_nat cl = Some old).
  { rewrite lookup_take_lt by lia. unfold ix in Hold.
    destruct (cl <? 0) eqn:E; [apply Z.ltb_lt in E; lia|exact Hold]. }
  assert (Hold0 : 0 <= old <= sumZ (take (Z.to_nat CN) ws)).
  { split.
    - rewrite Forall_forall in Hnn. eapply Hnn, list_elem_of_lookup_2, Hold'.
    - apply sumZ_member_le; [exact Hnn|].
      eapply list_elem_of_In, list_elem_of_lookup_2, Hold'. }
  assert (Efull : integrate checked D w ws nd
                  = <[Z.to_nat cl := old + GlobalNode.weight nd]> ws).
  { unfold integrate. fold cl. rewrite Hold. simpl. f_equal.
    unfold wadd. apply swrap32_small. lia. }
  assert (Estep : take (Z.to_nat CN) (integrate checked D w ws nd)
                  = <[Z.to_nat cl := old + GlobalNode.weight nd]>
                      (take (Z.to_nat CN) ws)).
  { rewrite Efull. apply take_insert_lt. lia. }
  rewrite IH.
  - f_equal. rewrite Efull.
    destruct (Z.eqb_spec cl c) as [E|Hne].
    + rewrite <- E. rewrite ix_insert_eq by lia. rewrite Hold. simpl. lia.
    + rewrite ix_insert_ne by (try lia; congruence). lia.
  - now rewrite zlen_integrate.
  - rewrite Estep. apply Forall_insert; [exact Hnn|lia].
  - intros nd' Hnd'. apply Hsub. now right.
  - rewrite Estep, (sumZ_insert _ _ old) by exact Hold'. lia.
  - exact Hc.
Qed.

(** The weight that the nodes that stay add to the coarse node [u]. *)
Lemma home_weight_at u :
  0 <= u < CN ->
  (pure_collect checked D w r pe u).1
  = sumZ (map (fun x =>
                 if Graph.is_owned_global_node (graph pe) (cluster_at pe x)
                    && (COARSE (cluster_at pe x) =? u)
                 then weight_of_node (graph pe) x else 0)
              (seqZ 0 (Graph.n (graph pe)))).
Proof.
  intros Hu.
  rewrite (pure_collect_fst checked D GC w Hvalid Hsmall Hnonneg Hbound r pe
             Hin u Hu).
  unfold bucket. rewrite map_rev, sumZ_rev, map_map.
  unfold contributors. rewrite List.filter_app, map_app, sumZ_app.
  rewrite (sumZ_map_zero _ (List.filter _ (run_starts _ _))).
  2:{ intros [k x] Hkx. apply List.filter_In in Hkx as [Hkx _]. simpl.
      apply (run_starts_home_part checked D GC w Hvalid Hsmall r pe Hin k x
               Hkx). }
  rewrite Z.add_0_r. unfold home_entries.
  rewrite sumZ_filter, sumZ_flat_map.
  apply sumZ_map_ext_in. intros x Hx.
  apply list_elem_of_In, elem_of_seqZ in Hx. unfold home_entry.
  destruct (Graph.is_owned_global_node (graph pe) (cluster_at pe x));
    [|reflexivity].
  simpl. unfold home_part.
  replace (x <? Graph.n (graph pe)) with true
    by (symmetry; apply Z.ltb_lt; lia).
  destruct (COARSE (cluster_at pe x) =? u); lia.
Qed.

(** The weight that the nodes that leave for the process add to the
    coarse node [u]. *)
Lemma received_weight_at u :
  sumZ (map (fun nd => if COARSE (GlobalNode.u nd) =? u
                       then GlobalNode.weight nd else 0)
            (received_nodes D w r))
  = sumZ (map (fun pea =>
                 sumZ (map (fun x =>
                              if away pea x
                                 && (owner_of D (cluster_at pea x) =? r)
                                 && (COARSE (cluster_at pea x) =? u)
                              then weight_of_node (graph pea) x else 0)
                           (seqZ 0 (Graph.n (graph pea)))))
              w).
Proof.
  unfold received_nodes. rewrite sumZ_flat_map.
  apply sumZ_map_ext_in. intros pea _.
  rewrite sumZ_filter.
  rewrite (sumZ_Permutation _
             (map (fun nd => if node_owner D nd =? r
                             then if COARSE (GlobalNode.u nd) =? u
                                  then GlobalNode.weight nd else 0
                             else 0)
                  (raw_nonlocal_nodes pea))).
  2:{ apply Permutation_map. unfold sent_nodes, sort_node_list.
      apply parallel_sort_Permutation. }
  unfold raw_nonlocal_nodes, away_nodes. rewrite map_map, sumZ_filter.
  apply sumZ_map_ext_in. intros x _.
  unfold node_owner, node_record. simpl.
  destruct (away pea x); [|reflexivity].
  destruct (owner_of D (cluster_at pea x) =? r); reflexivity.
Qed.

(** The weight of a coarse node is the weight of its cluster. *)
Lemma cweights_at u c :
  0 <= u < CN -> inhabited w c -> owner_of D c = r -> COARSE c = u ->
  ix (cweights checked D w r pe) u = Some (cluster_weight w c).
Proof.
  intros Hu Hc Ho Hl. pose proof (vw_pe _ _ _ Hvalid _ _ Hin) as Hpe.
  pose proof (rank_range w r pe Hin) as Hr.
  destruct (sizes_small checked D GC w Hvalid Hsmall r pe Hin) as (? & ? & ?).
  pose proof (process_weight_le D GC w Hvalid Hnonneg r pe Hin) as Hle.
  pose proof (inhabited_valid D GC w Hvalid c Hc) as Hcv.
  unfold cweights. rewrite integrate_at; try assumption.
  2:{ apply (zlen_home_weights checked D GC w Hvalid Hsmall r pe Hin). }
  2:{ rewrite (take_home_weights checked D GC w Hvalid Hsmall Hnonneg Hbound
                 r pe Hin).
      apply Forall_forall. intros y Hy.
      apply list_elem_of_In, in_map_iff in Hy as (c' & <- & Hc').
      apply list_elem_of_In, elem_of_seqZ in Hc'.
      apply (bucket_weight_le checked D GC w Hvalid Hsmall Hnonneg r pe Hin).
      lia. }
  2:{ auto. }
  2:{ rewrite (take_home_weights checked D GC w Hvalid Hsmall Hnonneg Hbound
                 r pe Hin),
        (buckets_weight checked D GC w Hvalid Hsmall r pe Hin).
      unfold received_weight in Hle. lia. }
  f_equal.
  assert (Ehome : default 0 (ix (home_weights checked D w r pe) u)
                  = (pure_collect checked D w r pe u).1).
  { unfold home_weights. rewrite ix_app_l by (rewrite zlen_map, zlen_seqZ; lia).
    rewrite ix_map, ix_seqZ by lia. simpl. now rewrite Z.add_0_l. }
  rewrite Ehome, (home_weight_at u Hu), received_weight_at.
  (* the members of the cluster, process by process *)
  assert (Hsame : forall a pea x,
            ix w a = Some pea -> 0 <= x < Graph.n (graph pea) ->
            (owner_of D (cluster_at pea x) =? r)
            && (COARSE (cluster_at pea x) =? u)
            = (cluster_at pea x =? c)).
  { intros a pea x Hina Hx.
    pose proof (vw_pe _ _ _ Hvalid _ _ Hina) as Hpea.
    pose proof (vp_ghost_n_nonneg D GC a pea Hpea) as Hgn.
    pose proof (vp_total D GC a pea Hpea) as Htot.
    assert (Hcx : inhabited w (cluster_at pea x)).
    { exists a, pea, x. split; [exact Hina|]. split; [lia|reflexivity]. }
    destruct (Z.eqb_spec (cluster_at pea x) c) as [E|Hne].
    - rewrite E. apply andb_true_iff. split; now apply Z.eqb_eq.
    - apply andb_false_iff.
      destruct (Z.eqb_spec (owner_of D (cluster_at pea x)) r) as [Eo|];
        [right|now left].
      apply Z.eqb_neq. intros El. apply Hne.
      apply (coarse_local_inj checked D GC w Hvalid Hsmall _ _ Hcx Hc);
        congruence. }
  assert (Hownr : forall x, 0 <= x < Graph.n (graph pe) ->
            Graph.is_owned_global_node (graph pe) (cluster_at pe x)
            = (owner_of D (cluster_at pe x) =? r)).
  { intros x Hx.
    pose proof (vp_ghost_n_nonneg D GC r pe Hpe) as Hgn.
    pose proof (vp_total D GC r pe Hpe) as Htot.
    pose proof (cluster_valid D GC w Hvalid r pe Hpe x ltac:(lia)) as Hcl.
    destruct (Z.eqb_spec (owner_of D (cluster_at pe x)) r) as [E|Hne].
    - now apply (is_owned_owner D GC w Hvalid r pe Hpe Hin).
    - now apply (is_owned_false D GC w Hvalid r pe Hpe Hin). }
  set (S := fun pea : PE =>
              sumZ (map (fun x => if cluster_at pea x =? c
                                  then weight_of_node (graph pea) x else 0)
                        (seqZ 0 (Graph.n (graph pea))))).
  set (A := fun pea : PE =>
              sumZ (map (fun x =>
                           if away pea x
                              && (owner_of D (cluster_at pea x) =? r)
                              && (COARSE (cluster_at pea x) =? u)
                           then weight_of_node (graph pea) x else 0)
                        (seqZ 0 (Graph.n (graph pea))))).
  assert (Hhome : sumZ (map (fun x =>
                    if Graph.is_owned_global_node (graph pe) (cluster_at pe x)
                       && (COARSE (cluster_at pe x) =? u)
                    then weight_of_node (graph pe) x else 0)
                    (seqZ 0 (Graph.n (graph pe)))) = S pe).
  { apply sumZ_map_ext_in. intros x Hx.
    apply list_elem_of_In, elem_of_seqZ in Hx.
    rewrite (Hownr x ltac:(lia)), (Hsame r pe x Hin ltac:(lia)).
    reflexivity. }
  assert (HAr : A pe = 0).
  { apply sumZ_map_zero. intros x Hx.
    apply list_elem_of_In, elem_of_seqZ in Hx.
    unfold away. rewrite (Hownr x ltac:(lia)).
    destruct (owner_of D (cluster_at pe x) =? r); reflexivity. }
  assert (HAS : forall a pea, ix w a = Some pea -> a <> r -> S pea = A pea).
  { intros a pea Hina Hne.
    pose proof (vw_pe _ _ _ Hvalid _ _ Hina) as Hpea.
    pose proof (vp_ghost_n_nonneg D GC a pea Hpea) as Hgn.
    pose proof (vp_total D GC a pea Hpea) as Htot.
    apply sumZ_map_ext_in. intros x Hx.
    apply list_elem_of_In, elem_of_seqZ in Hx.
    rewrite <- andb_assoc, (Hsame a pea x Hina ltac:(lia)).
    destruct (Z.eqb_spec (cluster_at pea x) c) as [E|];
      [|now rewrite andb_false_r].
    replace (away pea x) with true; [reflexivity|].
    symmetry. unfold away. apply negb_true_iff. rewrite E.
    apply (is_owned_false D GC w Hvalid a pea Hpea Hina c Hcv). lia. }
  rewrite Hhome. unfold cluster_weight. fold S. fold A.
  rewrite <- (map_ranks S no_pe w), <- (map_ranks A no_pe w).
  unfold ranks.
  rewrite (sumZ_differ_in (fun a => S (default no_pe (ix w a)))
             (fun a => A (default no_pe (ix w a))) (comm_size w) r Hr).
  - rewrite Hin. simpl. lia.
  - intros a Ha Hne.
    destruct (rank_pe D GC w Hvalid a Ha) as (pea & Hina & _).
    rewrite Hina. simpl. now apply (HAS a pea).
Qed.

End CoarseNodeWeight.



(** ** The weight of a coarse edge *)

(** The edges from the cluster [c_u] to the cluster [c_v]. *)
Definition between (c_u c_v : Z) (u v : Z) : bool :=
  (u =? c_u) && (v =? c_v).

(** The weight of the edges of the fine graph that lead from a node of
    the cluster [c_u] to a node of the cluster [c_v]. *)
Definition cluster_edge_weight (w : World) (c_u c_v : Z) : Z :=
  sumZ (map (adjacent_edge_weight (between c_u c_v)) w).

(** The rating of the key [k]. *)
Definition value_at (m : RatingMap) (k : Z) : Z :=
  sumZ (map (fun kv : Z * Z => if kv.1 =? k then kv.2 else 0) m).

Lemma rating_add_at (m : RatingMap) (key wt k : Z) :
  Forall (fun kv : Z * Z => 0 <= kv.2) m -> 0 <= wt ->
  sumZ (map snd m) + wt < 2 ^ 31 ->
  value_at (rating_add m key wt) k
  = value_at m k + (if key =? k then wt else 0).
Proof.
  unfold value_at.
  induction m as [|[k' x] m IH]; intros Hm Hwt Hsum.
  - simpl in *. rewrite wadd_small by lia. destruct (key =? k); lia.
  - apply Forall_cons in Hm as [Hx Hm]. simpl in Hx.
    assert (0 <= sumZ (map snd m))
      by (apply sumZ_nonneg, Forall_map; exact Hm).
    cbn [map snd] in Hsum. change (sumZ (?y :: ?t)) with (y + sumZ t) in Hsum.
    cbn [rating_add]. destruct (Z.eqb_spec k' key) as [->|Hne].
    + rewrite wadd_small by lia. cbn [map fst snd].
      change (sumZ (?y :: ?t)) with (y + sumZ t).
      destruct (key =? k); lia.
    + cbn [map fst snd]. change (sumZ (?y :: ?t)) with (y + sumZ t).
      rewrite IH by (auto; lia). lia.
Qed.

(** The rating of a key is the weight of the edges that entered with
    this key. *)
Lemma enter_at (c_u k : Z) (l : list (Z * Z)) : forall m,
  Forall (fun kv : Z * Z => 0 <= kv.2) m ->
  Forall (fun kw : Z * Z => 0 <= kw.2) l ->
  sumZ (map snd m) + sumZ (map snd l) < 2 ^ 31 ->
  value_at (fold_left (enter c_u) l m) k
  = value_at m k
    + sumZ (map (fun kw : Z * Z =>
                   if kw.1 =? c_u then 0
                   else if kw.1 =? k then kw.2 else 0) l).
Proof.
  induction l as [|kw l IH]; intros m Hm Hl Hsum; [simpl; lia|].
  apply Forall_cons in Hl as [Hkw Hl].
  assert (0 <= sumZ (map snd l))
    by (apply sumZ_nonneg, Forall_map; exact Hl).
  cbn [map] in *. change (sumZ (?y :: ?t)) with (y + sumZ t) in *.
  cbn [fold_left]. unfold enter at 2. unfold add_unless_loop.
  destruct (kw.1 =? c_u).
  - rewrite IH by (auto; lia). lia.
  - destruct (rating_add_weight m kw.1 kw.2 Hm Hkw ltac:(lia)) as [E HF].
    rewrite IH by (auto; lia). rewrite rating_add_at by (auto; lia). lia.
Qed.

Lemma value_at_absent (m : RatingMap) (k : Z) :
  ~ In k (map fst m) -> value_at m k = 0.
Proof.
  intros Hk. unfold value_at. apply sumZ_map_zero. intros [k' x] Hkx. simpl.
  destruct (Z.eqb_spec k' k) as [->|]; [|reflexivity].
  exfalso. apply Hk. apply in_map_iff. exists (k, x). auto.
Qed.

Lemma value_at_entry (m : RatingMap) (k x : Z) :
  NoDup (map fst m) -> In (k, x) m -> value_at m k = x.
Proof.
  induction m as [|[k' x'] m IH]; intros Hnd Hin; [destruct Hin|].
  simpl in Hnd. apply NoDup_cons in Hnd as [Hnotin Hnd].
  unfold value_at. cbn [map fst snd].
  change (sumZ (?y :: ?t)) with (y + sumZ t). fold (value_at m k).
  destruct Hin as [E|Hin].
  - inversion E; subst. rewrite Z.eqb_refl.
    rewrite value_at_absent; [lia|].
    intros H. apply Hnotin. now apply list_elem_of_In.
  - destruct (Z.eqb_spec k' k) as [->|Hne]; [|rewrite IH; auto; lia].
    exfalso. apply Hnotin. apply list_elem_of_In, in_map_iff.
    exists (k, x). auto.
Qed.

Section ClusterEdgeWeight.

Variable checked : bool.
Variables (D : list Z) (GC : Z -> Z) (w : World).
Hypothesis Hvalid : valid_world D GC w.
Hypothesis Hsmall : small_world D w.
Hypothesis Hnonneg : edge_weights_nonneg w.
Hypothesis Hbound : adjacent_weight w < 2 ^ 31.

Variables (r : Z) (pe : PE).
Hypothesis Hin : ix w r = Some pe.

Local Abbreviation CN := (cn checked w r).
Local Abbreviation CL := (clocal checked D w r pe).
Local Abbreviation COARSE := (coarse_local checked D w).
Local Abbreviation HD := (handled checked D w r pe).
Local Abbreviation CG := (cgraph checked D w r pe).

Variables (u c_u c_v : Z).
Hypothesis Hu : 0 <= u < CN.
Hypothesis Hcu : inhabited w c_u.
Hypothesis Hou : owner_of D c_u = r.
Hypothesis Hlu : COARSE c_u = u.
Hypothesis Hcv : inhabited w c_v.
Hypothesis Hcov : covered pe (request_state checked w r) c_v.

Lemma same_source c :
  inhabited w c -> owner_of D c = r -> (u =? COARSE c) = (c =? c_u).
Proof.
  intros Hc Ho. destruct (Z.eqb_spec c c_u) as [->|Hne].
  - rewrite Hlu. apply Z.eqb_refl.
  - apply Z.eqb_neq. intros E. apply Hne.
    apply (coarse_local_inj checked D GC w Hvalid Hsmall c c_u Hc Hcu);
      congruence.
Qed.

Lemma same_target c :
  inhabited w c -> covered pe (request_state checked w r) c ->
  (CL c =? CL c_v) = (c =? c_v).
Proof.
  intros Hc Hcovc. destruct (Z.eqb_spec c c_v) as [->|Hne].
  - apply Z.eqb_refl.
  - apply Z.eqb_neq. intros E. apply Hne.
    apply (clocal_inj checked D GC w Hvalid Hsmall r pe c c_v Hin Hc Hcovc
             Hcv Hcov E).
Qed.

(** The edges that reach the rating map of [u] with the key of
    [c_v]. *)
Lemma handled_at :
  sumZ (map (fun kw : Z * Z => if kw.1 =? CL c_v then kw.2 else 0) (HD u))
  = staying_edge_weight (between c_u c_v) pe
    + received_edge_weight (between c_u c_v) D w r.
Proof.
  pose proof (vw_pe _ _ _ Hvalid _ _ Hin) as Hpe.
  pose proof (vp_total D GC r pe Hpe) as Htot.
  pose proof (vp_ghost_n_nonneg D GC r pe Hpe) as Hgn.
  destruct (requests_spec checked D GC w Hvalid Hsmall r pe Hin)
    as (_ & _ & _ & _ & Hcover & _).
  set (g := fun (c : Z) (kw : Z * Z) =>
              if (u =? c) && (kw.1 =? CL c_v) then kw.2 else 0).
  transitivity (sumZ (map (fun c => sumZ (map (g c) (HD c))) (seqZ 0 CN))).
  { etransitivity; [symmetry; apply (sumZ_one_hot u CN _ Hu)|].
    apply sumZ_map_ext_in. intros c _.
    destruct (Z.eqb_spec u c) as [<-|Hne].
    - apply sumZ_map_ext_in. intros kw _. unfold g.
      now rewrite Z.eqb_refl.
    - symmetry. apply sumZ_map_zero. intros kw _. unfold g.
      replace (u =? c) with false by (symmetry; now apply Z.eqb_neq).
      reflexivity. }
  rewrite (handled_sum checked D GC w Hvalid Hsmall r pe Hin g). f_equal.
  - unfold staying_edge_weight. apply sumZ_map_ext_in.
    intros x Hx. apply list_elem_of_In, elem_of_seqZ in Hx.
    destruct (Graph.is_owned_global_node (graph pe) (cluster_at pe x))
      eqn:Hown; [|reflexivity].
    unfold node_edge_weight, edge_records. rewrite map_map.
    apply sumZ_map_ext_in. intros ev Hev.
    destruct (neighbors_spec D GC r pe Hpe x ltac:(lia)) as [_ Hadj].
    rewrite Forall_forall in Hadj.
    destruct (Hadj ev) as (_ & Hv & _); [now apply list_elem_of_In|].
    assert (Hix : inhabited w (cluster_at pe x)).
    { exists r, pe, x. split; [exact Hin|]. split; [lia|reflexivity]. }
    assert (Hiv : inhabited w (cluster_at pe ev.2)).
    { exists r, pe, ev.2. auto. }
    assert (Hox : owner_of D (cluster_at pe x) = r).
    { apply (is_owned_owner D GC w Hvalid r pe Hpe Hin); [|exact Hown].
      now apply (inhabited_valid D GC w Hvalid). }
    unfold g, picked, between.
    cbn [fst snd GlobalEdge.u GlobalEdge.v GlobalEdge.weight].
    rewrite (same_source _ Hix Hox).
    rewrite (same_target _ Hiv (Hcover x ev ltac:(lia) Hown Hev)).
    reflexivity.
  - unfold received_edge_weight, ledges. rewrite map_map.
    etransitivity;
      [|apply sumZ_Permutation, Permutation_map,
          (parallel_sort_Permutation source_less)].
    apply sumZ_map_ext_in. intros e He.
    pose proof (sorted_edges_spec checked D GC w Hvalid Hsmall r pe Hin) as H.
    rewrite Forall_forall in H.
    destruct (H e) as (Hue & Hoe & Hve & Hcve); [now apply list_elem_of_In|].
    unfold g, picked, between, localize.
    cbn [fst snd GlobalEdge.u GlobalEdge.v GlobalEdge.weight].
    rewrite (same_source _ Hue Hoe), (same_target _ Hve Hcve).
    reflexivity.
Qed.

(** The edges of the cluster [c_u] reach its owner only. *)
Lemma staying_elsewhere a pea :
  ix w a = Some pea -> a <> r ->
  staying_edge_weight (between c_u c_v) pea = 0.
Proof.
  intros Hina Hne. pose proof (vw_pe _ _ _ Hvalid _ _ Hina) as Hpea.
  pose proof (inhabited_valid D GC w Hvalid c_u Hcu) as Hrange.
  unfold staying_edge_weight. apply sumZ_map_zero. intros x _.
  destruct (Graph.is_owned_global_node (graph pea) (cluster_at pea x))
    eqn:Hown; [|reflexivity].
  unfold node_edge_weight, edge_records. rewrite map_map.
  apply sumZ_map_zero. intros ev _. unfold picked, between. simpl.
  destruct (Z.eqb_spec (cluster_at pea x) c_u) as [E|]; [|reflexivity].
  exfalso. apply Hne. rewrite E in Hown.
  apply (is_owned_owner D GC w Hvalid a pea Hpea Hina c_u Hrange) in Hown.
  congruence.
Qed.

Lemma received_elsewhere a :
  a <> r -> received_edge_weight (between c_u c_v) D w a = 0.
Proof.
  intros Hne. unfold received_edge_weight. apply sumZ_map_zero.
  intros e He.
  pose proof (received_edges_inhabited D GC w Hvalid a) as H.
  rewrite Forall_forall in H.
  destruct (H e) as (_ & _ & Ho); [now apply list_elem_of_In|].
  unfold picked, between.
  destruct (Z.eqb_spec (GlobalEdge.u e) c_u) as [E|]; [|reflexivity].
  exfalso. apply Hne. congruence.
Qed.

Lemma cluster_edge_weight_split :
  staying_edge_weight (between c_u c_v) pe
  + received_edge_weight (between c_u c_v) D w r
  = cluster_edge_weight w c_u c_v.
Proof.
  pose proof (rank_range w r pe Hin) as Hr.
  unfold cluster_edge_weight.
  rewrite <- (edges_stay_or_leave D GC w Hvalid Hnonneg Hbound). f_equal.
  - rewrite <- (map_ranks (staying_edge_weight (between c_u c_v)) no_pe w).
    unfold ranks.
    rewrite (sumZ_differ_in _ (fun _ => 0) (comm_size w) r Hr).
    + rewrite sumZ_map_zero by auto. rewrite Hin. simpl. lia.
    + intros a Ha Hne.
      destruct (rank_pe D GC w Hvalid a Ha) as (pea & Hina & _).
      rewrite Hina. simpl. now apply (staying_elsewhere a pea).
  - unfold ranks.
    rewrite (sumZ_differ_in _ (fun _ => 0) (comm_size w) r Hr).
    + rewrite sumZ_map_zero by auto. lia.
    + intros a _ Hne. now apply received_elsewhere.
Qed.

(** The rating of the coarse node of [c_v] in the rating map of [u]. *)
Lemma rating_at x :
  c_v <> c_u -> In (CL c_v, x) (pure_collect checked D w r pe u).2 ->
  x = cluster_edge_weight w c_u c_v.
Proof.
  intros Hne Hx. pose proof (vw_pe _ _ _ Hvalid _ _ Hin) as Hpe.
  assert (Hown : Graph.is_owned_global_node (graph pe) c_u = true).
  { apply (is_owned_owner D GC w Hvalid r pe Hpe Hin c_u); [|exact Hou].
    now apply (inhabited_valid D GC w Hvalid). }
  destruct (clocal_owned checked D GC w Hvalid Hsmall r pe Hin c_u Hcu Hown)
    as (_ & Ecl & _).
  assert (Hk : CL c_v <> u).
  { intros E. apply Hne.
    apply (clocal_inj checked D GC w Hvalid Hsmall r pe c_v c_u Hin Hcv Hcov
             Hcu (or_introl Hown)).
    congruence. }
  assert (Hnd : NoDup (map fst (pure_collect checked D w r pe u).2)).
  { rewrite pure_collect_handled. apply enter_NoDup. constructor. }
  rewrite <- cluster_edge_weight_split, <- handled_at.
  rewrite <- (value_at_entry _ _ _ Hnd Hx).
  rewrite pure_collect_handled, enter_at.
  - change (value_at [] (CL c_v)) with 0. rewrite Z.add_0_l.
    apply sumZ_map_ext_in. intros kw _.
    destruct (Z.eqb_spec kw.1 u) as [E|]; [|reflexivity].
    destruct (Z.eqb_spec kw.1 (CL c_v)); [congruence|reflexivity].
  - constructor.
  - apply (handled_weights checked D GC w Hvalid Hsmall r pe Hin Hnonneg
             Hbound u).
  - pose proof (handled_weight_small checked D GC w Hvalid Hsmall Hnonneg
                  Hbound r pe Hin u Hu).
    simpl. lia.
Qed.

End ClusterEdgeWeight.

Section CoarseEdgeEntries.

Variable checked : bool.
Variables (D : list Z) (GC : Z -> Z) (w : World).
Hypothesis Hvalid : valid_world D GC w.
Hypothesis Hsmall : small_world D w.

Variables (r : Z) (pe : PE).
Hypothesis Hin : ix w r = Some pe.

Local Abbreviation CN := (cn checked w r).

Lemma ix_cedge_weights u i :
  0 <= u < CN -> 0 <= i < zlen (pure_collect checked D w r pe u).2 ->
  ix (cedge_weights checked D w r pe)
     (sumZ (take (Z.to_nat u) (sizes checked D w r pe)) + i)
  = ix (map snd (pure_collect checked D w r pe u).2) i.
Proof.
  intros Hu Hi. unfold cedge_weights.
  set (bs := map (fun c : Z * RatingMap => map snd c.2)
                 (ccollected checked D w r pe)).
  assert (Hbs : bs !! Z.to_nat u
                = Some (map snd (pure_collect checked D w r pe u).2)).
  { unfold bs, ccollected.
    rewrite !list_lookup_fmap, lookup_seqZ_lt by lia. simpl.
    now rewrite Z.add_0_l, Z2Nat.id by lia. }
  assert (Hs : map zlen bs = sizes checked D w r pe).
  { unfold bs. rewrite map_map, <- sizes_map. apply map_ext. intros c.
    now rewrite zlen_map. }
  pose proof (ix_concat bs (Z.to_nat u) _ i Hbs
                ltac:(now rewrite zlen_map)) as E.
  rewrite <- E, <- Hs. f_equal. f_equal. f_equal.
  symmetry. apply (fmap_take zlen).
Qed.

(** Every entry of the adjacency of a coarse node is an entry of its
    rating map, with the rating as the edge weight. *)
Lemma cgraph_edge_entries u nb e k :
  0 <= u < CN ->
  neighbors (cgraph checked D w r pe) u = Ok nb -> In (e, k) nb ->
  exists x,
    In (k, x) (pure_collect checked D w r pe u).2
    /\ Graph.edge_weight (cgraph checked D w r pe) e = Ok x.
Proof.
  intros Hu Enb Hek.
  set (rm := (pure_collect checked D w r pe u).2) in *.
  set (S_u := sumZ (take (Z.to_nat u) (sizes checked D w r pe))).
  assert (Hnext : sumZ (take (Z.to_nat (u + 1)) (sizes checked D w r pe))
                  = S_u + zlen rm).
  { replace (Z.to_nat (u + 1)) with (S (Z.to_nat u)) by lia.
    rewrite (sumZ_take_snoc _ _ _ (sizes_lookup checked D w r pe u Hu)).
    unfold S_u. reflexivity. }
  unfold neighbors in Enb.
  change (Graph._nodes (cgraph checked D w r pe))
    with (cnodes checked D w r pe) in Enb.
  change (Graph._edges (cgraph checked D w r pe))
    with (cedges checked D w r pe) in Enb.
  rewrite (load_Ok _ _ _ (ix_cnodes checked D GC w Hvalid Hsmall r pe Hin u
                            ltac:(lia))) in Enb.
  simpl in Enb.
  rewrite (load_Ok _ _ _ (ix_cnodes checked D GC w Hvalid Hsmall r pe Hin
                            (u + 1) ltac:(lia))) in Enb.
  simpl in Enb. rewrite Hnext in Enb. fold S_u in Enb.
  replace (S_u + zlen rm - S_u) with (zlen rm) in Enb by lia.
  apply In_ix in Hek as (j & Hj & Hek).
  destruct (omapM_ix_r _ _ _ _ _ Enb Hek) as (e' & He' & Ef).
  pose proof (ix_Some_range _ _ _ He') as Hj'.
  pose proof (zlen_nonneg rm) as Hrm.
  rewrite zlen_seqZ in Hj' by lia.
  rewrite ix_seqZ in He' by lia. inversion He'; subst e'.
  apply bind_inv in Ef as (v & Ev & Ef). inversion Ef; subst e v.
  apply load_inv in Ev.
  pose proof (ix_cedges checked D w r pe u j Hu Hj') as Ec.
  fold rm in Ec. fold S_u in Ec. rewrite Ec, ix_map in Ev.
  destruct (ix rm j) as [[k' x]|] eqn:Hrmj; [|discriminate].
  simpl in Ev. inversion Ev; subst k'.
  exists x. split; [eapply ix_In, Hrmj|].
  pose proof (ix_cedge_weights u j Hu Hj') as Ew.
  fold rm in Ew. fold S_u in Ew.
  rewrite ix_map, Hrmj in Ew. simpl in Ew.
  unfold Graph.edge_weight, Graph.is_edge_weighted.
  change (Graph._edge_weights (cgraph checked D w r pe))
    with (cedge_weights checked D w r pe).
  rewrite Ew.
  destruct (cedge_weights checked D w r pe) as [|y ys] eqn:Ecw.
  - exfalso. unfold ix in Ew. destruct (S_u + j <? 0); discriminate.
  - rewrite bool_decide_eq_false_2 by discriminate. reflexivity.
Qed.

End CoarseEdgeEntries.



(** ** The distribution built from the counts of the processes *)

Lemma wrap_idem bits x : 0 <= bits -> wrap bits (wrap bits x) = wrap bits x.
Proof. intros. unfold wrap. apply Z.mod_mod. apply Z.pow_nonzero; lia. Qed.

Lemma wrap_add_l bits x y : wrap bits (wrap bits x + y) = wrap bits (x + y).
Proof. unfold wrap. apply Zplus_mod_idemp_l. Qed.

Lemma length_exclusive_scan bits acc l :
  length (exclusive_scan bits acc l) = length l.
Proof. revert acc. induction l; intros; simpl; auto. Qed.

(** The scan keeps its running sum in [bits] bits. *)
Lemma ix_exclusive_scan bits (l : list Z) : 0 <= bits -> forall acc (k : nat),
  wrap bits acc = acc -> (k < length l)%nat ->
  ix (exclusive_scan bits acc l) (Z.of_nat k)
  = Some (wrap bits (acc + sumZ (take k l))).
Proof.
  intros Hbits.
  induction l as [|x l IH]; intros acc k Hacc Hk; [simpl in Hk; lia|].
  destruct k as [|k].
  - simpl. rewrite ix_0, Z.add_0_r, Hacc. reflexivity.
  - simpl exclusive_scan. rewrite ix_cons by lia.
    replace (Z.of_nat (S k) - 1) with (Z.of_nat k) by lia.
    simpl in Hk. rewrite IH by (try lia; now apply wrap_idem).
    f_equal. rewrite wrap_add_l. f_equal. simpl. lia.
Qed.

Lemma back_ix {A} (l : list A) : back l = ix l (zlen l - 1).
Proof.
  unfold back. rewrite last_lookup. destruct l as [|x l]; [reflexivity|].
  unfold ix, zlen. simpl length.
  destruct (Z.ltb_spec (Z.of_nat (S (length l)) - 1) 0); [lia|].
  f_equal. lia.
Qed.

(** X16.  [build_distribution] scans in 32 bits.  From the counts of
    the processes it builds a distribution with one entry more than
    there are counts; the entry [p] is the sum of the counts of the
    processes before [p], reduced modulo 2^32: the scan starts from
    [0u], so that its running sum is an [unsigned int] whatever the
    element type of the distribution is.  When the counts sum to less
    than 2^32 the distribution is ascending and its last entry is the
    sum of the counts; from 2^32 on the last entry is not the sum. *)
Theorem build_distribution_scans_in_32_bits (counts : list Z) :
  zlen (build_distribution counts) = zlen counts + 1
  /\ (forall p, 0 <= p <= zlen counts ->
        ix (build_distribution counts) p
        = Some (wrap32 (sumZ (take (Z.to_nat p) counts))))
  /\ back (build_distribution counts) = Some (wrap32 (sumZ counts))
  /\ (Forall (fun c => 0 <= c) counts -> sumZ counts < 2 ^ 32 ->
      StronglySorted Z.le (build_distribution counts)
      /\ back (build_distribution counts) = Some (sumZ counts))
  /\ (2 ^ 32 <= sumZ counts ->
      back (build_distribution counts) <> Some (sumZ counts)).
Proof.
  pose proof (zlen_nonneg counts) as Hlen.
  assert (Hz : zlen (build_distribution counts) = zlen counts + 1).
  { unfold build_distribution, zlen.
    rewrite length_exclusive_scan, length_app. simpl. lia. }
  assert (Hix : forall p, 0 <= p <= zlen counts ->
            ix (build_distribution counts) p
            = Some (wrap32 (sumZ (take (Z.to_nat p) counts)))).
  { intros p Hp. unfold build_distribution.
    rewrite <- (Z2Nat.id p) at 1 by lia.
    rewrite ix_exclusive_scan.
    - rewrite Z.add_0_l, take_app_le by (unfold zlen in Hp; lia).
      reflexivity.
    - lia.
    - reflexivity.
    - rewrite length_app. simpl. unfold zlen in Hp. lia. }
  assert (Hback : back (build_distribution counts)
                  = Some (wrap32 (sumZ counts))).
  { rewrite back_ix, Hz.
    replace (zlen counts + 1 - 1) with (zlen counts) by lia.
    rewrite Hix by lia. unfold zlen. rewrite Nat2Z.id, firstn_all.
    reflexivity. }
  split; [exact Hz|]. split; [exact Hix|]. split; [exact Hback|]. split.
  - intros Hnn Hsum. pose proof (sumZ_nonneg counts Hnn) as H0. split.
    + unfold build_distribution. rewrite exclusive_scan_nowrap.
      * apply displacements_sorted. apply Forall_app. split; [exact Hnn|].
        repeat constructor. lia.
      * lia.
      * apply Forall_app. split; [exact Hnn|]. repeat constructor. lia.
      * rewrite sumZ_app. simpl. lia.
    + rewrite Hback. f_equal. apply wrap32_small. lia.
  - intros Hsum. rewrite Hback. intros E. inversion E as [E'].
    unfold wrap32, wrap in E'.
    pose proof (Z.mod_pos_bound (sumZ counts) (2 ^ 32) ltac:(lia)). lia.
Qed.

(** Two processes with one and two coarse nodes: 0, 1, 3.  Three
    processes with 2^31, 2^31 and one coarse node: the distribution
    0, 2^31, 0, 1 is not ascending, and its last entry is 1. *)
Lemma build_distribution_scans_in_32_bits_witness :
  (StronglySorted Z.le (build_distribution [1; 2])
   /\ back (build_distribution [1; 2]) = Some 3)
  /\ build_distribution [2 ^ 31; 2 ^ 31; 1] = [0; 2 ^ 31; 0; 1]
  /\ back (build_distribution [2 ^ 31; 2 ^ 31; 1]) <> Some (2 ^ 32 + 1).
Proof.
  destruct (build_distribution_scans_in_32_bits [1; 2])
    as (_ & _ & _ & H & _).
  destruct (build_distribution_scans_in_32_bits [2 ^ 31; 2 ^ 31; 1])
    as (_ & _ & _ & _ & H').
  split; [apply H; [repeat constructor; lia|reflexivity]|].
  split; [reflexivity|].
  apply H'. vm_compute. congruence.
Defined.
